(** * ThumbnailSequence: the thumbnail-strip controller of Scan Tailor

    A shallow embedding of [ThumbnailSequence.cpp]: the item store with its
    three indices, the layout bookkeeping, the selection controller and the
    sequence editor, followed by the properties established about them.

    Conventions.
    - An [Item] lives in a node of the multi-index container; the node's
      address is its identity.  Iterators and [Item const*] pointers are
      modelled by that address ([addr]); iterators of the in-order index
      that are moved with [++]/[--] are modelled by list positions.
    - [qreal] coordinates are modelled by exact rationals ([Q]).
    - A call that has undefined behaviour in C++ (null dereference, use of
      an erased node) or that never returns yields [None]. *)

From Stdlib Require Import ZArith QArith Lia Lqa.
From stdpp Require Import base decidable countable list gmap sets sorting.

Local Open Scope nat_scope.

(** ** Page identities (PageId.h, ImageId.h, PageInfo.h) *)

(** Modelled from the spec: ImageId.h is not among the sources.  An image
    identity is an opaque, totally ordered key; [ImageId()] is the one null
    value. *)
Definition ImageId := nat.

Definition nullImageId : ImageId := 0.

Definition isNull (image : ImageId) : bool := bool_decide (image = nullImageId).

Inductive SubPage := SINGLE_PAGE | LEFT_PAGE | RIGHT_PAGE.

(** Modelled from the spec: PageId.h is not among the sources.  A page id
    is an image plus the designation of a half; [PageId(image)] designates
    the single page, and ids are ordered by image first, single page before
    the left half before the right half. *)
Record PageId := mkPageId { imageId : ImageId; subPage : SubPage }.

Definition PageId_of_image (image : ImageId) : PageId := mkPageId image SINGLE_PAGE.

Definition nullPageId : PageId := PageId_of_image nullImageId.

Definition subPage_rank (sp : SubPage) : nat :=
  match sp with SINGLE_PAGE => 0 | LEFT_PAGE => 1 | RIGHT_PAGE => 2 end.

Definition PageId_ltb (lhs rhs : PageId) : bool :=
  if imageId lhs <? imageId rhs then true
  else if imageId rhs <? imageId lhs then false
  else subPage_rank (subPage lhs) <? subPage_rank (subPage rhs).

#[global] Instance SubPage_eq_dec : EqDecision SubPage.
Proof. solve_decision. Defined.

#[global] Instance PageId_eq_dec : EqDecision PageId.
Proof. solve_decision. Defined.

#[global] Instance SubPage_countable : Countable SubPage.
Proof.
  refine (inj_countable' subPage_rank
            (fun n => match n with 0 => SINGLE_PAGE | 1 => LEFT_PAGE | _ => RIGHT_PAGE end) _).
  by intros [].
Defined.

#[global] Instance PageId_countable : Countable PageId.
Proof.
  refine (inj_countable' (fun p => (imageId p, subPage p))
            (fun q => mkPageId (fst q) (snd q)) _).
  by intros [].
Defined.

(** Modelled from the spec: PageInfo.h is not among the sources.  Only the
    members the controller reads are kept. *)
Record PageInfo := mkPageInfo { id : PageId; isMultiPageFile : bool }.

#[global] Instance PageInfo_eq_dec : EqDecision PageInfo.
Proof. solve_decision. Defined.

(** [PageInfo()], the default-constructed record. *)
Definition nullPageInfo : PageInfo := mkPageInfo nullPageId false.

Definition pi_imageId (info : PageInfo) : ImageId := imageId (id info).

Definition setId (new_page_id : PageId) (info : PageInfo) : PageInfo :=
  mkPageInfo new_page_id (isMultiPageFile info).

(** ** Geometry (QPointF, QRectF) *)

Record QPointF := mkPoint { pt_x : Q; pt_y : Q }.

Record QRectF := mkRect { xp : Q; yp : Q; w : Q; h : Q }.

Module Rect.

Definition null : QRectF := mkRect 0 0 0 0.

Definition isNull (r : QRectF) : bool := Qeq_bool (w r) 0 && Qeq_bool (h r) 0.

Definition top (r : QRectF) : Q := yp r.

Definition bottom (r : QRectF) : Q := (yp r + h r)%Q.

Definition height (r : QRectF) : Q := h r.

Definition setTop (pos : Q) (r : QRectF) : QRectF :=
  mkRect (xp r) pos (w r) (h r - (pos - yp r))%Q.

Definition setBottom (pos : Q) (r : QRectF) : QRectF :=
  mkRect (xp r) (yp r) (w r) (pos - yp r)%Q.

Definition translate (p : QPointF) (r : QRectF) : QRectF :=
  mkRect (xp r + pt_x p)%Q (yp r + pt_y p)%Q (w r) (h r).

Definition adjust (dx1 dy1 dx2 dy2 : Q) (r : QRectF) : QRectF :=
  mkRect (xp r + dx1)%Q (yp r + dy1)%Q (w r + dx2 - dx1)%Q (h r + dy2 - dy1)%Q.

Definition qMin (a b : Q) : Q := if Qle_bool a b then a else b.

Definition qMax (a b : Q) : Q := if Qle_bool a b then b else a.

Definition neg (a : Q) : bool := negb (Qle_bool 0 a).

(** [QRectF::operator|]: the bounding rectangle of both, a null operand
    being neutral. *)
Definition united (a b : QRectF) : QRectF :=
  if isNull a then b
  else if isNull b then a
  else
    let left0 := if neg (w a) then (xp a + w a)%Q else xp a in
    let right0 := if neg (w a) then xp a else (xp a + w a)%Q in
    let left := if neg (w b) then qMin left0 (xp b + w b)%Q else qMin left0 (xp b) in
    let right := if neg (w b) then qMax right0 (xp b) else qMax right0 (xp b + w b)%Q in
    let top0 := if neg (h a) then (yp a + h a)%Q else yp a in
    let bottom0 := if neg (h a) then yp a else (yp a + h a)%Q in
    let top := if neg (h b) then qMin top0 (yp b + h b)%Q else qMin top0 (yp b) in
    let bottom := if neg (h b) then qMax bottom0 (yp b) else qMax bottom0 (yp b + h b)%Q in
    mkRect left top (right - left)%Q (bottom - top)%Q.

Definition size_eqb (a b : QRectF) : bool :=
  Qeq_bool (w a) (w b) && Qeq_bool (h a) (h b).

End Rect.

Definition point_eqb (a b : QPointF) : bool :=
  Qeq_bool (pt_x a) (pt_x b) && Qeq_bool (pt_y a) (pt_y b).

Definition point_add (a b : QPointF) : QPointF :=
  mkPoint (pt_x a + pt_x b)%Q (pt_y a + pt_y b)%Q.

(** ** Composite visuals *)

(** What the thumbnail factory and the label metrics, both external, decide
    for one page at the time of a call: the bounding rectangle of the
    thumbnail graphic and that of the whole group. *)
Record Geometry := mkGeometry { g_thumbRect : QRectF; g_groupRect : QRectF }.

Definition ThumbnailFactory := PageInfo -> Z -> Geometry.

Record CompositeItem := mkComposite {
  pos : QPointF;
  m_pThumb_boundingRect : QRectF;
  m_pThumb_pos : QPointF;
  groupBoundingRect : QRectF
}.

(** [CompositeItem::CompositeItem]: the thumbnail is centred on x = 0. *)
Definition getCompositeItem (factory : ThumbnailFactory) (info : PageInfo) (page_num : Z)
  : CompositeItem :=
  let g := factory info page_num in
  mkComposite (mkPoint 0 0) (g_thumbRect g)
    (mkPoint (-(1#2) * w (g_thumbRect g))%Q 0) (g_groupRect g).

Definition setPos (p : QPointF) (c : CompositeItem) : CompositeItem :=
  mkComposite p (m_pThumb_boundingRect c) (m_pThumb_pos c) (groupBoundingRect c).

(** [CompositeItem::boundingRect]. *)
Definition boundingRect (c : CompositeItem) : QRectF :=
  Rect.adjust (-(100)) (-(5)) 100 3 (groupBoundingRect c).

(** [composite->mapToScene(composite->boundingRect()).boundingRect()]: a
    composite is a top-level, untransformed scene item. *)
Definition sceneBoundingRect (c : CompositeItem) : QRectF :=
  Rect.translate (pos c) (boundingRect c).

(** [CompositeItem::updateSceneRect]. *)
Definition updateSceneRect (c : CompositeItem) (scene_rect : QRectF) : QRectF :=
  let rect := Rect.translate (pos c) (Rect.translate (m_pThumb_pos c) (m_pThumb_boundingRect c)) in
  let bounding_rect := Rect.translate (pos c) (boundingRect c) in
  let rect := Rect.setTop (Rect.top bounding_rect) rect in
  let rect := Rect.setBottom (Rect.bottom bounding_rect) rect in
  Rect.united scene_rect rect.

Definition SPACING : Q := 10.

(** ** Items and the item store *)

Record Item := mkItem {
  addr : nat;
  pageInfo : PageInfo;
  pageNum : Z;
  composite : CompositeItem;
  m_isSelected : bool;
  m_isSelectionLeader : bool
}.

Definition pageId (it : Item) : PageId := id (pageInfo it).

(** [Item::setSelected] and [Item::setSelectionLeader].  The repaint and
    label updates they trigger are functions of the two flags and leave
    the controller's state alone. *)
Definition Item_setSelected (selected : bool) (it : Item) : Item :=
  mkItem (addr it) (pageInfo it) (pageNum it) (composite it)
    selected (m_isSelectionLeader it && selected).

Definition Item_setSelectionLeader (selection_leader : bool) (it : Item) : Item :=
  mkItem (addr it) (pageInfo it) (pageNum it) (composite it)
    (m_isSelected it || selection_leader) selection_leader.

Definition Item_setComposite (c : CompositeItem) (it : Item) : Item :=
  mkItem (addr it) (pageInfo it) (pageNum it) c (m_isSelected it) (m_isSelectionLeader it).

(** [PageIdMutator]. *)
Definition PageIdMutator (new_page_id : PageId) (it : Item) : Item :=
  mkItem (addr it) (setId new_page_id (pageInfo it)) (pageNum it) (composite it)
    (m_isSelected it) (m_isSelectionLeader it).

Record PageOrderProvider := mkProvider { precedes : PageId -> PageId -> bool }.

(** Modelled from the spec: PageOrderProvider.h is not among the sources;
    the reusable comparator orders page records by [precedes] on their
    identities. *)
Definition comparator (p : PageOrderProvider) (lhs rhs : PageInfo) : bool :=
  precedes p (id lhs) (id rhs).

(** The controller.  [m_items] with its three indices is kept as the
    in-order sequence of the items themselves and the
    selected-then-unselected sequence of their addresses; the by-identity
    index is the in-order sequence sorted by page id ([itemsById]). *)
Record Impl := mkImpl {
  m_itemsInOrder : list Item;
  m_selectedThenUnselected : list nat;
  m_pSelectionLeader : option nat;
  m_ptrOrderProvider : option PageOrderProvider;
  m_sceneRect : QRectF;
  graphicsScene_sceneRect : QRectF;
  next_addr : nat
}.

Definition set_items (items : list Item) (s : Impl) : Impl :=
  mkImpl items (m_selectedThenUnselected s) (m_pSelectionLeader s)
    (m_ptrOrderProvider s) (m_sceneRect s) (graphicsScene_sceneRect s) (next_addr s).

Definition set_selectedThenUnselected (l : list nat) (s : Impl) : Impl :=
  mkImpl (m_itemsInOrder s) l (m_pSelectionLeader s)
    (m_ptrOrderProvider s) (m_sceneRect s) (graphicsScene_sceneRect s) (next_addr s).

Definition set_leader (leader : option nat) (s : Impl) : Impl :=
  mkImpl (m_itemsInOrder s) (m_selectedThenUnselected s) leader
    (m_ptrOrderProvider s) (m_sceneRect s) (graphicsScene_sceneRect s) (next_addr s).

Definition set_provider (p : option PageOrderProvider) (s : Impl) : Impl :=
  mkImpl (m_itemsInOrder s) (m_selectedThenUnselected s) (m_pSelectionLeader s)
    p (m_sceneRect s) (graphicsScene_sceneRect s) (next_addr s).

Definition set_sceneRect (r : QRectF) (s : Impl) : Impl :=
  mkImpl (m_itemsInOrder s) (m_selectedThenUnselected s) (m_pSelectionLeader s)
    (m_ptrOrderProvider s) r (graphicsScene_sceneRect s) (next_addr s).

(** [Impl::Impl]. *)
Definition Impl_new : Impl :=
  mkImpl [] [] None None (mkRect 0 0 0 0) (mkRect 0 0 0 0) 1.

(** Dereferencing the iterator or pointer to the node at address [a]. *)
Fixpoint find_item (a : nat) (items : list Item) : option Item :=
  match items with
  | [] => None
  | it :: rest => if decide (addr it = a) then Some it else find_item a rest
  end.

(** [m_items.project<ItemsInOrderTag>(it)] and [m_itemsInOrder.iterator_to]:
    the position of a node in the in-order index. *)
Fixpoint index_of (a : nat) (items : list Item) : option nat :=
  match items with
  | [] => None
  | it :: rest => if decide (addr it = a) then Some 0 else S <$> index_of a rest
  end.

(** Writing through a pointer to the node at address [a]. *)
Definition modify_item (a : nat) (f : Item -> Item) (items : list Item) : list Item :=
  (fun it => if decide (addr it = a) then f it else it) <$> items.

Definition isSelected_at (items : list Item) (a : nat) : bool :=
  match find_item a items with
  | Some it => m_isSelected it
  | None => false
  end.

Definition setSelected (a : nat) (selected : bool) (s : Impl) : Impl :=
  set_items (modify_item a (Item_setSelected selected) (m_itemsInOrder s)) s.

Definition setSelectionLeader (a : nat) (selection_leader : bool) (s : Impl) : Impl :=
  set_items (modify_item a (Item_setSelectionLeader selection_leader) (m_itemsInOrder s)) s.

(** [Impl::moveToSelected]: relocate the node to the front of the
    selected-then-unselected index. *)
Definition moveToSelected (a : nat) (s : Impl) : Impl :=
  set_selectedThenUnselected
    (a :: filter (fun x => x <> a) (m_selectedThenUnselected s)) s.

(** [Impl::moveToUnselected]: relocate the node to the back. *)
Definition moveToUnselected (a : nat) (s : Impl) : Impl :=
  set_selectedThenUnselected
    (filter (fun x => x <> a) (m_selectedThenUnselected s) ++ [a]) s.

(** [Impl::multipleItemsSelected]. *)
Definition multipleItemsSelected (s : Impl) : bool :=
  match m_selectedThenUnselected s with
  | a1 :: a2 :: _ =>
      isSelected_at (m_itemsInOrder s) a1 && isSelected_at (m_itemsInOrder s) a2
  | _ => false
  end.

(** [Impl::selectedItems]: scan the selection index up to the first
    unselected item. *)
Fixpoint selectedItems_loop (items : list Item) (l : list nat) (selection : gset PageId)
  : gset PageId :=
  match l with
  | [] => selection
  | a :: rest =>
      match find_item a items with
      | Some it =>
          if m_isSelected it
          then selectedItems_loop items rest ({[ pageId it ]} ∪ selection)
          else selection
      | None => selection
      end
  end.

Definition selectedItems (s : Impl) : gset PageId :=
  selectedItems_loop (m_itemsInOrder s) (m_selectedThenUnselected s) ∅.

(** [Impl::commitSceneRect]. *)
Definition commitSceneRect (s : Impl) : Impl :=
  mkImpl (m_itemsInOrder s) (m_selectedThenUnselected s) (m_pSelectionLeader s)
    (m_ptrOrderProvider s) (m_sceneRect s)
    (if Rect.isNull (m_sceneRect s) then mkRect 0 0 1 1 else m_sceneRect s)
    (next_addr s).

(** [Impl::clear]. *)
Definition clear (s : Impl) : Impl :=
  commitSceneRect
    (mkImpl [] [] None (m_ptrOrderProvider s) (mkRect 0 0 0 0)
       (graphicsScene_sceneRect s) (next_addr s)).

(** [Impl::clearSelection]. *)
Fixpoint clearSelection_loop (l : list nat) (items : list Item) : list Item :=
  match l with
  | [] => items
  | a :: rest =>
      if isSelected_at items a
      then clearSelection_loop rest (modify_item a (Item_setSelected false) items)
      else items
  end.

Definition clearSelection (s : Impl) : Impl :=
  set_items
    (clearSelection_loop (m_selectedThenUnselected s) (m_itemsInOrder s))
    (set_leader None s).

(** ** Signals *)

Record SelectionFlags := mkFlags {
  selected_by_user : bool;
  redundant_selection : bool;
  avoid_scrolling_to : bool
}.

Definition DEFAULT_SELECTION_FLAGS : SelectionFlags := mkFlags false false false.
Definition SELECTED_BY_USER : SelectionFlags := mkFlags true false false.
Definition REDUNDANT_SELECTION : SelectionFlags := mkFlags false true false.
Definition AVOID_SCROLLING_TO : SelectionFlags := mkFlags false false true.

Definition flags_or (a b : SelectionFlags) : SelectionFlags :=
  mkFlags (selected_by_user a || selected_by_user b)
    (redundant_selection a || redundant_selection b)
    (avoid_scrolling_to a || avoid_scrolling_to b).

Record QPoint := mkQPoint { qp_x : Z; qp_y : Z }.

Inductive Signal :=
| newSelectionLeader (info : PageInfo) (thumb_rect : QRectF) (flags : SelectionFlags)
| pageContextMenuRequested (info : PageInfo) (screen_pos : QPoint) (selected : bool)
| pastLastPageContextMenuRequested (screen_pos : QPoint).

(** [ThumbnailSequence::emitNewSelectionLeader]. *)
Definition emitNewSelectionLeader (info : PageInfo) (c : CompositeItem)
    (flags : SelectionFlags) : Signal :=
  newSelectionLeader info (sceneBoundingRect c) flags.

(** ** The by-identity index *)

(** Stable insertion sort: what [std::stable_sort] and the sequenced
    index's [sort] compute for a strict weak order. *)
Fixpoint insert_sorted {A} (lt : A -> A -> bool) (x : A) (l : list A) : list A :=
  match l with
  | [] => [x]
  | y :: rest => if lt y x then y :: insert_sorted lt x rest else x :: y :: rest
  end.

Definition stable_sort {A} (lt : A -> A -> bool) (l : list A) : list A :=
  foldr (insert_sorted lt) [] l.

Fixpoint takeWhile {A} (p : A -> bool) (l : list A) : list A :=
  match l with
  | [] => []
  | x :: rest => if p x then x :: takeWhile p rest else []
  end.

Fixpoint dropWhile {A} (p : A -> bool) (l : list A) : list A :=
  match l with
  | [] => []
  | x :: rest => if p x then dropWhile p rest else l
  end.

Definition itemsById (items : list Item) : list Item :=
  stable_sort (fun a b => PageId_ltb (pageId a) (pageId b)) items.

(** [m_itemsById.find]. *)
Definition findById (page_id : PageId) (s : Impl) : option Item :=
  head (filter (fun it => pageId it = page_id) (itemsById (m_itemsInOrder s))).

(** [m_itemsById.lower_bound] onwards: the items not ordered before [key]. *)
Definition from_lower_bound (key : PageId) (items : list Item) : list Item :=
  dropWhile (fun it => PageId_ltb (pageId it) key) (itemsById items).

Definition lower_bound (key : PageId) (items : list Item) : option Item :=
  head (from_lower_bound key items).

(** ** Insertion position *)

(** [m_ptrOrderProvider->precedes(page_id, ins_pos->pageId())] for the
    iterator at position [i] (never the end iterator inside the loops). *)
Definition precedes_at (p : PageOrderProvider) (page_id : PageId)
    (items : list Item) (i : nat) : bool :=
  match items !! i with
  | Some it => precedes p page_id (pageId it)
  | None => false
  end.

(** The first loop of [itemInsertPosition]: step back while [page_id]
    precedes the element under the cursor. *)
Fixpoint move_back (p : PageOrderProvider) (page_id : PageId) (items : list Item)
    (begin : nat) (ins_pos : nat) (dist : Z) : nat * Z :=
  if decide (ins_pos = begin) then (ins_pos, dist)
  else
    match ins_pos with
    | 0 => (ins_pos, dist)
    | S prev =>
        if precedes_at p page_id items ins_pos
        then move_back p page_id items begin prev (dist - 1)%Z
        else (ins_pos, dist)
    end.

(** The second loop: step forward until an element that [page_id]
    precedes, or the end; [steps] is the distance left to the end. *)
Fixpoint move_forward (p : PageOrderProvider) (page_id : PageId) (items : list Item)
    (steps : nat) (ins_pos : nat) (dist : Z) : nat * Z :=
  match steps with
  | 0 => (ins_pos, dist)
  | S steps' =>
      if precedes_at p page_id items ins_pos
      then (ins_pos, dist)
      else move_forward p page_id items steps' (S ins_pos) (dist + 1)%Z
  end.

(** [Impl::itemInsertPosition]; the second component is what is written
    to [dist_from_hint]. *)
Definition itemInsertPosition (s : Impl) (begin end_ : nat) (page_id : PageId)
    (hint : nat) : nat * Z :=
  match m_ptrOrderProvider s with
  | None => (hint, 0%Z)
  | Some p =>
      let items := m_itemsInOrder s in
      let '(ins_pos, dist) :=
        if decide (hint = begin) then (hint, 0%Z)
        else
          let '(ins_pos, dist) :=
            if decide (hint = end_) then (hint - 1, (-1)%Z) else (hint, 0%Z) in
          move_back p page_id items begin ins_pos dist in
      move_forward p page_id items (end_ - ins_pos) ins_pos dist
  end.

(** ** Selection controller *)

Inductive WalkHit := FoundBack (i : nat) | FoundForward (i : nat).

Definition hit_index (hit : WalkHit) : nat :=
  match hit with FoundBack i => i | FoundForward i => i end.

(** The two-cursor loop of the ctrl-click and shift-click handlers:
    [ord_it1] steps back unless it is at the beginning and is tested, then
    [ord_it2] steps forward unless it is at the end and is tested unless
    it reached the end.  The C++ loop has no other exit; [None] after
    [fuel] rounds stands for a loop that never ends. *)
Fixpoint outward_walk (hit : nat -> bool) (len : nat) (fuel : nat)
    (ord_it1 ord_it2 : nat) : option WalkHit :=
  match fuel with
  | 0 => None
  | S fuel' =>
      let ord_it1' := if decide (ord_it1 = 0) then ord_it1 else ord_it1 - 1 in
      if negb (bool_decide (ord_it1 = 0)) && hit ord_it1'
      then Some (FoundBack ord_it1')
      else
        let ord_it2' := if decide (ord_it2 = len) then ord_it2 else S ord_it2 in
        if negb (bool_decide (ord_it2 = len)) && negb (bool_decide (ord_it2' = len))
           && hit ord_it2'
        then Some (FoundForward ord_it2')
        else outward_walk hit len fuel' ord_it1' ord_it2'
  end.

Definition selected_at_index (items : list Item) (i : nat) : bool :=
  match items !! i with
  | Some it => m_isSelected it
  | None => false
  end.

(** [Impl::selectItemNoModifiers]. *)
Definition selectItemNoModifiers (a : nat) (s : Impl) : option (Impl * list Signal) :=
  item ← find_item a (m_itemsInOrder s);
  let flags :=
    if decide (m_pSelectionLeader s = Some a)
    then flags_or SELECTED_BY_USER REDUNDANT_SELECTION
    else SELECTED_BY_USER in
  let s := clearSelection s in
  let s := set_leader (Some a) s in
  let s := setSelectionLeader a true s in
  let s := moveToSelected a s in
  Some (s, [emitNewSelectionLeader (pageInfo item) (composite item) flags]).

(** [Impl::selectItemWithControl]. *)
Definition selectItemWithControl (a : nat) (s : Impl) : option (Impl * list Signal) :=
  item ← find_item a (m_itemsInOrder s);
  if negb (m_isSelected item) then
    let s :=
      match m_pSelectionLeader s with
      | Some l => setSelectionLeader l false s
      | None => s
      end in
    let s := set_leader (Some a) s in
    let s := setSelectionLeader a true s in
    let s := moveToSelected a s in
    Some (s, [emitNewSelectionLeader (pageInfo item) (composite item) SELECTED_BY_USER])
  else if negb (multipleItemsSelected s) then
    (* Clicked on the only selected item. *)
    l ← m_pSelectionLeader s;
    leader ← find_item l (m_itemsInOrder s);
    Some (s, [emitNewSelectionLeader (pageInfo leader) (composite leader)
                (flags_or SELECTED_BY_USER REDUNDANT_SELECTION)])
  else
    (* Unselect it. *)
    let s := setSelected a false s in
    let s := moveToUnselected a s in
    if decide (m_pSelectionLeader s <> Some a) then Some (s, [])
    else
      (* Select the new selection leader among other selected items. *)
      let s := set_leader None s in
      let flags := flags_or SELECTED_BY_USER AVOID_SCROLLING_TO in
      let items := m_itemsInOrder s in
      ord_it ← index_of a items;
      hit ← outward_walk (selected_at_index items) (length items) (S (length items))
              ord_it ord_it;
      leader ← items !! hit_index hit;
      let s := set_leader (Some (addr leader)) s in
      let s := setSelectionLeader (addr leader) true s in
      Some (s, [emitNewSelectionLeader (pageInfo leader) (composite leader) flags]).

(** The last loop of [selectItemWithShift]: select the items at the
    positions from [endpoint1] up to, not including, [endpoint2]. *)
Definition select_range (endpoint1 endpoint2 : nat) (s : Impl) : Impl :=
  foldl (fun s x => moveToSelected x (setSelected x true s)) s
    (addr <$> take (endpoint2 - endpoint1) (drop endpoint1 (m_itemsInOrder s))).

(** [Impl::selectItemWithShift]. *)
Definition selectItemWithShift (a : nat) (s : Impl) : option (Impl * list Signal) :=
  match m_pSelectionLeader s with
  | None => selectItemNoModifiers a s
  | Some l =>
      item ← find_item a (m_itemsInOrder s);
      let flags :=
        if decide (l = a)
        then flags_or SELECTED_BY_USER REDUNDANT_SELECTION
        else SELECTED_BY_USER in
      let items := m_itemsInOrder s in
      endpoint1 ← index_of l items;
      endpoint2 ← index_of a items;
      if decide (endpoint1 = endpoint2) then
        (* One-element sequence, already selected. *)
        Some (s, [])
      else
        hit ← outward_walk (fun i => bool_decide (i = endpoint2)) (length items)
                (S (length items)) endpoint1 endpoint1;
        let '(endpoint1, endpoint2) :=
          match hit with
          | FoundBack _ => (endpoint2, endpoint1)
          | FoundForward _ => (endpoint1, endpoint2)
          end in
        let s := select_range endpoint1 (S endpoint2) s in
        (* Switch the selection leader. *)
        let s := setSelectionLeader l false s in
        let s := set_leader (Some a) s in
        let s := setSelectionLeader a true s in
        Some (s, [emitNewSelectionLeader (pageInfo item) (composite item) flags])
  end.

Record KeyboardModifiers := mkModifiers { ControlModifier : bool; ShiftModifier : bool }.

(** [Impl::itemSelectedByUser], for the composite whose item is at [a]. *)
Definition itemSelectedByUser (a : nat) (modifiers : KeyboardModifiers) (s : Impl)
  : option (Impl * list Signal) :=
  if ControlModifier modifiers then selectItemWithControl a s
  else if ShiftModifier modifiers then selectItemWithShift a s
  else selectItemNoModifiers a s.

(** The loop of [setSelection].  The cursor is advanced before its item is
    relocated to the back, and relocated items are unselected, so the loop
    visits the nodes of the index as it was on entry until the first
    unselected one. *)
Fixpoint setSelection_loop (target : nat) (l : list nat) (s : Impl) : Impl :=
  match l with
  | [] => s
  | a :: rest =>
      if negb (isSelected_at (m_itemsInOrder s) a) then s
      else if decide (target <> a) then
        let s := setSelected a false s in
        let s := moveToUnselected a s in
        let s := if decide (m_pSelectionLeader s = Some a) then set_leader None s else s in
        setSelection_loop target rest s
      else setSelection_loop target rest s
  end.

(** [Impl::setSelection]. *)
Definition setSelection (page_id : PageId) (s : Impl) : Impl * list Signal :=
  match findById page_id s with
  | None => (s, [])
  | Some item =>
      let a := addr item in
      let was_selection_leader := bool_decide (m_pSelectionLeader s = Some a) in
      let s := setSelection_loop a (m_selectedThenUnselected s) s in
      let s :=
        if was_selection_leader then s
        else moveToSelected a (setSelectionLeader a true (set_leader (Some a) s)) in
      let flags :=
        if was_selection_leader
        then flags_or DEFAULT_SELECTION_FLAGS REDUNDANT_SELECTION
        else DEFAULT_SELECTION_FLAGS in
      (s, [emitNewSelectionLeader (pageInfo item) (composite item) flags])
  end.

(** ** Sequence editor *)

Inductive SelectionAction := KEEP_SELECTION | RESET_SELECTION.

Inductive BeforeOrAfter := BEFORE | AFTER.

(** Modelled from the spec: PageSequence.h is not among the sources.  A
    snapshot is the ordered list of page records and the current page. *)
Record PageSequenceSnapshot := mkSnapshot { pages : list PageInfo; curPage : PageInfo }.

(** Insertion through the in-order index at position [where_]: refused by
    the unique by-identity index when the id is already stored; otherwise
    the new node also goes to the back of the selection index. *)
Definition insert_at (where_ : nat) (info : PageInfo) (page_num : Z)
    (c : CompositeItem) (s : Impl) : Impl * bool :=
  if bool_decide (Exists (fun it => pageId it = id info) (m_itemsInOrder s))
  then (s, false)
  else
    let item := mkItem (next_addr s) info page_num c false false in
    (mkImpl (take where_ (m_itemsInOrder s) ++ item :: drop where_ (m_itemsInOrder s))
       (m_selectedThenUnselected s ++ [next_addr s])
       (m_pSelectionLeader s) (m_ptrOrderProvider s) (m_sceneRect s)
       (graphicsScene_sceneRect s) (S (next_addr s)), true).

Definition push_back (info : PageInfo) (page_num : Z) (c : CompositeItem) (s : Impl) : Impl :=
  fst (insert_at (length (m_itemsInOrder s)) info page_num c s).

(** One round of the loop of [reset], for the page at position [i] of the
    sorted pages.  The state of the loop is the controller,
    [some_selected_item] and [offset]. *)
Definition reset_step (factory : ThumbnailFactory) (selected : gset PageId)
    (selection_leader : PageInfo) (i : Z) (page_info : PageInfo)
    (st : Impl * option nat * Q) : Impl * option nat * Q :=
  let '(s, some_selected_item, offset) := st in
  let composite := setPos (mkPoint 0 offset) (getCompositeItem factory page_info i) in
  let s := set_sceneRect (updateSceneRect composite (m_sceneRect s)) s in
  let offset := (offset + Rect.height (boundingRect composite) + SPACING)%Q in
  let s := push_back page_info i composite s in
  match last (m_itemsInOrder s) with
  | None => (s, some_selected_item, offset)
  | Some item =>
      let '(s, some_selected_item) :=
        if decide (id page_info ∈ selected)
        then (moveToSelected (addr item) (setSelected (addr item) true s), Some (addr item))
        else (s, some_selected_item) in
      let s :=
        if decide (id page_info = id selection_leader)
        then set_leader (Some (addr item)) s
        else s in
      (s, some_selected_item, offset)
  end.

Fixpoint reset_loop (factory : ThumbnailFactory) (selected : gset PageId)
    (selection_leader : PageInfo) (i : Z) (sorted_pages : list PageInfo)
    (st : Impl * option nat * Q) : Impl * option nat * Q :=
  match sorted_pages with
  | [] => st
  | page_info :: rest =>
      reset_loop factory selected selection_leader (i + 1)%Z rest
        (reset_step factory selected selection_leader i page_info st)
  end.

(** [Impl::reset]. *)
Definition reset (snapshot : PageSequenceSnapshot) (selection_action : SelectionAction)
    (order_provider : option PageOrderProvider) (factory : ThumbnailFactory)
    (s : Impl) : Impl * list Signal :=
  let s := set_provider order_provider s in
  let selected : gset PageId :=
    match selection_action with
    | KEEP_SELECTION => selectedItems s
    | RESET_SELECTION => ∅
    end in
  let selection_leader :=
    match selection_action, m_pSelectionLeader s with
    | KEEP_SELECTION, Some l =>
        match find_item l (m_itemsInOrder s) with
        | Some it => pageInfo it
        | None => nullPageInfo
        end
    | _, _ => nullPageInfo
    end in
  let s := clear s in
  match pages snapshot with
  | [] => (s, [])
  | _ :: _ =>
      let sorted_pages :=
        match m_ptrOrderProvider s with
        | Some p => stable_sort (comparator p) (pages snapshot)
        | None => pages snapshot
        end in
      let '(s, some_selected_item, _) :=
        reset_loop factory selected selection_leader 0 sorted_pages (s, None, 0%Q) in
      let s := commitSceneRect s in
      let s :=
        match m_pSelectionLeader s with
        | Some _ => s
        | None =>
            match some_selected_item with
            | Some a => set_leader (Some a) s
            | None =>
                match findById (id (curPage snapshot)) s with
                | Some it => moveToSelected (addr it) (set_leader (Some (addr it)) s)
                | None => s
                end
            end
        end in
      match m_pSelectionLeader s with
      | Some l =>
          let s := setSelectionLeader l true s in
          match find_item l (m_itemsInOrder s) with
          | Some leader =>
              (s, [emitNewSelectionLeader selection_leader (composite leader)
                     DEFAULT_SELECTION_FLAGS])
          | None => (s, [])
          end
      | None => (s, [])
      end
  end.

(** The loop of [insert] that advances past the other half of the target
    page: the position of the first item from [i] on that does not belong
    to [image]. *)
Definition skip_same_image (image : ImageId) (items : list Item) (i : nat) : nat :=
  i + length (takeWhile (fun it => bool_decide (pi_imageId (pageInfo it) = image))
                (drop i items)).

(** Shift the composites of [l] by [pos_delta], extending the scene
    rectangle by each. *)
Fixpoint shift_items (pos_delta : QPointF) (l : list Item) (scene : QRectF)
  : list Item * QRectF :=
  match l with
  | [] => ([], scene)
  | it :: rest =>
      let c := setPos (point_add (pos (composite it)) pos_delta) (composite it) in
      let '(rest', scene') := shift_items pos_delta rest (updateSceneRect c scene) in
      (Item_setComposite c it :: rest', scene')
  end.

(** The last loop of [insert], from the item that followed the insertion
    position to the end. *)
Definition shift_from (first_shifted : nat) (pos_delta : QPointF) (s : Impl) : Impl :=
  let shifted :=
    shift_items pos_delta (drop first_shifted (m_itemsInOrder s)) (m_sceneRect s) in
  set_sceneRect (snd shifted)
    (set_items (take first_shifted (m_itemsInOrder s) ++ fst shifted) s).

(** [Impl::insert]. *)
Definition insert (page_info : PageInfo) (before_or_after : BeforeOrAfter)
    (image : ImageId) (factory : ThumbnailFactory) (s : Impl) : Impl * list Signal :=
  let items := m_itemsInOrder s in
  let hint : option nat :=
    match before_or_after, isNull image with
    | BEFORE, true => Some (length items)
    | _, _ =>
        match lower_bound (PageId_of_image image) items with
        | None => None
        | Some it =>
            if decide (pi_imageId (pageInfo it) <> image) then None
            else
              ord_it ← index_of (addr it) items;
              match before_or_after with
              | BEFORE => Some ord_it
              | AFTER =>
                  match m_ptrOrderProvider s with
                  | None => Some (skip_same_image image items (S ord_it))
                  | Some _ => Some (S ord_it)
                  end
              end
        end
    end in
  match hint with
  | None => (s, []) (* Reference page not found. *)
  | Some hint =>
      let ord_it := fst (itemInsertPosition s 0 (length items) (id page_info) hint) in
      let '(page_num, offset) :=
        match last items with
        | None => (0%Z, 0%Q)
        | Some back =>
            ((pageNum back + 1)%Z,
             match items !! ord_it with
             | Some it => pt_y (pos (composite it))
             | None =>
                 (pt_y (pos (composite back))
                  + Rect.height (boundingRect (composite back)) + SPACING)%Q
             end)
        end in
      let composite := setPos (mkPoint 0 offset) (getCompositeItem factory page_info page_num) in
      let s := set_sceneRect (updateSceneRect composite (m_sceneRect s)) s in
      let pos_delta := mkPoint 0 (Rect.height (boundingRect composite) + SPACING)%Q in
      let '(s, inserted) := insert_at ord_it page_info page_num composite s in
      let first_shifted := if inserted then S ord_it else ord_it in
      (commitSceneRect (shift_from first_shifted pos_delta s), [])
  end.

(** The state of the first loop of [removePages]: the in-order items kept
    so far, the selection index, the leader, [images_to_singularize],
    [pos_delta] and the scene rectangle. *)
Record RemoveLoop := mkRemoveLoop {
  rm_kept : list Item;
  rm_selectedThenUnselected : list nat;
  rm_leader : option nat;
  images_to_singularize : list ImageId;
  rm_pos_delta : QPointF;
  rm_sceneRect : QRectF
}.

Fixpoint removePages_loop (to_remove : gset PageId) (l : list Item) (st : RemoveLoop)
  : RemoveLoop :=
  match l with
  | [] => st
  | it :: rest =>
      if decide (pageId it ∈ to_remove) then
        (* Removing this page. *)
        removePages_loop to_remove rest
          (mkRemoveLoop (rm_kept st)
             (filter (fun x => x <> addr it) (rm_selectedThenUnselected st))
             (if decide (rm_leader st = Some (addr it)) then None else rm_leader st)
             (match subPage (pageId it) with
              | LEFT_PAGE | RIGHT_PAGE =>
                  images_to_singularize st ++ [pi_imageId (pageInfo it)]
              | SINGLE_PAGE => images_to_singularize st
              end)
             (mkPoint (pt_x (rm_pos_delta st))
                (pt_y (rm_pos_delta st)
                 - (Rect.height (boundingRect (composite it)) + SPACING))%Q)
             (rm_sceneRect st))
      else
        (* Keeping this page. *)
        let c :=
          if negb (point_eqb (rm_pos_delta st) (mkPoint 0 0))
          then setPos (point_add (pos (composite it)) (rm_pos_delta st)) (composite it)
          else composite it in
        removePages_loop to_remove rest
          (mkRemoveLoop (rm_kept st ++ [Item_setComposite c it])
             (rm_selectedThenUnselected st) (rm_leader st)
             (images_to_singularize st) (rm_pos_delta st)
             (updateSceneRect c (rm_sceneRect st)))
  end.

(** [m_itemsById.modify(id_it, PageIdMutator(new_page_id))].  When the new
    id collides with another node's, the container erases the node and the
    caller's loop goes on to increment the dead iterator. *)
Definition modify_pageId (a : nat) (new_page_id : PageId) (items : list Item)
  : option (list Item) :=
  if bool_decide (Exists (fun it => addr it <> a /\ pageId it = new_page_id) items)
  then None
  else Some (modify_item a (PageIdMutator new_page_id) items).

Fixpoint singularize_run (image_id : ImageId) (run : list nat) (items : list Item)
  : option (list Item) :=
  match run with
  | [] => Some items
  | a :: rest =>
      items' ← modify_pageId a (mkPageId image_id SINGLE_PAGE) items;
      singularize_run image_id rest items'
  end.

(** The inner loop of the second part of [removePages]: from
    [lower_bound(PageId(image_id))] on, while the items belong to
    [image_id].  A modified node stays within that run and keeps its
    successor, so the run is the one found on entry. *)
Definition singularize (image_id : ImageId) (items : list Item) : option (list Item) :=
  singularize_run image_id
    (addr <$> takeWhile (fun it => bool_decide (pi_imageId (pageInfo it) = image_id))
                (from_lower_bound (PageId_of_image image_id) items))
    items.

Fixpoint singularize_all (images : list ImageId) (items : list Item) : option (list Item) :=
  match images with
  | [] => Some items
  | image_id :: rest =>
      items' ← singularize image_id items;
      singularize_all rest items'
  end.

(** [Impl::removePages]. *)
Definition removePages (to_remove : gset PageId) (s : Impl) : option (Impl * list Signal) :=
  let st :=
    removePages_loop to_remove (m_itemsInOrder s)
      (mkRemoveLoop [] (m_selectedThenUnselected s) (m_pSelectionLeader s) []
         (mkPoint 0 0) (mkRect 0 0 0 0)) in
  items ← singularize_all (images_to_singularize st) (rm_kept st);
  Some (commitSceneRect
          (mkImpl items (rm_selectedThenUnselected st) (rm_leader st)
             (m_ptrOrderProvider s) (rm_sceneRect st) (graphicsScene_sceneRect s)
             (next_addr s)), []).

(** The repositioning loops of [invalidateThumbnail]: stack the items of
    [l] from [offset] downwards. *)
Fixpoint reposition (l : list Item) (offset : Q) : list Item * Q :=
  match l with
  | [] => ([], offset)
  | it :: rest =>
      let c := setPos (mkPoint 0 offset) (composite it) in
      let '(rest', offset') :=
        reposition rest (offset + Rect.height (boundingRect c) + SPACING)%Q in
      (Item_setComposite c it :: rest', offset')
  end.

(** The two repositioning loops of [invalidateThumbnail]: the items at
    the positions from [ord_it] up to [ord_end], then, when the size has
    changed, the items that follow. *)
Definition restack (ord_it ord_end : nat) (size_changed : bool) (items : list Item)
  : list Item :=
  let offset :=
    match ord_it with
    | 0 => 0%Q
    | S prev =>
        match items !! prev with
        | Some it =>
            (pt_y (pos (composite it))
             + Rect.height (boundingRect (composite it)) + SPACING)%Q
        | None => 0%Q
        end
    end in
  let from_ord_it := drop ord_it items in
  let between := reposition (take (ord_end - ord_it) from_ord_it) offset in
  let following :=
    if size_changed
    then fst (reposition (drop (ord_end - ord_it) from_ord_it) (snd between))
    else drop (ord_end - ord_it) from_ord_it in
  take ord_it items ++ fst between ++ following.

(** [Impl::invalidateThumbnail]. *)
Definition invalidateThumbnail (page_id : PageId) (factory : ThumbnailFactory)
    (s : Impl) : Impl * list Signal :=
  match findById page_id s with
  | None => (s, [])
  | Some found =>
      match index_of (addr found) (m_itemsInOrder s) with
      | None => (s, [])
      | Some i =>
          let new_composite :=
            getCompositeItem factory (pageInfo found) (pageNum found) in
          let old_composite := composite found in
          let old_size := boundingRect old_composite in
          let new_size := boundingRect new_composite in
          let old_pos := pos new_composite in
          let item := Item_setComposite new_composite found in
          (* Move our item to the beginning of m_itemsInOrder. *)
          let others := delete i (m_itemsInOrder s) in
          let s := set_items (item :: others) s in
          let after_old := S i in
          let '(after_new, dist) :=
            itemInsertPosition s 1 (length (m_itemsInOrder s)) page_id after_old in
          (* Move our item to its intended position. *)
          let items := take (after_new - 1) others ++ item :: drop (after_new - 1) others in
          let '(ord_it, ord_end) :=
            if (dist <=? 0)%Z then (after_new - 1, S i) else (i, after_new) in
          let items :=
            restack ord_it ord_end (negb (Rect.size_eqb old_size new_size)) items in
          (* Update scene rect. *)
          let scene := Rect.setTop (Rect.bottom (m_sceneRect s)) (m_sceneRect s) in
          let scene :=
            match head items with
            | Some front => updateSceneRect (composite front) scene
            | None => scene
            end in
          let scene := Rect.setBottom (Rect.top scene) scene in
          let scene :=
            match last items with
            | Some back => updateSceneRect (composite back) scene
            | None => scene
            end in
          let current := default item (find_item (addr item) items) in
          let scene := updateSceneRect (composite current) scene in
          let s := commitSceneRect (set_sceneRect scene (set_items items s)) in
          (s,
           if bool_decide (m_pSelectionLeader s = Some (addr item))
              && (negb (Rect.size_eqb old_size new_size)
                  || negb (point_eqb old_pos (pos (composite current))))
           then [emitNewSelectionLeader (pageInfo current) (composite current)
                   REDUNDANT_SELECTION]
           else [])
      end
  end.

(** The loop of [invalidateAllThumbnails]. *)
Fixpoint rebuild_all (factory : ThumbnailFactory) (l : list Item) (offset : Q)
    (scene : QRectF) : list Item * QRectF :=
  match l with
  | [] => ([], scene)
  | it :: rest =>
      let c := setPos (mkPoint 0 offset)
                 (getCompositeItem factory (pageInfo it) (pageNum it)) in
      let '(rest', scene') :=
        rebuild_all factory rest
          (offset + Rect.height (boundingRect c) + SPACING)%Q
          (updateSceneRect c scene) in
      (Item_setComposite c it :: rest', scene')
  end.

(** [Impl::invalidateAllThumbnails]. *)
Definition invalidateAllThumbnails (factory : ThumbnailFactory) (s : Impl)
  : Impl * list Signal :=
  let sorted :=
    match m_ptrOrderProvider s with
    | Some p => stable_sort (fun a b => precedes p (pageId a) (pageId b)) (m_itemsInOrder s)
    | None => m_itemsInOrder s
    end in
  let '(items, scene) := rebuild_all factory sorted 0%Q (mkRect 0 0 0 0) in
  (commitSceneRect (set_sceneRect scene (set_items items s)), []).

(** ** Context menu past the last page *)

Record QGraphicsSceneContextMenuEvent := mkContextMenuEvent {
  scenePos : QPointF;
  screenPos : QPoint
}.

(** [Impl::sceneContextMenuEvent]. *)
Definition sceneContextMenuEvent (evt : QGraphicsSceneContextMenuEvent) (s : Impl)
  : list Signal :=
  match last (m_itemsInOrder s) with
  | Some back =>
      let last_thumb_rect := sceneBoundingRect (composite back) in
      if Qle_bool (pt_y (scenePos evt)) (Rect.bottom last_thumb_rect)
      then []
      else [pastLastPageContextMenuRequested (screenPos evt)]
  | None => [pastLastPageContextMenuRequested (screenPos evt)]
  end.

(** ** Reachable states *)

(** The document model hands out snapshots whose pages belong to images:
    no page carries the null image id of a default-constructed
    [PageInfo]. *)
Definition snapshot_ok (snapshot : PageSequenceSnapshot) : Prop :=
  Forall (fun p => pi_imageId p <> nullImageId) (pages snapshot).

(** The states the controller goes through: it starts empty and is driven
    by the public operations and by clicks on the composites of stored
    items.  A call without a defined outcome leads nowhere. *)
Inductive reachable : Impl -> Prop :=
| reachable_new : reachable Impl_new
| reachable_reset s snapshot action provider factory :
    reachable s -> snapshot_ok snapshot ->
    reachable (fst (reset snapshot action provider factory s))
| reachable_insert s new_page before_or_after image factory :
    reachable s ->
    reachable (fst (insert new_page before_or_after image factory s))
| reachable_removePages s to_remove s' sigs :
    reachable s -> removePages to_remove s = Some (s', sigs) -> reachable s'
| reachable_invalidateThumbnail s page_id factory :
    reachable s -> reachable (fst (invalidateThumbnail page_id factory s))
| reachable_invalidateAllThumbnails s factory :
    reachable s -> reachable (fst (invalidateAllThumbnails factory s))
| reachable_setSelection s page_id :
    reachable s -> reachable (fst (setSelection page_id s))
| reachable_itemSelectedByUser s a modifiers s' sigs :
    reachable s -> itemSelectedByUser a modifiers s = Some (s', sigs) -> reachable s'.

(** The selected-then-unselected index read as a list of flags. *)
Definition selection_flags (s : Impl) : list bool :=
  isSelected_at (m_itemsInOrder s) <$> m_selectedThenUnselected s.

(** A list of addresses is partitioned by [P] when those satisfying [P]
    all come first. *)
Definition partitioned (P : nat -> bool) (l : list nat) : Prop :=
  exists l1 l2, l = l1 ++ l2 /\ Forall (fun x => P x = true) l1
                /\ Forall (fun x => P x = false) l2.

(** The three indices hold the same records, each once, and the selection
    index lists the selected ones first. *)
Definition SelOk (items : list Item) (sel : list nat) : Prop :=
  NoDup (addr <$> items)
  /\ sel ≡ₚ addr <$> items
  /\ partitioned (isSelected_at items) sel.

(** The leader, when there is one, is a stored and selected item. *)
Definition LeaderOk (items : list Item) (leader : option nat) : Prop :=
  forall a, leader = Some a -> isSelected_at items a = true.

(** The invariant of the item store and the selection, on the members it
    speaks about; node addresses below [next] are the ones handed out. *)
Definition InvR (items : list Item) (sel : list nat) (leader : option nat)
    (next : nat) : Prop :=
  SelOk items sel /\ LeaderOk items leader
  /\ Forall (fun a => a < next) (addr <$> items).

Definition Inv (s : Impl) : Prop :=
  InvR (m_itemsInOrder s) (m_selectedThenUnselected s) (m_pSelectionLeader s)
    (next_addr s).

(** What the selection bookkeeping sees of an item. *)
Definition footprint (it : Item) : nat * bool := (addr it, m_isSelected it).

(** Distance between two positions of the in-order index. *)
Definition distance (i j : nat) : nat := if i <? j then j - i else i - j.


(** What the loop of [reset] maintains: the invariant, and a selected item
    behind [some_selected_item]. *)
Definition reset_inv (st : Impl * option nat * Q) : Prop :=
  Inv (fst (fst st))
  /\ forall a, snd (fst st) = Some a ->
       isSelected_at (m_itemsInOrder (fst (fst st))) a = true.

(** What reading the selection depends on. *)
Definition selection_view (it : Item) : PageId * bool := (pageId it, m_isSelected it).

(** The part of the loop invariant of [reset] that describes the selection
    when the pages are distinct: the items are the pages processed so far,
    selected exactly when their identity is in [keep]. *)
Definition reset_sel_inv (keep : gset PageId) (processed : list PageInfo) (st : Impl * option nat * Q)
  : Prop :=
  pageId <$> m_itemsInOrder (fst (fst st)) = id <$> processed
  /\ (forall it, it ∈ m_itemsInOrder (fst (fst st)) ->
        (m_isSelected it = true <-> pageId it ∈ keep))
  /\ (snd (fst st) = None -> forall p, p ∈ processed -> id p ∉ keep).

(** The leader, when there is one, designates a stored item whose
    selected flag is set. *)
Definition leader_selected (s : Impl) : Prop :=
  forall a, m_pSelectionLeader s = Some a ->
    exists item, find_item a (m_itemsInOrder s) = Some item /\ m_isSelected item = true.

(** ** Example material *)

Definition example_factory : ThumbnailFactory :=
  fun _ _ => mkGeometry (mkRect 0 0 100 150) (mkRect (-(50)) 0 100 170).

Definition page (n : nat) : PageInfo := mkPageInfo (PageId_of_image n) false.

Definition example_snapshot : PageSequenceSnapshot :=
  mkSnapshot [page 1; page 2; page 3] (page 1).

(** Three pages, the first one selected and leader (node addresses 1, 2, 3). *)
Definition example_state : Impl :=
  fst (reset example_snapshot RESET_SELECTION None example_factory Impl_new).

(** The state after a ctrl-click on the second page of [example_state]:
    pages one and two selected, page two leader. *)
Definition two_selected_state : Impl :=
  match selectItemWithControl 2 example_state with
  | Some (s, _) => s
  | None => example_state
  end.

Definition only_selected (s : Impl) (a : nat) : Prop :=
  forall b, isSelected_at (m_itemsInOrder s) b = true -> b = a.

(** The flag of a plain click as the specification words it: redundant
    exactly when the clicked item was already the leader and the only
    selected item. *)
Definition plain_click_redundant_as_specified (s : Impl) (a : nat) : Prop :=
  forall s' info rect flags,
    selectItemNoModifiers a s = Some (s', [newSelectionLeader info rect flags]) ->
    (redundant_selection flags = true
     <-> m_pSelectionLeader s = Some a /\ only_selected s a).

(** The round trip of the selection through [reset] as the specification
    words it: whenever all previously selected identities occur in the new
    page list, the selection read back after a reset that keeps the
    selection is the one read before. *)
Definition reset_roundtrip_as_specified (s : Impl) (snapshot : PageSequenceSnapshot)
    (provider : option PageOrderProvider) (factory : ThumbnailFactory) : Prop :=
  (forall page_id, page_id ∈ selectedItems s -> page_id ∈ id <$> pages snapshot) ->
  selectedItems (fst (reset snapshot KEEP_SELECTION provider factory s))
  = selectedItems s.

(** No image is stored both as a single page and as a half of a
    two-sided scan (the document model splits an image or keeps it
    whole). *)
Definition halves_consistent (items : list Item) : Prop :=
  Forall (fun it =>
    Forall (fun it' =>
      pi_imageId (pageInfo it) = pi_imageId (pageInfo it') ->
      subPage (pageId it) = SINGLE_PAGE -> subPage (pageId it') = SINGLE_PAGE)
      items) items.

(** What [removePages] leaves alone in the items it keeps. *)
Definition store_view (it : Item) : nat * PageInfo * bool * bool :=
  (addr it, pageInfo it, m_isSelected it, m_isSelectionLeader it).

(** The effect of the second part of [removePages] on one item: single
    page designation for the images listed. *)
Definition singularized (images : list ImageId) (it : Item) : Item :=
  if decide (pi_imageId (pageInfo it) ∈ images)
  then PageIdMutator (mkPageId (pi_imageId (pageInfo it)) SINGLE_PAGE) it
  else it.

Definition halves_snapshot : PageSequenceSnapshot :=
  mkSnapshot
    [mkPageInfo (mkPageId 1 LEFT_PAGE) false; mkPageInfo (mkPageId 1 RIGHT_PAGE) false;
     page 2]
    (page 2).

(** Both halves of image 1, then image 2 (node addresses 1, 2, 3). *)
Definition halves_state : Impl :=
  fst (reset halves_snapshot RESET_SELECTION None example_factory Impl_new).

(** [y] is not ordered before [x] in the by-identity index. *)
Definition not_after (x y : Item) : Prop := PageId_ltb (pageId y) (pageId x) = false.

(** The items of the two halves in [halves_state]. *)
Definition halves_left : Item :=
  let info := mkPageInfo (mkPageId 1 LEFT_PAGE) false in
  mkItem 1 info 0 (setPos (mkPoint 0 0) (getCompositeItem example_factory info 0))
    false false.

Definition halves_right : Item :=
  let info := mkPageInfo (mkPageId 1 RIGHT_PAGE) false in
  mkItem 2 info 1
    (setPos (mkPoint 0 (0 + Rect.height (boundingRect (composite halves_left)) + SPACING)%Q)
       (getCompositeItem example_factory info 1))
    false false.

(** Pages ordered by identity, and the example pages laid out under that
    policy. *)
Definition example_provider : PageOrderProvider := mkProvider PageId_ltb.

Definition ordered_state : Impl :=
  fst (reset example_snapshot RESET_SELECTION (Some example_provider) example_factory
         Impl_new).

(** A context-menu event far below the three example thumbnails. *)
Definition example_event : QGraphicsSceneContextMenuEvent :=
  mkContextMenuEvent (mkPoint 0 1000) (mkQPoint 5 5).

(** ** Queries on the selection *)

(** Modelled from the spec: PageRange.h is not among the sources.  A range
    has the two members [selectedRanges] fills in: the position of its
    first page in display order and the identities of its pages. *)
Module PageRange.
Record t := mk { firstPageIdx : Z; pages : list PageId }.
End PageRange.

(** The first inner loop of [selectedRanges]: skip unselected items. *)
Fixpoint skip_unselected (l : list Item) (page_idx : Z) : list Item * Z :=
  match l with
  | [] => ([], page_idx)
  | it :: rest =>
      if negb (m_isSelected it) then skip_unselected rest (page_idx + 1)%Z
      else (l, page_idx)
  end.

(** The second inner loop: collect the identities of the selected items
    that follow each other. *)
Fixpoint collect_selected (l : list Item) (page_idx : Z) (range_pages : list PageId)
  : list Item * Z * list PageId :=
  match l with
  | [] => ([], page_idx, range_pages)
  | it :: rest =>
      if m_isSelected it
      then collect_selected rest (page_idx + 1)%Z (range_pages ++ [pageId it])
      else (l, page_idx, range_pages)
  end.

(** The outer [for (;;)] of [selectedRanges]; [None] after [fuel] rounds
    stands for a loop that never ends. *)
Fixpoint selectedRanges_loop (fuel : nat) (l : list Item) (page_idx : Z)
    (ranges : list PageRange.t) : option (list PageRange.t) :=
  match fuel with
  | 0 => None
  | S fuel' =>
      let '(l, page_idx) := skip_unselected l page_idx in
      match l with
      | [] => Some ranges
      | _ :: _ =>
          let '(l', page_idx', range_pages) := collect_selected l page_idx [] in
          selectedRanges_loop fuel' l' page_idx'
            (ranges ++ [PageRange.mk page_idx range_pages])
      end
  end.

(** [Impl::selectedRanges]. *)
Definition selectedRanges (s : Impl) : option (list PageRange.t) :=
  selectedRanges_loop (S (length (m_itemsInOrder s))) (m_itemsInOrder s) 0%Z [].

(** [Impl::selectionLeaderSceneRect]; [QRectF()] is the null rectangle. *)
Definition selectionLeaderSceneRect (s : Impl) : option QRectF :=
  match m_pSelectionLeader s with
  | None => Some Rect.null
  | Some l =>
      leader ← find_item l (m_itemsInOrder s);
      Some (sceneBoundingRect (composite leader))
  end.

(** ** Events of a composite *)

(** [Impl::contextMenuRequested]. *)
Definition contextMenuRequested (page_info : PageInfo) (screen_pos : QPoint)
    (selected : bool) : Signal :=
  pageContextMenuRequested page_info screen_pos selected.

(** [CompositeItem::contextMenuEvent], for the composite whose item is at
    [a]. *)
Definition contextMenuEvent (a : nat) (event : QGraphicsSceneContextMenuEvent)
    (s : Impl) : option (list Signal) :=
  item ← find_item a (m_itemsInOrder s);
  Some [contextMenuRequested (pageInfo item) (screenPos event) (m_isSelected item)].

Inductive MouseButton := LeftButton | RightButton | MidButton.

Record QGraphicsSceneMouseEvent := mkMouseEvent {
  button : MouseButton;
  modifiers : KeyboardModifiers
}.

(** [CompositeItem::mousePressEvent], for the composite whose item is at
    [a]. *)
Definition mousePressEvent (a : nat) (event : QGraphicsSceneMouseEvent) (s : Impl)
  : option (Impl * list Signal) :=
  match button event with
  | LeftButton => itemSelectedByUser a (modifiers event) s
  | _ => Some (s, [])
  end.

(** ** Caption labels *)

(** The brush of the normal caption: the one the text item is created
    with, or one of the two palette roles [updateAppearence] sets. *)
Inductive Brush := defaultBrush | highlightedTextBrush | textBrush.

Record LabelGroup := mkLabelGroup {
  normalLabel_visible : bool;
  boldLabel_visible : bool;
  normalLabel_brush : Brush
}.

(** [LabelGroup::LabelGroup]. *)
Definition LabelGroup_new : LabelGroup := mkLabelGroup true false defaultBrush.

(** [LabelGroup::updateAppearence]; [None] when [assert(selected)] fails. *)
Definition updateAppearence (selected selection_leader : bool) (g : LabelGroup)
  : option LabelGroup :=
  let g := mkLabelGroup (negb selection_leader) selection_leader (normalLabel_brush g) in
  if selection_leader then
    if selected then Some g else None
  else if selected then
    Some (mkLabelGroup (normalLabel_visible g) (boldLabel_visible g) highlightedTextBrush)
  else
    Some (mkLabelGroup (normalLabel_visible g) (boldLabel_visible g) textBrush).

(** ** Notions used by the properties of the queries and the editor *)

(** [r] is a maximal run of selected items of [items]: it starts at the
    position it names, lists the identities of one or more selected items
    that follow each other, and is enclosed by unselected items or the
    ends of the sequence. *)
Definition maximal_run (items : list Item) (r : PageRange.t) : Prop :=
  exists before run after,
    items = before ++ run ++ after
    /\ PageRange.firstPageIdx r = Z.of_nat (length before)
    /\ PageRange.pages r = pageId <$> run
    /\ run <> []
    /\ Forall (fun it => m_isSelected it = true) run
    /\ match last before with Some it => m_isSelected it = false | None => True end
    /\ match head after with Some it => m_isSelected it = false | None => True end.

(** The calls that change the controller: the public operations and the
    mouse press on the thumbnail of the item at an address. *)
Inductive Call :=
| call_reset (snapshot : PageSequenceSnapshot) (selection_action : SelectionAction)
    (order_provider : option PageOrderProvider) (factory : ThumbnailFactory)
| call_insert (new_page : PageInfo) (before_or_after : BeforeOrAfter) (image : ImageId)
    (factory : ThumbnailFactory)
| call_removePages (to_remove : gset PageId)
| call_invalidateThumbnail (page_id : PageId) (factory : ThumbnailFactory)
| call_invalidateAllThumbnails (factory : ThumbnailFactory)
| call_setSelection (page_id : PageId)
| call_mousePressEvent (a : nat) (event : QGraphicsSceneMouseEvent).

Definition perform (c : Call) (s : Impl) : option (Impl * list Signal) :=
  match c with
  | call_reset snapshot selection_action order_provider factory =>
      Some (reset snapshot selection_action order_provider factory s)
  | call_insert new_page before_or_after image factory =>
      Some (insert new_page before_or_after image factory s)
  | call_removePages to_remove => removePages to_remove s
  | call_invalidateThumbnail page_id factory =>
      Some (invalidateThumbnail page_id factory s)
  | call_invalidateAllThumbnails factory => Some (invalidateAllThumbnails factory s)
  | call_setSelection page_id => Some (setSelection page_id s)
  | call_mousePressEvent a event => mousePressEvent a event s
  end.

Definition is_reset (c : Call) : bool :=
  match c with call_reset _ _ _ _ => true | _ => false end.

(** What a signal shows of an item: its node, page and visual. *)
Definition visual_view (it : Item) : nat * PageInfo * CompositeItem :=
  (addr it, pageInfo it, composite it).

(** The leader flag is carried by the item the leader pointer designates
    and by no other. *)
Definition leader_flag_ok (items : list Item) (leader : option nat) : Prop :=
  forall it, it ∈ items -> (m_isSelectionLeader it = true <-> leader = Some (addr it)).

(** The composites of [l] are stacked downwards from [offset]: each at
    x = 0, each [SPACING] below the bounding rectangle of the one
    before. *)
Fixpoint stacked_from (offset : Q) (l : list Item) : Prop :=
  match l with
  | [] => True
  | it :: rest =>
      pos (composite it) = mkPoint 0 offset
      /\ stacked_from (offset + Rect.height (boundingRect (composite it)) + SPACING)%Q rest
  end.

(** The identities [l] are in the order of the provider, pair by pair: no
    identity is followed directly by one that the provider puts before
    it. *)
Fixpoint in_order (p : PageOrderProvider) (l : list PageId) : Prop :=
  match l with
  | [] => True
  | x :: rest =>
      match rest with
      | [] => True
      | y :: _ => precedes p y x = false
      end /\ in_order p rest
  end.

(** ** More example material *)

(** [two_selected_state] after the removal of page two, the leader: page
    one is still selected and there is no leader. *)
Definition leaderless_state : Impl :=
  match removePages {[ PageId_of_image 2 ]} two_selected_state with
  | Some (s, _) => s
  | None => two_selected_state
  end.

(** An item as [removePages] keeps it: the same node with the same flags,
    its page unchanged or redesignated as the single page of its image. *)
Definition kept_as (it it' : Item) : Prop :=
  addr it' = addr it
  /\ m_isSelected it' = m_isSelected it
  /\ m_isSelectionLeader it' = m_isSelectionLeader it
  /\ (pageInfo it' = pageInfo it
      \/ pageInfo it'
         = setId (mkPageId (pi_imageId (pageInfo it)) SINGLE_PAGE) (pageInfo it)).

(** The signal [sig] announces the leader of [s']: it is a leader-changed
    signal whose rectangle is the scene rectangle of the item the leader
    pointer of [s'] designates, the one [selectionLeaderSceneRect] reports,
    and, when [with_page] is set, whose page is that item's page. *)
Definition reports_leader (s' : Impl) (sig : Signal) (with_page : bool) : Prop :=
  exists leader info flags,
    sig = newSelectionLeader info (sceneBoundingRect (composite leader)) flags
    /\ m_pSelectionLeader s' = Some (addr leader)
    /\ find_item (addr leader) (m_itemsInOrder s') = Some leader
    /\ selectionLeaderSceneRect s' = Some (sceneBoundingRect (composite leader))
    /\ (with_page = true -> info = pageInfo leader).

(** What the layout reads of an item: its page, number and visual. *)
Definition layout_view (it : Item) : PageInfo * Z * CompositeItem :=
  (pageInfo it, pageNum it, composite it).

(** The column the loop of [reset] builds for the pages [sorted_pages],
    numbered from [i] and stacked from [offset]. *)
Fixpoint laid_out (factory : ThumbnailFactory) (sorted_pages : list PageInfo) (i : Z)
    (offset : Q) : list (PageInfo * Z * CompositeItem) :=
  match sorted_pages with
  | [] => []
  | page_info :: rest =>
      let c := setPos (mkPoint 0 offset) (getCompositeItem factory page_info i) in
      (page_info, i, c)
      :: laid_out factory rest (i + 1)%Z
           (offset + Rect.height (boundingRect c) + SPACING)%Q
  end.

(** The composites of [l] form a column from [offset] downwards, up to
    equality of rationals: each is at x = 0 and [SPACING] below the
    bounding rectangle of the one before. *)
Fixpoint stacked (offset : Q) (l : list Item) : Prop :=
  match l with
  | [] => True
  | it :: rest =>
      (pt_x (pos (composite it)) == 0)%Q
      /\ (pt_y (pos (composite it)) == offset)%Q
      /\ stacked (offset + Rect.height (boundingRect (composite it)) + SPACING)%Q rest
  end.

(** The calls that are given a page the controller does not hold yet:
    [reset] a list of pages of distinct identities, [insert] a page whose
    identity is not stored. *)
Definition brings_new_pages (c : Call) (s : Impl) : Prop :=
  match c with
  | call_reset snapshot _ _ _ => NoDup (id <$> pages snapshot)
  | call_insert new_page _ _ _ => id new_page ∉ pageId <$> m_itemsInOrder s
  | _ => True
  end.

(** The height of the column the composites of [l] take up, each with
    the spacing below it. *)
Fixpoint column_height (l : list Item) : Q :=
  match l with
  | [] => 0%Q
  | it :: rest =>
      (Rect.height (boundingRect (composite it)) + SPACING + column_height rest)%Q
  end.
(** ** Lemmas on the item store *)

Section ItemStore.

Implicit Types (items : list Item) (a b : nat) (it : Item) (f : Item -> Item).

Lemma find_item_Some a items it :
  find_item a items = Some it -> it ∈ items /\ addr it = a.
Proof.
  induction items as [|x items IH]; simpl; [done|].
  destruct (decide (addr x = a)) as [Heq|Hne].
  - intros [= ->]. split; [apply elem_of_cons; by left | done].
  - intros H. destruct (IH H) as [Hin Ha]. split; [apply elem_of_cons; by right | done].
Qed.

Lemma find_item_None a items :
  find_item a items = None <-> a ∉ addr <$> items.
Proof.
  induction items as [|x items IH]; simpl.
  - split; [intros _; apply not_elem_of_nil | done].
  - destruct (decide (addr x = a)) as [Heq|Hne].
    + split; [done|]. intros H. exfalso. apply H. apply elem_of_cons. by left.
    + rewrite IH. rewrite elem_of_cons. split.
    * intros H [?|?]; [congruence | by apply H].
    * intros H ?. apply H. by right.
Qed.

Lemma find_item_is_Some a items :
  a ∈ addr <$> items -> exists it, find_item a items = Some it.
Proof.
  intros Hin. destruct (find_item a items) as [it|] eqn:E; [by exists it|].
  apply find_item_None in E. done.
Qed.

Lemma find_item_elem items it :
  NoDup (addr <$> items) -> it ∈ items -> find_item (addr it) items = Some it.
Proof.
  induction items as [|x items IH]; simpl; intros Hnd Hin.
  - by apply elem_of_nil in Hin.
  - apply NoDup_cons in Hnd as [Hx Hnd].
    apply elem_of_cons in Hin as [->|Hin].
    + by rewrite decide_True.
    + rewrite decide_False; [by apply IH|].
      intros Heq. apply Hx. rewrite Heq. by apply list_elem_of_fmap_2.
Qed.

Lemma fmap_addr_modify a f items :
  (forall it, addr (f it) = addr it) ->
  addr <$> modify_item a f items = addr <$> items.
Proof.
  intros Hf. unfold modify_item. rewrite <- list_fmap_compose.
  apply list_fmap_ext. intros _ x _. simpl. by destruct (decide _).
Qed.

Lemma find_item_modify a b f items :
  (forall it, addr (f it) = addr it) ->
  find_item b (modify_item a f items)
  = if decide (b = a) then f <$> find_item b items else find_item b items.
Proof.
  intros Hf. induction items as [|x items IH]; simpl.
  - by destruct (decide _).
  - destruct (decide (addr x = a)) as [Hxa|Hxa].
    + rewrite Hf. destruct (decide (addr x = b)) as [Hxb|Hxb].
      * rewrite decide_True; [done | congruence].
      * rewrite IH. done.
    + destruct (decide (addr x = b)) as [Hxb|Hxb].
      * rewrite decide_False; [done | congruence].
      * rewrite IH. done.
Qed.

Lemma isSelected_at_true items a :
  isSelected_at items a = true ->
  exists it, find_item a items = Some it /\ m_isSelected it = true.
Proof.
  unfold isSelected_at. destruct (find_item a items) as [it|]; [|done].
  intros H. by exists it.
Qed.

Lemma isSelected_at_elem items a :
  isSelected_at items a = true -> a ∈ addr <$> items.
Proof.
  intros (it & Hf & _)%isSelected_at_true.
  apply find_item_Some in Hf as [Hin <-]. by apply list_elem_of_fmap_2.
Qed.

Lemma isSelected_at_setSelected items a b (v : bool) :
  isSelected_at (modify_item a (Item_setSelected v) items) b
  = if decide (b = a) then v && bool_decide (a ∈ addr <$> items)
    else isSelected_at items b.
Proof.
  unfold isSelected_at. rewrite find_item_modify; [|done].
  destruct (decide (b = a)) as [->|]; [|done].
  destruct (find_item a items) as [it|] eqn:E; simpl.
  - rewrite bool_decide_eq_true_2; [by rewrite andb_true_r|].
    apply find_item_Some in E as [Hin <-]. by apply list_elem_of_fmap_2.
  - apply find_item_None in E. rewrite bool_decide_eq_false_2; [|done].
    by rewrite andb_false_r.
Qed.

Lemma isSelected_at_setSelectionLeader_true items a b :
  isSelected_at (modify_item a (Item_setSelectionLeader true) items) b
  = if decide (b = a) then bool_decide (a ∈ addr <$> items)
    else isSelected_at items b.
Proof.
  unfold isSelected_at. rewrite find_item_modify; [|done].
  destruct (decide (b = a)) as [->|]; [|done].
  destruct (find_item a items) as [it|] eqn:E; simpl.
  - rewrite orb_true_r. rewrite bool_decide_eq_true_2; [done|].
    apply find_item_Some in E as [Hin <-]. by apply list_elem_of_fmap_2.
  - apply find_item_None in E. by rewrite bool_decide_eq_false_2.
Qed.

Lemma isSelected_at_setSelectionLeader_false items a b :
  isSelected_at (modify_item a (Item_setSelectionLeader false) items) b
  = isSelected_at items b.
Proof.
  unfold isSelected_at. rewrite find_item_modify; [|done].
  destruct (decide (b = a)) as [->|]; [|done].
  destruct (find_item a items) as [it|]; simpl; [|done].
  by rewrite orb_false_r.
Qed.

Lemma isSelected_at_setComposite items a b c :
  isSelected_at (modify_item a (Item_setComposite c) items) b = isSelected_at items b.
Proof.
  unfold isSelected_at. rewrite find_item_modify; [|done].
  destruct (decide (b = a)) as [->|]; [|done].
  by destruct (find_item a items).
Qed.

End ItemStore.
(** ** Sorting and the by-identity index *)

Lemma insert_sorted_perm {A} (lt : A -> A -> bool) (x : A) (l : list A) :
  insert_sorted lt x l ≡ₚ x :: l.
Proof.
  induction l as [|y l IH]; simpl; [done|].
  destruct (lt y x); [|done].
  rewrite IH. apply Permutation_swap.
Qed.

Lemma stable_sort_perm {A} (lt : A -> A -> bool) (l : list A) :
  stable_sort lt l ≡ₚ l.
Proof.
  induction l as [|x l IH]; simpl; [done|].
  rewrite insert_sorted_perm. by rewrite IH.
Qed.

Lemma elem_of_dropWhile {A} (p : A -> bool) (l : list A) (x : A) :
  x ∈ dropWhile p l -> x ∈ l.
Proof.
  induction l as [|y l IH]; simpl; [done|].
  destruct (p y); [|done].
  intros H. apply elem_of_cons. right. by apply IH.
Qed.

Lemma elem_of_takeWhile {A} (p : A -> bool) (l : list A) (x : A) :
  x ∈ takeWhile p l -> x ∈ l /\ p x = true.
Proof.
  induction l as [|y l IH]; simpl; [by intros ?%elem_of_nil|].
  destruct (p y) eqn:E; [|by intros ?%elem_of_nil].
  intros [->|H]%elem_of_cons.
  - split; [apply elem_of_cons; by left | done].
  - destruct (IH H). split; [apply elem_of_cons; by right | done].
Qed.

Lemma elem_of_itemsById (items : list Item) (it : Item) :
  it ∈ itemsById items <-> it ∈ items.
Proof. unfold itemsById. apply elem_of_Permutation_proper, stable_sort_perm. Qed.

Lemma lower_bound_elem key items it :
  lower_bound key items = Some it -> it ∈ items.
Proof.
  unfold lower_bound, from_lower_bound. intros H.
  apply head_Some_elem_of in H. apply elem_of_dropWhile in H.
  by rewrite elem_of_itemsById in H.
Qed.

Lemma findById_elem page_id s it :
  findById page_id s = Some it -> it ∈ m_itemsInOrder s /\ pageId it = page_id.
Proof.
  unfold findById. intros H. apply head_Some_elem_of in H.
  apply list_elem_of_filter in H as [Hid Hin].
  rewrite elem_of_itemsById in Hin. by split.
Qed.

(** ** Insertion with a missing reference page *)

(** C8: [insert] next to a non-null image that no stored page references
    returns without any effect: the whole controller state (item store,
    display order, positions, scene bounds, selection, leader) is unchanged
    and no signal is emitted. *)
Theorem insert_reference_not_found
    (new_page : PageInfo) (before_or_after : BeforeOrAfter) (image : ImageId)
    (factory : ThumbnailFactory) (s : Impl) :
  isNull image = false ->
  (forall it, it ∈ m_itemsInOrder s -> pi_imageId (pageInfo it) <> image) ->
  insert new_page before_or_after image factory s = (s, []).
Proof.
  intros Hnull Href. unfold insert. rewrite Hnull.
  assert (Hlb : match lower_bound (PageId_of_image image) (m_itemsInOrder s) with
                | Some it => pi_imageId (pageInfo it) <> image
                | None => True
                end).
  { destruct (lower_bound _ _) as [it|] eqn:E; [|done].
    apply Href. by eapply lower_bound_elem. }
  destruct (lower_bound _ _) as [it|]; [|by destruct before_or_after].
  rewrite decide_True by done. by destruct before_or_after.
Qed.
(** ** Insertion position *)

Lemma move_back_spec p page_id items begin ins_pos dist :
  begin <= ins_pos ->
  exists q, move_back p page_id items begin ins_pos dist
            = (q, (dist - (Z.of_nat ins_pos - Z.of_nat q))%Z)
    /\ begin <= q <= ins_pos
    /\ (q = begin \/ precedes_at p page_id items q = false).
Proof.
  revert dist. induction ins_pos as [|prev IH]; intros dist Hle; simpl.
  - destruct (decide (0 = begin)) as [<-|Hne]; [|lia].
    exists 0. split; [f_equal; lia|]. split; [lia | by left].
  - destruct (decide (S prev = begin)) as [Heq|Hne].
    + exists (S prev). split; [f_equal; lia|]. split; [lia | by left].
    + destruct (precedes_at p page_id items (S prev)) eqn:E.
      * destruct (IH (dist - 1)%Z) as (q & Hq & Hr & Hb); [lia|].
        exists q. split; [rewrite Hq; f_equal; lia|]. split; [lia | done].
      * exists (S prev). split; [f_equal; lia|]. split; [lia | by right].
Qed.

Lemma move_forward_spec p page_id items steps ins_pos dist :
  exists q, move_forward p page_id items steps ins_pos dist
            = (q, (dist + (Z.of_nat q - Z.of_nat ins_pos))%Z)
    /\ ins_pos <= q <= ins_pos + steps
    /\ (q = ins_pos + steps \/ precedes_at p page_id items q = true)
    /\ (forall k, ins_pos <= k < q -> precedes_at p page_id items k = false).
Proof.
  revert ins_pos dist. induction steps as [|steps IH]; intros ins_pos dist; simpl.
  - exists ins_pos. split; [f_equal; lia|]. split; [lia|]. split; [left; lia|]. lia.
  - destruct (precedes_at p page_id items ins_pos) eqn:E.
    + exists ins_pos. split; [f_equal; lia|]. split; [lia|]. split; [by right|]. lia.
    + destruct (IH (S ins_pos) (dist + 1)%Z) as (q & Hq & Hr & He & Hk).
      exists q. split; [rewrite Hq; f_equal; lia|]. split; [lia|].
      split; [destruct He; [left; lia | by right]|].
      intros k Hkr. destruct (decide (k = ins_pos)) as [->|]; [done|]. apply Hk. lia.
Qed.

Lemma precedes_at_lookup p page_id items i (v : bool) :
  i < length items ->
  precedes_at p page_id items i = v ->
  exists it, items !! i = Some it /\ precedes p page_id (pageId it) = v.
Proof.
  intros Hlt. unfold precedes_at.
  destruct (items !! i) as [it|] eqn:E.
  - intros <-. by exists it.
  - apply lookup_ge_None in E. lia.
Qed.

(** C5: [itemInsertPosition] with [hint] within [begin, end].  Without an
    order provider it returns [hint] and reports distance 0.  With a
    provider, the returned position is the end of the range or holds an
    item that [page_id] precedes, it is the beginning of the range or
    follows an item that [page_id] does not precede, and the reported
    distance is the signed number of positions from [hint] to it.  (This
    holds for any [precedes] and any range, thus for a strict weak order
    and a range sorted by it.) *)
Theorem itemInsertPosition_spec (s : Impl) (begin end_ hint : nat) (page_id : PageId) :
  begin <= hint -> hint <= end_ -> end_ <= length (m_itemsInOrder s) ->
  (m_ptrOrderProvider s = None ->
   itemInsertPosition s begin end_ page_id hint = (hint, 0%Z))
  /\ (forall p, m_ptrOrderProvider s = Some p ->
      exists ins_pos,
        itemInsertPosition s begin end_ page_id hint
        = (ins_pos, (Z.of_nat ins_pos - Z.of_nat hint)%Z)
        /\ begin <= ins_pos <= end_
        /\ (ins_pos = end_
            \/ exists it, m_itemsInOrder s !! ins_pos = Some it
                          /\ precedes p page_id (pageId it) = true)
        /\ (ins_pos = begin
            \/ exists it, m_itemsInOrder s !! (ins_pos - 1) = Some it
                          /\ precedes p page_id (pageId it) = false)).
Proof.
  intros Hbh Hhe Hel. unfold itemInsertPosition. split.
  { by intros ->. }
  intros p ->.
  set (items := m_itemsInOrder s) in *.
  (* the first phase ends at [q], at most [hint] and before [end_] unless
     the range is left at [begin] *)
  assert (Hphase1 : exists q,
    (if decide (hint = begin) then (hint, 0%Z)
     else let '(ins_pos, dist) :=
            if decide (hint = end_) then (hint - 1, (-1)%Z) else (hint, 0%Z) in
          move_back p page_id items begin ins_pos dist)
    = (q, (Z.of_nat q - Z.of_nat hint)%Z)
    /\ begin <= q <= hint
    /\ (q = begin \/ (q < end_ /\ precedes_at p page_id items q = false))).
  { destruct (decide (hint = begin)) as [->|Hne].
    - exists begin. split; [f_equal; lia|]. split; [lia | by left].
    - destruct (decide (hint = end_)) as [->|Hne2].
      + destruct (move_back_spec p page_id items begin (end_ - 1) (-1)%Z)
          as (q & Hq & Hr & Hb); [lia|].
        exists q. split; [rewrite Hq; f_equal; lia|]. split; [lia|].
        destruct Hb; [by left | right; split; [lia | done]].
      + destruct (move_back_spec p page_id items begin hint 0%Z)
          as (q & Hq & Hr & Hb); [lia|].
        exists q. split; [rewrite Hq; f_equal; lia|]. split; [lia|].
        destruct Hb; [by left | right; split; [lia | done]]. }
  destruct Hphase1 as (q & -> & Hqr & Hqb).
  destruct (move_forward_spec p page_id items (end_ - q) q
              (Z.of_nat q - Z.of_nat hint)%Z) as (r & Hr & Hrr & Hre & Hrk).
  exists r. split; [rewrite Hr; f_equal; lia|]. split; [lia|]. split.
  - destruct Hre as [->|Hpre]; [left; lia|].
    destruct (decide (r = end_)) as [->|Hne]; [by left|]. right.
    apply precedes_at_lookup; [lia | done].
  - destruct (decide (r = q)) as [->|Hne].
    + destruct Hqb as [->|[Hlt Hpre]]; [by left|].
      (* the forward loop cannot stop where the backward loop broke off *)
      destruct Hre as [Heq|Hpre2]; [lia | congruence].
    + right. apply precedes_at_lookup; [lia|]. apply Hrk. lia.
Qed.

(** ** Context menu past the last page *)

(** C10: with an empty item store, [sceneContextMenuEvent] emits
    [pastLastPageContextMenuRequested] with the event's screen position
    whatever the position; with a non-empty store it does so exactly when
    the event's scene y-coordinate is strictly below the bottom of the
    last item's bounding rectangle, and emits nothing otherwise. *)
Theorem sceneContextMenuEvent_spec (evt : QGraphicsSceneContextMenuEvent) (s : Impl) :
  (m_itemsInOrder s = [] ->
   sceneContextMenuEvent evt s = [pastLastPageContextMenuRequested (screenPos evt)])
  /\ (forall back, last (m_itemsInOrder s) = Some back ->
      ((Rect.bottom (sceneBoundingRect (composite back)) < pt_y (scenePos evt))%Q ->
       sceneContextMenuEvent evt s = [pastLastPageContextMenuRequested (screenPos evt)])
      /\ ((pt_y (scenePos evt) <= Rect.bottom (sceneBoundingRect (composite back)))%Q ->
          sceneContextMenuEvent evt s = [])).
Proof.
  unfold sceneContextMenuEvent. split.
  - by intros ->.
  - intros back ->. split.
    + intros Hlt.
      destruct (Qle_bool _ _) eqn:E; [|done].
      apply Qle_bool_iff in E. exfalso. by apply (Qlt_not_le _ _ Hlt).
    + intros Hle. apply Qle_bool_iff in Hle. by rewrite Hle.
Qed.
(** ** The partition of the selection index *)

Section Partition.

Implicit Types (P Q : nat -> bool) (l : list nat).

Lemma partitioned_ext P Q l :
  (forall x, x ∈ l -> P x = Q x) -> partitioned P l -> partitioned Q l.
Proof.
  intros Hext (l1 & l2 & -> & H1 & H2). exists l1, l2. split; [done|].
  split.
  - apply Forall_forall. intros x Hx. rewrite <- Hext; [|apply elem_of_app; by left].
    by eapply Forall_forall in H1.
  - apply Forall_forall. intros x Hx. rewrite <- Hext; [|apply elem_of_app; by right].
    by eapply Forall_forall in H2.
Qed.

Lemma Forall_filter_keep {A} (F : A -> Prop) (R : A -> Prop)
    `{!forall x, Decision (R x)} (k : list A) :
  Forall F k -> Forall F (filter R k).
Proof.
  rewrite !Forall_forall. intros HF x [_ Hx]%list_elem_of_filter. by apply HF.
Qed.

Lemma partitioned_filter P (R : nat -> Prop) `{!forall x, Decision (R x)} l :
  partitioned P l -> partitioned P (filter R l).
Proof.
  intros (l1 & l2 & -> & H1 & H2). exists (filter R l1), (filter R l2).
  split; [apply filter_app|]. split; by apply Forall_filter_keep.
Qed.

Lemma partitioned_cons_true P a l :
  P a = true -> partitioned P l -> partitioned P (a :: l).
Proof.
  intros Ha (l1 & l2 & -> & H1 & H2). exists (a :: l1), l2.
  split; [done|]. split; [by constructor | done].
Qed.

Lemma partitioned_snoc_false P a l :
  P a = false -> partitioned P l -> partitioned P (l ++ [a]).
Proof.
  intros Ha (l1 & l2 & -> & H1 & H2). exists l1, (l2 ++ [a]).
  split; [by rewrite app_assoc|]. split; [done|].
  apply Forall_app. split; [done|]. by constructor.
Qed.

Lemma partitioned_all_false P l :
  (forall x, x ∈ l -> P x = false) -> partitioned P l.
Proof.
  intros H. exists [], l. split; [done|]. split; [constructor|].
  by apply Forall_forall.
Qed.

Lemma partitioned_cons_inv P a l :
  partitioned P (a :: l) -> partitioned P l.
Proof.
  intros (l1 & l2 & Heq & H1 & H2). destruct l1 as [|b l1]; simpl in Heq.
  - subst l2. apply Forall_cons in H2 as [_ H2]. by exists [], l.
  - injection Heq as -> ->. apply Forall_cons in H1 as [_ H1]. by exists l1, l2.
Qed.

Lemma partitioned_head_false P a l :
  partitioned P (a :: l) -> P a = false -> forall x, x ∈ a :: l -> P x = false.
Proof.
  intros (l1 & l2 & Heq & H1 & H2) Ha. destruct l1 as [|b l1]; simpl in Heq.
  - subst l2. intros x Hx. by eapply Forall_forall in H2.
  - injection Heq as -> ->. apply Forall_cons in H1 as [Hb _]. congruence.
Qed.

(** The partition in the words of the invariant: no unselected record
    comes before a selected one. *)
Lemma partitioned_lookup P l i j a b :
  partitioned P l -> i < j -> l !! i = Some a -> l !! j = Some b ->
  P a = false -> P b = false.
Proof.
  intros (l1 & l2 & -> & H1 & H2) Hij Hi Hj Ha.
  destruct (decide (i < length l1)) as [Hlt|Hge].
  - rewrite lookup_app_l in Hi by done.
    assert (P a = true); [|congruence].
    eapply Forall_forall in H1; [done|]. by eapply list_elem_of_lookup_2.
  - rewrite lookup_app_r in Hj by lia.
    eapply Forall_forall in H2; [done|]. by eapply list_elem_of_lookup_2.
Qed.

End Partition.
(** ** Steps of the selection bookkeeping *)

Section SelectionSteps.

Implicit Types (items : list Item) (sel : list nat) (a b : nat).

Lemma filter_ne_not_elem a sel :
  a ∉ sel -> filter (fun x => x <> a) sel = sel.
Proof.
  induction sel as [|x sel IH]; [done|].
  intros Hn. apply not_elem_of_cons in Hn as [Hne Hn].
  rewrite filter_cons_True by done. by rewrite IH.
Qed.

Lemma filter_ne_perm a sel :
  NoDup sel -> a ∈ sel -> a :: filter (fun x => x <> a) sel ≡ₚ sel.
Proof.
  induction sel as [|x sel IH]; intros Hnd Hin.
  - by apply elem_of_nil in Hin.
  - apply NoDup_cons in Hnd as [Hx Hnd].
    destruct (decide (x = a)) as [->|Hne].
    + rewrite filter_cons_False by (intros H; by apply H).
      by rewrite filter_ne_not_elem.
    + rewrite filter_cons_True by done.
      apply elem_of_cons in Hin as [->|Hin]; [done|].
      rewrite Permutation_swap. by rewrite IH.
Qed.

Lemma SelOk_nodup_sel items sel : SelOk items sel -> NoDup sel.
Proof. intros (Hnd & Hp & _). by rewrite Hp. Qed.

Lemma SelOk_elem items sel a : SelOk items sel -> a ∈ sel <-> a ∈ addr <$> items.
Proof. intros (Hnd & Hp & _). by rewrite Hp. Qed.

(** Same records with the same flags. *)
Lemma SelOk_transfer items items' sel :
  SelOk items sel ->
  addr <$> items' ≡ₚ addr <$> items ->
  (forall b, isSelected_at items' b = isSelected_at items b) ->
  SelOk items' sel.
Proof.
  intros (Hnd & Hp & Hpart) Hperm Hflags. split; [by rewrite Hperm|].
  split; [by rewrite Hperm|].
  eapply partitioned_ext; [|done]. intros x _. by rewrite Hflags.
Qed.

(** An item becomes (or stays) selected and is relocated to the front. *)
Lemma SelOk_select_front items items' sel a :
  SelOk items sel ->
  a ∈ addr <$> items ->
  addr <$> items' ≡ₚ addr <$> items ->
  (forall b, isSelected_at items' b
             = if decide (b = a) then true else isSelected_at items b) ->
  SelOk items' (a :: filter (fun x => x <> a) sel).
Proof.
  intros Hok Hin Hperm Hflags.
  pose proof (SelOk_nodup_sel _ _ Hok) as Hnds.
  destruct Hok as (Hnd & Hp & Hpart).
  split; [by rewrite Hperm|]. split.
  - rewrite filter_ne_perm; [by rewrite Hperm | done | by rewrite Hp].
  - apply partitioned_cons_true.
    + rewrite Hflags. by rewrite decide_True.
    + eapply partitioned_ext; [|by apply partitioned_filter].
      intros x [Hne _]%list_elem_of_filter. rewrite Hflags.
      by rewrite decide_False.
Qed.

(** An item becomes unselected and is relocated to the back. *)
Lemma SelOk_deselect_back items items' sel a :
  SelOk items sel ->
  a ∈ addr <$> items ->
  addr <$> items' ≡ₚ addr <$> items ->
  (forall b, isSelected_at items' b
             = if decide (b = a) then false else isSelected_at items b) ->
  SelOk items' (filter (fun x => x <> a) sel ++ [a]).
Proof.
  intros Hok Hin Hperm Hflags.
  pose proof (SelOk_nodup_sel _ _ Hok) as Hnds.
  destruct Hok as (Hnd & Hp & Hpart).
  split; [by rewrite Hperm|]. split.
  - rewrite <- Permutation_cons_append.
    rewrite filter_ne_perm; [by rewrite Hperm | done | by rewrite Hp].
  - apply partitioned_snoc_false.
    + rewrite Hflags. by rewrite decide_True.
    + eapply partitioned_ext; [|by apply partitioned_filter].
      intros x [Hne _]%list_elem_of_filter. rewrite Hflags.
      by rewrite decide_False.
Qed.

(** Removing one record from both indices. *)
Lemma SelOk_erase items1 it items2 sel :
  SelOk (items1 ++ it :: items2) sel ->
  SelOk (items1 ++ items2) (filter (fun x => x <> addr it) sel)
  /\ forall b, b <> addr it ->
       isSelected_at (items1 ++ items2) b = isSelected_at (items1 ++ it :: items2) b.
Proof.
  intros Hok. pose proof (SelOk_nodup_sel _ _ Hok) as Hnds.
  destruct Hok as (Hnd & Hp & Hpart).
  assert (Hflags : forall b, b <> addr it ->
    isSelected_at (items1 ++ items2) b = isSelected_at (items1 ++ it :: items2) b).
  { intros b Hb. unfold isSelected_at. f_equal.
    clear -Hb. induction items1 as [|x items1 IH]; simpl.
    - by rewrite decide_False.
    - destruct (decide (addr x = b)); [done | apply IH]. }
  split; [|done].
  rewrite fmap_app, fmap_cons in Hnd, Hp.
  assert (Hnd' : NoDup (addr <$> items1 ++ items2)).
  { rewrite fmap_app. apply NoDup_app in Hnd as (H1 & H2 & H3).
    apply NoDup_cons in H3 as [H3 H4]. apply NoDup_app. split; [done|].
    split; [|done]. intros x Hx Hx2. apply (H2 x Hx). apply elem_of_cons. by right. }
  split; [done|]. split.
  - apply NoDup_Permutation; [by apply NoDup_filter | done|].
    intros x. rewrite list_elem_of_filter, Hp, fmap_app.
    rewrite !elem_of_app, elem_of_cons. split.
    + intros [Hne [H|[H|H]]]; [by left | done | by right].
    + intros H. split.
      * intros ->. apply NoDup_app in Hnd as (H1 & H2 & H3).
        apply NoDup_cons in H3 as [H3 H4].
        destruct H as [H|H]; [|done]. apply (H2 _ H). apply elem_of_cons. by left.
      * destruct H as [H|H]; [by left | right; by right].
  - eapply partitioned_ext; [|by apply partitioned_filter].
    intros x [Hne _]%list_elem_of_filter. by rewrite Hflags.
Qed.

(** A fresh, unselected record enters the in-order index anywhere and the
    selection index at the back. *)
Lemma SelOk_insert items1 items2 it sel :
  SelOk (items1 ++ items2) sel ->
  addr it ∉ addr <$> items1 ++ items2 ->
  m_isSelected it = false ->
  SelOk (items1 ++ it :: items2) (sel ++ [addr it])
  /\ forall b,
       isSelected_at (items1 ++ it :: items2) b = isSelected_at (items1 ++ items2) b.
Proof.
  intros (Hnd & Hp & Hpart) Hfresh Hsel.
  assert (Hflags : forall b,
    isSelected_at (items1 ++ it :: items2) b = isSelected_at (items1 ++ items2) b).
  { intros b. unfold isSelected_at.
    destruct (decide (b = addr it)) as [->|Hne].
    - assert (find_item (addr it) (items1 ++ items2) = None) as ->
        by by apply find_item_None.
      assert (find_item (addr it) (items1 ++ it :: items2) = Some it) as ->; [|done].
      rewrite fmap_app in Hfresh. apply not_elem_of_app in Hfresh as [Hf1 _].
      clear -Hf1. induction items1 as [|x items1 IH]; simpl.
      + by rewrite decide_True.
      + apply not_elem_of_cons in Hf1 as [Hne Hf1].
        rewrite decide_False by done. by apply IH.
    - f_equal. clear -Hne. induction items1 as [|x items1 IH]; simpl.
      + by rewrite decide_False.
      + destruct (decide (addr x = b)); [done | apply IH]. }
  split; [|done]. split; [|split].
  - rewrite fmap_app, fmap_cons. rewrite <- Permutation_middle.
    apply NoDup_cons. rewrite <- fmap_app. by split.
  - rewrite <- Permutation_cons_append. rewrite fmap_app, fmap_cons.
    rewrite <- Permutation_middle. rewrite Hp. by rewrite fmap_app.
  - apply partitioned_snoc_false.
    + rewrite Hflags. unfold isSelected_at.
      assert (find_item (addr it) (items1 ++ items2) = None) as ->
        by by apply find_item_None.
      done.
    + eapply partitioned_ext; [|done]. intros x _. by rewrite Hflags.
Qed.

End SelectionSteps.
(** ** The invariant under the basic changes of the store *)

Section Invariant.

Implicit Types (items : list Item) (sel : list nat) (a b : nat) (leader : option nat).

Lemma isSelected_at_footprint items a :
  NoDup (addr <$> items) ->
  isSelected_at items a = true <-> (a, true) ∈ footprint <$> items.
Proof.
  intros Hnd. split.
  - intros (it & Hf & Hs)%isSelected_at_true.
    apply find_item_Some in Hf as [Hin <-].
    apply list_elem_of_fmap. exists it. split; [|done].
    unfold footprint. by rewrite Hs.
  - intros (it & Heq & Hin)%list_elem_of_fmap. injection Heq as -> Hs.
    unfold isSelected_at. by rewrite find_item_elem.
Qed.

Lemma footprint_addr items : fst <$> (footprint <$> items) = addr <$> items.
Proof. rewrite <- list_fmap_compose. by apply list_fmap_ext. Qed.

Lemma footprint_transfer items items' :
  NoDup (addr <$> items) ->
  footprint <$> items' ≡ₚ footprint <$> items ->
  addr <$> items' ≡ₚ addr <$> items
  /\ forall b, isSelected_at items' b = isSelected_at items b.
Proof.
  intros Hnd Hperm.
  assert (Hp : addr <$> items' ≡ₚ addr <$> items).
  { rewrite <- !footprint_addr. by rewrite Hperm. }
  split; [done|]. intros b.
  assert (Hnd' : NoDup (addr <$> items')) by by rewrite Hp.
  pose proof (isSelected_at_footprint items b Hnd) as H1.
  pose proof (isSelected_at_footprint items' b Hnd') as H2.
  rewrite Hperm in H2.
  destruct (isSelected_at items b), (isSelected_at items' b); try done.
  - assert (false = true); [|done]. apply H2. by apply H1.
  - assert (false = true); [|done]. apply H1. by apply H2.
Qed.

(** Rearranged records with the same flags. *)
Lemma InvR_transfer items items' sel leader next :
  InvR items sel leader next ->
  footprint <$> items' ≡ₚ footprint <$> items ->
  InvR items' sel leader next.
Proof.
  intros (Hsel & Hlead & Hfresh) Hperm.
  destruct (footprint_transfer items items' (proj1 Hsel) Hperm) as [Hp Hflags].
  split; [by eapply SelOk_transfer|]. split.
  - intros a Ha. rewrite Hflags. by apply Hlead.
  - by rewrite Hp.
Qed.

Lemma InvR_erase items1 it items2 sel leader next :
  InvR (items1 ++ it :: items2) sel leader next ->
  InvR (items1 ++ items2) (filter (fun x => x <> addr it) sel)
    (if decide (leader = Some (addr it)) then None else leader) next.
Proof.
  intros (Hsel & Hlead & Hfresh).
  destruct (SelOk_erase _ _ _ _ Hsel) as [Hsel' Hflags].
  split; [done|]. split.
  - intros a Ha. destruct (decide (leader = Some (addr it))) as [|Hne]; [done|].
    rewrite Hflags; [by apply Hlead | congruence].
  - rewrite fmap_app in *. rewrite fmap_cons in Hfresh.
    apply Forall_app in Hfresh as [H1 H2]. apply Forall_cons in H2 as [_ H2].
    by apply Forall_app.
Qed.

Lemma InvR_insert items1 items2 sel leader next info page_num c :
  InvR (items1 ++ items2) sel leader next ->
  InvR (items1 ++ mkItem next info page_num c false false :: items2)
    (sel ++ [next]) leader (S next).
Proof.
  intros (Hsel & Hlead & Hfresh).
  set (it := mkItem next info page_num c false false).
  destruct (SelOk_insert items1 items2 it sel Hsel) as [Hsel' Hflags]; [|done|].
  { simpl. intros Hin. eapply Forall_forall in Hfresh; [|done]. lia. }
  split; [done|]. split.
  - intros a Ha. rewrite Hflags. by apply Hlead.
  - rewrite fmap_app in *. rewrite fmap_cons.
    apply Forall_app in Hfresh as [H1 H2]. apply Forall_app. split.
    + eapply Forall_impl; [done|]. simpl. lia.
    + constructor; [simpl; lia|]. eapply Forall_impl; [done|]. simpl. lia.
Qed.

Lemma InvR_select_front items items' sel leader leader' next a :
  InvR items sel leader next ->
  a ∈ addr <$> items ->
  addr <$> items' = addr <$> items ->
  (forall b, isSelected_at items' b
             = if decide (b = a) then true else isSelected_at items b) ->
  (forall x, leader' = Some x -> x = a \/ leader = Some x) ->
  InvR items' (a :: filter (fun x => x <> a) sel) leader' next.
Proof.
  intros (Hsel & Hlead & Hfresh) Hin Haddr Hflags Hl.
  split; [eapply SelOk_select_front; [done | done | by rewrite Haddr | done]|].
  split; [|by rewrite Haddr].
  intros x Hx. rewrite Hflags. destruct (decide (x = a)); [done|].
  destruct (Hl x Hx); [done | by apply Hlead].
Qed.

Lemma InvR_deselect_back items items' sel leader leader' next a :
  InvR items sel leader next ->
  a ∈ addr <$> items ->
  addr <$> items' = addr <$> items ->
  (forall b, isSelected_at items' b
             = if decide (b = a) then false else isSelected_at items b) ->
  (forall x, leader' = Some x -> x <> a /\ leader = Some x) ->
  InvR items' (filter (fun x => x <> a) sel ++ [a]) leader' next.
Proof.
  intros (Hsel & Hlead & Hfresh) Hin Haddr Hflags Hl.
  split; [eapply SelOk_deselect_back; [done | done | by rewrite Haddr | done]|].
  split; [|by rewrite Haddr].
  intros x Hx. rewrite Hflags. destruct (Hl x Hx) as [Hne Hx'].
  rewrite decide_False by done. by apply Hlead.
Qed.

(** Flags rewritten without changing the selection. *)
Lemma InvR_same_flags items items' sel leader leader' next :
  InvR items sel leader next ->
  addr <$> items' = addr <$> items ->
  (forall b, isSelected_at items' b = isSelected_at items b) ->
  (forall x, leader' = Some x -> isSelected_at items x = true) ->
  InvR items' sel leader' next.
Proof.
  intros (Hsel & Hlead & Hfresh) Haddr Hflags Hl.
  split; [eapply SelOk_transfer; [done | by rewrite Haddr | done]|].
  split; [|by rewrite Haddr].
  intros x Hx. rewrite Hflags. by apply Hl.
Qed.

End Invariant.
(** ** The two-cursor walk *)

Lemma distance_sym i j : distance i j = distance j i.
Proof.
  unfold distance.
  destruct (Nat.ltb_spec i j), (Nat.ltb_spec j i); lia.
Qed.

Lemma distance_lt i j : j < i -> distance i j = i - j.
Proof. intros H. unfold distance. destruct (Nat.ltb_spec i j); lia. Qed.

Lemma distance_gt i j : i < j -> distance i j = j - i.
Proof. intros H. unfold distance. destruct (Nat.ltb_spec i j); lia. Qed.

(** After [k] rounds without a hit the cursors are [k] steps away from
    the start (or stuck at an end) and nothing within distance [k] is a
    hit.  The walk then stops at the nearest hit, the one behind the start
    when two are equally near; it goes on for ever only if there is none. *)
Lemma outward_walk_inv (hit : nat -> bool) (len start fuel k : nat) :
  start <= len ->
  (forall j, j < len -> j <> start -> distance start j <= k -> hit j = false) ->
  match outward_walk hit len fuel (start - k) (Nat.min (start + k) len) with
  | Some (FoundBack i) =>
      i < start /\ hit i = true
      /\ (forall j, j < len -> j <> start -> distance start j < start - i -> hit j = false)
  | Some (FoundForward i) =>
      start < i < len /\ hit i = true
      /\ (forall j, j < len -> j <> start -> distance start j < i - start -> hit j = false)
      /\ (forall j, j < start -> start - j = i - start -> hit j = false)
  | None =>
      forall j, j < len -> j <> start -> distance start j <= k + fuel -> hit j = false
  end.
Proof.
  intros Hlen. revert k. induction fuel as [|fuel IH]; intros k Hprev; simpl.
  { intros j Hj Hne Hd. apply Hprev; [done | done | lia]. }
  assert (Hback : (if decide (start - k = 0) then start - k else start - k - 1)
                  = start - S k).
  { destruct (decide (start - k = 0)); lia. }
  assert (Hfwd : (if decide (Nat.min (start + k) len = len)
                  then Nat.min (start + k) len else S (Nat.min (start + k) len))
                 = Nat.min (start + S k) len).
  { destruct (decide (Nat.min (start + k) len = len)); lia. }
  rewrite Hback, Hfwd.
  destruct (negb (bool_decide (start - k = 0)) && hit (start - S k)) eqn:E1.
  { apply andb_true_iff in E1 as [Hnz Hhit].
    apply negb_true_iff, bool_decide_eq_false in Hnz.
    split; [lia|]. split; [done|].
    intros j Hj Hne Hd. apply Hprev; [done | done | lia]. }
  destruct (negb (bool_decide (Nat.min (start + k) len = len))
            && negb (bool_decide (Nat.min (start + S k) len = len))
            && hit (Nat.min (start + S k) len)) eqn:E2.
  { apply andb_true_iff in E2 as [E2 Hhit]. apply andb_true_iff in E2 as [Hn1 Hn2].
    apply negb_true_iff, bool_decide_eq_false in Hn1.
    apply negb_true_iff, bool_decide_eq_false in Hn2.
    split; [lia|]. split; [done|]. split.
    - intros j Hj Hne Hd. apply Hprev; [done | done | lia].
    - intros j Hj Hd.
      apply andb_false_iff in E1 as [Hz|Hh].
      + apply negb_false_iff, bool_decide_eq_true in Hz. lia.
      + replace j with (start - S k) by lia. done. }
  assert (Hnext : forall j, j < len -> j <> start -> distance start j <= S k ->
                            hit j = false).
  { intros j Hj Hne Hd.
    destruct (decide (distance start j <= k)) as [Hle|Hgt]; [by apply Hprev|].
    assert (Hd' : distance start j = S k) by lia.
    destruct (decide (j < start)) as [Hlt|Hge].
    - rewrite distance_lt in Hd' by done.
      apply andb_false_iff in E1 as [Hz|Hh].
      + apply negb_false_iff, bool_decide_eq_true in Hz. lia.
      + replace j with (start - S k) by lia. done.
    - rewrite distance_gt in Hd' by lia.
      assert (Hj' : Nat.min (start + S k) len = j) by lia.
      rewrite Hj' in E2.
      apply andb_false_iff in E2 as [E2|Hh]; [|done].
      apply andb_false_iff in E2 as [Hz|Hz];
        apply negb_false_iff, bool_decide_eq_true in Hz; lia. }
  specialize (IH (S k) Hnext).
  destruct (outward_walk hit len fuel (start - S k) (Nat.min (start + S k) len))
    as [[i|i]|]; [done | done |].
  intros j Hj Hne Hd. apply IH; [done | done | lia].
Qed.

(** Started on [start] with at least as many rounds as the index is long,
    the walk finds the nearest hit whenever there is one. *)
Lemma outward_walk_nearest (hit : nat -> bool) (len start : nat) :
  start < len ->
  (exists j, j < len /\ j <> start /\ hit j = true) ->
  exists h, outward_walk hit len (S len) start start = Some h
    /\ hit_index h < len /\ hit_index h <> start /\ hit (hit_index h) = true
    /\ (forall j, j < len -> j <> start -> hit j = true ->
          distance start (hit_index h) <= distance start j
          /\ (distance start j = distance start (hit_index h) ->
              j <> hit_index h -> hit_index h < start))
    /\ match h with FoundBack i => i < start | FoundForward i => start < i end.
Proof.
  intros Hlt (j0 & Hj0 & Hne0 & Hhit0).
  pose proof (outward_walk_inv hit len start (S len) 0) as H.
  rewrite Nat.sub_0_r, Nat.add_0_r, Nat.min_l in H by lia.
  specialize (H ltac:(lia)).
  assert (Hprev : forall j, j < len -> j <> start -> distance start j <= 0 ->
                            hit j = false).
  { intros j Hj Hne Hd. unfold distance in Hd.
    destruct (Nat.ltb_spec start j); lia. }
  specialize (H Hprev).
  destruct (outward_walk hit len (S len) start start) as [[i|i]|].
  - destruct H as (Hi & Hh & Hnear). exists (FoundBack i). simpl.
    split; [done|]. split; [lia|]. split; [lia|]. split; [done|]. split; [|done].
    intros j Hj Hne Hhj. rewrite (distance_lt start i) by done.
    destruct (decide (distance start j < start - i)) as [Hd|Hd].
    + rewrite Hnear in Hhj by done. done.
    + split; [lia | done].
  - destruct H as (Hi & Hh & Hnear & Htie). exists (FoundForward i). simpl.
    split; [done|]. split; [lia|]. split; [lia|]. split; [done|]. split; [|lia].
    intros j Hj Hne Hhj. rewrite (distance_gt start i) by lia.
    destruct (decide (distance start j < i - start)) as [Hd|Hd].
    + rewrite Hnear in Hhj by done. done.
    + split; [lia|]. intros Heq Hji. exfalso.
      destruct (decide (j < start)) as [Hjs|Hjs].
      * rewrite distance_lt in Heq by done.
        rewrite Htie in Hhj; [done | done | lia].
      * rewrite distance_gt in Heq by lia. lia.
  - exfalso. rewrite H in Hhit0; [done | done | done |].
    unfold distance. destruct (Nat.ltb_spec start j0); lia.
Qed.

Lemma outward_walk_hit (hit : nat -> bool) (len fuel i1 i2 : nat) h :
  outward_walk hit len fuel i1 i2 = Some h -> hit (hit_index h) = true.
Proof.
  revert i1 i2. induction fuel as [|fuel IH]; intros i1 i2; simpl; [done|].
  destruct (negb (bool_decide (i1 = 0)) && hit _) eqn:E1.
  { intros [= <-]. simpl. by apply andb_true_iff in E1 as [_ ?]. }
  destruct (negb (bool_decide (i2 = len)) && _ && hit _) eqn:E2.
  { intros [= <-]. simpl. by apply andb_true_iff in E2 as [_ ?]. }
  apply IH.
Qed.
(** ** Positions in the in-order index *)

Section Positions.

Implicit Types (items : list Item) (a b i : nat) (it : Item).

Lemma index_of_lookup a items i :
  index_of a items = Some i -> exists it, items !! i = Some it /\ addr it = a.
Proof.
  revert i. induction items as [|x items IH]; intros i; simpl; [done|].
  destruct (decide (addr x = a)) as [Heq|Hne].
  - intros [= <-]. by exists x.
  - destruct (index_of a items) as [j|]; simpl; [|done].
    intros [= <-]. by apply IH.
Qed.

Lemma index_of_lt a items i : index_of a items = Some i -> i < length items.
Proof.
  intros (it & Hl & _)%index_of_lookup. by eapply lookup_lt_Some.
Qed.

Lemma index_of_is_Some a items :
  a ∈ addr <$> items -> exists i, index_of a items = Some i.
Proof.
  induction items as [|x items IH]; simpl; [by intros ?%elem_of_nil|].
  intros [Heq|Hin]%elem_of_cons.
  - exists 0. by rewrite decide_True.
  - destruct (decide (addr x = a)); [by exists 0|].
    destruct (IH Hin) as [i ->]. by exists (S i).
Qed.

Lemma lookup_find_item items i it :
  NoDup (addr <$> items) -> items !! i = Some it ->
  find_item (addr it) items = Some it.
Proof.
  intros Hnd Hl. apply find_item_elem; [done|]. by eapply list_elem_of_lookup_2.
Qed.

Lemma index_of_find_item a items i it :
  NoDup (addr <$> items) -> index_of a items = Some i -> find_item a items = Some it ->
  items !! i = Some it.
Proof.
  intros Hnd (x & Hl & Hx)%index_of_lookup Hf.
  pose proof (lookup_find_item _ _ _ Hnd Hl) as Hf'. rewrite Hx in Hf'. congruence.
Qed.

Lemma lookup_index_of items i it :
  NoDup (addr <$> items) -> items !! i = Some it -> index_of (addr it) items = Some i.
Proof.
  revert i. induction items as [|x items IH]; intros i Hnd Hl; [done|].
  simpl in Hnd. apply NoDup_cons in Hnd as [Hx Hnd]. simpl.
  destruct i as [|i]; simpl in Hl.
  - injection Hl as ->. by rewrite decide_True.
  - rewrite decide_False.
    + by rewrite (IH i).
    + intros Heq. apply Hx. rewrite Heq. apply list_elem_of_fmap_2.
      by eapply list_elem_of_lookup_2.
Qed.

Lemma selected_at_index_lookup items i it :
  NoDup (addr <$> items) -> items !! i = Some it ->
  isSelected_at items (addr it) = selected_at_index items i.
Proof.
  intros Hnd Hl. unfold isSelected_at, selected_at_index.
  by rewrite (lookup_find_item _ _ _ Hnd Hl), Hl.
Qed.

Lemma isSelected_at_not_elem items a :
  a ∉ addr <$> items -> isSelected_at items a = false.
Proof.
  intros Hn. unfold isSelected_at. by apply find_item_None in Hn as ->.
Qed.

Lemma lookup_modify_item a f items i :
  modify_item a f items !! i
  = (fun it => if decide (addr it = a) then f it else it) <$> items !! i.
Proof. unfold modify_item. apply list_lookup_fmap. Qed.

Lemma index_of_modify a b f items :
  (forall it, addr (f it) = addr it) ->
  index_of b (modify_item a f items) = index_of b items.
Proof.
  intros Hf. induction items as [|x items IH]; simpl; [done|].
  destruct (decide (addr x = a)).
  - rewrite Hf. destruct (decide (addr x = b)); [done | by rewrite IH].
  - destruct (decide (addr x = b)); [done | by rewrite IH].
Qed.

End Positions.

(** ** The invariant under the click handlers *)

Section Clicks.

Implicit Types (s : Impl) (items : list Item) (sel : list nat) (a b : nat).

Lemma clearSelection_loop_spec sel items :
  NoDup sel -> partitioned (isSelected_at items) sel ->
  addr <$> clearSelection_loop sel items = addr <$> items
  /\ forall b, isSelected_at (clearSelection_loop sel items) b
               = if decide (b ∈ sel) then false else isSelected_at items b.
Proof.
  revert items.
  induction sel as [|a sel IH]; intros items Hnd Hpart; cbn [clearSelection_loop].
  { split; [done|]. intros b. rewrite decide_False; [done | apply not_elem_of_nil]. }
  apply NoDup_cons in Hnd as [Ha Hnd].
  destruct (isSelected_at items a) eqn:E.
  - destruct (IH (modify_item a (Item_setSelected false) items)) as [Haddr Hflags];
      [done | |].
    { eapply partitioned_ext; [|by eapply partitioned_cons_inv].
      intros x Hx. rewrite isSelected_at_setSelected.
      rewrite decide_False; [done | by intros ->]. }
    split; [by rewrite Haddr, fmap_addr_modify|].
    intros b. rewrite Hflags, isSelected_at_setSelected.
    destruct (decide (b ∈ sel)) as [Hin|Hnin].
    + rewrite decide_True; [done | apply elem_of_cons; by right].
    + destruct (decide (b = a)) as [->|Hne].
      * rewrite decide_True; [done | apply elem_of_cons; by left].
      * rewrite decide_False; [done|]. intros [?|?]%elem_of_cons; done.
  - split; [done|]. intros b. destruct (decide (b ∈ a :: sel)) as [Hin|]; [|done].
    by eapply partitioned_head_false.
Qed.

Lemma InvR_clearSelection items sel leader next :
  InvR items sel leader next ->
  InvR (clearSelection_loop sel items) sel None next
  /\ addr <$> clearSelection_loop sel items = addr <$> items
  /\ forall b, isSelected_at (clearSelection_loop sel items) b = false.
Proof.
  intros (Hsel & Hlead & Hfresh).
  pose proof (SelOk_nodup_sel _ _ Hsel) as Hnds.
  destruct Hsel as (Hnd & Hp & Hpart).
  destruct (clearSelection_loop_spec sel items Hnds Hpart) as [Haddr Hflags].
  assert (Hall : forall b, isSelected_at (clearSelection_loop sel items) b = false).
  { intros b. rewrite Hflags. destruct (decide (b ∈ sel)) as [|Hn]; [done|].
    apply isSelected_at_not_elem. by rewrite <- Hp. }
  split; [|done]. split; [|split].
  - split; [by rewrite Haddr|]. split; [by rewrite Haddr|].
    apply partitioned_all_false. intros x _. apply Hall.
  - intros a Ha. done.
  - by rewrite Haddr.
Qed.

Lemma Inv_selectItemNoModifiers s a s' sigs :
  Inv s -> selectItemNoModifiers a s = Some (s', sigs) -> Inv s'.
Proof.
  intros HI. unfold selectItemNoModifiers.
  destruct (find_item a (m_itemsInOrder s)) as [item|] eqn:Hf; simpl; [|done].
  intros [= <- _]. unfold Inv. simpl.
  destruct (InvR_clearSelection _ _ _ _ HI) as (HI' & Haddr & Hall).
  assert (Hin : a ∈ addr <$> m_itemsInOrder s).
  { apply find_item_Some in Hf as [Hin <-]. by apply list_elem_of_fmap_2. }
  eapply InvR_select_front; [done | by rewrite Haddr | by apply fmap_addr_modify | |].
  - intros b. rewrite isSelected_at_setSelectionLeader_true.
    destruct (decide (b = a)); [|done].
    apply bool_decide_eq_true_2. by rewrite Haddr.
  - intros x [= <-]. by left.
Qed.

End Clicks.
#[local] Arguments outward_walk : simpl never.

Section ClicksWithModifiers.

Implicit Types (s : Impl) (items : list Item) (sel : list nat) (a b : nat).

Lemma Inv_selectItemWithControl s a s' sigs :
  Inv s -> selectItemWithControl a s = Some (s', sigs) -> Inv s'.
Proof.
  intros HI. unfold selectItemWithControl.
  destruct (find_item a (m_itemsInOrder s)) as [item|] eqn:Hf; simpl; [|done].
  assert (Hin : a ∈ addr <$> m_itemsInOrder s).
  { apply find_item_Some in Hf as [Hin <-]. by apply list_elem_of_fmap_2. }
  destruct (m_isSelected item) eqn:Hsel; simpl.
  2: { intros [= <- _]. unfold Inv.
       destruct (m_pSelectionLeader s) as [l|]; simpl.
       - eapply InvR_select_front; [exact HI | done | by rewrite !fmap_addr_modify | |].
         + intros b. rewrite isSelected_at_setSelectionLeader_true.
           rewrite isSelected_at_setSelectionLeader_false.
           destruct (decide (b = a)); [|done].
           apply bool_decide_eq_true_2. by rewrite fmap_addr_modify.
         + intros x [= <-]. by left.
       - eapply InvR_select_front; [exact HI | done | by rewrite !fmap_addr_modify | |].
         + intros b. rewrite isSelected_at_setSelectionLeader_true.
           destruct (decide (b = a)); [|done].
           by apply bool_decide_eq_true_2.
         + intros x [= <-]. by left. }
  destruct (multipleItemsSelected s); simpl.
  2: { destruct (m_pSelectionLeader s) as [l|]; simpl; [|done].
       destruct (find_item l (m_itemsInOrder s)); simpl; [|done].
       by intros [= <- _]. }
  set (items2 := modify_item a (Item_setSelected false) (m_itemsInOrder s)).
  assert (HI2 : forall leader',
    (forall x, leader' = Some x -> x <> a /\ m_pSelectionLeader s = Some x) ->
    InvR items2 (filter (fun x => x <> a) (m_selectedThenUnselected s) ++ [a])
      leader' (next_addr s)).
  { intros leader' Hl.
    eapply InvR_deselect_back; [exact HI | done | by apply fmap_addr_modify | | done].
    intros b. unfold items2. rewrite isSelected_at_setSelected.
    destruct (decide (b = a)); done. }
  destruct (decide (m_pSelectionLeader s <> Some a)) as [Hne|Heq].
  { intros [= <- _]. apply HI2. intros x Hx.
    split; [intros ->; apply Hne; exact Hx | done]. }
  simpl. fold items2.
  destruct (index_of a items2) as [ord_it|]; simpl; [|done].
  destruct (outward_walk _ _ _ _ _) as [hit|] eqn:Hw; simpl; [|done].
  destruct (items2 !! hit_index hit) as [ldr|] eqn:Hl; simpl; [|done].
  intros [= <- _]. unfold Inv. simpl. fold items2.
  specialize (HI2 None ltac:(done)).
  assert (Hldr : isSelected_at items2 (addr ldr) = true).
  { rewrite (selected_at_index_lookup _ (hit_index hit)); [|apply HI2 | done].
    by eapply outward_walk_hit. }
  eapply InvR_same_flags; [exact HI2 | by apply fmap_addr_modify | |].
  - intros b. rewrite isSelected_at_setSelectionLeader_true.
    destruct (decide (b = addr ldr)) as [->|]; [|done].
    rewrite Hldr. apply bool_decide_eq_true_2. by apply isSelected_at_elem.
  - by intros x [= <-].
Qed.

(** The loop that selects a run of items, the leader being left alone. *)
Lemma select_all_spec (l : list nat) s :
  Inv s -> (forall x, x ∈ l -> x ∈ addr <$> m_itemsInOrder s) ->
  let s' := foldl (fun s x => moveToSelected x (setSelected x true s)) s l in
  Inv s'
  /\ addr <$> m_itemsInOrder s' = addr <$> m_itemsInOrder s
  /\ m_pSelectionLeader s' = m_pSelectionLeader s
  /\ next_addr s' = next_addr s
  /\ forall b, isSelected_at (m_itemsInOrder s') b
               = if decide (b ∈ l) then true else isSelected_at (m_itemsInOrder s) b.
Proof.
  revert s. induction l as [|x l IH]; intros s HI Hin; cbn [foldl].
  { split; [done|]. split; [done|]. split; [done|]. split; [done|]. intros b.
    rewrite decide_False; [done | apply not_elem_of_nil]. }
  set (s1 := moveToSelected x (setSelected x true s)).
  assert (Hx : x ∈ addr <$> m_itemsInOrder s) by (apply Hin, elem_of_cons; by left).
  assert (Hflags1 : forall b, isSelected_at (m_itemsInOrder s1) b
                    = if decide (b = x) then true else isSelected_at (m_itemsInOrder s) b).
  { intros b. simpl. rewrite isSelected_at_setSelected.
    destruct (decide (b = x)); [|done]. by apply bool_decide_eq_true_2. }
  assert (Haddr1 : addr <$> m_itemsInOrder s1 = addr <$> m_itemsInOrder s)
    by (by apply fmap_addr_modify).
  assert (HI1 : Inv s1).
  { unfold Inv. simpl.
    eapply InvR_select_front; [exact HI | done | done | exact Hflags1 |].
    intros y Hy. by right. }
  destruct (IH s1 HI1) as (HI' & Haddr & Hlead & Hnext & Hflags).
  { intros y Hy. rewrite Haddr1. apply Hin, elem_of_cons. by right. }
  split; [done|]. split; [by rewrite Haddr|]. split; [by rewrite Hlead|].
  split; [by rewrite Hnext|].
  intros b. rewrite Hflags, Hflags1.
  destruct (decide (b ∈ l)) as [Hbl|Hbl].
  - rewrite decide_True; [done | apply elem_of_cons; by right].
  - destruct (decide (b = x)) as [->|Hne].
    + rewrite decide_True; [done | apply elem_of_cons; by left].
    + rewrite decide_False; [done|]. intros [?|?]%elem_of_cons; done.
Qed.

Lemma elem_of_range items (lo hi i : nat) it :
  lo <= i <= hi -> items !! i = Some it ->
  addr it ∈ addr <$> take (S hi - lo) (drop lo items).
Proof.
  intros Hr Hl. apply list_elem_of_fmap_2.
  apply list_elem_of_lookup. exists (i - lo).
  rewrite lookup_take_lt by lia. rewrite lookup_drop.
  by replace (lo + (i - lo)) with i by lia.
Qed.

Lemma Inv_selectItemWithShift s a s' sigs :
  Inv s -> selectItemWithShift a s = Some (s', sigs) -> Inv s'.
Proof.
  intros HI. unfold selectItemWithShift.
  destruct (m_pSelectionLeader s) as [l|] eqn:Hlead;
    [|by apply Inv_selectItemNoModifiers].
  destruct (find_item a (m_itemsInOrder s)) as [item|] eqn:Hf; simpl; [|done].
  destruct (index_of l (m_itemsInOrder s)) as [e1|] eqn:He1; simpl; [|done].
  destruct (index_of a (m_itemsInOrder s)) as [e2|] eqn:He2; simpl; [|done].
  destruct (decide (e1 = e2)) as [|Hne]; [by intros [= <- _]|].
  destruct (outward_walk _ _ _ _ _) as [hit|] eqn:Hw; simpl; [|done].
  pose proof (index_of_lt _ _ _ He1) as Hlt1.
  pose proof (index_of_lt _ _ _ He2) as Hlt2.
  destruct (outward_walk_nearest (fun i => bool_decide (i = e2))
              (length (m_itemsInOrder s)) e1 Hlt1) as (h & Hh & _ & _ & Hhit & _ & Hdir).
  { exists e2. split; [done|]. split; [done|]. by apply bool_decide_eq_true_2. }
  rewrite Hw in Hh. injection Hh as <-.
  apply bool_decide_eq_true in Hhit.
  destruct (index_of_lookup _ _ _ He2) as (xa & Hxa & Haddr_a).
  set (lo := match hit with FoundBack _ => e2 | FoundForward _ => e1 end).
  set (hi := match hit with FoundBack _ => e1 | FoundForward _ => e2 end).
  assert (Hrange : lo <= e2 <= hi).
  { unfold lo, hi. destruct hit; simpl in *; lia. }
  assert (Hgoal :
    Inv (setSelectionLeader a true
           (set_leader (Some a)
              (setSelectionLeader l false (select_range lo (S hi) s))))).
  { unfold select_range.
    destruct (select_all_spec
                (addr <$> take (S hi - lo) (drop lo (m_itemsInOrder s))) s HI)
      as (HI1 & Haddr1 & Hlead1 & Hnext1 & Hflags1).
    { intros x (y & -> & Hy)%list_elem_of_fmap. apply list_elem_of_fmap_2.
      by apply subseteq_take, subseteq_drop in Hy. }
    set (s1 := foldl _ s _) in *.
    assert (Ha_sel : isSelected_at (m_itemsInOrder s1) a = true).
    { rewrite Hflags1. rewrite decide_True; [done|].
      rewrite <- Haddr_a. by eapply elem_of_range. }
    unfold Inv. simpl.
    eapply InvR_same_flags; [exact HI1 | by rewrite !fmap_addr_modify | |].
    - intros b. rewrite isSelected_at_setSelectionLeader_true.
      rewrite isSelected_at_setSelectionLeader_false.
      destruct (decide (b = a)) as [->|]; [|done].
      rewrite Ha_sel. apply bool_decide_eq_true_2.
      rewrite fmap_addr_modify by done. by apply isSelected_at_elem.
    - by intros x [= <-]. }
  destruct hit; intros [= <- _]; exact Hgoal.
Qed.

Lemma Inv_itemSelectedByUser s a modifiers s' sigs :
  Inv s -> itemSelectedByUser a modifiers s = Some (s', sigs) -> Inv s'.
Proof.
  intros HI. unfold itemSelectedByUser.
  destruct (ControlModifier modifiers); [by apply Inv_selectItemWithControl|].
  destruct (ShiftModifier modifiers); [by apply Inv_selectItemWithShift|].
  by apply Inv_selectItemNoModifiers.
Qed.

End ClicksWithModifiers.
(** ** The invariant under [setSelection] *)

Section SetSelection.

Implicit Types (s : Impl) (items : list Item) (sel l pre post : list nat) (a b : nat).

Lemma partitioned_three (P : nat -> bool) pre l post :
  Forall (fun x => P x = true) pre -> partitioned P l ->
  Forall (fun x => P x = false) post ->
  partitioned P (pre ++ l ++ post).
Proof.
  intros Hpre (l1 & l2 & -> & H1 & H2) Hpost.
  exists (pre ++ l1), (l2 ++ post). split; [by rewrite <- !app_assoc|].
  split; by apply Forall_app.
Qed.

Lemma setSelection_loop_Inv target l s pre post :
  m_selectedThenUnselected s = pre ++ l ++ post ->
  NoDup (addr <$> m_itemsInOrder s) ->
  m_selectedThenUnselected s ≡ₚ addr <$> m_itemsInOrder s ->
  Forall (fun x => isSelected_at (m_itemsInOrder s) x = true) pre ->
  Forall (fun x => isSelected_at (m_itemsInOrder s) x = false) post ->
  partitioned (isSelected_at (m_itemsInOrder s)) l ->
  LeaderOk (m_itemsInOrder s) (m_pSelectionLeader s) ->
  Forall (fun x => x < next_addr s) (addr <$> m_itemsInOrder s) ->
  let s' := setSelection_loop target l s in
  Inv s'
  /\ addr <$> m_itemsInOrder s' = addr <$> m_itemsInOrder s
  /\ (forall x, m_pSelectionLeader s' = Some x -> m_pSelectionLeader s = Some x).
Proof.
  revert s pre post.
  induction l as [|a l IH]; intros s pre post Hsel Hnd Hperm Hpre Hpost Hpart Hlead Hfresh;
    cbn [setSelection_loop].
  { split; [|done]. split; [|done]. split; [done|]. split; [done|].
    rewrite Hsel. by apply partitioned_three. }
  assert (Hnds : NoDup (pre ++ (a :: l) ++ post)) by (by rewrite <- Hsel, Hperm).
  simpl in Hnds, Hsel.
  destruct (isSelected_at (m_itemsInOrder s) a) eqn:Ea; simpl.
  2: { split; [|done]. split; [|done]. split; [done|]. split; [done|].
       rewrite Hsel. by apply (partitioned_three _ pre (a :: l) post). }
  apply NoDup_app in Hnds as (Hnd1 & Hdisj & Hnd2).
  apply NoDup_cons in Hnd2 as [Ha_rest Hnd2].
  apply not_elem_of_app in Ha_rest as [Ha_l Ha_post].
  assert (Ha_pre : a ∉ pre).
  { intros Hin. apply (Hdisj a Hin). apply elem_of_cons. by left. }
  destruct (decide (target <> a)) as [Hne|Heq]; cbv zeta.
  - set (s1 := moveToUnselected a (setSelected a false s)).
    set (s2 := if decide (m_pSelectionLeader s = Some a) then set_leader None s1 else s1).
    assert (Ha_in : a ∈ addr <$> m_itemsInOrder s) by by apply isSelected_at_elem.
    assert (Hflags : forall b, isSelected_at (m_itemsInOrder s2) b
                     = if decide (b = a) then false else isSelected_at (m_itemsInOrder s) b).
    { intros b. unfold s2. destruct (decide (m_pSelectionLeader s = Some a)); simpl;
        rewrite isSelected_at_setSelected; by destruct (decide (b = a)). }
    assert (Haddr : addr <$> m_itemsInOrder s2 = addr <$> m_itemsInOrder s).
    { unfold s2. destruct (decide (m_pSelectionLeader s = Some a)); simpl;
        by apply fmap_addr_modify. }
    assert (Hsel2 : m_selectedThenUnselected s2 = pre ++ l ++ (post ++ [a])).
    { assert (Hsel1 : m_selectedThenUnselected s1 = pre ++ l ++ (post ++ [a])).
      { unfold s1, moveToUnselected, setSelected.
        cbn [m_selectedThenUnselected set_selectedThenUnselected set_items].
        rewrite Hsel, filter_app, filter_cons_False by (intros H; by apply H).
        rewrite filter_app, !filter_ne_not_elem by done.
        by rewrite <- !app_assoc. }
      unfold s2. by destruct (decide (m_pSelectionLeader s = Some a)). }
    assert (Hlead2 : forall x, m_pSelectionLeader s2 = Some x ->
                               x <> a /\ m_pSelectionLeader s = Some x).
    { intros x. unfold s2. destruct (decide (m_pSelectionLeader s = Some a)) as [|Hn];
        simpl; [done|]. intros Hx. split; [|done]. intros ->. by apply Hn. }
    assert (Hnext : next_addr s2 = next_addr s).
    { unfold s2. by destruct (decide (m_pSelectionLeader s = Some a)). }
    destruct (IH s2 pre (post ++ [a])) as (HI & Haddr' & Hlead').
    + done.
    + by rewrite Haddr.
    + rewrite Haddr, Hsel2, <- Hperm, Hsel.
      rewrite <- (Permutation_middle pre (l ++ post) a).
      rewrite (Permutation_cons_append (pre ++ l ++ post) a).
      by rewrite <- !app_assoc.
    + apply Forall_forall. intros x Hx. rewrite Hflags.
      rewrite decide_False by (by intros ->). by eapply Forall_forall in Hpre.
    + apply Forall_app. split.
      * apply Forall_forall. intros x Hx. rewrite Hflags.
        destruct (decide (x = a)); [done|]. by eapply Forall_forall in Hpost.
      * constructor; [|constructor]. rewrite Hflags. by rewrite decide_True.
    + eapply partitioned_ext; [|by eapply partitioned_cons_inv].
      intros x Hx. rewrite Hflags. rewrite decide_False; [done | by intros ->].
    + intros x Hx. rewrite Hflags. destruct (Hlead2 x Hx) as [Hxa Hx'].
      rewrite decide_False by done. by apply Hlead.
    + by rewrite Haddr, Hnext.
    + split; [done|]. split; [by rewrite Haddr', Haddr|].
      intros x Hx. by apply Hlead2, Hlead'.
  - destruct (IH s (pre ++ [a]) post) as (HI & Haddr' & Hlead'); try done.
    + by rewrite Hsel, <- app_assoc.
    + apply Forall_app. split; [done|]. by constructor.
    + by eapply partitioned_cons_inv.
Qed.

Lemma Inv_setSelection s page_id : Inv s -> Inv (fst (setSelection page_id s)).
Proof.
  intros HI. unfold setSelection.
  destruct (findById page_id s) as [item|] eqn:Hf; [|done]. simpl.
  apply findById_elem in Hf as [Hin _].
  assert (Ha : addr item ∈ addr <$> m_itemsInOrder s) by by apply list_elem_of_fmap_2.
  destruct HI as ((Hnd & Hperm & Hpart) & Hlead & Hfresh).
  destruct (setSelection_loop_Inv (addr item) (m_selectedThenUnselected s) s [] [])
    as (HI' & Haddr & Hlead'); try done.
  { by rewrite app_nil_r. }
  destruct (bool_decide (m_pSelectionLeader s = Some (addr item))); [done|].
  unfold Inv. simpl.
  eapply InvR_select_front; [exact HI' | by rewrite Haddr | by apply fmap_addr_modify | |].
  - intros b. rewrite isSelected_at_setSelectionLeader_true.
    destruct (decide (b = addr item)); [|done].
    apply bool_decide_eq_true_2. by rewrite Haddr.
  - intros x [= <-]. by left.
Qed.

End SetSelection.

(** ** The invariant under [insert] *)

Section Insert.

Implicit Types (s : Impl) (items : list Item).

Lemma Inv_insert_at s where_ info page_num c :
  Inv s -> Inv (fst (insert_at where_ info page_num c s)).
Proof.
  intros HI. unfold insert_at. case_bool_decide; [done|]. simpl.
  unfold Inv in *. simpl. apply InvR_insert. by rewrite take_drop.
Qed.

Lemma shift_items_footprint pos_delta l scene :
  footprint <$> fst (shift_items pos_delta l scene) = footprint <$> l.
Proof.
  revert scene. induction l as [|it l IH]; intros scene; simpl; [done|].
  specialize (IH (updateSceneRect
    (setPos (point_add (pos (composite it)) pos_delta) (composite it)) scene)).
  destruct (shift_items _ l _) as [rest' scene']. simpl in *. by f_equal.
Qed.

Lemma Inv_shift_from s first_shifted pos_delta :
  Inv s -> Inv (shift_from first_shifted pos_delta s).
Proof.
  intros HI. unfold Inv, shift_from. simpl.
  eapply InvR_transfer; [exact HI|].
  rewrite fmap_app, shift_items_footprint, <- fmap_app. by rewrite take_drop.
Qed.

Lemma Inv_commitSceneRect s : Inv s -> Inv (commitSceneRect s).
Proof. done. Qed.

Lemma Inv_set_sceneRect s r : Inv s -> Inv (set_sceneRect r s).
Proof. done. Qed.

Lemma Inv_insert s new_page before_or_after image factory :
  Inv s -> Inv (fst (insert new_page before_or_after image factory s)).
Proof.
  intros HI. unfold insert.
  destruct (match before_or_after with BEFORE => _ | AFTER => _ end) as [hint|]; [|done].
  destruct (match last (m_itemsInOrder s) with Some _ => _ | None => _ end)
    as [page_num offset].
  destruct (insert_at _ _ _ _ _) as [s1 inserted] eqn:Hins. simpl.
  apply Inv_commitSceneRect, Inv_shift_from.
  change s1 with (fst (s1, inserted)). rewrite <- Hins.
  by apply Inv_insert_at, Inv_set_sceneRect.
Qed.

End Insert.
(** ** The invariant under [removePages] and the invalidations *)

Section Editor.

Implicit Types (s : Impl) (items : list Item).

Lemma removePages_loop_Inv to_remove l st next :
  InvR (rm_kept st ++ l) (rm_selectedThenUnselected st) (rm_leader st) next ->
  let st' := removePages_loop to_remove l st in
  InvR (rm_kept st') (rm_selectedThenUnselected st') (rm_leader st') next.
Proof.
  revert st. induction l as [|it l IH]; intros st HI; cbn [removePages_loop].
  { by rewrite app_nil_r in HI. }
  destruct (decide (pageId it ∈ to_remove)) as [Hrm|Hkeep].
  - apply IH. cbn [rm_kept rm_selectedThenUnselected rm_leader].
    by apply InvR_erase.
  - apply IH. cbn [rm_kept rm_selectedThenUnselected rm_leader].
    eapply InvR_transfer; [exact HI|].
    rewrite <- app_assoc. rewrite !fmap_app. done.
Qed.

Lemma modify_pageId_footprint a new_page_id items items' :
  modify_pageId a new_page_id items = Some items' ->
  footprint <$> items' = footprint <$> items.
Proof.
  unfold modify_pageId. case_bool_decide; [done|]. intros [= <-].
  unfold modify_item. rewrite <- list_fmap_compose.
  apply list_fmap_ext. intros _ x _. simpl. by destruct (decide _).
Qed.

Lemma singularize_run_footprint image_id run items items' :
  singularize_run image_id run items = Some items' ->
  footprint <$> items' = footprint <$> items.
Proof.
  revert items. induction run as [|a run IH]; intros items; simpl.
  { by intros [= <-]. }
  destruct (modify_pageId a _ items) as [items1|] eqn:E; simpl; [|done].
  intros H. rewrite (IH _ H). by eapply modify_pageId_footprint.
Qed.

Lemma singularize_all_footprint images items items' :
  singularize_all images items = Some items' ->
  footprint <$> items' = footprint <$> items.
Proof.
  revert items. induction images as [|image_id images IH]; intros items; simpl.
  { by intros [= <-]. }
  destruct (singularize image_id items) as [items1|] eqn:E; simpl; [|done].
  intros H. rewrite (IH _ H). by eapply singularize_run_footprint.
Qed.

Lemma Inv_removePages s to_remove s' sigs :
  Inv s -> removePages to_remove s = Some (s', sigs) -> Inv s'.
Proof.
  intros HI. unfold removePages.
  destruct (singularize_all _ _) as [items|] eqn:E; simpl; [|done].
  intros [= <- _]. apply Inv_commitSceneRect. unfold Inv. simpl.
  eapply InvR_transfer.
  - apply removePages_loop_Inv. exact HI.
  - rewrite (singularize_all_footprint _ _ _ E). done.
Qed.

Lemma rebuild_all_footprint factory l offset scene :
  footprint <$> fst (rebuild_all factory l offset scene) = footprint <$> l.
Proof.
  revert offset scene. induction l as [|it l IH]; intros offset scene; simpl; [done|].
  match goal with |- context [rebuild_all factory l ?o ?sc] =>
    specialize (IH o sc); destruct (rebuild_all factory l o sc) as [rest' scene']
  end.
  simpl in *. by f_equal.
Qed.

Lemma Inv_invalidateAllThumbnails s factory :
  Inv s -> Inv (fst (invalidateAllThumbnails factory s)).
Proof.
  intros HI. unfold invalidateAllThumbnails.
  destruct (rebuild_all _ _ _ _) as [items scene] eqn:E. simpl.
  apply Inv_commitSceneRect. unfold Inv. simpl.
  eapply InvR_transfer; [exact HI|].
  change items with (fst (items, scene)). rewrite <- E, rebuild_all_footprint.
  destruct (m_ptrOrderProvider s); [|done]. by rewrite stable_sort_perm.
Qed.

Lemma reposition_footprint l offset :
  footprint <$> fst (reposition l offset) = footprint <$> l.
Proof.
  revert offset. induction l as [|it l IH]; intros offset; simpl; [done|].
  match goal with |- context [reposition l ?o] =>
    specialize (IH o); destruct (reposition l o) as [rest' offset']
  end.
  simpl in *. by f_equal.
Qed.

Lemma restack_footprint ord_it ord_end size_changed items :
  footprint <$> restack ord_it ord_end size_changed items = footprint <$> items.
Proof.
  unfold restack. rewrite !fmap_app, reposition_footprint.
  assert (Hfollowing : forall offset,
    footprint <$> (if size_changed
                   then fst (reposition (drop (ord_end - ord_it) (drop ord_it items)) offset)
                   else drop (ord_end - ord_it) (drop ord_it items))
    = footprint <$> drop (ord_end - ord_it) (drop ord_it items)).
  { intros offset. destruct size_changed; [apply reposition_footprint | done]. }
  rewrite Hfollowing. rewrite <- !fmap_app. by rewrite !take_drop.
Qed.

Lemma Inv_invalidateThumbnail s page_id factory :
  Inv s -> Inv (fst (invalidateThumbnail page_id factory s)).
Proof.
  intros HI. unfold invalidateThumbnail.
  destruct (findById page_id s) as [found|] eqn:Hf; [|done].
  destruct (index_of (addr found) (m_itemsInOrder s)) as [i|] eqn:Hi; [|done].
  destruct (itemInsertPosition _ _ _ _ _) as [after_new dist].
  destruct (if (dist <=? 0)%Z then _ else _) as [ord_it ord_end]. simpl.
  apply Inv_commitSceneRect. unfold Inv. simpl.
  eapply InvR_transfer; [exact HI|].
  rewrite restack_footprint.
  apply findById_elem in Hf as [Hin _].
  assert (Hl : m_itemsInOrder s !! i = Some found).
  { eapply index_of_find_item; [apply HI | done |]. apply find_item_elem; [apply HI | done]. }
  rewrite (delete_Permutation _ _ _ Hl) at 3.
  rewrite fmap_app, !fmap_cons, <- Permutation_middle, <- fmap_app.
  by rewrite take_drop.
Qed.

End Editor.
(** ** Reading the selection *)

Section SelectedItems.

Implicit Types (s : Impl) (items : list Item) (l : list nat) (acc : gset PageId).

Lemma selectedItems_loop_spec items l acc :
  NoDup (addr <$> items) ->
  (forall x, x ∈ l -> x ∈ addr <$> items) ->
  partitioned (isSelected_at items) l ->
  forall page_id,
    page_id ∈ selectedItems_loop items l acc
    <-> page_id ∈ acc
        \/ exists it, it ∈ items /\ addr it ∈ l /\ m_isSelected it = true
                      /\ pageId it = page_id.
Proof.
  intros Hnd. revert acc.
  induction l as [|a l IH]; intros acc Hin Hpart page_id; cbn [selectedItems_loop].
  { split; [by left|]. intros [H|(it & _ & H & _)]; [done|]. by apply elem_of_nil in H. }
  destruct (find_item_is_Some a items) as [it Hit]; [apply Hin, elem_of_cons; by left|].
  rewrite Hit. pose proof (find_item_Some _ _ _ Hit) as [Hit_in Hit_a].
  destruct (m_isSelected it) eqn:Hs.
  - rewrite IH; [| intros x Hx; apply Hin, elem_of_cons; by right
                 | by eapply partitioned_cons_inv].
    rewrite elem_of_union, elem_of_singleton. split.
    + intros [[->|H]|(x & H1 & H2 & H3 & H4)].
      * right. exists it. rewrite Hit_a. split; [done|].
        split; [apply elem_of_cons; by left | done].
      * by left.
      * right. exists x. split; [done|]. split; [apply elem_of_cons; by right | done].
    + intros [H|(x & H1 & H2 & H3 & H4)]; [left; by right|].
      apply elem_of_cons in H2 as [H2|H2].
      * left. left. rewrite <- H4. f_equal.
        pose proof (find_item_elem _ _ Hnd H1) as Hx. rewrite H2, Hit in Hx. congruence.
      * right. by exists x.
  - split; [by left|]. intros [H|(x & H1 & H2 & H3 & H4)]; [done|]. exfalso.
    assert (Ha : isSelected_at items a = false) by (unfold isSelected_at; by rewrite Hit).
    pose proof (partitioned_head_false _ _ _ Hpart Ha (addr x) H2) as Hx.
    unfold isSelected_at in Hx. rewrite (find_item_elem _ _ Hnd H1) in Hx. congruence.
Qed.

(** The scan of the selection index up to the first unselected item
    collects the identities of exactly the selected items. *)
Lemma selectedItems_spec s :
  SelOk (m_itemsInOrder s) (m_selectedThenUnselected s) ->
  forall page_id,
    page_id ∈ selectedItems s
    <-> exists it, it ∈ m_itemsInOrder s /\ m_isSelected it = true /\ pageId it = page_id.
Proof.
  intros (Hnd & Hperm & Hpart) page_id. unfold selectedItems.
  rewrite selectedItems_loop_spec; [|done | by intros x; rewrite Hperm | done].
  split.
  - intros [H|(it & H1 & H2 & H3 & H4)]; [by apply not_elem_of_empty in H|].
    by exists it.
  - intros (it & H1 & H2 & H3). right. exists it. split; [done|].
    split; [|done]. rewrite Hperm. by apply list_elem_of_fmap_2.
Qed.

End SelectedItems.

(** ** The invariant under [reset] *)

Section Reset.

Implicit Types (s : Impl) (items : list Item).

Lemma insert_at_flags s where_ info page_num c b :
  Inv s ->
  isSelected_at (m_itemsInOrder (fst (insert_at where_ info page_num c s))) b
  = isSelected_at (m_itemsInOrder s) b.
Proof.
  intros (Hsel & Hlead & Hfresh). unfold insert_at. case_bool_decide; [done|]. simpl.
  rewrite <- (take_drop where_ (m_itemsInOrder s)) in Hsel, Hfresh.
  set (it := mkItem (next_addr s) info page_num c false false).
  destruct (SelOk_insert _ _ it _ Hsel) as [_ Hflags]; [|done|].
  { simpl. intros Hin. eapply Forall_forall in Hfresh; [|done]. lia. }
  rewrite Hflags. by rewrite take_drop.
Qed.

Lemma Inv_clear s : Inv (clear s).
Proof.
  unfold Inv, clear. simpl. split; [|split].
  - split; [constructor|]. split; [done|]. by exists [], [].
  - by intros a.
  - constructor.
Qed.

Lemma reset_step_inv factory selected selection_leader i page_info st :
  reset_inv st ->
  (id page_info = id selection_leader -> id page_info ∈ selected) ->
  reset_inv (reset_step factory selected selection_leader i page_info st).
Proof.
  destruct st as [[s some] offset]. intros [HI Hsome] Hleader. simpl in HI, Hsome.
  unfold reset_step, push_back.
  set (c := setPos _ _). set (s0 := set_sceneRect _ s).
  set (s1 := fst (insert_at _ _ _ c s0)).
  assert (HI1 : Inv s1) by by apply Inv_insert_at.
  assert (Hflags1 : forall b, isSelected_at (m_itemsInOrder s1) b
                              = isSelected_at (m_itemsInOrder s) b).
  { intros b. unfold s1. by rewrite insert_at_flags. }
  destruct (last (m_itemsInOrder s1)) as [item|] eqn:Hlast.
  2: { split; [done|]. simpl. intros a Ha. rewrite Hflags1. by apply Hsome. }
  assert (Hin : addr item ∈ addr <$> m_itemsInOrder s1).
  { apply list_elem_of_fmap_2. apply last_Some in Hlast as [l' ->].
    apply elem_of_app. right. apply elem_of_cons. by left. }
  destruct (decide (id page_info ∈ selected)) as [Hsel|Hnsel].
  - set (s2 := moveToSelected (addr item) (setSelected (addr item) true s1)).
    assert (Hflags2 : forall b, isSelected_at (m_itemsInOrder s2) b
              = if decide (b = addr item) then true else isSelected_at (m_itemsInOrder s1) b).
    { intros b. simpl. rewrite isSelected_at_setSelected.
      destruct (decide (b = addr item)); [|done]. by apply bool_decide_eq_true_2. }
    assert (Haddr2 : addr <$> m_itemsInOrder s2 = addr <$> m_itemsInOrder s1)
      by (by apply fmap_addr_modify).
    assert (Ha : isSelected_at (m_itemsInOrder s2) (addr item) = true).
    { rewrite Hflags2. by rewrite decide_True. }
    destruct (decide (id page_info = id selection_leader)).
    + split; simpl; [|by intros a [= <-]].
      eapply InvR_select_front; [exact HI1 | done | done | exact Hflags2 |].
      intros x [= <-]. by left.
    + split; simpl; [|by intros a [= <-]].
      eapply InvR_select_front; [exact HI1 | done | done | exact Hflags2 |].
      intros x Hx. by right.
  - rewrite decide_False by (intros Heq; by apply Hnsel, Hleader).
    split; [done|]. simpl. intros a Ha. rewrite Hflags1. by apply Hsome.
Qed.

Lemma reset_loop_inv factory selected selection_leader sorted_pages i st :
  reset_inv st ->
  Forall (fun p => id p = id selection_leader -> id p ∈ selected) sorted_pages ->
  reset_inv (reset_loop factory selected selection_leader i sorted_pages st).
Proof.
  revert i st. induction sorted_pages as [|p l IH]; intros i st Hst Hall; simpl; [done|].
  apply Forall_cons in Hall as [Hp Hall].
  apply IH; [|done]. by apply reset_step_inv.
Qed.

Lemma Inv_reset s snapshot action provider factory :
  Inv s -> snapshot_ok snapshot ->
  Inv (fst (reset snapshot action provider factory s)).
Proof.
  intros HI Hok. unfold reset.
  set (s0 := set_provider provider s).
  set (selected := match action with KEEP_SELECTION => selectedItems s0
                                   | RESET_SELECTION => ∅ end).
  set (selection_leader := match action, m_pSelectionLeader s0 with
                           | KEEP_SELECTION, Some l => _ | _, _ => nullPageInfo end).
  destruct (pages snapshot) as [|p0 rest] eqn:Hpages; [apply Inv_clear|].
  rewrite <- Hpages.
  set (sorted_pages := match m_ptrOrderProvider (clear s0) with
                       | Some p => stable_sort (comparator p) (pages snapshot)
                       | None => pages snapshot end).
  assert (Hall : Forall (fun p => id p = id selection_leader -> id p ∈ selected)
                   sorted_pages).
  { assert (Hperm : sorted_pages ≡ₚ pages snapshot).
    { unfold sorted_pages. destruct (m_ptrOrderProvider _); [apply stable_sort_perm|done]. }
    rewrite Hperm. eapply Forall_impl; [exact Hok|]. simpl. intros p Hp Heq.
    assert (Hnull : id selection_leader = nullPageId -> id p ∈ selected).
    { intros Hn. exfalso. apply Hp. unfold pi_imageId. by rewrite Heq, Hn. }
    unfold selection_leader, selected in *. destruct action; [|by apply Hnull].
    destruct (m_pSelectionLeader s0) as [l|] eqn:Hl; [|by apply Hnull].
    destruct (find_item l (m_itemsInOrder s0)) as [it|] eqn:Hit; [|by apply Hnull].
    apply selectedItems_spec; [apply HI|]. exists it.
    apply find_item_Some in Hit as Hit'. destruct Hit' as [Hin _].
    split; [done|]. split; [|done].
    destruct HI as (_ & Hlead & _). specialize (Hlead l Hl).
    unfold isSelected_at in Hlead. simpl in Hit. by rewrite Hit in Hlead. }
  pose proof (reset_loop_inv factory selected selection_leader sorted_pages 0
                (clear s0, None, 0%Q)) as Hloop.
  destruct (reset_loop _ _ _ _ _ _) as [[s1 some] offset].
  destruct Hloop as [HI1 Hsome]; [|done|].
  { split; [apply Inv_clear | done]. }
  simpl in HI1, Hsome.
  set (s2 := commitSceneRect s1).
  assert (HI2 : Inv s2) by done.
  assert (Hfinal : forall l,
    isSelected_at (m_itemsInOrder s2) l = true ->
    InvR (modify_item l (Item_setSelectionLeader true) (m_itemsInOrder s2))
      (m_selectedThenUnselected s2) (Some l) (next_addr s2)).
  { intros l Hl.
    eapply InvR_same_flags; [exact HI2 | by apply fmap_addr_modify | |].
    - intros b. rewrite isSelected_at_setSelectionLeader_true.
      destruct (decide (b = l)) as [->|]; [|done].
      rewrite Hl. apply bool_decide_eq_true_2. by apply isSelected_at_elem.
    - by intros x [= <-]. }
  destruct (m_pSelectionLeader s2) as [l|] eqn:Hl2.
  { cbv zeta. rewrite Hl2.
    assert (Inv (setSelectionLeader l true s2)).
    { unfold Inv. simpl. simpl in Hl2. rewrite Hl2. apply Hfinal. by apply HI2. }
    by destruct (find_item l _). }
  destruct some as [a|].
  { cbv zeta. cbn [m_pSelectionLeader set_leader].
    assert (Inv (setSelectionLeader a true (set_leader (Some a) s2))).
    { unfold Inv. simpl. apply Hfinal. by apply Hsome. }
    by destruct (find_item a _). }
  destruct (findById (id (curPage snapshot)) s2) as [it|] eqn:Hcur.
  2: { cbv zeta. by rewrite Hl2. }
  cbv zeta. cbn [m_pSelectionLeader set_leader moveToSelected set_selectedThenUnselected].
  apply findById_elem in Hcur as [Hin _].
  assert (Ha : addr it ∈ addr <$> m_itemsInOrder s2) by by apply list_elem_of_fmap_2.
  assert (Inv (setSelectionLeader (addr it) true
                 (moveToSelected (addr it) (set_leader (Some (addr it)) s2)))).
  { unfold Inv. simpl.
    eapply InvR_select_front; [exact HI2 | done | by apply fmap_addr_modify | |].
    - intros b. rewrite isSelected_at_setSelectionLeader_true.
      destruct (decide (b = addr it)); [|done]. by apply bool_decide_eq_true_2.
    - intros x [= <-]. by left. }
  by destruct (find_item (addr it) _).
Qed.

End Reset.
(** ** Invariants of the reachable states *)

Lemma Inv_new : Inv Impl_new.
Proof.
  unfold Inv, Impl_new. simpl. split; [|split].
  - split; [constructor|]. split; [done|]. by exists [], [].
  - by intros a.
  - constructor.
Qed.

Lemma reachable_Inv s : reachable s -> Inv s.
Proof.
  induction 1.
  - apply Inv_new.
  - by apply Inv_reset.
  - by apply Inv_insert.
  - by eapply Inv_removePages.
  - by apply Inv_invalidateThumbnail.
  - by apply Inv_invalidateAllThumbnails.
  - by apply Inv_setSelection.
  - by eapply Inv_itemSelectedByUser.
Qed.

Lemma Inv_leader_selected s : Inv s -> leader_selected s.
Proof.
  intros (_ & Hlead & _) a Ha. by apply isSelected_at_true, Hlead.
Qed.

Lemma example_snapshot_ok : snapshot_ok example_snapshot.
Proof. unfold snapshot_ok. simpl. repeat constructor; done. Qed.

Lemma example_state_reachable : reachable example_state.
Proof. apply reachable_reset; [apply reachable_new | apply example_snapshot_ok]. Qed.

(** C1: in every reachable state a non-null selection leader refers to a
    stored item whose selected flag is set, and every public operation
    ([reset], [insert], [removePages], [invalidateThumbnail],
    [invalidateAllThumbnails], [setSelection] and the click handlers
    behind [itemSelectedByUser]) leads to a state where this holds
    again. *)
Theorem leader_selected_invariant (s : Impl) :
  reachable s ->
  leader_selected s
  /\ (forall snapshot action provider factory, snapshot_ok snapshot ->
        leader_selected (fst (reset snapshot action provider factory s)))
  /\ (forall new_page before_or_after image factory,
        leader_selected (fst (insert new_page before_or_after image factory s)))
  /\ (forall to_remove s' sigs, removePages to_remove s = Some (s', sigs) ->
        leader_selected s')
  /\ (forall page_id factory,
        leader_selected (fst (invalidateThumbnail page_id factory s)))
  /\ (forall factory, leader_selected (fst (invalidateAllThumbnails factory s)))
  /\ (forall page_id, leader_selected (fst (setSelection page_id s)))
  /\ (forall a s' sigs, selectItemNoModifiers a s = Some (s', sigs) -> leader_selected s')
  /\ (forall a s' sigs, selectItemWithControl a s = Some (s', sigs) -> leader_selected s')
  /\ (forall a s' sigs, selectItemWithShift a s = Some (s', sigs) -> leader_selected s').
Proof.
  intros Hr. pose proof (reachable_Inv s Hr) as HI.
  split; [by apply Inv_leader_selected|].
  split; [intros; by apply Inv_leader_selected, Inv_reset|].
  split; [intros; by apply Inv_leader_selected, Inv_insert|].
  split; [intros; by eapply Inv_leader_selected, Inv_removePages|].
  split; [intros; by apply Inv_leader_selected, Inv_invalidateThumbnail|].
  split; [intros; by apply Inv_leader_selected, Inv_invalidateAllThumbnails|].
  split; [intros; by apply Inv_leader_selected, Inv_setSelection|].
  split; [intros; by eapply Inv_leader_selected, Inv_selectItemNoModifiers|].
  split; [intros; by eapply Inv_leader_selected, Inv_selectItemWithControl|].
  intros; by eapply Inv_leader_selected, Inv_selectItemWithShift.
Qed.

Lemma leader_selected_invariant_witness :
  reachable example_state /\ leader_selected example_state.
Proof.
  split; [apply example_state_reachable|].
  apply (leader_selected_invariant example_state), example_state_reachable.
Defined.

(** C7: in every reachable state the selected-then-unselected index is
    partitioned, no unselected record coming before a selected one, so
    that the scan from the front to the first unselected record
    ([selectedItems]) enumerates exactly the identities of the selected
    items. *)
Theorem selection_index_partitioned (s : Impl) :
  reachable s ->
  (forall i j a b,
     i < j ->
     m_selectedThenUnselected s !! i = Some a ->
     m_selectedThenUnselected s !! j = Some b ->
     isSelected_at (m_itemsInOrder s) a = false ->
     isSelected_at (m_itemsInOrder s) b = false)
  /\ (forall page_id,
        page_id ∈ selectedItems s
        <-> exists it, it ∈ m_itemsInOrder s /\ m_isSelected it = true
                       /\ pageId it = page_id).
Proof.
  intros Hr. destruct (reachable_Inv s Hr) as (Hsel & _ & _). split.
  - intros i j a b. apply partitioned_lookup, Hsel.
  - by apply selectedItems_spec.
Qed.

Lemma selection_index_partitioned_witness :
  reachable example_state
  /\ forall page_id,
       page_id ∈ selectedItems example_state
       <-> exists it, it ∈ m_itemsInOrder example_state /\ m_isSelected it = true
                      /\ pageId it = page_id.
Proof.
  split; [apply example_state_reachable|].
  apply (selection_index_partitioned example_state), example_state_reachable.
Defined.
(** ** Plain clicks *)

(** C4, as amended: a click without modifier keys on a stored item clears
    the whole selection, selects the clicked item and makes it the leader,
    and always emits one leader-changed signal for it, flagged as selected
    by the user; the signal carries the redundant flag exactly when the
    clicked item was already the leader, whether or not other items were
    selected as well. *)
Theorem selectItemNoModifiers_spec (s : Impl) (a : nat) (item : Item) :
  reachable s ->
  find_item a (m_itemsInOrder s) = Some item ->
  exists s' flags,
    selectItemNoModifiers a s
    = Some (s', [newSelectionLeader (pageInfo item)
                   (sceneBoundingRect (composite item)) flags])
    /\ (forall b, isSelected_at (m_itemsInOrder s') b = true <-> b = a)
    /\ m_pSelectionLeader s' = Some a
    /\ selected_by_user flags = true
    /\ (redundant_selection flags = true <-> m_pSelectionLeader s = Some a).
Proof.
  intros Hr Hf. pose proof (reachable_Inv s Hr) as HI.
  unfold selectItemNoModifiers. rewrite Hf. simpl.
  eexists _, _. split; [reflexivity|].
  destruct (InvR_clearSelection _ _ _ _ HI) as (_ & Haddr & Hall).
  assert (Hin : a ∈ addr <$> m_itemsInOrder s).
  { apply find_item_Some in Hf as [Hin <-]. by apply list_elem_of_fmap_2. }
  split; [|split; [done|]].
  - intros b. simpl. rewrite isSelected_at_setSelectionLeader_true, Hall.
    destruct (decide (b = a)) as [->|Hne]; [|done].
    rewrite bool_decide_eq_true_2; [done | by rewrite Haddr].
  - destruct (decide (m_pSelectionLeader s = Some a)); simpl; split; try done.
Qed.

Lemma selectItemNoModifiers_spec_witness :
  reachable two_selected_state
  /\ exists item,
       find_item 2 (m_itemsInOrder two_selected_state) = Some item
       /\ exists s' flags,
            selectItemNoModifiers 2 two_selected_state
            = Some (s', [newSelectionLeader (pageInfo item)
                           (sceneBoundingRect (composite item)) flags])
            /\ redundant_selection flags = true.
Proof.
  assert (Hr : reachable two_selected_state).
  { eapply (reachable_itemSelectedByUser example_state 2 (mkModifiers true false));
      [apply example_state_reachable | reflexivity]. }
  split; [exact Hr|]. eexists. split; [reflexivity|].
  destruct (selectItemNoModifiers_spec two_selected_state 2 _ Hr eq_refl)
    as (s' & flags & Hs & _ & _ & _ & Hred).
  exists s', flags. split; [exact Hs|]. by apply Hred.
Defined.

(** Counterexample to C4 as stated: with pages one and two selected and
    page two the leader, a plain click on page two is flagged redundant
    although page two was not the only selected item. *)
Lemma plain_click_redundant_counterexample :
  ~ plain_click_redundant_as_specified two_selected_state 2.
Proof.
  intros H.
  pose proof (H _ _ _ _ eq_refl) as [H1 _].
  destruct (H1 eq_refl) as [_ Honly].
  specialize (Honly 1 eq_refl). discriminate.
Qed.
(** ** Shift-click on the leader *)

(** C3 (the code departs from the claim here): a shift-click on the item
    that already is the selection leader leaves the controller, and with
    it the selection set, unchanged, but returns before anything is
    emitted: there is no leader-changed signal, and the redundant flag
    computed for this very case is never sent. *)
Theorem selectItemWithShift_on_leader (s : Impl) (a : nat) (s' : Impl)
    (sigs : list Signal) :
  m_pSelectionLeader s = Some a ->
  selectItemWithShift a s = Some (s', sigs) ->
  s' = s /\ sigs = [].
Proof.
  intros Hl. unfold selectItemWithShift. rewrite Hl.
  destruct (find_item a (m_itemsInOrder s)); simpl; [|done].
  destruct (index_of a (m_itemsInOrder s)) as [e|]; simpl; [|done].
  rewrite decide_True by done. by intros [= <- <-].
Qed.

Lemma selectItemWithShift_on_leader_witness :
  m_pSelectionLeader example_state = Some 1
  /\ selectItemWithShift 1 example_state = Some (example_state, [])
  /\ (example_state = example_state /\ @nil Signal = []).
Proof.
  split; [reflexivity|]. split; [reflexivity|].
  apply (selectItemWithShift_on_leader example_state 1 example_state []);
    reflexivity.
Defined.

(** ** Ctrl-click on the leader *)

Lemma multipleItemsSelected_true s a b :
  SelOk (m_itemsInOrder s) (m_selectedThenUnselected s) ->
  a <> b ->
  isSelected_at (m_itemsInOrder s) a = true ->
  isSelected_at (m_itemsInOrder s) b = true ->
  multipleItemsSelected s = true.
Proof.
  intros (Hnd & Hperm & (l1 & l2 & Hsel & H1 & H2)) Hne Ha Hb.
  assert (Hin : forall x, isSelected_at (m_itemsInOrder s) x = true -> x ∈ l1).
  { intros x Hx. pose proof (isSelected_at_elem _ _ Hx) as Hx'.
    rewrite <- Hperm, Hsel in Hx'. apply elem_of_app in Hx' as [|Hx2]; [done|].
    eapply Forall_forall in H2; [|done]. congruence. }
  pose proof (Hin a Ha) as Ha1. pose proof (Hin b Hb) as Hb1.
  unfold multipleItemsSelected. rewrite Hsel.
  destruct l1 as [|x [|y l1]].
  - by apply elem_of_nil in Ha1.
  - apply list_elem_of_singleton in Ha1, Hb1. congruence.
  - simpl. apply Forall_cons in H1 as [Hx H1]. apply Forall_cons in H1 as [Hy _].
    by rewrite Hx, Hy.
Qed.

(** C2: a ctrl-click on the selection leader while another item is
    selected deselects the clicked item and makes leader the nearest
    remaining selected item by distance in display order, the one before
    the clicked item when two are equally near (the search steps one back,
    then one forward, alternating); one leader-changed signal is emitted
    for the new leader and it carries the avoid-scrolling flag. *)
Theorem selectItemWithControl_on_leader (s : Impl) (a : nat) :
  reachable s ->
  m_pSelectionLeader s = Some a ->
  (exists b, b <> a /\ isSelected_at (m_itemsInOrder s) b = true) ->
  exists s' i j leader flags,
    selectItemWithControl a s
    = Some (s', [newSelectionLeader (pageInfo leader)
                   (sceneBoundingRect (composite leader)) flags])
    /\ avoid_scrolling_to flags = true
    /\ index_of a (m_itemsInOrder s) = Some i
    /\ m_itemsInOrder s !! j = Some leader
    /\ j <> i
    /\ m_isSelected leader = true
    /\ m_pSelectionLeader s' = Some (addr leader)
    /\ isSelected_at (m_itemsInOrder s') a = false
    /\ (forall k it,
          m_itemsInOrder s !! k = Some it -> k <> i -> m_isSelected it = true ->
          distance i j <= distance i k
          /\ (distance i k = distance i j -> k <> j -> j < i)).
Proof.
  intros Hr Hl (b & Hba & Hb). pose proof (reachable_Inv s Hr) as HI.
  destruct HI as (Hsel & Hlead & _). pose proof Hsel as (Hnd & Hperm & Hpart).
  pose proof (Hlead a Hl) as Ha.
  destruct (isSelected_at_true _ _ Ha) as (item & Hf & Hitem).
  set (items := m_itemsInOrder s) in *.
  set (items2 := modify_item a (Item_setSelected false) items).
  assert (Hmulti : multipleItemsSelected s = true)
    by (by apply (multipleItemsSelected_true s a b)).
  destruct (index_of_is_Some a items) as [i Hi]; [by apply isSelected_at_elem|].
  destruct (index_of_is_Some b items) as [jb Hjb]; [by apply isSelected_at_elem|].
  pose proof (index_of_lt _ _ _ Hi) as Hlti.
  (* positions other than [i] hold the same items before and after the
     clicked item is unselected *)
  assert (Hother : forall k it, items !! k = Some it -> k <> i -> addr it <> a).
  { intros k it Hk Hki Heq. apply Hki.
    pose proof (lookup_index_of _ _ _ Hnd Hk) as Hk'. rewrite Heq in Hk'.
    congruence. }
  assert (Hhit : forall k, k <> i ->
            selected_at_index items2 k = selected_at_index items k).
  { intros k Hki. unfold selected_at_index, items2. rewrite lookup_modify_item.
    destruct (items !! k) as [it|] eqn:Hk; simpl; [|done].
    rewrite decide_False; [done | by eapply Hother]. }
  assert (Hhit_i : selected_at_index items2 i = false).
  { unfold selected_at_index, items2. rewrite lookup_modify_item.
    rewrite (index_of_find_item _ _ _ _ Hnd Hi Hf). simpl.
    by rewrite decide_True by (by apply find_item_Some in Hf as [_ ?]). }
  assert (Hlen : length items2 = length items) by apply length_fmap.
  destruct (outward_walk_nearest (selected_at_index items2) (length items2) i)
    as (h & Hw & Hj & Hji & Hjhit & Hnear & _).
  { by rewrite Hlen. }
  { destruct (index_of_lookup _ _ _ Hjb) as (itb & Hitb & Hab).
    assert (Hjbi : jb <> i).
    { intros ->. rewrite (index_of_find_item _ _ _ _ Hnd Hi Hf) in Hitb.
      injection Hitb as <-. apply find_item_Some in Hf as [_ ?]. congruence. }
    exists jb. split; [rewrite Hlen; by eapply index_of_lt|]. split; [done|].
    rewrite Hhit by done.
    rewrite <- (selected_at_index_lookup _ _ _ Hnd Hitb). by rewrite Hab. }
  set (j := hit_index h) in *.
  rewrite Hhit in Hjhit by done.
  destruct (items !! j) as [leader|] eqn:Hleader;
    [|by unfold selected_at_index in Hjhit; rewrite Hleader in Hjhit].
  assert (Hleader2 : items2 !! j = Some leader).
  { unfold items2. rewrite lookup_modify_item, Hleader. simpl.
    rewrite decide_False; [done | by eapply Hother]. }
  assert (Hleader_sel : m_isSelected leader = true).
  { unfold selected_at_index in Hjhit. by rewrite Hleader in Hjhit. }
  exists (setSelectionLeader (addr leader) true
            (set_leader (Some (addr leader))
               (set_leader None (moveToUnselected a (setSelected a false s))))),
    i, j, leader, (flags_or SELECTED_BY_USER AVOID_SCROLLING_TO).
  split.
  { unfold selectItemWithControl. fold items. rewrite Hf. simpl.
    rewrite Hitem, Hmulti. simpl. rewrite Hl.
    rewrite decide_False by (intros H; by apply H).
    fold items. fold items2.
    assert (index_of a items2 = Some i) as ->
      by (unfold items2; by rewrite index_of_modify).
    simpl. rewrite Hw. simpl. fold j. rewrite Hleader2. done. }
  split; [done|]. split; [done|]. split; [done|]. split; [done|].
  split; [done|]. split; [done|]. split.
  { simpl. fold items. rewrite isSelected_at_setSelectionLeader_true.
    rewrite decide_False by (intros Heq; by eapply (Hother j leader)).
    rewrite isSelected_at_setSelected. by rewrite decide_True. }
  intros k it Hk Hki Hit.
  apply Hnear; [rewrite Hlen; by eapply lookup_lt_Some | done |].
  rewrite Hhit by done. unfold selected_at_index. by rewrite Hk.
Qed.
(** ** Reset keeping the selection *)

Section ResetKeepsSelection.

Implicit Types (s : Impl) (items : list Item) (keep : gset PageId).

Lemma modify_item_fresh (n : nat) (f : Item -> Item) items :
  Forall (fun a => a < n) (addr <$> items) -> modify_item n f items = items.
Proof.
  intros H. unfold modify_item. rewrite <- (list_fmap_id items) at 2.
  apply list_fmap_ext. intros i x Hx. simpl.
  rewrite decide_False; [done|]. intros Heq.
  eapply Forall_forall in H; [|apply list_elem_of_fmap_2; by eapply list_elem_of_lookup_2].
  lia.
Qed.

Lemma reset_step_sel factory keep selection_leader i p st processed :
  reset_inv st -> reset_sel_inv keep processed st ->
  id p ∉ id <$> processed ->
  reset_sel_inv keep (processed ++ [p]) (reset_step factory keep selection_leader i p st).
Proof.
  destruct st as [[s some] offset]. intros [HI _] (Hids & Hsel & Hsome) Hnew.
  simpl in HI, Hids, Hsel, Hsome.
  unfold reset_step, push_back, insert_at.
  set (c := setPos _ _).
  rewrite bool_decide_eq_false_2.
  2: { intros (it & Hin & Hit)%Exists_exists. simpl in Hin. apply Hnew.
       rewrite <- Hit, <- Hids. by apply list_elem_of_fmap_2. }
  cbn [fst m_itemsInOrder set_sceneRect m_selectedThenUnselected next_addr].
  rewrite take_ge, drop_ge by done.
  set (new := mkItem (next_addr s) p i c false false).
  rewrite last_snoc.
  assert (Hfresh : Forall (fun a => a < next_addr s) (addr <$> m_itemsInOrder s))
    by apply HI.
  destruct (decide (id p ∈ keep)) as [HpS|HpS].
  - assert (Hitems : forall sA, m_itemsInOrder
              (if decide (id p = id selection_leader)
               then set_leader (Some (addr new)) (moveToSelected (addr new)
                      (setSelected (addr new) true sA))
               else moveToSelected (addr new) (setSelected (addr new) true sA))
              = modify_item (addr new) (Item_setSelected true) (m_itemsInOrder sA)).
    { intros sA. by destruct (decide _). }
    unfold reset_sel_inv.
    cbn [fst snd]. rewrite Hitems. cbn [m_itemsInOrder].
    unfold modify_item at 1 2. rewrite fmap_app. fold (modify_item (addr new)
      (Item_setSelected true) (m_itemsInOrder s)).
    rewrite modify_item_fresh by done. simpl. rewrite decide_True by done.
    split; [by rewrite !fmap_app, Hids|]. split.
    + intros it [Hin|Hin]%elem_of_app; [by apply Hsel|].
      apply list_elem_of_singleton in Hin as ->. simpl. done.
    + by destruct (decide (id p = id selection_leader)).
  - unfold reset_sel_inv. cbn [fst snd].
    assert (Hitems : forall sA, m_itemsInOrder
              (if decide (id p = id selection_leader)
               then set_leader (Some (addr new)) sA else sA) = m_itemsInOrder sA).
    { intros sA. by destruct (decide _). }
    rewrite Hitems. cbn [m_itemsInOrder].
    split; [by rewrite !fmap_app, Hids|]. split.
    + intros it [Hin|Hin]%elem_of_app; [by apply Hsel|].
      apply list_elem_of_singleton in Hin as ->. simpl. done.
    + intros Hn q [Hq|Hq]%elem_of_app; [by apply Hsome|].
      by apply list_elem_of_singleton in Hq as ->.
Qed.

Lemma reset_loop_sel factory keep selection_leader sorted_pages i st processed :
  reset_inv st -> reset_sel_inv keep processed st ->
  Forall (fun p => id p = id selection_leader -> id p ∈ keep) sorted_pages ->
  NoDup (id <$> processed ++ sorted_pages) ->
  reset_sel_inv keep (processed ++ sorted_pages)
    (reset_loop factory keep selection_leader i sorted_pages st).
Proof.
  revert i st processed.
  induction sorted_pages as [|p l IH]; intros i st processed Hst Hsel Hall Hnd; simpl.
  { by rewrite app_nil_r. }
  apply Forall_cons in Hall as [Hp Hall].
  replace (processed ++ p :: l) with ((processed ++ [p]) ++ l) in *
    by (by rewrite <- app_assoc).
  apply IH; [by apply reset_step_inv | | done | done].
  apply reset_step_sel; [done | done |].
  rewrite !fmap_app in Hnd. apply NoDup_app in Hnd as (Hnd & _ & _).
  apply NoDup_app in Hnd as (_ & Hdisj & _).
  intros Hin. apply (Hdisj _ Hin). simpl. apply elem_of_cons. by left.
Qed.

Lemma selection_view_setSelectionLeader items l :
  NoDup (addr <$> items) -> isSelected_at items l = true ->
  selection_view <$> modify_item l (Item_setSelectionLeader true) items
  = selection_view <$> items.
Proof.
  intros Hnd Hl. unfold modify_item. rewrite <- list_fmap_compose.
  apply list_fmap_ext. intros i x Hx. simpl.
  destruct (decide (addr x = l)) as [<-|]; [|done].
  unfold selection_view. simpl. f_equal.
  rewrite (selected_at_index_lookup _ _ _ Hnd Hx) in Hl.
  unfold selected_at_index in Hl. rewrite Hx in Hl. by rewrite Hl.
Qed.

Lemma selectedItems_view s :
  SelOk (m_itemsInOrder s) (m_selectedThenUnselected s) ->
  forall page_id,
    page_id ∈ selectedItems s <-> (page_id, true) ∈ selection_view <$> m_itemsInOrder s.
Proof.
  intros Hsel page_id. rewrite selectedItems_spec by done.
  rewrite list_elem_of_fmap. unfold selection_view. split.
  - intros (it & H1 & H2 & H3). exists it. by rewrite H2, H3.
  - intros (it & [= H1 H2] & H3). by exists it.
Qed.

End ResetKeepsSelection.
Lemma two_selected_state_reachable : reachable two_selected_state.
Proof.
  eapply (reachable_itemSelectedByUser example_state 2 (mkModifiers true false));
    [apply example_state_reachable | reflexivity].
Qed.

Lemma selectItemWithControl_on_leader_witness :
  reachable two_selected_state
  /\ m_pSelectionLeader two_selected_state = Some 2
  /\ (exists b, b <> 2 /\ isSelected_at (m_itemsInOrder two_selected_state) b = true)
  /\ exists s' leader flags,
       selectItemWithControl 2 two_selected_state
       = Some (s', [newSelectionLeader (pageInfo leader)
                      (sceneBoundingRect (composite leader)) flags])
       /\ avoid_scrolling_to flags = true
       /\ m_pSelectionLeader s' = Some (addr leader).
Proof.
  split; [apply two_selected_state_reachable|]. split; [reflexivity|].
  assert (Hother : exists b,
            b <> 2 /\ isSelected_at (m_itemsInOrder two_selected_state) b = true)
    by (exists 1; split; [lia | reflexivity]).
  split; [exact Hother|].
  destruct (selectItemWithControl_on_leader two_selected_state 2
              two_selected_state_reachable eq_refl Hother)
    as (s' & i & j & leader & flags & H1 & H2 & _ & _ & _ & _ & H3 & _).
  exists s', leader, flags. split; [exact H1|]. split; [exact H2 | exact H3].
Defined.

(** The round trip of a selection that is not empty: for a snapshot of
    distinct pages of existing images that still lists every selected
    identity, [reset] with [KEEP_SELECTION] leaves [selectedItems] as it
    was. *)
Lemma reset_keeps_nonempty_selection (s : Impl) (snapshot : PageSequenceSnapshot)
    (provider : option PageOrderProvider) (factory : ThumbnailFactory) :
  reachable s ->
  snapshot_ok snapshot ->
  NoDup (id <$> pages snapshot) ->
  selectedItems s <> ∅ ->
  (forall page_id, page_id ∈ selectedItems s -> page_id ∈ id <$> pages snapshot) ->
  selectedItems (fst (reset snapshot KEEP_SELECTION provider factory s))
  = selectedItems s.
Proof.
  intros Hr Hok Hnd Hne Hsub. pose proof (reachable_Inv s Hr) as HI.
  pose proof (Inv_reset s snapshot KEEP_SELECTION provider factory HI Hok) as HIf.
  apply set_eq. intros page_id.
  rewrite (selectedItems_view _ (proj1 HIf)). clear HIf.
  apply set_choose_L in Hne as [chosen Hchosen].
  unfold reset.
  set (s0 := set_provider provider s).
  change (selectedItems s0) with (selectedItems s).
  set (keep := selectedItems s) in *.
  set (selection_leader := match m_pSelectionLeader s0 with
                           | Some l => _ | None => nullPageInfo end).
  destruct (pages snapshot) as [|p0 rest] eqn:Hpages.
  { apply Hsub in Hchosen. simpl in Hchosen. by apply elem_of_nil in Hchosen. }
  rewrite <- Hpages in *. clear p0 rest Hpages.
  set (sorted_pages := match m_ptrOrderProvider (clear s0) with
                       | Some p => stable_sort (comparator p) (pages snapshot)
                       | None => pages snapshot end).
  assert (Hperm : sorted_pages ≡ₚ pages snapshot).
  { unfold sorted_pages. destruct (m_ptrOrderProvider _); [apply stable_sort_perm|done]. }
  assert (Hall : Forall (fun p => id p = id selection_leader -> id p ∈ keep)
                   sorted_pages).
  { rewrite Hperm. eapply Forall_impl; [exact Hok|]. simpl. intros p Hp Heq.
    assert (Hnull : id selection_leader = nullPageId -> id p ∈ keep).
    { intros Hn. exfalso. apply Hp. unfold pi_imageId. by rewrite Heq, Hn. }
    unfold selection_leader in *.
    destruct (m_pSelectionLeader s0) as [l|] eqn:Hl; [|by apply Hnull].
    destruct (find_item l (m_itemsInOrder s0)) as [it|] eqn:Hit; [|by apply Hnull].
    apply selectedItems_spec; [apply HI|]. exists it.
    apply find_item_Some in Hit as Hit'. destruct Hit' as [Hin _].
    split; [done|]. split; [|done].
    destruct HI as (_ & Hlead & _). specialize (Hlead l Hl).
    unfold isSelected_at in Hlead. simpl in Hit. by rewrite Hit in Hlead. }
  assert (Hinit : reset_inv (clear s0, None, 0%Q)) by (split; [apply Inv_clear | done]).
  pose proof (reset_loop_inv factory keep selection_leader sorted_pages 0 _ Hinit Hall)
    as Hloop.
  pose proof (reset_loop_sel factory keep selection_leader sorted_pages 0 _ []
                Hinit) as Hloop_sel.
  destruct (reset_loop _ _ _ _ _ _) as [[s1 some] offset].
  destruct Hloop as [HI1 Hsome].
  destruct Hloop_sel as (Hids & Hsel & Hnone); [| exact Hall | by rewrite Hperm |].
  { unfold reset_sel_inv. simpl. split; [done|].
    split; [intros it Hit | intros _ p Hit]; by apply elem_of_nil in Hit. }
  simpl in HI1, Hsome, Hids, Hsel, Hnone.
  (* something is selected, so the loop has found a selected item *)
  destruct some as [a|].
  2: { exfalso. pose proof (Hsub _ Hchosen) as Hin.
       apply list_elem_of_fmap in Hin as (p & -> & Hp).
       apply (Hnone eq_refl p); [by rewrite Hperm | done]. }
  (* the items and their flags after the loop *)
  assert (Hview : forall vw,
    vw ∈ selection_view <$> m_itemsInOrder s1
    <-> exists p, p ∈ pages snapshot /\ vw = (id p, bool_decide (id p ∈ keep))).
  { intros vw. rewrite list_elem_of_fmap. split.
    - intros (it & -> & Hit).
      assert (Hid : pageId it ∈ id <$> sorted_pages)
        by (rewrite <- Hids; by apply list_elem_of_fmap_2).
      apply list_elem_of_fmap in Hid as (p & Hp & Hpin).
      exists p. split; [by rewrite <- Hperm|]. unfold selection_view. rewrite <- Hp.
      f_equal. specialize (Hsel it Hit).
      destruct (m_isSelected it); symmetry.
      + apply bool_decide_eq_true_2. by apply Hsel.
      + apply bool_decide_eq_false_2. intros H. apply Hsel in H. done.
    - intros (p & Hp & ->).
      assert (Hid : id p ∈ pageId <$> m_itemsInOrder s1).
      { rewrite Hids. apply list_elem_of_fmap_2. by rewrite Hperm. }
      apply list_elem_of_fmap in Hid as (it & Hit & Hitin).
      exists it. split; [|done]. unfold selection_view. rewrite Hit.
      f_equal. specialize (Hsel it Hitin).
      destruct (m_isSelected it).
      + apply bool_decide_eq_true_2. by apply Hsel.
      + apply bool_decide_eq_false_2. intros H. apply Hsel in H. done. }
  (* making an already selected item leader does not change them *)
  assert (Hfinal : forall l, isSelected_at (m_itemsInOrder s1) l = true ->
    selection_view <$> modify_item l (Item_setSelectionLeader true) (m_itemsInOrder s1)
    = selection_view <$> m_itemsInOrder s1).
  { intros l Hl. apply selection_view_setSelectionLeader; [apply HI1 | done]. }
  assert (Hgoal : forall l, isSelected_at (m_itemsInOrder s1) l = true ->
    (page_id, true)
    ∈ selection_view <$> modify_item l (Item_setSelectionLeader true) (m_itemsInOrder s1)
    <-> page_id ∈ keep).
  { intros l Hl. rewrite Hfinal, Hview by done. split.
    - intros (p & Hp & [= -> Hd]). symmetry in Hd. by apply bool_decide_eq_true in Hd.
    - intros Hk. pose proof (Hsub _ Hk) as Hin.
      apply list_elem_of_fmap in Hin as (p & -> & Hp).
      exists p. split; [done|]. by rewrite bool_decide_eq_true_2. }
  cbv zeta.
  destruct (m_pSelectionLeader (commitSceneRect s1)) as [l|] eqn:Hl.
  - rewrite Hl.
    assert (Hsl : isSelected_at (m_itemsInOrder s1) l = true) by (by apply HI1).
    destruct (find_item l _); simpl; by apply Hgoal.
  - cbn [m_pSelectionLeader set_leader].
    assert (Hsa : isSelected_at (m_itemsInOrder s1) a = true) by (by apply Hsome).
    destruct (find_item a _); simpl; by apply Hgoal.
Qed.
Lemma example_state_selectedItems :
  selectedItems example_state = {[ id (page 1) ]}.
Proof. vm_compute. reflexivity. Qed.

(** Counterexample to C6 as stated: from the empty controller nothing is
    selected, so every selected identity occurs in any page list; yet
    after [reset] with [KEEP_SELECTION] on three pages the current page
    has become the leader and [selectedItems] holds it. *)
Lemma reset_roundtrip_counterexample :
  ~ reset_roundtrip_as_specified Impl_new example_snapshot None example_factory.
Proof.
  intros H.
  assert (Heq : selectedItems
                  (fst (reset example_snapshot KEEP_SELECTION None example_factory
                          Impl_new))
                = selectedItems Impl_new).
  { apply H. intros page_id Hin. by apply not_elem_of_empty in Hin. }
  revert Heq. apply (bool_decide_eq_false_1 _). vm_compute. reflexivity.
Qed.
(** ** The order of the by-identity index *)

Section ByIdentity.

Implicit Types (items : list Item) (x y : Item) (a b c : PageId).

Lemma PageId_ltb_spec a b :
  PageId_ltb a b = true
  <-> imageId a < imageId b
      \/ (imageId a = imageId b /\ subPage_rank (subPage a) < subPage_rank (subPage b)).
Proof.
  unfold PageId_ltb.
  destruct (Nat.ltb_spec (imageId a) (imageId b)); [split; [by left | done]|].
  destruct (Nat.ltb_spec (imageId b) (imageId a)); [split; [done | lia]|].
  destruct (Nat.ltb_spec (subPage_rank (subPage a)) (subPage_rank (subPage b))).
  - split; [intros _; right; lia | done].
  - split; [done | lia].
Qed.

Lemma PageId_ltb_false a b :
  PageId_ltb a b = false
  <-> imageId b < imageId a
      \/ (imageId a = imageId b /\ subPage_rank (subPage b) <= subPage_rank (subPage a)).
Proof.
  rewrite <- not_true_iff_false, PageId_ltb_spec. lia.
Qed.

Lemma insert_sorted_StronglySorted x l :
  StronglySorted not_after l ->
  StronglySorted not_after
    (insert_sorted (fun u v : Item => PageId_ltb (pageId u) (pageId v)) x l).
Proof.
  induction l as [|y l IH]; intros Hs; simpl.
  { repeat constructor. }
  apply StronglySorted_cons in Hs as [Hy Hs].
  destruct (PageId_ltb (pageId y) (pageId x)) eqn:E.
  - constructor; [by apply IH|].
    apply Forall_forall. intros z Hz.
    rewrite insert_sorted_perm in Hz. apply elem_of_cons in Hz as [->|Hz].
    + unfold not_after. apply PageId_ltb_spec in E. apply PageId_ltb_false. lia.
    + by eapply Forall_forall in Hy.
  - constructor; [by constructor|]. constructor; [done|].
    apply Forall_forall. intros z Hz. eapply Forall_forall in Hy; [|done].
    unfold not_after in *. apply PageId_ltb_false in E, Hy. apply PageId_ltb_false. lia.
Qed.

Lemma itemsById_StronglySorted items : StronglySorted not_after (itemsById items).
Proof.
  unfold itemsById, stable_sort. induction items as [|x items IH]; simpl.
  - constructor.
  - by apply insert_sorted_StronglySorted.
Qed.

Lemma dropWhile_app_all {A} (p : A -> bool) (l1 l2 : list A) :
  Forall (fun e => p e = true) l1 -> dropWhile p (l1 ++ l2) = dropWhile p l2.
Proof.
  induction l1 as [|e l1 IH]; intros H; simpl; [done|].
  apply Forall_cons in H as [-> H]. by apply IH.
Qed.

Lemma takeWhile_none {A} (p : A -> bool) (l : list A) :
  Forall (fun e => p e = false) l -> takeWhile p l = [].
Proof. destruct l as [|e l]; [done|]. simpl. by intros [-> _]%Forall_cons. Qed.

(** The run of the items of one image in the by-identity index, when the
    image has one stored page. *)
Lemma image_run_single image items x :
  NoDup items ->
  x ∈ items -> pi_imageId (pageInfo x) = image ->
  (forall y, y ∈ items -> pi_imageId (pageInfo y) = image -> y = x) ->
  takeWhile (fun it => bool_decide (pi_imageId (pageInfo it) = image))
    (from_lower_bound (PageId_of_image image) items) = [x].
Proof.
  intros Hnd Hx Himg Huniq. unfold from_lower_bound.
  pose proof (itemsById_StronglySorted items) as Hsorted.
  assert (Hperm : itemsById items ≡ₚ items) by apply stable_sort_perm.
  assert (Hx' : x ∈ itemsById items) by by rewrite Hperm.
  apply list_elem_of_split in Hx' as (l1 & l2 & Hsplit).
  rewrite Hsplit in *. rewrite <- Hperm in Hnd.
  apply NoDup_app in Hnd as (_ & Hdisj & Hnd2).
  apply NoDup_cons in Hnd2 as [Hx2 _].
  assert (Hother : forall y, y ∈ l1 ++ l2 -> pi_imageId (pageInfo y) <> image).
  { intros y Hy Hyi. assert (y = x) as ->.
    { apply Huniq; [|done]. rewrite <- Hperm.
      apply elem_of_app in Hy as [?|?]; apply elem_of_app; [by left|].
      right. apply elem_of_cons. by right. }
    apply elem_of_app in Hy as [Hy|Hy]; [|done].
    apply (Hdisj _ Hy). apply elem_of_cons. by left. }
  rewrite dropWhile_app_all.
  - simpl.
    assert (PageId_ltb (pageId x) (PageId_of_image image) = false) as ->.
    { apply PageId_ltb_false. right. unfold pi_imageId, pageId in *. simpl. lia. }
    simpl. rewrite bool_decide_eq_true_2 by done. f_equal.
    apply takeWhile_none. apply Forall_forall. intros y Hy.
    apply bool_decide_eq_false_2. apply Hother. apply elem_of_app. by right.
  - apply Forall_forall. intros y Hy.
    assert (Hyx : not_after y x).
    { eapply StronglySorted_app_1_elem_of; [exact Hsorted | done|].
      apply elem_of_cons. by left. }
    unfold not_after in Hyx. apply PageId_ltb_false in Hyx.
    apply PageId_ltb_spec. simpl.
    assert (Hne : pi_imageId (pageInfo y) <> image)
      by (apply Hother, elem_of_app; by left).
    unfold pi_imageId, pageId in *. lia.
Qed.

Lemma image_run_none image items :
  (forall y, y ∈ items -> pi_imageId (pageInfo y) <> image) ->
  takeWhile (fun it => bool_decide (pi_imageId (pageInfo it) = image))
    (from_lower_bound (PageId_of_image image) items) = [].
Proof.
  intros Hnone. apply takeWhile_none. apply Forall_forall. intros y Hy.
  apply bool_decide_eq_false_2. apply Hnone.
  unfold from_lower_bound in Hy. apply elem_of_dropWhile in Hy.
  by rewrite elem_of_itemsById in Hy.
Qed.

End ByIdentity.
(** ** Removal of one half of a two-sided scan *)

Section Singularize.

Implicit Types (s : Impl) (items : list Item) (x y : Item) (image : ImageId).

Lemma removePages_loop_spec (to_remove : gset PageId) l st :
  let st' := removePages_loop to_remove l st in
  store_view <$> rm_kept st'
  = (store_view <$> rm_kept st)
    ++ (store_view <$> filter (fun it => pageId it ∉ to_remove) l)
  /\ images_to_singularize st'
     = images_to_singularize st
       ++ ((fun it => pi_imageId (pageInfo it))
             <$> filter (fun it => pageId it ∈ to_remove
                                   /\ subPage (pageId it) <> SINGLE_PAGE) l).
Proof.
  revert st. induction l as [|it l IH]; intros st; cbn [removePages_loop].
  { by rewrite !app_nil_r. }
  destruct (decide (pageId it ∈ to_remove)) as [Hrm|Hkeep].
  - match goal with |- context [removePages_loop to_remove l ?st1] =>
      destruct (IH st1) as [Hk Hi] end.
    cbn [rm_kept images_to_singularize] in Hk, Hi.
    split.
    + rewrite Hk. rewrite filter_cons_False; [done | by intros H].
    + rewrite Hi. destruct (subPage (pageId it)) eqn:Hsub.
      * rewrite filter_cons_False; [done|]. intros [_ H]. by apply H.
      * rewrite filter_cons_True by (split; [done | congruence]).
        by rewrite fmap_cons, <- app_assoc.
      * rewrite filter_cons_True by (split; [done | congruence]).
        by rewrite fmap_cons, <- app_assoc.
  - match goal with |- context [removePages_loop to_remove l ?st1] =>
      destruct (IH st1) as [Hk Hi] end.
    cbn [rm_kept images_to_singularize] in Hk, Hi.
    split.
    + rewrite Hk. rewrite filter_cons_True by done.
      by rewrite !fmap_app, fmap_cons, <- app_assoc.
    + rewrite Hi. rewrite filter_cons_False; [done|]. by intros [H _].
Qed.

Lemma addr_inj_on items x y :
  NoDup (addr <$> items) -> x ∈ items -> y ∈ items -> addr x = addr y -> x = y.
Proof.
  intros Hnd Hx Hy Heq.
  pose proof (find_item_elem _ _ Hnd Hx) as H1.
  pose proof (find_item_elem _ _ Hnd Hy) as H2. congruence.
Qed.

Lemma singularize_spec image items :
  NoDup (addr <$> items) ->
  (forall x y, x ∈ items -> y ∈ items ->
     pi_imageId (pageInfo x) = image -> pi_imageId (pageInfo y) = image -> x = y) ->
  singularize image items = Some (singularized [image] <$> items).
Proof.
  intros Hnd Huniq. unfold singularize.
  destruct (decide (Exists (fun y => pi_imageId (pageInfo y) = image) items))
    as [Hex|Hnone].
  - apply Exists_exists in Hex as (x & Hx & Himg).
    rewrite (image_run_single image items x); [| by eapply NoDup_fmap_1 | done | done |].
    2: { intros y Hy Hyi. by apply Huniq. }
    simpl. unfold modify_pageId. rewrite bool_decide_eq_false_2.
    2: { intros (y & Hy & Hne & Hid)%Exists_exists. apply Hne. f_equal.
         apply Huniq; [done | done | | done]. unfold pi_imageId.
         unfold pageId in Hid. by rewrite Hid. }
    simpl. f_equal. unfold modify_item. apply list_fmap_ext. intros i it Hit.
    apply list_elem_of_lookup_2 in Hit. unfold singularized.
    destruct (decide (addr it = addr x)) as [Heq|Hne].
    + assert (it = x) as -> by by eapply addr_inj_on.
      rewrite decide_True by (rewrite Himg; apply elem_of_cons; by left).
      by rewrite Himg.
    + rewrite decide_False; [done|]. intros Hin%list_elem_of_singleton.
      apply Hne. f_equal. by apply Huniq.
  - rewrite image_run_none.
    2: { intros y Hy Hyi. apply Hnone. apply Exists_exists. by exists y. }
    simpl. f_equal. rewrite <- (list_fmap_id items) at 1.
    apply list_fmap_ext. intros i it Hit.
    apply list_elem_of_lookup_2 in Hit. unfold singularized.
    rewrite decide_False; [done|]. intros Hin%list_elem_of_singleton.
    apply Hnone. apply Exists_exists. by exists it.
Qed.

Lemma singularized_cons image images it :
  singularized images (singularized [image] it) = singularized (image :: images) it.
Proof.
  unfold singularized.
  destruct (decide (pi_imageId (pageInfo it) ∈ [image])) as [Hin|Hnin].
  - apply list_elem_of_singleton in Hin.
    rewrite (decide_True (P := pi_imageId (pageInfo it) ∈ image :: images))
      by (apply elem_of_cons; by left).
    simpl. by destruct (decide _).
  - destruct (decide (pi_imageId (pageInfo it) ∈ images)) as [Hin'|Hnin'].
    + rewrite decide_True; [done | apply elem_of_cons; by right].
    + rewrite decide_False; [done|]. intros [?|?]%elem_of_cons; [|done].
      apply Hnin. by apply list_elem_of_singleton.
Qed.

Lemma singularized_addr images it : addr (singularized images it) = addr it.
Proof. unfold singularized. by destruct (decide _). Qed.

Lemma singularized_image images it :
  pi_imageId (pageInfo (singularized images it)) = pi_imageId (pageInfo it).
Proof. unfold singularized. by destruct (decide _). Qed.

Lemma singularize_all_spec images items :
  NoDup (addr <$> items) ->
  (forall image, image ∈ images -> forall x y, x ∈ items -> y ∈ items ->
     pi_imageId (pageInfo x) = image -> pi_imageId (pageInfo y) = image -> x = y) ->
  singularize_all images items = Some (singularized images <$> items).
Proof.
  revert items. induction images as [|image images IH]; intros items Hnd Huniq; simpl.
  { f_equal. rewrite <- (list_fmap_id items) at 1. apply list_fmap_ext.
    intros i it _. unfold singularized. rewrite decide_False; [done|].
    apply not_elem_of_nil. }
  rewrite singularize_spec; [|done|].
  2: { apply Huniq. apply elem_of_cons. by left. }
  simpl. rewrite IH.
  - f_equal. rewrite <- list_fmap_compose. apply list_fmap_ext.
    intros i it _. simpl. apply singularized_cons.
  - rewrite <- list_fmap_compose.
    erewrite list_fmap_ext; [exact Hnd|]. intros i it _. simpl.
    apply singularized_addr.
  - intros img Himg x1 y1 (x & -> & Hx)%list_elem_of_fmap (y & -> & Hy)%list_elem_of_fmap.
    rewrite !singularized_image. intros H1 H2. f_equal.
    eapply Huniq; [apply elem_of_cons; by right | done..].
Qed.

End Singularize.

(** ** Uniqueness of the page ids of the stored items *)

Section UniqueIds.

Implicit Types (s : Impl) (items : list Item) (a : nat).

Lemma fmap_pageId_modify a (f : Item -> Item) items :
  (forall it, pageInfo (f it) = pageInfo it) ->
  pageId <$> modify_item a f items = pageId <$> items.
Proof.
  intros Hf. unfold modify_item. rewrite <- list_fmap_compose.
  apply list_fmap_ext. intros _ x _. simpl. unfold pageId.
  destruct (decide _); [by rewrite Hf | done].
Qed.

Lemma store_view_pageId items :
  pageId <$> items = (fun v => id (snd (fst (fst v)))) <$> (store_view <$> items).
Proof. rewrite <- list_fmap_compose. by apply list_fmap_ext. Qed.

Lemma clearSelection_loop_ids (l : list nat) items :
  pageId <$> clearSelection_loop l items = pageId <$> items.
Proof.
  revert items. induction l as [|a l IH]; intros items; simpl; [done|].
  destruct (isSelected_at items a); [|done].
  rewrite IH. by apply fmap_pageId_modify.
Qed.

Lemma ids_selectItemNoModifiers s a s' sigs :
  selectItemNoModifiers a s = Some (s', sigs) ->
  pageId <$> m_itemsInOrder s' = pageId <$> m_itemsInOrder s.
Proof.
  unfold selectItemNoModifiers.
  destruct (find_item a (m_itemsInOrder s)); simpl; [|done].
  intros [= <- _]. simpl.
  rewrite fmap_pageId_modify by done. apply clearSelection_loop_ids.
Qed.

Lemma ids_selectItemWithControl s a s' sigs :
  selectItemWithControl a s = Some (s', sigs) ->
  pageId <$> m_itemsInOrder s' = pageId <$> m_itemsInOrder s.
Proof.
  unfold selectItemWithControl.
  destruct (find_item a (m_itemsInOrder s)) as [item|]; simpl; [|done].
  destruct (m_isSelected item); simpl.
  2: { intros [= <- _]. destruct (m_pSelectionLeader s); simpl;
         by rewrite !fmap_pageId_modify. }
  destruct (multipleItemsSelected s); simpl.
  2: { destruct (m_pSelectionLeader s) as [l|]; simpl; [|done].
       destruct (find_item l (m_itemsInOrder s)); simpl; [|done].
       by intros [= <- _]. }
  destruct (decide (m_pSelectionLeader s <> Some a)).
  { intros [= <- _]. simpl. by rewrite fmap_pageId_modify. }
  simpl. destruct (index_of a _); simpl; [|done].
  destruct (outward_walk _ _ _ _ _); simpl; [|done].
  destruct (_ !! _); simpl; [|done].
  intros [= <- _]. simpl. by rewrite !fmap_pageId_modify.
Qed.

Lemma ids_select_all (l : list nat) s :
  pageId <$> m_itemsInOrder
               (foldl (fun s x => moveToSelected x (setSelected x true s)) s l)
  = pageId <$> m_itemsInOrder s.
Proof.
  revert s. induction l as [|x l IH]; intros s; simpl; [done|].
  rewrite IH. simpl. by apply fmap_pageId_modify.
Qed.

Lemma ids_selectItemWithShift s a s' sigs :
  selectItemWithShift a s = Some (s', sigs) ->
  pageId <$> m_itemsInOrder s' = pageId <$> m_itemsInOrder s.
Proof.
  unfold selectItemWithShift.
  destruct (m_pSelectionLeader s) as [l|]; [|apply ids_selectItemNoModifiers].
  destruct (find_item a (m_itemsInOrder s)); simpl; [|done].
  destruct (index_of l _) as [e1|]; simpl; [|done].
  destruct (index_of a _) as [e2|]; simpl; [|done].
  destruct (decide (e1 = e2)); [by intros [= <- _]|].
  destruct (outward_walk _ _ _ _ _) as [hit|]; simpl; [|done].
  destruct hit; intros [= <- _]; simpl; rewrite !fmap_pageId_modify by done;
    apply ids_select_all.
Qed.

Lemma ids_setSelection_loop target (l : list nat) s :
  pageId <$> m_itemsInOrder (setSelection_loop target l s)
  = pageId <$> m_itemsInOrder s.
Proof.
  revert s. induction l as [|a l IH]; intros s; simpl; [done|].
  destruct (isSelected_at (m_itemsInOrder s) a); simpl; [|done].
  destruct (decide (target <> a)); [|apply IH].
  rewrite IH. destruct (decide _); simpl; by apply fmap_pageId_modify.
Qed.

Lemma ids_setSelection s page_id :
  pageId <$> m_itemsInOrder (fst (setSelection page_id s))
  = pageId <$> m_itemsInOrder s.
Proof.
  unfold setSelection. destruct (findById page_id s); [|done]. simpl.
  destruct (bool_decide _); simpl.
  - apply ids_setSelection_loop.
  - rewrite fmap_pageId_modify by done. apply ids_setSelection_loop.
Qed.

Lemma ids_insert_at s where_ info page_num c :
  NoDup (pageId <$> m_itemsInOrder s) ->
  NoDup (pageId <$> m_itemsInOrder (fst (insert_at where_ info page_num c s))).
Proof.
  intros Hnd. unfold insert_at. case_bool_decide as Hex; [done|]. simpl.
  rewrite fmap_app, fmap_cons, <- Permutation_middle, <- fmap_app, take_drop.
  apply NoDup_cons. split; [|done]. intros Hin. apply Hex.
  apply list_elem_of_fmap in Hin as (it & Hit & Hin).
  apply Exists_exists. exists it. split; [done|]. by rewrite <- Hit.
Qed.

Lemma shift_items_store_view pos_delta l scene :
  store_view <$> fst (shift_items pos_delta l scene) = store_view <$> l.
Proof.
  revert scene. induction l as [|it l IH]; intros scene; simpl; [done|].
  match goal with |- context [shift_items pos_delta l ?sc] =>
    specialize (IH sc); destruct (shift_items pos_delta l sc) as [rest' scene']
  end.
  simpl in *. by f_equal.
Qed.

Lemma ids_insert s new_page before_or_after image factory :
  NoDup (pageId <$> m_itemsInOrder s) ->
  NoDup (pageId <$> m_itemsInOrder
                      (fst (insert new_page before_or_after image factory s))).
Proof.
  intros Hnd. unfold insert.
  destruct (match before_or_after with BEFORE => _ | AFTER => _ end) as [hint|]; [|done].
  destruct (match last (m_itemsInOrder s) with Some _ => _ | None => _ end)
    as [page_num offset].
  destruct (insert_at _ _ _ _ _) as [s1 inserted] eqn:Hins. simpl.
  rewrite store_view_pageId, fmap_app, shift_items_store_view, <- fmap_app, take_drop.
  rewrite <- store_view_pageId.
  change s1 with (fst (s1, inserted)). rewrite <- Hins. by apply ids_insert_at.
Qed.

Lemma modify_item_not_elem a (f : Item -> Item) items :
  a ∉ addr <$> items -> modify_item a f items = items.
Proof.
  intros Hn. unfold modify_item. rewrite <- (list_fmap_id items) at 2.
  apply list_fmap_ext. intros i x Hx. simpl.
  rewrite decide_False; [done|]. intros Heq. apply Hn. rewrite <- Heq.
  apply list_elem_of_fmap_2. by eapply list_elem_of_lookup_2.
Qed.

Lemma modify_pageId_ids a new_page_id items items' :
  NoDup (addr <$> items) -> NoDup (pageId <$> items) ->
  modify_pageId a new_page_id items = Some items' ->
  NoDup (pageId <$> items').
Proof.
  unfold modify_pageId. case_bool_decide as Hex; [done|]. intros Hnda Hnd [= <-].
  induction items as [|x items IH]; [done|].
  simpl in Hnda, Hnd. apply NoDup_cons in Hnda as [Hxa Hnda].
  apply NoDup_cons in Hnd as [Hx Hnd].
  assert (Hex' : ~ Exists (fun it => addr it <> a /\ pageId it = new_page_id) items).
  { intros H. apply Hex. by apply Exists_cons_tl. }
  unfold modify_item. rewrite fmap_cons. fold (modify_item a (PageIdMutator new_page_id) items).
  destruct (decide (addr x = a)) as [Hxeq|Hxne].
  - rewrite modify_item_not_elem by (by rewrite <- Hxeq).
    simpl. apply NoDup_cons. split; [|done].
    intros (y & Hy & Hyin)%list_elem_of_fmap. apply Hex'. apply Exists_exists.
    exists y. split; [done|]. split; [|done]. intros Hya. apply Hxa.
    rewrite Hxeq, <- Hya. by apply list_elem_of_fmap_2.
  - simpl. apply NoDup_cons. split; [|by apply IH].
    intros (y' & Hy' & Hyin)%list_elem_of_fmap.
    apply list_elem_of_fmap in Hyin as (y & -> & Hyin).
    destruct (decide (addr y = a)).
    + apply Hex. apply Exists_cons_hd. split; [done|]. by rewrite Hy'.
    + apply Hx. rewrite Hy'. by apply list_elem_of_fmap_2.
Qed.

Lemma singularize_all_ids images items items' :
  NoDup (addr <$> items) -> NoDup (pageId <$> items) ->
  singularize_all images items = Some items' ->
  NoDup (pageId <$> items').
Proof.
  assert (Haddr : forall l l', footprint <$> l' = footprint <$> l ->
                               NoDup (addr <$> l) -> NoDup (addr <$> l')).
  { intros l l' H. by rewrite <- !footprint_addr, H. }
  assert (Hrun : forall image_id run l l',
    NoDup (addr <$> l) -> NoDup (pageId <$> l) ->
    singularize_run image_id run l = Some l' -> NoDup (pageId <$> l')).
  { intros image_id run. induction run as [|a run IH]; intros l l' Ha Hp; simpl.
    { by intros [= <-]. }
    destruct (modify_pageId a _ l) as [l1|] eqn:E; simpl; [|done].
    apply IH.
    - eapply Haddr; [|exact Ha]. by eapply modify_pageId_footprint.
    - by eapply modify_pageId_ids. }
  revert items. induction images as [|image_id images IH]; intros items Ha Hp; simpl.
  { by intros [= <-]. }
  destruct (singularize image_id items) as [items1|] eqn:E; simpl; [|done].
  apply IH.
  - eapply Haddr; [|exact Ha]. by eapply singularize_run_footprint.
  - by eapply Hrun.
Qed.

Lemma ids_removePages s to_remove s' sigs :
  Inv s -> NoDup (pageId <$> m_itemsInOrder s) ->
  removePages to_remove s = Some (s', sigs) ->
  NoDup (pageId <$> m_itemsInOrder s').
Proof.
  intros HI Hnd. unfold removePages.
  set (st0 := mkRemoveLoop [] _ _ [] _ _).
  destruct (removePages_loop_spec to_remove (m_itemsInOrder s) st0) as [Hk _].
  pose proof (removePages_loop_Inv to_remove (m_itemsInOrder s) st0 (next_addr s) HI)
    as ((Hnda & _) & _).
  simpl in Hk.
  destruct (singularize_all _ _) as [items|] eqn:E; simpl; [|done].
  intros [= <- _]. simpl.
  eapply singularize_all_ids; [exact Hnda | | exact E].
  rewrite store_view_pageId, Hk, <- store_view_pageId.
  eapply sublist_NoDup; [exact Hnd|]. apply fmap_sublist, sublist_filter.
Qed.

Lemma reposition_store_view l offset :
  store_view <$> fst (reposition l offset) = store_view <$> l.
Proof.
  revert offset. induction l as [|it l IH]; intros offset; simpl; [done|].
  match goal with |- context [reposition l ?o] =>
    specialize (IH o); destruct (reposition l o) as [rest' offset']
  end.
  simpl in *. by f_equal.
Qed.

Lemma restack_store_view ord_it ord_end size_changed items :
  store_view <$> restack ord_it ord_end size_changed items = store_view <$> items.
Proof.
  unfold restack. rewrite !fmap_app, reposition_store_view.
  assert (Hfollowing : forall offset,
    store_view <$> (if size_changed
                    then fst (reposition (drop (ord_end - ord_it) (drop ord_it items)) offset)
                    else drop (ord_end - ord_it) (drop ord_it items))
    = store_view <$> drop (ord_end - ord_it) (drop ord_it items)).
  { intros offset. destruct size_changed; [apply reposition_store_view | done]. }
  rewrite Hfollowing. rewrite <- !fmap_app. by rewrite !take_drop.
Qed.

Lemma ids_invalidateThumbnail s page_id factory :
  Inv s -> NoDup (pageId <$> m_itemsInOrder s) ->
  NoDup (pageId <$> m_itemsInOrder (fst (invalidateThumbnail page_id factory s))).
Proof.
  intros HI Hnd. unfold invalidateThumbnail.
  destruct (findById page_id s) as [found|] eqn:Hf; [|done].
  destruct (index_of (addr found) (m_itemsInOrder s)) as [i|] eqn:Hi; [|done].
  destruct (itemInsertPosition _ _ _ _ _) as [after_new dist].
  destruct (if (dist <=? 0)%Z then _ else _) as [ord_it ord_end]. simpl.
  rewrite store_view_pageId, restack_store_view, <- store_view_pageId.
  apply findById_elem in Hf as [Hin _].
  assert (Hl : m_itemsInOrder s !! i = Some found).
  { eapply index_of_find_item; [apply HI | done |]. apply find_item_elem; [apply HI | done]. }
  rewrite (delete_Permutation _ _ _ Hl) in Hnd.
  rewrite fmap_app, !fmap_cons, <- Permutation_middle, <- fmap_app.
  by rewrite take_drop.
Qed.

Lemma rebuild_all_store_view factory l offset scene :
  store_view <$> fst (rebuild_all factory l offset scene) = store_view <$> l.
Proof.
  revert offset scene. induction l as [|it l IH]; intros offset scene; simpl; [done|].
  match goal with |- context [rebuild_all factory l ?o ?sc] =>
    specialize (IH o sc); destruct (rebuild_all factory l o sc) as [rest' scene']
  end.
  simpl in *. by f_equal.
Qed.

Lemma ids_invalidateAllThumbnails s factory :
  NoDup (pageId <$> m_itemsInOrder s) ->
  NoDup (pageId <$> m_itemsInOrder (fst (invalidateAllThumbnails factory s))).
Proof.
  intros Hnd. unfold invalidateAllThumbnails.
  destruct (rebuild_all _ _ _ _) as [items scene] eqn:E. simpl.
  change items with (fst (items, scene)).
  rewrite <- E, store_view_pageId, rebuild_all_store_view, <- store_view_pageId.
  destruct (m_ptrOrderProvider s); [|done]. by rewrite stable_sort_perm.
Qed.

Lemma ids_reset_step factory selected selection_leader i page_info st :
  NoDup (pageId <$> m_itemsInOrder (fst (fst st))) ->
  NoDup (pageId <$> m_itemsInOrder
           (fst (fst (reset_step factory selected selection_leader i page_info st)))).
Proof.
  destruct st as [[s some] offset]. simpl. intros Hnd.
  unfold reset_step, push_back.
  set (s1 := fst (insert_at _ _ _ _ _)).
  assert (Hnd1 : NoDup (pageId <$> m_itemsInOrder s1)) by (by apply ids_insert_at).
  destruct (last (m_itemsInOrder s1)) as [item|]; [|done].
  destruct (decide (id page_info ∈ selected)); destruct (decide (id page_info = _));
    simpl; by rewrite ?fmap_pageId_modify.
Qed.

Lemma ids_reset_loop factory selected selection_leader sorted_pages i st :
  NoDup (pageId <$> m_itemsInOrder (fst (fst st))) ->
  NoDup (pageId <$> m_itemsInOrder
           (fst (fst (reset_loop factory selected selection_leader i sorted_pages st)))).
Proof.
  revert i st. induction sorted_pages as [|p l IH]; intros i st Hnd; simpl; [done|].
  by apply IH, ids_reset_step.
Qed.

Lemma ids_reset s snapshot action provider factory :
  NoDup (pageId <$> m_itemsInOrder (fst (reset snapshot action provider factory s))).
Proof.
  unfold reset.
  destruct (pages snapshot) as [|p0 rest]; [constructor|].
  match goal with |- context [reset_loop ?f ?sel ?ldr ?i ?pg ?st] =>
    pose proof (ids_reset_loop f sel ldr pg i st) as Hloop;
    destruct (reset_loop f sel ldr i pg st) as [[s1 some] offset]
  end.
  simpl in Hloop. specialize (Hloop ltac:(constructor)). cbv zeta.
  assert (Hfinal : forall l s2,
    pageId <$> m_itemsInOrder s2 = pageId <$> m_itemsInOrder s1 ->
    NoDup (pageId <$> m_itemsInOrder
             (fst (match find_item l (m_itemsInOrder (setSelectionLeader l true s2)) with
                   | Some leader =>
                       (setSelectionLeader l true s2,
                        [emitNewSelectionLeader
                           match action with
                           | KEEP_SELECTION =>
                               match m_pSelectionLeader (set_provider provider s) with
                               | Some l0 =>
                                   match find_item l0
                                           (m_itemsInOrder (set_provider provider s)) with
                                   | Some it => pageInfo it
                                   | None => nullPageInfo
                                   end
                               | None => nullPageInfo
                               end
                           | RESET_SELECTION => nullPageInfo
                           end (composite leader) DEFAULT_SELECTION_FLAGS])
                   | None => (setSelectionLeader l true s2, [])
                   end)))).
  { intros l s2 Heq. destruct (find_item l _); simpl;
      by rewrite fmap_pageId_modify, Heq. }
  destruct (m_pSelectionLeader (commitSceneRect s1)) as [l|] eqn:Hl.
  { rewrite Hl. by apply Hfinal. }
  destruct some as [a|].
  { cbn [m_pSelectionLeader set_leader]. by apply Hfinal. }
  destruct (findById _ _) as [it|].
  - cbn [m_pSelectionLeader set_leader moveToSelected set_selectedThenUnselected].
    by apply Hfinal.
  - by rewrite Hl.
Qed.

Lemma reachable_ids s : reachable s -> NoDup (pageId <$> m_itemsInOrder s).
Proof.
  induction 1 as [| | | s to_remove s' sigs Hr IH Hrm | | | |
                  s a modifiers s' sigs Hr IH Hclick].
  - constructor.
  - apply ids_reset.
  - by apply ids_insert.
  - eapply ids_removePages; [by apply reachable_Inv | done | done].
  - apply ids_invalidateThumbnail; [by apply reachable_Inv | done].
  - by apply ids_invalidateAllThumbnails.
  - by rewrite ids_setSelection.
  - unfold itemSelectedByUser in Hclick.
    destruct (ControlModifier modifiers);
      [by rewrite (ids_selectItemWithControl _ _ _ _ Hclick)|].
    destruct (ShiftModifier modifiers);
      [by rewrite (ids_selectItemWithShift _ _ _ _ Hclick)|].
    by rewrite (ids_selectItemNoModifiers _ _ _ _ Hclick).
Qed.

End UniqueIds.

(** ** The remaining half of a two-sided scan *)

Section RemoveHalf.

Implicit Types (s : Impl) (items : list Item) (x y : Item).

Lemma store_view_addr items :
  addr <$> items = (fun v => fst (fst (fst v))) <$> (store_view <$> items).
Proof. rewrite <- list_fmap_compose. by apply list_fmap_ext. Qed.

Lemma halves_consistent_elem items x y :
  halves_consistent items -> x ∈ items -> y ∈ items ->
  pi_imageId (pageInfo x) = pi_imageId (pageInfo y) ->
  subPage (pageId x) = SINGLE_PAGE -> subPage (pageId y) = SINGLE_PAGE.
Proof.
  intros H Hx Hy. unfold halves_consistent in H.
  eapply Forall_forall in H; [|exact Hx]. eapply Forall_forall in H; [|exact Hy].
  exact H.
Qed.

(** The two halves of an image, when no single page of it is stored, are
    all the pages of that image: another page of the image of a half is
    the other half. *)
Lemma other_half_unique items r x y :
  NoDup (pageId <$> items) -> halves_consistent items ->
  r ∈ items -> x ∈ items -> y ∈ items ->
  subPage (pageId r) <> SINGLE_PAGE ->
  pi_imageId (pageInfo x) = pi_imageId (pageInfo r) ->
  pi_imageId (pageInfo y) = pi_imageId (pageInfo r) ->
  pageId x <> pageId r -> pageId y <> pageId r ->
  x = y.
Proof.
  intros Hnd Hc Hr Hx Hy Hhalf Hxi Hyi Hxr Hyr.
  assert (Hxs : subPage (pageId x) <> SINGLE_PAGE).
  { intros H. apply Hhalf. by eapply (halves_consistent_elem items x r). }
  assert (Hys : subPage (pageId y) <> SINGLE_PAGE).
  { intros H. apply Hhalf. by eapply (halves_consistent_elem items y r). }
  assert (Hid : pageId x = pageId y).
  { unfold pi_imageId, pageId in *.
    destruct (id (pageInfo x)) as [ix sx], (id (pageInfo y)) as [iy sy],
      (id (pageInfo r)) as [ir sr]. simpl in *. subst ix iy.
    destruct sx, sy, sr; congruence. }
  apply list_elem_of_lookup in Hx as [i Hi], Hy as [j Hj].
  assert (i = j) as ->; [|congruence].
  eapply NoDup_lookup; [exact Hnd | |];
    rewrite list_lookup_fmap; [by rewrite Hi | by rewrite Hj, Hid].
Qed.

(** C9: [removePages] makes the sibling of every removed half that is not
    removed itself a single page.  In a reachable state where no image is
    stored both whole and split, when a removed page is the left or the
    right half of a two-sided scan and the other half of that image stays,
    the call returns and the remaining half is designated single page; in
    particular, removing the left half while the right half remains
    leaves the right half a single page.  That the stored page ids are
    pairwise distinct is not assumed: it holds in every reachable state
    ([reachable_ids]). *)
Theorem removePages_singularizes (s : Impl) (to_remove : gset PageId)
    (removed sibling : Item) :
  reachable s ->
  halves_consistent (m_itemsInOrder s) ->
  removed ∈ m_itemsInOrder s ->
  sibling ∈ m_itemsInOrder s ->
  pageId removed ∈ to_remove ->
  subPage (pageId removed) <> SINGLE_PAGE ->
  pi_imageId (pageInfo sibling) = pi_imageId (pageInfo removed) ->
  pageId sibling ∉ to_remove ->
  exists s' sibling',
    removePages to_remove s = Some (s', [])
    /\ find_item (addr sibling) (m_itemsInOrder s') = Some sibling'
    /\ pageId sibling' = mkPageId (pi_imageId (pageInfo sibling)) SINGLE_PAGE.
Proof.
  intros Hr Hcons Hrem Hsib Hrm Hhalf Himg Hkeep.
  pose proof (reachable_ids s Hr) as Hids.
  destruct (reachable_Inv s Hr) as ((Hnd & _ & _) & _ & _).
  set (items := m_itemsInOrder s) in *.
  unfold removePages. fold items.
  set (st0 := mkRemoveLoop [] _ _ [] _ _).
  destruct (removePages_loop_spec to_remove items st0) as [Hk Hi].
  set (st' := removePages_loop to_remove items st0) in *.
  simpl in Hk, Hi.
  set (kept := rm_kept st') in *. set (images := images_to_singularize st') in *.
  (* the kept items are the items that are not removed *)
  assert (Hfrom : forall x, x ∈ kept ->
            exists x0, x0 ∈ items /\ (pageId x0 ∉ to_remove)
                       /\ store_view x0 = store_view x).
  { intros x Hx. apply (list_elem_of_fmap_2 store_view) in Hx. rewrite Hk in Hx.
    apply list_elem_of_fmap in Hx as (x0 & Hv & [Hx0 Hin]%list_elem_of_filter).
    by exists x0. }
  assert (Hto : forall x0, x0 ∈ items -> pageId x0 ∉ to_remove ->
            exists x, x ∈ kept /\ store_view x = store_view x0).
  { intros x0 Hx0 Hn.
    assert (Hv : store_view x0 ∈ store_view <$> kept).
    { rewrite Hk. apply list_elem_of_fmap_2. by apply list_elem_of_filter. }
    apply list_elem_of_fmap in Hv as (x & Hv & Hx). by exists x. }
  assert (Hnd_kept : NoDup (addr <$> kept)).
  { rewrite store_view_addr, Hk, <- store_view_addr.
    eapply sublist_NoDup; [exact Hnd|]. apply fmap_sublist, sublist_filter. }
  (* an image to singularize has lost a half, and has at most the other
     half left *)
  assert (Huniq : forall image, image ∈ images -> forall x y, x ∈ kept -> y ∈ kept ->
            pi_imageId (pageInfo x) = image -> pi_imageId (pageInfo y) = image -> x = y).
  { intros image Himage x y Hx Hy Hxi Hyi. rewrite Hi in Himage.
    apply list_elem_of_fmap in Himage as (r & -> & [[Hr1 Hr2] Hr3]%list_elem_of_filter).
    destruct (Hfrom x Hx) as (x0 & Hx0 & Hx0n & Hvx).
    destruct (Hfrom y Hy) as (y0 & Hy0 & Hy0n & Hvy).
    injection Hvx as Hax Hpx _ _. injection Hvy as Hay Hpy _ _.
    assert (x0 = y0) as Heq.
    { apply (other_half_unique items r); try done.
      - by rewrite Hpx.
      - by rewrite Hpy.
      - unfold pageId in *. congruence.
      - unfold pageId in *. congruence. }
    apply (addr_inj_on kept); [done | done | done | congruence]. }
  rewrite (singularize_all_spec images kept Hnd_kept Huniq). simpl.
  destruct (Hto sibling Hsib Hkeep) as (sk & Hsk & Hv).
  injection Hv as Hask Hpsk _ _.
  exists (commitSceneRect
            (mkImpl (singularized images <$> kept) (rm_selectedThenUnselected st')
               (rm_leader st') (m_ptrOrderProvider s) (rm_sceneRect st')
               (graphicsScene_sceneRect s) (next_addr s))),
    (singularized images sk).
  split; [done|]. simpl. split.
  - rewrite <- Hask, <- (singularized_addr images sk).
    apply find_item_elem; [|by apply list_elem_of_fmap_2].
    rewrite <- list_fmap_compose.
    erewrite list_fmap_ext; [exact Hnd_kept|]. intros i it _. simpl.
    apply singularized_addr.
  - unfold singularized. rewrite decide_True.
    + unfold pageId. simpl. by rewrite Hpsk.
    + rewrite Hpsk, Himg. rewrite Hi.
      apply (list_elem_of_fmap_2 (fun it => pi_imageId (pageInfo it))).
      by apply list_elem_of_filter.
Qed.

End RemoveHalf.
Lemma halves_state_reachable : reachable halves_state.
Proof.
  apply reachable_reset; [apply reachable_new|].
  unfold snapshot_ok. simpl. repeat constructor; done.
Qed.

Lemma removePages_singularizes_witness :
  reachable halves_state
  /\ halves_consistent (m_itemsInOrder halves_state)
  /\ halves_left ∈ m_itemsInOrder halves_state
  /\ halves_right ∈ m_itemsInOrder halves_state
  /\ pageId halves_left ∈ ({[ mkPageId 1 LEFT_PAGE ]} : gset PageId)
  /\ subPage (pageId halves_left) <> SINGLE_PAGE
  /\ pi_imageId (pageInfo halves_right) = pi_imageId (pageInfo halves_left)
  /\ (pageId halves_right ∉ ({[ mkPageId 1 LEFT_PAGE ]} : gset PageId))
  /\ exists s' sibling',
       removePages {[ mkPageId 1 LEFT_PAGE ]} halves_state = Some (s', [])
       /\ find_item (addr halves_right) (m_itemsInOrder s') = Some sibling'
       /\ pageId sibling' = mkPageId 1 SINGLE_PAGE.
Proof.
  assert (Hcons : halves_consistent (m_itemsInOrder halves_state))
    by (apply (bool_decide_unpack _); vm_compute; exact I).
  assert (Hleft : halves_left ∈ m_itemsInOrder halves_state)
    by (apply (list_elem_of_lookup_2 _ 0); reflexivity).
  assert (Hright : halves_right ∈ m_itemsInOrder halves_state)
    by (apply (list_elem_of_lookup_2 _ 1); reflexivity).
  assert (Hrm : pageId halves_left ∈ ({[ mkPageId 1 LEFT_PAGE ]} : gset PageId))
    by (apply (bool_decide_unpack _); vm_compute; exact I).
  assert (Hhalf : subPage (pageId halves_left) <> SINGLE_PAGE) by discriminate.
  assert (Hkeep : pageId halves_right ∉ ({[ mkPageId 1 LEFT_PAGE ]} : gset PageId))
    by (apply (bool_decide_unpack _); vm_compute; exact I).
  split; [apply halves_state_reachable|]. split; [exact Hcons|].
  split; [exact Hleft|]. split; [exact Hright|]. split; [exact Hrm|].
  split; [exact Hhalf|]. split; [reflexivity|]. split; [exact Hkeep|].
  exact (removePages_singularizes halves_state {[ mkPageId 1 LEFT_PAGE ]}
           halves_left halves_right halves_state_reachable Hcons Hleft Hright
           Hrm Hhalf eq_refl Hkeep).
Defined.
(** ** Instances on the example material *)

Lemma itemInsertPosition_spec_witness :
  0 <= 1 /\ 1 <= 3 /\ 3 <= length (m_itemsInOrder ordered_state)
  /\ exists ins_pos,
       itemInsertPosition ordered_state 0 3 (PageId_of_image 3) 1
       = (ins_pos, (Z.of_nat ins_pos - Z.of_nat 1)%Z)
       /\ 0 <= ins_pos <= 3.
Proof.
  assert (H1 : 0 <= 1) by lia. assert (H2 : 1 <= 3) by lia.
  assert (H3 : 3 <= length (m_itemsInOrder ordered_state)) by (vm_compute; lia).
  split; [exact H1|]. split; [exact H2|]. split; [exact H3|].
  destruct (proj2 (itemInsertPosition_spec ordered_state 0 3 1 (PageId_of_image 3)
                     H1 H2 H3) example_provider eq_refl)
    as (ins_pos & Hp & Hr & _).
  exists ins_pos. split; [exact Hp | exact Hr].
Defined.

Lemma insert_reference_not_found_witness :
  isNull 7 = false
  /\ (forall it, it ∈ m_itemsInOrder example_state -> pi_imageId (pageInfo it) <> 7)
  /\ insert (page 9) AFTER 7 example_factory example_state = (example_state, []).
Proof.
  assert (Href : forall it, it ∈ m_itemsInOrder example_state ->
                            pi_imageId (pageInfo it) <> 7).
  { apply Forall_forall. apply (bool_decide_unpack _). vm_compute. exact I. }
  split; [reflexivity|]. split; [exact Href|].
  apply (insert_reference_not_found (page 9) AFTER 7 example_factory example_state
           eq_refl Href).
Defined.

Lemma sceneContextMenuEvent_spec_witness :
  m_itemsInOrder Impl_new = []
  /\ sceneContextMenuEvent example_event Impl_new
     = [pastLastPageContextMenuRequested (screenPos example_event)]
  /\ exists back,
       last (m_itemsInOrder example_state) = Some back
       /\ (Rect.bottom (sceneBoundingRect (composite back))
           < pt_y (scenePos example_event))%Q
       /\ sceneContextMenuEvent example_event example_state
          = [pastLastPageContextMenuRequested (screenPos example_event)].
Proof.
  split; [reflexivity|]. split.
  - apply (proj1 (sceneContextMenuEvent_spec example_event Impl_new)). reflexivity.
  - eexists. split; [reflexivity|].
    assert (Hlt : (Rect.bottom (sceneBoundingRect
                     (composite (mkItem 3 (page 3) 2
                        (setPos (mkPoint 0
                           (0 + (170 + 3 - -(5)) + SPACING + (170 + 3 - -(5)) + SPACING))
                           (getCompositeItem example_factory (page 3) 2)) false false)))
                   < pt_y (scenePos example_event))%Q)
      by (vm_compute; reflexivity).
    split; [exact Hlt|].
    apply (proj1 (proj2 (sceneContextMenuEvent_spec example_event example_state)
                    _ eq_refl) Hlt).
Defined.
(** ** Selected ranges *)

Section SelectedRanges.

Implicit Types (l items : list Item) (ranges : list PageRange.t).

Lemma skip_unselected_spec l page_idx :
  exists l1 l2,
    l = l1 ++ l2
    /\ skip_unselected l page_idx = (l2, (page_idx + Z.of_nat (length l1))%Z)
    /\ Forall (fun it => m_isSelected it = false) l1
    /\ match head l2 with Some it => m_isSelected it = true | None => True end.
Proof.
  revert page_idx. induction l as [|it l IH]; intros page_idx; simpl.
  { exists [], []. repeat split; [f_equal; simpl; lia | constructor]. }
  destruct (m_isSelected it) eqn:E; simpl.
  - exists [], (it :: l). repeat split; [f_equal; simpl; lia | constructor | done].
  - destruct (IH (page_idx + 1)%Z) as (l1 & l2 & -> & Hs & Hall & Hhd).
    exists (it :: l1), l2. repeat split; [|by constructor | done].
    rewrite Hs. f_equal. simpl. lia.
Qed.

Lemma collect_selected_spec l page_idx range_pages :
  exists l1 l2,
    l = l1 ++ l2
    /\ collect_selected l page_idx range_pages
       = (l2, (page_idx + Z.of_nat (length l1))%Z, range_pages ++ (pageId <$> l1))
    /\ Forall (fun it => m_isSelected it = true) l1
    /\ match head l2 with Some it => m_isSelected it = false | None => True end.
Proof.
  revert page_idx range_pages. induction l as [|it l IH]; intros page_idx range_pages; simpl.
  { exists [], []. repeat split; [|constructor].
    rewrite app_nil_r. do 2 f_equal. simpl. lia. }
  destruct (m_isSelected it) eqn:E; simpl.
  - destruct (IH (page_idx + 1)%Z (range_pages ++ [pageId it]))
      as (l1 & l2 & -> & Hs & Hall & Hhd).
    exists (it :: l1), l2. repeat split; [|by constructor | done].
    rewrite Hs, <- app_assoc. do 2 f_equal. simpl. lia.
  - exists [], (it :: l). repeat split; [|constructor | done].
    rewrite app_nil_r. do 2 f_equal. simpl. lia.
Qed.

Lemma filter_selected_none l :
  Forall (fun it => m_isSelected it = false) l ->
  filter (fun it => m_isSelected it = true) l = [].
Proof.
  induction 1 as [|it l Hit _ IH]; [done|].
  rewrite filter_cons_False; [done | congruence].
Qed.

Lemma filter_selected_all l :
  Forall (fun it => m_isSelected it = true) l ->
  filter (fun it => m_isSelected it = true) l = l.
Proof.
  induction 1 as [|it l Hit _ IH]; [done|].
  rewrite filter_cons_True by done. by rewrite IH.
Qed.

(** The outer loop, entered at the position after [before] with the items
    [l] still to visit: it ends, and adds the maximal runs of [l]. *)
Lemma selectedRanges_loop_spec fuel before l ranges :
  length l < fuel ->
  match last before, head l with
  | Some x, Some y => m_isSelected x = true -> m_isSelected y = false
  | _, _ => True
  end ->
  exists new,
    selectedRanges_loop fuel l (Z.of_nat (length before)) ranges = Some (ranges ++ new)
    /\ concat (PageRange.pages <$> new)
       = pageId <$> filter (fun it => m_isSelected it = true) l
    /\ Forall (maximal_run (before ++ l)) new.
Proof.
  revert before l ranges.
  induction fuel as [|fuel IH]; intros before l ranges Hlen Hentry; [lia|].
  cbn [selectedRanges_loop].
  destruct (skip_unselected_spec l (Z.of_nat (length before)))
    as (skipped & l2 & -> & -> & Hskipped & Hhd).
  destruct l2 as [|y l2].
  { exists []. rewrite !app_nil_r. split; [done|]. split; [|constructor].
    by rewrite filter_selected_none. }
  simpl in Hhd.
  destruct (collect_selected_spec (y :: l2)
              (Z.of_nat (length before) + Z.of_nat (length skipped))%Z [])
    as (run & rest & Hsplit & -> & Hrun & Hstop).
  assert (Hne : run <> []).
  { intros ->. simpl in Hsplit. subst rest. simpl in Hstop. congruence. }
  rewrite Hsplit in *. clear Hsplit y l2 Hhd.
  rewrite length_app, length_app in Hlen.
  assert (0 < length run) by (destruct run; [done | simpl; lia]).
  destruct (IH (before ++ skipped ++ run) rest
              (ranges ++ [PageRange.mk
                            (Z.of_nat (length before) + Z.of_nat (length skipped))
                            ([] ++ (pageId <$> run))]))
    as (new & Hloop & Hcat & Hruns).
  { lia. }
  { rewrite !app_assoc, last_app.
    destruct (last run) as [x|] eqn:Ex.
    - destruct (head rest); [by intros _ | done].
    - apply last_None in Ex. done. }
  replace (Z.of_nat (length (before ++ skipped ++ run)))
    with (Z.of_nat (length before) + Z.of_nat (length skipped)
          + Z.of_nat (length run))%Z in Hloop
    by (rewrite !length_app; lia).
  rewrite Hloop. simpl app at 2.
  exists (PageRange.mk (Z.of_nat (length before) + Z.of_nat (length skipped))
            (pageId <$> run) :: new).
  split; [by rewrite <- app_assoc|]. split.
  - rewrite fmap_cons. cbn [concat PageRange.pages].
    rewrite Hcat, !filter_app, (filter_selected_none skipped), (filter_selected_all run)
      by done.
    by rewrite app_nil_l, fmap_app.
  - constructor.
    + exists (before ++ skipped), run, rest. simpl.
      split; [by rewrite <- !app_assoc|].
      split; [rewrite length_app; lia|].
      do 3 (split; [done|]). split; [|done].
      rewrite last_app. destruct (last skipped) as [x|] eqn:Ex.
      * apply last_Some in Ex as [l' ->].
        rewrite Forall_app, Forall_singleton in Hskipped. by destruct Hskipped.
      * apply last_None in Ex. subst skipped. simpl in Hentry.
        destruct (last before) as [x|]; [|done].
        destruct run as [|y run]; [done|]. simpl in Hentry.
        apply Forall_cons in Hrun as [Hy _].
        destruct (m_isSelected x); [|done]. specialize (Hentry eq_refl). congruence.
    + by rewrite <- !app_assoc in Hruns.
Qed.

Lemma selectedRanges_total s :
  exists ranges,
    selectedRanges s = Some ranges
    /\ concat (PageRange.pages <$> ranges)
       = pageId <$> filter (fun it => m_isSelected it = true) (m_itemsInOrder s)
    /\ Forall (maximal_run (m_itemsInOrder s)) ranges.
Proof.
  unfold selectedRanges.
  destruct (selectedRanges_loop_spec (S (length (m_itemsInOrder s))) []
              (m_itemsInOrder s) []) as (new & Hloop & Hcat & Hruns); [lia | done |].
  exists new. change (Z.of_nat (length (@nil Item))) with 0%Z in Hloop.
  by rewrite Hloop.
Qed.

End SelectedRanges.

(** X1: [selectedRanges] always returns, and its ranges, read one after
    the other, list the identities of the selected items in display
    order: every selected item once, no unselected item. *)
Theorem selectedRanges_lists_selection (s : Impl) :
  exists ranges,
    selectedRanges s = Some ranges
    /\ concat (PageRange.pages <$> ranges)
       = pageId <$> filter (fun it => m_isSelected it = true) (m_itemsInOrder s).
Proof.
  destruct (selectedRanges_total s) as (ranges & Hr & Hcat & _). by exists ranges.
Qed.

(** X2: every range returned by [selectedRanges] is a maximal run of
    selected items: it is not empty, [firstPageIdx] is the display position
    of its first page, its pages are consecutive selected items, and the
    items next to it on either side, if any, are not selected. *)
Theorem selectedRanges_maximal_runs (s : Impl) (ranges : list PageRange.t) :
  selectedRanges s = Some ranges ->
  Forall (maximal_run (m_itemsInOrder s)) ranges.
Proof.
  intros Hr. destruct (selectedRanges_total s) as (ranges' & Hr' & _ & Hruns).
  congruence.
Qed.

Lemma selectedRanges_maximal_runs_witness :
  selectedRanges two_selected_state
  = Some [PageRange.mk 0 [PageId_of_image 1; PageId_of_image 2]]
  /\ Forall (maximal_run (m_itemsInOrder two_selected_state))
       [PageRange.mk 0 [PageId_of_image 1; PageId_of_image 2]].
Proof.
  split; [vm_compute; reflexivity|].
  apply (selectedRanges_maximal_runs two_selected_state). vm_compute; reflexivity.
Defined.

(** X3: in every reachable state the two selection queries agree: a page
    identity occurs in a range of [selectedRanges] exactly when it is in
    the set [selectedItems] returns. *)
Theorem selectedRanges_agree_with_selectedItems (s : Impl) :
  reachable s ->
  exists ranges,
    selectedRanges s = Some ranges
    /\ forall page_id,
         page_id ∈ concat (PageRange.pages <$> ranges) <-> page_id ∈ selectedItems s.
Proof.
  intros Hr. destruct (selectedRanges_total s) as (ranges & Hsome & Hcat & _).
  exists ranges. split; [done|]. intros page_id.
  destruct (reachable_Inv s Hr) as (Hsel & _).
  rewrite (selectedItems_spec s Hsel), Hcat, list_elem_of_fmap. split.
  - intros (it & -> & [Hit Hin]%list_elem_of_filter). by exists it.
  - intros (it & Hin & Hit & <-). exists it. split; [done|].
    by apply list_elem_of_filter.
Qed.

Lemma selectedRanges_agree_with_selectedItems_witness :
  reachable two_selected_state
  /\ exists ranges,
       selectedRanges two_selected_state = Some ranges
       /\ forall page_id,
            page_id ∈ concat (PageRange.pages <$> ranges)
            <-> page_id ∈ selectedItems two_selected_state.
Proof.
  split; [apply two_selected_state_reachable|].
  apply (selectedRanges_agree_with_selectedItems two_selected_state).
  apply two_selected_state_reachable.
Defined.
(** ** Mouse presses on a thumbnail *)

Section MousePress.

Implicit Types (s : Impl) (items : list Item) (a b : nat).

Lemma multipleItemsSelected_other s a :
  SelOk (m_itemsInOrder s) (m_selectedThenUnselected s) ->
  multipleItemsSelected s = true ->
  exists b, b <> a /\ isSelected_at (m_itemsInOrder s) b = true.
Proof.
  intros Hsel Hm. pose proof (SelOk_nodup_sel _ _ Hsel) as Hnd.
  unfold multipleItemsSelected in Hm.
  destruct (m_selectedThenUnselected s) as [|a1 [|a2 rest]]; [done | done |].
  apply andb_true_iff in Hm as [H1 H2].
  apply NoDup_cons in Hnd as [Hne _].
  destruct (decide (a1 = a)) as [->|].
  - exists a2. split; [|done]. intros ->. apply Hne. by left.
  - by exists a1.
Qed.

Lemma multipleItemsSelected_false s a b :
  SelOk (m_itemsInOrder s) (m_selectedThenUnselected s) ->
  multipleItemsSelected s = false ->
  isSelected_at (m_itemsInOrder s) a = true ->
  isSelected_at (m_itemsInOrder s) b = true ->
  a = b.
Proof.
  intros Hsel Hm Ha Hb. destruct (decide (a = b)) as [|Hne]; [done|].
  rewrite (multipleItemsSelected_true s a b) in Hm; done.
Qed.

(** Whether the search of the ctrl-click handler for a new leader
    succeeds. *)
Lemma ctrl_walk_defined items a i b :
  NoDup (addr <$> items) ->
  index_of a items = Some i ->
  b <> a -> isSelected_at items b = true ->
  let items2 := modify_item a (Item_setSelected false) items in
  exists h leader,
    outward_walk (selected_at_index items2) (length items2) (S (length items2)) i i
    = Some h
    /\ items2 !! hit_index h = Some leader.
Proof.
  intros Hnd Hi Hba Hb items2.
  assert (Hlen : length items2 = length items) by apply length_fmap.
  destruct (index_of_is_Some b items) as [jb Hjb]; [by apply isSelected_at_elem|].
  destruct (index_of_lookup _ _ _ Hjb) as (itb & Hitb & Hab).
  destruct (index_of_lookup _ _ _ Hi) as (ita & Hita & Haa).
  assert (Hjbi : jb <> i) by (intros ->; congruence).
  destruct (outward_walk_nearest (selected_at_index items2) (length items2) i)
    as (h & Hw & Hj & _).
  { rewrite Hlen. by eapply index_of_lt. }
  { exists jb. split; [rewrite Hlen; by eapply index_of_lt|]. split; [done|].
    unfold selected_at_index, items2. rewrite lookup_modify_item, Hitb. simpl.
    rewrite decide_False by congruence.
    rewrite <- Hab in Hb. rewrite (selected_at_index_lookup _ _ _ Hnd Hitb) in Hb.
    unfold selected_at_index in Hb. by rewrite Hitb in Hb. }
  apply lookup_lt_is_Some_2 in Hj as [leader Hleader]. by exists h, leader.
Qed.

Lemma selectItemWithControl_defined s a item :
  Inv s ->
  find_item a (m_itemsInOrder s) = Some item ->
  selectItemWithControl a s = None
  <-> m_isSelected item = true /\ multipleItemsSelected s = false
      /\ m_pSelectionLeader s = None.
Proof.
  intros (Hsel & Hlead & _) Hf. pose proof Hsel as (Hnd & _).
  unfold selectItemWithControl. rewrite Hf. simpl.
  destruct (m_isSelected item) eqn:Hitem; simpl.
  2: { split; [done | by intros [? _]]. }
  destruct (multipleItemsSelected s) eqn:Hm; simpl.
  2: { destruct (m_pSelectionLeader s) as [l|] eqn:Hl; simpl.
       - destruct (isSelected_at_true _ _ (Hlead l eq_refl)) as (leader & -> & _).
         simpl. split; [done | by intros (_ & _ & ?)].
       - done. }
  destruct (decide (m_pSelectionLeader s <> Some a)) as [Hne|Hl].
  { split; [done | by intros (_ & ? & _)]. }
  split; [|by intros (_ & ? & _)].
  destruct (multipleItemsSelected_other s a Hsel Hm) as (b & Hba & Hb).
  destruct (index_of_is_Some a (m_itemsInOrder s)) as [i Hi].
  { apply find_item_Some in Hf as [Hin <-]. by apply list_elem_of_fmap_2. }
  destruct (ctrl_walk_defined _ a i b Hnd Hi Hba Hb) as (h & leader & Hw & Hleader).
  simpl. rewrite index_of_modify by done. rewrite Hi. simpl.
  rewrite Hw. simpl. by rewrite Hleader.
Qed.

Lemma selectItemWithShift_defined s a item :
  Inv s ->
  find_item a (m_itemsInOrder s) = Some item ->
  is_Some (selectItemWithShift a s).
Proof.
  intros (Hsel & Hlead & _) Hf. pose proof Hsel as (Hnd & _).
  unfold selectItemWithShift.
  destruct (m_pSelectionLeader s) as [l|] eqn:Hl.
  2: { unfold selectItemNoModifiers. by rewrite Hf. }
  rewrite Hf. simpl.
  destruct (index_of_is_Some l (m_itemsInOrder s)) as [e1 He1].
  { by apply isSelected_at_elem, Hlead. }
  destruct (index_of_is_Some a (m_itemsInOrder s)) as [e2 He2].
  { apply find_item_Some in Hf as [Hin <-]. by apply list_elem_of_fmap_2. }
  rewrite He1, He2. simpl.
  destruct (decide (e1 = e2)) as [|Hne]; [done|].
  destruct (outward_walk_nearest (fun i => bool_decide (i = e2))
              (length (m_itemsInOrder s)) e1) as (h & -> & _).
  { by eapply index_of_lt. }
  { exists e2. split; [by eapply index_of_lt|]. split; [done|].
    by apply bool_decide_eq_true. }
  simpl. by destruct h.
Qed.

End MousePress.

(** X4: in every reachable state a mouse press on the thumbnail of a
    stored item has a defined outcome (the searches of the ctrl-click and
    shift-click handlers end, no null leader is dereferenced), with one
    exception: a ctrl-click with the left button on the only selected item
    while there is no selection leader, where the handler reads the page
    of the leader it does not have. *)
Theorem mousePressEvent_defined (s : Impl) (a : nat) (item : Item)
    (event : QGraphicsSceneMouseEvent) :
  reachable s ->
  find_item a (m_itemsInOrder s) = Some item ->
  mousePressEvent a event s = None
  <-> button event = LeftButton
      /\ ControlModifier (modifiers event) = true
      /\ m_isSelected item = true
      /\ multipleItemsSelected s = false
      /\ m_pSelectionLeader s = None.
Proof.
  intros Hr Hf. pose proof (reachable_Inv s Hr) as HI.
  unfold mousePressEvent, itemSelectedByUser.
  destruct (button event); [|split; [done | by intros [? _]]..].
  destruct (ControlModifier (modifiers event)).
  - rewrite (selectItemWithControl_defined s a item HI Hf). tauto.
  - split; [|by intros (_ & ? & _)].
    destruct (ShiftModifier (modifiers event)).
    + destruct (selectItemWithShift_defined s a item HI Hf) as [r ->]. done.
    + unfold selectItemNoModifiers. by rewrite Hf.
Qed.

Lemma leaderless_state_reachable : reachable leaderless_state.
Proof.
  apply (reachable_removePages two_selected_state {[ PageId_of_image 2 ]}
           leaderless_state []); [apply two_selected_state_reachable|].
  vm_compute. reflexivity.
Qed.

Lemma mousePressEvent_defined_witness :
  reachable leaderless_state
  /\ exists item,
       find_item 1 (m_itemsInOrder leaderless_state) = Some item
       /\ (mousePressEvent 1 (mkMouseEvent LeftButton (mkModifiers true false))
             leaderless_state = None
           <-> button (mkMouseEvent LeftButton (mkModifiers true false)) = LeftButton
               /\ ControlModifier
                    (modifiers (mkMouseEvent LeftButton (mkModifiers true false))) = true
               /\ m_isSelected item = true
               /\ multipleItemsSelected leaderless_state = false
               /\ m_pSelectionLeader leaderless_state = None).
Proof.
  split; [apply leaderless_state_reachable|].
  eexists. split; [vm_compute; reflexivity|].
  apply (mousePressEvent_defined leaderless_state 1);
    [apply leaderless_state_reachable | vm_compute; reflexivity].
Defined.
(** ** The selection after a click *)

Section SelectionAfter.

Implicit Types (s : Impl) (items : list Item) (a b : nat).

(** Reading the selection of [s'] when it stores the items of [s] in the
    same order, under the same identities, with the selected flags given
    by [selected]. *)
Lemma selectedItems_pointwise s s' (selected : nat -> bool) :
  Inv s -> Inv s' ->
  addr <$> m_itemsInOrder s' = addr <$> m_itemsInOrder s ->
  pageId <$> m_itemsInOrder s' = pageId <$> m_itemsInOrder s ->
  (forall b, b ∈ addr <$> m_itemsInOrder s ->
     isSelected_at (m_itemsInOrder s') b = selected b) ->
  forall page_id,
    page_id ∈ selectedItems s'
    <-> exists it, it ∈ m_itemsInOrder s /\ selected (addr it) = true
                   /\ pageId it = page_id.
Proof.
  intros (Hsel & _) (Hsel' & _) Haddr Hids Hflag page_id.
  pose proof Hsel as (Hnd & _). pose proof Hsel' as (Hnd' & _).
  rewrite (selectedItems_spec s' Hsel'). split.
  - intros (it' & Hin' & Hit' & <-).
    apply list_elem_of_lookup in Hin' as [k Hk'].
    assert (Hk : exists it, m_itemsInOrder s !! k = Some it) .
    { apply lookup_lt_is_Some_2. apply lookup_lt_Some in Hk'.
      by rewrite <- (length_fmap addr), <- Haddr, length_fmap. }
    destruct Hk as [it Hk]. exists it.
    assert (Ha : addr it' = addr it).
    { apply (f_equal (fun l => l !! k)) in Haddr.
      rewrite !list_lookup_fmap, Hk, Hk' in Haddr. by injection Haddr. }
    assert (Hp : pageId it' = pageId it).
    { apply (f_equal (fun l => l !! k)) in Hids.
      rewrite !list_lookup_fmap, Hk, Hk' in Hids. by injection Hids. }
    split; [by eapply list_elem_of_lookup_2|]. split; [|done].
    rewrite <- Hflag by (apply list_elem_of_fmap_2; by eapply list_elem_of_lookup_2).
    rewrite <- Ha. unfold isSelected_at.
    by rewrite (lookup_find_item _ _ _ Hnd' Hk').
  - intros (it & Hin & Hit & <-).
    apply list_elem_of_lookup in Hin as [k Hk].
    assert (Hk' : exists it', m_itemsInOrder s' !! k = Some it').
    { apply lookup_lt_is_Some_2. apply lookup_lt_Some in Hk.
      by rewrite <- (length_fmap addr), Haddr, length_fmap. }
    destruct Hk' as [it' Hk']. exists it'.
    assert (Ha : addr it' = addr it).
    { apply (f_equal (fun l => l !! k)) in Haddr.
      rewrite !list_lookup_fmap, Hk, Hk' in Haddr. by injection Haddr. }
    assert (Hp : pageId it' = pageId it).
    { apply (f_equal (fun l => l !! k)) in Hids.
      rewrite !list_lookup_fmap, Hk, Hk' in Hids. by injection Hids. }
    split; [by eapply list_elem_of_lookup_2|]. split; [|done].
    rewrite <- Hflag in Hit
      by (apply list_elem_of_fmap_2; by eapply list_elem_of_lookup_2).
    rewrite <- Ha in Hit. unfold isSelected_at in Hit.
    by rewrite (lookup_find_item _ _ _ Hnd' Hk') in Hit.
Qed.

Lemma selectedItems_elem s it :
  Inv s -> it ∈ m_itemsInOrder s ->
  pageId it ∈ selectedItems s <-> m_isSelected it = true \/
    exists it', it' ∈ m_itemsInOrder s /\ m_isSelected it' = true
                /\ pageId it' = pageId it /\ it' <> it.
Proof.
  intros (Hsel & _) Hin. rewrite (selectedItems_spec s Hsel). split.
  - intros (it' & Hin' & Hit' & Hp).
    destruct (decide (m_isSelected it = true)); [by left|].
    right. exists it'. repeat split; [done..|]. congruence.
  - intros [Hit|(it' & Hin' & Hit' & Hp & _)]; [by exists it | by exists it'].
Qed.

Lemma find_item_addr_elem s a item :
  find_item a (m_itemsInOrder s) = Some item ->
  item ∈ m_itemsInOrder s /\ addr item = a /\ a ∈ addr <$> m_itemsInOrder s.
Proof.
  intros Hf. apply find_item_Some in Hf as [Hin <-].
  split; [done|]. split; [done|]. by apply list_elem_of_fmap_2.
Qed.

(** Two stored items of a store with unique ids and unique addresses that
    share the id share the address. *)
Lemma same_id_same_item items x y :
  NoDup (pageId <$> items) -> x ∈ items -> y ∈ items ->
  pageId x = pageId y -> x = y.
Proof.
  intros Hnd Hx Hy Heq.
  apply list_elem_of_lookup in Hx as [i Hi], Hy as [j Hj].
  assert (i = j) as ->; [|congruence].
  eapply NoDup_lookup; [exact Hnd | |];
    rewrite list_lookup_fmap; [by rewrite Hi | by rewrite Hj, Heq].
Qed.

End SelectionAfter.

(** X5: a ctrl-click on an item that is not selected adds it to the
    selection and makes it the leader: the call returns, the selection
    read back is the old one plus the clicked page, the stored pages and
    their order are unchanged, and one leader-changed signal is emitted
    for the clicked item carrying only the selected-by-user flag. *)
Theorem selectItemWithControl_adds (s : Impl) (a : nat) (item : Item) :
  reachable s ->
  find_item a (m_itemsInOrder s) = Some item ->
  m_isSelected item = false ->
  exists s',
    selectItemWithControl a s
    = Some (s', [newSelectionLeader (pageInfo item)
                   (sceneBoundingRect (composite item)) SELECTED_BY_USER])
    /\ m_pSelectionLeader s' = Some a
    /\ selectedItems s' = {[ pageId item ]} ∪ selectedItems s
    /\ pageId <$> m_itemsInOrder s' = pageId <$> m_itemsInOrder s.
Proof.
  intros Hr Hf Hitem. pose proof (reachable_Inv s Hr) as HI.
  destruct (selectItemWithControl a s) as [[s' sigs]|] eqn:Hcall.
  2: { apply (selectItemWithControl_defined s a item HI Hf) in Hcall as [? _].
       congruence. }
  pose proof (Inv_selectItemWithControl s a s' sigs HI Hcall) as HI'.
  pose proof (ids_selectItemWithControl s a s' sigs Hcall) as Hids.
  unfold selectItemWithControl in Hcall. rewrite Hf in Hcall. simpl in Hcall.
  rewrite Hitem in Hcall. simpl in Hcall. injection Hcall as <- <-.
  eexists. split; [reflexivity|]. split; [done|]. split; [|done].
  destruct (find_item_addr_elem s a item Hf) as (Hin & Ha & Hain).
  apply set_eq. intros page_id.
  rewrite (selectedItems_pointwise s _
             (fun b => if decide (b = a) then true
                       else isSelected_at (m_itemsInOrder s) b) HI HI').
  - rewrite elem_of_union, elem_of_singleton.
    destruct HI as (Hsel & _). rewrite (selectedItems_spec s Hsel).
    pose proof Hsel as (Hnd & _). split.
    + intros (it & Hit & Hflag & <-).
      destruct (decide (addr it = a)) as [Heq|Hne].
      * left. f_equal. eapply addr_inj_on; [done..|congruence].
      * right. exists it. split; [done|]. split; [|done].
        unfold isSelected_at in Hflag.
        by rewrite (find_item_elem _ _ Hnd Hit) in Hflag.
    + intros [->|(it & Hit & Hflag & <-)].
      * exists item. split; [done|]. split; [|done]. by rewrite decide_True.
      * exists it. split; [done|]. split; [|done].
        destruct (decide _); [done|]. unfold isSelected_at.
        by rewrite (find_item_elem _ _ Hnd Hit).
  - destruct (m_pSelectionLeader s); simpl; by rewrite !fmap_addr_modify.
  - done.
  - intros b Hb. simpl.
    destruct (m_pSelectionLeader s) as [l|]; simpl.
    + rewrite isSelected_at_setSelectionLeader_true, fmap_addr_modify by done.
      destruct (decide (b = a)) as [->|]; [by apply bool_decide_eq_true|].
      by rewrite isSelected_at_setSelectionLeader_false.
    + rewrite isSelected_at_setSelectionLeader_true.
      destruct (decide (b = a)) as [->|]; [by apply bool_decide_eq_true | done].
Qed.

Lemma selectItemWithControl_adds_witness :
  reachable example_state
  /\ exists item,
       find_item 2 (m_itemsInOrder example_state) = Some item
       /\ m_isSelected item = false
       /\ exists s',
            selectItemWithControl 2 example_state
            = Some (s', [newSelectionLeader (pageInfo item)
                           (sceneBoundingRect (composite item)) SELECTED_BY_USER])
            /\ m_pSelectionLeader s' = Some 2
            /\ selectedItems s' = {[ pageId item ]} ∪ selectedItems example_state
            /\ pageId <$> m_itemsInOrder s' = pageId <$> m_itemsInOrder example_state.
Proof.
  split; [apply example_state_reachable|].
  eexists. split; [vm_compute; reflexivity|]. split; [reflexivity|].
  apply (selectItemWithControl_adds example_state 2);
    [apply example_state_reachable | vm_compute; reflexivity | reflexivity].
Defined.

(** X6: a ctrl-click on a selected item that is not the leader, while
    another item is selected too, only takes the clicked page out of the
    selection: the leader stays, the stored pages and their order are
    unchanged, and no signal is emitted. *)
Theorem selectItemWithControl_removes (s : Impl) (a : nat) (item : Item) :
  reachable s ->
  find_item a (m_itemsInOrder s) = Some item ->
  m_isSelected item = true ->
  m_pSelectionLeader s <> Some a ->
  (exists b, b <> a /\ isSelected_at (m_itemsInOrder s) b = true) ->
  exists s',
    selectItemWithControl a s = Some (s', [])
    /\ m_pSelectionLeader s' = m_pSelectionLeader s
    /\ selectedItems s' = selectedItems s ∖ {[ pageId item ]}
    /\ pageId <$> m_itemsInOrder s' = pageId <$> m_itemsInOrder s.
Proof.
  intros Hr Hf Hitem Hlead (b & Hba & Hb). pose proof (reachable_Inv s Hr) as HI.
  pose proof (reachable_ids s Hr) as Hnd_ids.
  destruct (find_item_addr_elem s a item Hf) as (Hin & Ha & Hain).
  assert (Hm : multipleItemsSelected s = true).
  { apply (multipleItemsSelected_true s a b); [apply HI | done | | done].
    unfold isSelected_at. by rewrite Hf. }
  destruct (selectItemWithControl a s) as [[s' sigs]|] eqn:Hcall.
  2: { apply (selectItemWithControl_defined s a item HI Hf) in Hcall as (_ & ? & _).
       congruence. }
  pose proof (Inv_selectItemWithControl s a s' sigs HI Hcall) as HI'.
  pose proof (ids_selectItemWithControl s a s' sigs Hcall) as Hids.
  unfold selectItemWithControl in Hcall. rewrite Hf in Hcall. simpl in Hcall.
  rewrite Hitem, Hm in Hcall. simpl in Hcall.
  rewrite decide_True in Hcall by done. injection Hcall as <- <-.
  eexists. split; [reflexivity|]. split; [done|]. split; [|done].
  apply set_eq. intros page_id.
  rewrite (selectedItems_pointwise s _
             (fun b => if decide (b = a) then false
                       else isSelected_at (m_itemsInOrder s) b) HI HI').
  - rewrite elem_of_difference, elem_of_singleton.
    destruct HI as (Hsel & _). rewrite (selectedItems_spec s Hsel).
    pose proof Hsel as (Hnd & _). split.
    + intros (it & Hit & Hflag & <-).
      destruct (decide (addr it = a)) as [Heq|Hne]; [done|]. split.
      * exists it. split; [done|]. split; [|done].
        unfold isSelected_at in Hflag.
        by rewrite (find_item_elem _ _ Hnd Hit) in Hflag.
      * intros Heq. apply Hne.
        by rewrite (same_id_same_item _ it item Hnd_ids Hit Hin Heq).
    + intros [(it & Hit & Hflag & <-) Hne].
      exists it. split; [done|]. split; [|done].
      rewrite decide_False by (intros Heq; apply Hne; f_equal;
                               eapply addr_inj_on; [done..|congruence]).
      unfold isSelected_at. by rewrite (find_item_elem _ _ Hnd Hit).
  - simpl. by rewrite fmap_addr_modify.
  - done.
  - intros c Hc. simpl. by rewrite isSelected_at_setSelected.
Qed.

Lemma selectItemWithControl_removes_witness :
  reachable two_selected_state
  /\ exists item,
       find_item 1 (m_itemsInOrder two_selected_state) = Some item
       /\ m_isSelected item = true
       /\ m_pSelectionLeader two_selected_state <> Some 1
       /\ (exists b, b <> 1 /\ isSelected_at (m_itemsInOrder two_selected_state) b = true)
       /\ exists s',
            selectItemWithControl 1 two_selected_state = Some (s', [])
            /\ m_pSelectionLeader s' = m_pSelectionLeader two_selected_state
            /\ selectedItems s' = selectedItems two_selected_state ∖ {[ pageId item ]}
            /\ pageId <$> m_itemsInOrder s'
               = pageId <$> m_itemsInOrder two_selected_state.
Proof.
  assert (Hlead : m_pSelectionLeader two_selected_state <> Some 1)
    by (vm_compute; discriminate).
  assert (Hb : exists b, b <> 1
                 /\ isSelected_at (m_itemsInOrder two_selected_state) b = true)
    by (exists 2; split; [discriminate | reflexivity]).
  split; [apply two_selected_state_reachable|].
  eexists. split; [vm_compute; reflexivity|]. split; [reflexivity|].
  split; [exact Hlead|]. split; [exact Hb|].
  exact (selectItemWithControl_removes two_selected_state 1 _
           two_selected_state_reachable eq_refl eq_refl Hlead Hb).
Defined.

(** X7: a ctrl-click on the only selected item, when it is the leader,
    changes nothing: the state is returned as it was and one
    leader-changed signal is emitted for the item, flagged selected by
    user and redundant. *)
Theorem selectItemWithControl_on_only_selected (s : Impl) (a : nat) (item : Item) :
  reachable s ->
  find_item a (m_itemsInOrder s) = Some item ->
  m_isSelected item = true ->
  only_selected s a ->
  m_pSelectionLeader s <> None ->
  selectItemWithControl a s
  = Some (s, [newSelectionLeader (pageInfo item) (sceneBoundingRect (composite item))
                (flags_or SELECTED_BY_USER REDUNDANT_SELECTION)]).
Proof.
  intros Hr Hf Hitem Honly Hlead. destruct (reachable_Inv s Hr) as (Hsel & HL & _).
  assert (Hm : multipleItemsSelected s = false).
  { destruct (multipleItemsSelected s) eqn:Hm; [|done].
    destruct (multipleItemsSelected_other s a Hsel Hm) as (b & Hba & Hb).
    by apply Honly in Hb. }
  unfold selectItemWithControl. rewrite Hf. simpl. rewrite Hitem, Hm. simpl.
  destruct (m_pSelectionLeader s) as [l|] eqn:Hl; [|done]. simpl.
  assert (l = a) as -> by (by apply Honly, HL).
  by rewrite Hf.
Qed.

Lemma selectItemWithControl_on_only_selected_witness :
  reachable example_state
  /\ exists item,
       find_item 1 (m_itemsInOrder example_state) = Some item
       /\ m_isSelected item = true
       /\ only_selected example_state 1
       /\ m_pSelectionLeader example_state <> None
       /\ selectItemWithControl 1 example_state
          = Some (example_state,
                  [newSelectionLeader (pageInfo item)
                     (sceneBoundingRect (composite item))
                     (flags_or SELECTED_BY_USER REDUNDANT_SELECTION)]).
Proof.
  assert (Honly : only_selected example_state 1).
  { intros b Hb. pose proof (isSelected_at_elem _ _ Hb) as Hin.
    vm_compute in Hin.
    repeat (apply elem_of_cons in Hin as [->|Hin];
            [first [reflexivity | by vm_compute in Hb]|]).
    by apply elem_of_nil in Hin. }
  assert (Hlead : m_pSelectionLeader example_state <> None)
    by (vm_compute; discriminate).
  split; [apply example_state_reachable|].
  eexists. split; [vm_compute; reflexivity|]. split; [reflexivity|].
  split; [exact Honly|]. split; [exact Hlead|].
  exact (selectItemWithControl_on_only_selected example_state 1 _
           example_state_reachable eq_refl eq_refl Honly Hlead).
Defined.
(** ** Range selection *)

Section RangeSelection.

Implicit Types (s : Impl) (items : list Item) (a b : nat).

Lemma elem_of_range_inv items (lo hi k : nat) it :
  NoDup (addr <$> items) -> items !! k = Some it ->
  addr it ∈ addr <$> take (S hi - lo) (drop lo items) ->
  lo <= k <= hi.
Proof.
  intros Hnd Hk (y & Hy & Hin)%list_elem_of_fmap.
  apply list_elem_of_lookup in Hin as [n Hn].
  apply lookup_take_Some in Hn as [Hn Hlt]. rewrite lookup_drop in Hn.
  assert (k = lo + n); [|lia].
  eapply NoDup_lookup; [exact Hnd | |]; rewrite list_lookup_fmap.
  - by rewrite Hk.
  - by rewrite Hn, Hy.
Qed.

End RangeSelection.

(** X8: a shift-click on an item other than the leader selects every item
    between the leader and the clicked item in display order, both
    included, keeps selected whatever was selected outside that range, and
    makes the clicked item the leader; the stored pages and their order
    are unchanged and one leader-changed signal is emitted for the clicked
    item, carrying only the selected-by-user flag. *)
Theorem selectItemWithShift_selects_range (s : Impl) (a l : nat) (item : Item)
    (i j : nat) :
  reachable s ->
  m_pSelectionLeader s = Some l ->
  l <> a ->
  find_item a (m_itemsInOrder s) = Some item ->
  index_of l (m_itemsInOrder s) = Some i ->
  index_of a (m_itemsInOrder s) = Some j ->
  exists s',
    selectItemWithShift a s
    = Some (s', [newSelectionLeader (pageInfo item)
                   (sceneBoundingRect (composite item)) SELECTED_BY_USER])
    /\ m_pSelectionLeader s' = Some a
    /\ pageId <$> m_itemsInOrder s' = pageId <$> m_itemsInOrder s
    /\ forall k it,
         m_itemsInOrder s !! k = Some it ->
         isSelected_at (m_itemsInOrder s') (addr it)
         = m_isSelected it || bool_decide (Nat.min i j <= k <= Nat.max i j).
Proof.
  intros Hr Hlead Hla Hf He1 He2. pose proof (reachable_Inv s Hr) as HI.
  pose proof HI as ((Hnd & _) & _).
  destruct (selectItemWithShift a s) as [[s' sigs]|] eqn:Hcall.
  2: { destruct (selectItemWithShift_defined s a item HI Hf) as [r Hr']. congruence. }
  pose proof (ids_selectItemWithShift s a s' sigs Hcall) as Hids.
  unfold selectItemWithShift in Hcall. rewrite Hlead, Hf in Hcall. simpl in Hcall.
  rewrite He1, He2 in Hcall. simpl in Hcall.
  destruct (index_of_lookup _ _ _ He1) as (xl & Hxl & Haddr_l).
  destruct (index_of_lookup _ _ _ He2) as (xa & Hxa & Haddr_a).
  assert (Hij : i <> j) by (intros ->; congruence).
  rewrite decide_False in Hcall by done.
  pose proof (index_of_lt _ _ _ He1) as Hlt1.
  pose proof (index_of_lt _ _ _ He2) as Hlt2.
  destruct (outward_walk_nearest (fun n => bool_decide (n = j))
              (length (m_itemsInOrder s)) i Hlt1) as (h & Hh & _ & _ & Hhit & _ & Hdir).
  { exists j. split; [done|]. split; [done|]. by apply bool_decide_eq_true_2. }
  rewrite Hh in Hcall. simpl in Hcall.
  apply bool_decide_eq_true in Hhit.
  set (lo := match h with FoundBack _ => j | FoundForward _ => i end).
  set (hi := match h with FoundBack _ => i | FoundForward _ => j end).
  assert (Hlo : lo = Nat.min i j) by (unfold lo; destruct h; simpl in *; lia).
  assert (Hhi : hi = Nat.max i j) by (unfold hi; destruct h; simpl in *; lia).
  assert (Hs' : s' = setSelectionLeader a true
                       (set_leader (Some a)
                          (setSelectionLeader l false (select_range lo (S hi) s)))
                /\ sigs = [newSelectionLeader (pageInfo item)
                             (sceneBoundingRect (composite item)) SELECTED_BY_USER]).
  { rewrite decide_False in Hcall by done.
    unfold lo, hi. destruct h; injection Hcall as <- <-; done. }
  destruct Hs' as [-> ->]. clear Hcall.
  eexists. split; [reflexivity|]. split; [done|]. split; [done|].
  intros k it Hk. unfold select_range.
  destruct (select_all_spec
              (addr <$> take (S hi - lo) (drop lo (m_itemsInOrder s))) s HI)
    as (HI1 & Haddr1 & Hlead1 & Hnext1 & Hflags1).
  { intros x (y & -> & Hy)%list_elem_of_fmap. apply list_elem_of_fmap_2.
    by apply subseteq_take, subseteq_drop in Hy. }
  simpl. rewrite isSelected_at_setSelectionLeader_true.
  rewrite isSelected_at_setSelectionLeader_false, fmap_addr_modify by done.
  rewrite Hflags1, Haddr1.
  assert (Hold : isSelected_at (m_itemsInOrder s) (addr it) = m_isSelected it).
  { unfold isSelected_at. by rewrite (lookup_find_item _ _ _ Hnd Hk). }
  rewrite Hold, <- Hlo, <- Hhi.
  destruct (decide (addr it = a)) as [Heq|Hne].
  - assert (k = j) as ->.
    { eapply NoDup_lookup; [exact Hnd | |]; rewrite list_lookup_fmap.
      - by rewrite Hk.
      - rewrite Hxa. simpl. congruence. }
    rewrite (bool_decide_eq_true_2 (lo <= j <= hi)) by lia.
    rewrite orb_true_r. apply bool_decide_eq_true_2.
    rewrite <- Heq. apply list_elem_of_fmap_2. by eapply list_elem_of_lookup_2.
  - destruct (decide (addr it ∈ _)) as [Hin|Hnin].
    + rewrite (bool_decide_eq_true_2 (lo <= k <= hi)); [by rewrite orb_true_r|].
      by eapply elem_of_range_inv.
    + rewrite (bool_decide_eq_false_2 (lo <= k <= hi)); [by rewrite orb_false_r|].
      intros Hrange. apply Hnin. by eapply elem_of_range.
Qed.

Lemma selectItemWithShift_selects_range_witness :
  reachable example_state
  /\ m_pSelectionLeader example_state = Some 1
  /\ 1 <> 3
  /\ exists item,
       find_item 3 (m_itemsInOrder example_state) = Some item
       /\ index_of 1 (m_itemsInOrder example_state) = Some 0
       /\ index_of 3 (m_itemsInOrder example_state) = Some 2
       /\ exists s',
            selectItemWithShift 3 example_state
            = Some (s', [newSelectionLeader (pageInfo item)
                           (sceneBoundingRect (composite item)) SELECTED_BY_USER])
            /\ m_pSelectionLeader s' = Some 3
            /\ pageId <$> m_itemsInOrder s' = pageId <$> m_itemsInOrder example_state
            /\ forall k it,
                 m_itemsInOrder example_state !! k = Some it ->
                 isSelected_at (m_itemsInOrder s') (addr it)
                 = m_isSelected it || bool_decide (Nat.min 0 2 <= k <= Nat.max 0 2).
Proof.
  assert (Hne : 1 <> 3) by discriminate.
  split; [apply example_state_reachable|]. split; [reflexivity|]. split; [exact Hne|].
  eexists. split; [vm_compute; reflexivity|]. split; [reflexivity|].
  split; [reflexivity|].
  exact (selectItemWithShift_selects_range example_state 3 1 _ 0 2
           example_state_reachable eq_refl Hne eq_refl eq_refl eq_refl).
Defined.
(** ** Selecting one page *)

Section SelectOne.

Implicit Types (s : Impl) (items : list Item) (a b target : nat).

Lemma findById_unique s item :
  NoDup (pageId <$> m_itemsInOrder s) ->
  item ∈ m_itemsInOrder s ->
  findById (pageId item) s = Some item.
Proof.
  intros Hnd Hin. destruct (findById (pageId item) s) as [it|] eqn:Hf.
  - apply findById_elem in Hf as [Hit Hid].
    by rewrite (same_id_same_item _ it item Hnd Hit Hin Hid).
  - unfold findById in Hf. apply head_None in Hf.
    assert (Hx : item ∈ filter (fun it => pageId it = pageId item)
                          (itemsById (m_itemsInOrder s))).
    { apply list_elem_of_filter. split; [done|]. by apply elem_of_itemsById. }
    rewrite Hf in Hx. by apply elem_of_nil in Hx.
Qed.

Lemma findById_None s page_id :
  page_id ∉ pageId <$> m_itemsInOrder s -> findById page_id s = None.
Proof.
  intros Hn. destruct (findById page_id s) as [it|] eqn:Hf; [|done].
  apply findById_elem in Hf as [Hit <-]. exfalso. apply Hn.
  by apply list_elem_of_fmap_2.
Qed.

(** What the loop of [setSelection] does to the flags and the leader. *)
Lemma setSelection_loop_flags target (l : list nat) s :
  NoDup l ->
  partitioned (isSelected_at (m_itemsInOrder s)) l ->
  LeaderOk (m_itemsInOrder s) (m_pSelectionLeader s) ->
  let s' := setSelection_loop target l s in
  (forall b, isSelected_at (m_itemsInOrder s') b
             = if decide (b ∈ l /\ b <> target) then false
               else isSelected_at (m_itemsInOrder s) b)
  /\ m_pSelectionLeader s'
     = match m_pSelectionLeader s with
       | Some x => if decide (x ∈ l /\ x <> target) then None else Some x
       | None => None
       end.
Proof.
  revert s. induction l as [|a l IH]; intros s Hnd Hpart Hlead; cbn [setSelection_loop].
  { split.
    - intros b. rewrite decide_False; [done|]. intros [H _]. by apply elem_of_nil in H.
    - destruct (m_pSelectionLeader s) as [x|]; [|done].
      rewrite decide_False; [done|]. intros [H _]. by apply elem_of_nil in H. }
  apply NoDup_cons in Hnd as [Ha Hnd].
  destruct (isSelected_at (m_itemsInOrder s) a) eqn:Ea; simpl.
  2: { pose proof (partitioned_head_false _ _ _ Hpart Ea) as Hall. split.
       - intros b. destruct (decide _) as [[Hb _]|]; [|done]. by apply Hall.
       - destruct (m_pSelectionLeader s) as [x|] eqn:Hx; [|done].
         destruct (decide _) as [[Hin _]|]; [|done].
         apply Hall in Hin. rewrite (Hlead x eq_refl) in Hin. done. }
  destruct (decide (target <> a)) as [Hne|Heq]; cbv zeta.
  - set (s1 := moveToUnselected a (setSelected a false s)).
    set (s2 := if decide (m_pSelectionLeader s = Some a) then set_leader None s1 else s1).
    assert (Hflags : forall b, isSelected_at (m_itemsInOrder s2) b
                     = if decide (b = a) then false
                       else isSelected_at (m_itemsInOrder s) b).
    { intros b. unfold s2. destruct (decide (m_pSelectionLeader s = Some a)); simpl;
        rewrite isSelected_at_setSelected; by destruct (decide (b = a)). }
    assert (Hlead2 : m_pSelectionLeader s2
                     = if decide (m_pSelectionLeader s = Some a) then None
                       else m_pSelectionLeader s).
    { unfold s2. by destruct (decide (m_pSelectionLeader s = Some a)). }
    destruct (IH s2) as [Hf Hl].
    + done.
    + eapply partitioned_ext; [|by eapply partitioned_cons_inv].
      intros x Hx. rewrite Hflags. rewrite decide_False; [done | by intros ->].
    + intros x Hx. rewrite Hflags. rewrite Hlead2 in Hx.
      destruct (decide (m_pSelectionLeader s = Some a)) as [|Hn]; [done|].
      rewrite decide_False by (intros ->; by apply Hn). by apply Hlead.
    + split.
      * intros b. rewrite Hf, Hflags.
        destruct (decide (b ∈ l /\ b <> target)) as [[Hb Hbt]|Hnb].
        { rewrite decide_True; [done|]. split; [by right | done]. }
        destruct (decide (b = a)) as [->|Hba].
        { rewrite decide_True; [done|]. split; [by left | done]. }
        rewrite decide_False; [done|]. intros [[->|Hb]%elem_of_cons Hbt]; [done|].
        by apply Hnb.
      * rewrite Hl, Hlead2.
        destruct (m_pSelectionLeader s) as [x|]; [|by destruct (decide _)].
        destruct (decide (Some x = Some a)) as [[= ->]|Hxa].
        { rewrite decide_True; [done|]. split; [by left | done]. }
        destruct (decide (x ∈ l /\ x <> target)) as [[Hx Hxt]|Hnx].
        { rewrite decide_True; [done|]. split; [by right | done]. }
        rewrite decide_False; [done|]. intros [[->|Hx]%elem_of_cons Hxt]; [done|].
        by apply Hnx.
  - assert (target = a) as -> by (destruct (decide (target = a)); [done|]; by elim Heq).
    destruct (IH s) as [Hf Hl]; [done | by eapply partitioned_cons_inv | done |].
    split.
    + intros b. rewrite Hf.
      destruct (decide (b ∈ l /\ b <> a)) as [[Hb Hbt]|Hnb].
      { rewrite decide_True; [done|]. split; [by right | done]. }
      rewrite decide_False; [done|]. intros [[->|Hb]%elem_of_cons Hbt]; [done|].
      by apply Hnb.
    + rewrite Hl. destruct (m_pSelectionLeader s) as [x|]; [|done].
      destruct (decide (x ∈ l /\ x <> a)) as [[Hx Hxt]|Hnx].
      { rewrite decide_True; [done|]. split; [by right | done]. }
      rewrite decide_False; [done|]. intros [[->|Hx]%elem_of_cons Hxt]; [done|].
      by apply Hnx.
Qed.

End SelectOne.

(** X9: [setSelection] on a stored page makes it the only selected page
    and the leader, leaving the stored pages and their order alone, and
    emits one leader-changed signal for it; the signal is flagged
    redundant exactly when the page was the leader already, and never
    selected by user. *)
Theorem setSelection_selects_only (s : Impl) (item : Item) :
  reachable s ->
  item ∈ m_itemsInOrder s ->
  exists s',
    setSelection (pageId item) s
    = (s', [newSelectionLeader (pageInfo item) (sceneBoundingRect (composite item))
              (if bool_decide (m_pSelectionLeader s = Some (addr item))
               then REDUNDANT_SELECTION else DEFAULT_SELECTION_FLAGS)])
    /\ m_pSelectionLeader s' = Some (addr item)
    /\ selectedItems s' = {[ pageId item ]}
    /\ pageId <$> m_itemsInOrder s' = pageId <$> m_itemsInOrder s.
Proof.
  intros Hr Hin. pose proof (reachable_Inv s Hr) as HI.
  pose proof (reachable_ids s Hr) as Hnd_ids.
  pose proof (Inv_setSelection s (pageId item) HI) as HI'.
  pose proof (ids_setSelection s (pageId item)) as Hids.
  destruct HI as ((Hnd & Hperm & Hpart) & Hlead & Hfresh).
  assert (HI : Inv s) by done.
  destruct (setSelection_loop_Inv (addr item) (m_selectedThenUnselected s) s [] [])
    as (_ & Haddr & _); try done.
  { by rewrite app_nil_r. }
  destruct (setSelection_loop_flags (addr item) (m_selectedThenUnselected s) s)
    as [Hflags Hleader]; [by rewrite Hperm | done | done |].
  unfold setSelection in *. rewrite (findById_unique s item Hnd_ids Hin) in *.
  cbv zeta in *.
  set (s1 := setSelection_loop (addr item) (m_selectedThenUnselected s) s) in *.
  assert (Ha : addr item ∈ addr <$> m_itemsInOrder s) by (by apply list_elem_of_fmap_2).
  assert (Hsel_after : forall s2,
    Inv s2 ->
    addr <$> m_itemsInOrder s2 = addr <$> m_itemsInOrder s ->
    pageId <$> m_itemsInOrder s2 = pageId <$> m_itemsInOrder s ->
    (forall b, b ∈ addr <$> m_itemsInOrder s ->
       isSelected_at (m_itemsInOrder s2) b = bool_decide (b = addr item)) ->
    selectedItems s2 = {[ pageId item ]}).
  { intros s2 HI2 Haddr2 Hids2 Hflags2. apply set_eq. intros page_id.
    rewrite (selectedItems_pointwise s s2 _ HI HI2 Haddr2 Hids2 Hflags2).
    rewrite elem_of_singleton. split.
    - intros (it & Hit & Hb%bool_decide_eq_true & <-). f_equal.
      by eapply addr_inj_on.
    - intros ->. exists item. split; [done|]. split; [|done].
      by apply bool_decide_eq_true. }
  destruct (bool_decide (m_pSelectionLeader s = Some (addr item))) eqn:Hwas;
    simpl in *.
  - apply bool_decide_eq_true in Hwas.
    eexists. split; [reflexivity|]. split; [|split; [|done]].
    + rewrite Hleader, Hwas. rewrite decide_False; [done | by intros [_ ?]].
    + apply Hsel_after; [done..|]. intros b Hb. rewrite Hflags.
      destruct (decide (b ∈ m_selectedThenUnselected s /\ b <> addr item))
        as [[_ Hne]|Hn].
      * by rewrite bool_decide_eq_false_2.
      * assert (b = addr item) as ->.
        { destruct (decide (b = addr item)); [done|]. exfalso. apply Hn.
          split; [by rewrite Hperm | done]. }
        rewrite bool_decide_eq_true_2 by done. by apply Hlead.
  - eexists. split; [reflexivity|]. split; [done|]. split; [|done].
    apply Hsel_after; [done | simpl; by rewrite fmap_addr_modify | done |].
    intros b Hb. simpl. rewrite isSelected_at_setSelectionLeader_true, Haddr, Hflags.
    destruct (decide (b = addr item)) as [->|Hne].
    + rewrite !bool_decide_eq_true_2; done.
    + rewrite decide_True by (split; [by rewrite Hperm | done]).
      by rewrite bool_decide_eq_false_2.
Qed.

Lemma setSelection_selects_only_witness :
  reachable two_selected_state
  /\ exists item,
       item ∈ m_itemsInOrder two_selected_state
       /\ pageId item = PageId_of_image 3
       /\ exists s',
            setSelection (pageId item) two_selected_state
            = (s', [newSelectionLeader (pageInfo item)
                      (sceneBoundingRect (composite item))
                      (if bool_decide
                            (m_pSelectionLeader two_selected_state = Some (addr item))
                       then REDUNDANT_SELECTION else DEFAULT_SELECTION_FLAGS)])
            /\ m_pSelectionLeader s' = Some (addr item)
            /\ selectedItems s' = {[ pageId item ]}
            /\ pageId <$> m_itemsInOrder s'
               = pageId <$> m_itemsInOrder two_selected_state.
Proof.
  split; [apply two_selected_state_reachable|].
  eexists. split; [apply (list_elem_of_lookup_2 _ 2); vm_compute; reflexivity|].
  split; [reflexivity|].
  apply (setSelection_selects_only two_selected_state);
    [apply two_selected_state_reachable|].
  apply (list_elem_of_lookup_2 _ 2). vm_compute. reflexivity.
Defined.
(** ** Pages that are not stored *)

(** X10: the operations addressed by page identity ignore an identity
    that no stored item has: [setSelection] and [invalidateThumbnail]
    return the controller as it was and emit nothing. *)
Theorem unknown_page_ignored (s : Impl) (page_id : PageId) (factory : ThumbnailFactory) :
  page_id ∉ pageId <$> m_itemsInOrder s ->
  setSelection page_id s = (s, [])
  /\ invalidateThumbnail page_id factory s = (s, []).
Proof.
  intros Hn. unfold setSelection, invalidateThumbnail.
  by rewrite (findById_None s page_id Hn).
Qed.

Lemma unknown_page_ignored_witness :
  (PageId_of_image 9 ∉ pageId <$> m_itemsInOrder example_state)
  /\ setSelection (PageId_of_image 9) example_state = (example_state, [])
  /\ invalidateThumbnail (PageId_of_image 9) example_factory example_state
     = (example_state, []).
Proof.
  assert (Hn : PageId_of_image 9 ∉ pageId <$> m_itemsInOrder example_state)
    by (apply (bool_decide_unpack _); vm_compute; exact I).
  split; [exact Hn|].
  exact (unknown_page_ignored example_state (PageId_of_image 9) example_factory Hn).
Defined.

(** ** Insertion *)

Section InsertShape.

Implicit Types (s : Impl) (items : list Item).

Lemma length_takeWhile_le {A} (p : A -> bool) (l : list A) :
  length (takeWhile p l) <= length l.
Proof. induction l as [|x l IH]; simpl; [lia|]. destruct (p x); simpl; lia. Qed.

(** The position handed to [itemInsertPosition] by [insert] is a position
    of the in-order index or its end. *)
Lemma insert_hint_le s before_or_after image hint :
  match before_or_after, isNull image with
  | BEFORE, true => Some (length (m_itemsInOrder s))
  | _, _ =>
      match lower_bound (PageId_of_image image) (m_itemsInOrder s) with
      | None => None
      | Some it =>
          if decide (pi_imageId (pageInfo it) <> image) then None
          else
            ord_it ← index_of (addr it) (m_itemsInOrder s);
            match before_or_after with
            | BEFORE => Some ord_it
            | AFTER =>
                match m_ptrOrderProvider s with
                | None => Some (skip_same_image image (m_itemsInOrder s) (S ord_it))
                | Some _ => Some (S ord_it)
                end
            end
      end
  end = Some hint ->
  hint <= length (m_itemsInOrder s).
Proof.
  assert (Hfound :
    match lower_bound (PageId_of_image image) (m_itemsInOrder s) with
    | None => None
    | Some it =>
        if decide (pi_imageId (pageInfo it) <> image) then None
        else
          ord_it ← index_of (addr it) (m_itemsInOrder s);
          match before_or_after with
          | BEFORE => Some ord_it
          | AFTER =>
              match m_ptrOrderProvider s with
              | None => Some (skip_same_image image (m_itemsInOrder s) (S ord_it))
              | Some _ => Some (S ord_it)
              end
          end
    end = Some hint -> hint <= length (m_itemsInOrder s)).
  { destruct (lower_bound _ _) as [it|]; [|done].
    destruct (decide _); [done|].
    destruct (index_of (addr it) (m_itemsInOrder s)) as [ord_it|] eqn:Hi; simpl; [|done].
    apply index_of_lt in Hi.
    destruct before_or_after; [intros [= <-]; lia|].
    destruct (m_ptrOrderProvider s); intros [= <-]; [lia|].
    unfold skip_same_image.
    pose proof (length_takeWhile_le
                  (fun it => bool_decide (pi_imageId (pageInfo it) = image))
                  (drop (S ord_it) (m_itemsInOrder s))) as Hle.
    rewrite length_drop in Hle. lia. }
  destruct before_or_after, (isNull image); try exact Hfound.
  intros [= <-]. lia.
Qed.

(** What [insert] does to the item store: nothing, or one new, unselected
    item at the position picked by [itemInsertPosition]; the items already
    stored keep their node, page and flags. *)
Lemma insert_shape s new_page before_or_after image factory :
  let s' := fst (insert new_page before_or_after image factory s) in
  snd (insert new_page before_or_after image factory s) = []
  /\ m_pSelectionLeader s' = m_pSelectionLeader s
  /\ m_ptrOrderProvider s' = m_ptrOrderProvider s
  /\ (store_view <$> m_itemsInOrder s' = store_view <$> m_itemsInOrder s
      \/ exists hint,
           hint <= length (m_itemsInOrder s)
           /\ (id new_page ∉ pageId <$> m_itemsInOrder s)
           /\ store_view <$> m_itemsInOrder s'
              = let k := fst (itemInsertPosition s 0 (length (m_itemsInOrder s))
                                (id new_page) hint) in
                take k (store_view <$> m_itemsInOrder s)
                ++ (next_addr s, new_page, false, false)
                   :: drop k (store_view <$> m_itemsInOrder s)).
Proof.
  unfold insert.
  destruct (match before_or_after with BEFORE => _ | AFTER => _ end) as [hint|] eqn:Hhint.
  2: { repeat split. by left. }
  apply insert_hint_le in Hhint.
  set (k := fst (itemInsertPosition s 0 (length (m_itemsInOrder s)) (id new_page) hint)).
  destruct (match last (m_itemsInOrder s) with Some _ => _ | None => _ end)
    as [page_num offset].
  unfold insert_at.
  cbn [m_itemsInOrder set_sceneRect].
  case_bool_decide as Hex; simpl.
  - repeat split. left.
    by rewrite fmap_app, shift_items_store_view, <- fmap_app, take_drop.
  - repeat split. right. exists hint. split; [done|]. split.
    + intros (it & Hid & Hit)%list_elem_of_fmap. apply Hex. apply Exists_exists.
      by exists it.
    + fold k. rewrite fmap_app, shift_items_store_view, <- fmap_app, take_drop.
      by rewrite fmap_app, fmap_cons, fmap_take, fmap_drop.
Qed.

End InsertShape.

(** X11: [insert] never touches the selection: whatever the reference
    image and the page, it emits no signal, keeps the leader and the set
    of selected pages, and every item stored before is stored afterwards
    on the same node with the same page and flags. *)
Theorem insert_keeps_selection (s : Impl) (new_page : PageInfo)
    (before_or_after : BeforeOrAfter) (image : ImageId) (factory : ThumbnailFactory) :
  reachable s ->
  exists s',
    insert new_page before_or_after image factory s = (s', [])
    /\ m_pSelectionLeader s' = m_pSelectionLeader s
    /\ selectedItems s' = selectedItems s
    /\ forall it, it ∈ m_itemsInOrder s ->
         store_view it ∈ store_view <$> m_itemsInOrder s'.
Proof.
  intros Hr. pose proof (reachable_Inv s Hr) as HI.
  pose proof (Inv_insert s new_page before_or_after image factory HI) as HI'.
  destruct (insert_shape s new_page before_or_after image factory)
    as (Hsig & Hlead & _ & Hitems).
  destruct (insert new_page before_or_after image factory s) as [s' sigs].
  simpl in *. subst sigs. exists s'. split; [done|]. split; [done|].
  assert (Hview : forall l l' : list Item, store_view <$> l' = store_view <$> l ->
                    selection_view <$> l' = selection_view <$> l).
  { intros l l' H.
    apply (f_equal (fmap (fun v : nat * PageInfo * bool * bool =>
                            (id (snd (fst (fst v))), snd (fst v))))) in H.
    by rewrite <- !list_fmap_compose in H. }
  destruct HI as (Hsel & _), HI' as (Hsel' & _). split.
  - apply set_eq. intros page_id.
    rewrite (selectedItems_view s' Hsel'), (selectedItems_view s Hsel).
    destruct Hitems as [Hsame|(hint & _ & _ & Hnew)].
    + by rewrite (Hview _ _ Hsame).
    + rewrite !list_elem_of_fmap. split.
      * intros (it' & Hv & Hin').
        apply (list_elem_of_fmap_2 store_view) in Hin'. rewrite Hnew in Hin'.
        cbv zeta in Hin'. apply elem_of_app in Hin' as [Hin'|Hin'].
        { apply subseteq_take in Hin'.
          apply list_elem_of_fmap in Hin' as (it & Hsv & Hit). exists it.
          split; [|done]. rewrite Hv. unfold selection_view, pageId.
          by injection Hsv as _ -> -> _. }
        apply elem_of_cons in Hin' as [Hnew'|Hin'].
        { injection Hnew' as _ _ Hs _. unfold selection_view in Hv. congruence. }
        apply subseteq_drop in Hin'.
        apply list_elem_of_fmap in Hin' as (it & Hsv & Hit). exists it.
        split; [|done]. rewrite Hv. unfold selection_view, pageId.
        by injection Hsv as _ -> -> _.
      * intros (it & Hv & Hin).
        assert (Hsv : store_view it ∈ store_view <$> m_itemsInOrder s').
        { rewrite Hnew. cbv zeta.
          apply (list_elem_of_fmap_2 store_view) in Hin.
          rewrite <- (take_drop
                        (fst (itemInsertPosition s 0 (length (m_itemsInOrder s))
                                (id new_page) hint))
                        (store_view <$> m_itemsInOrder s)) in Hin.
          apply elem_of_app in Hin as [Hin|Hin]; apply elem_of_app;
            [by left | right; by right]. }
        apply list_elem_of_fmap in Hsv as (it' & Hsv & Hit'). exists it'.
        split; [|done]. rewrite Hv. unfold selection_view, pageId.
        by injection Hsv as _ -> -> _.
  - intros it Hin. destruct Hitems as [->|(hint & _ & _ & ->)].
    + by apply list_elem_of_fmap_2.
    + cbv zeta. apply (list_elem_of_fmap_2 store_view) in Hin.
      rewrite <- (take_drop
                    (fst (itemInsertPosition s 0 (length (m_itemsInOrder s))
                            (id new_page) hint))
                    (store_view <$> m_itemsInOrder s)) in Hin.
      apply elem_of_app in Hin as [Hin|Hin]; apply elem_of_app;
        [by left | right; by right].
Qed.

Lemma insert_keeps_selection_witness :
  reachable two_selected_state
  /\ exists s',
       insert (page 7) AFTER 1 example_factory two_selected_state = (s', [])
       /\ m_pSelectionLeader s' = m_pSelectionLeader two_selected_state
       /\ selectedItems s' = selectedItems two_selected_state
       /\ forall it, it ∈ m_itemsInOrder two_selected_state ->
            store_view it ∈ store_view <$> m_itemsInOrder s'.
Proof.
  split; [apply two_selected_state_reachable|].
  apply (insert_keeps_selection two_selected_state (page 7) AFTER 1 example_factory).
  apply two_selected_state_reachable.
Defined.

(** X12: without an order provider, [insert] of a page whose identity is
    not stored yet, [BEFORE] the null image, appends: the items stored
    before are untouched and followed by one new, unselected item for the
    page, numbered one more than the last item (0 in an empty store) and
    placed [SPACING] below it (at 0 in an empty store). *)
Theorem insert_before_null_appends (s : Impl) (new_page : PageInfo)
    (factory : ThumbnailFactory) :
  m_ptrOrderProvider s = None ->
  id new_page ∉ pageId <$> m_itemsInOrder s ->
  let page_num :=
    match last (m_itemsInOrder s) with
    | Some back => (pageNum back + 1)%Z
    | None => 0%Z
    end in
  let offset :=
    match last (m_itemsInOrder s) with
    | Some back =>
        (pt_y (pos (composite back)) + Rect.height (boundingRect (composite back))
         + SPACING)%Q
    | None => 0%Q
    end in
  m_itemsInOrder (fst (insert new_page BEFORE nullImageId factory s))
  = m_itemsInOrder s
    ++ [mkItem (next_addr s) new_page page_num
          (setPos (mkPoint 0 offset) (getCompositeItem factory new_page page_num))
          false false].
Proof.
  intros Hprov Hfresh page_num offset. unfold insert.
  change (isNull nullImageId) with true. cbv iota.
  unfold itemInsertPosition. rewrite Hprov. cbn [fst].
  rewrite (lookup_ge_None_2 (m_itemsInOrder s) (length (m_itemsInOrder s))) by lia.
  assert (Hlast :
    match last (m_itemsInOrder s) with
    | Some back =>
        ((pageNum back + 1)%Z,
         (pt_y (pos (composite back)) + Rect.height (boundingRect (composite back))
          + SPACING)%Q)
    | None => (0%Z, 0%Q)
    end = (page_num, offset)).
  { unfold page_num, offset. by destruct (last (m_itemsInOrder s)). }
  rewrite Hlast. unfold insert_at. cbn [m_itemsInOrder set_sceneRect].
  rewrite bool_decide_eq_false_2.
  2: { intros (it & Hit & Hid)%Exists_exists. apply Hfresh. rewrite <- Hid.
       by apply list_elem_of_fmap_2. }
  cbn [fst m_itemsInOrder commitSceneRect shift_from set_items set_sceneRect].
  rewrite firstn_all, skipn_all. cbn [app].
  rewrite (drop_ge _ (S (length (m_itemsInOrder s)))) by (rewrite length_app; simpl; lia).
  rewrite (take_ge _ (S (length (m_itemsInOrder s)))) by (rewrite length_app; simpl; lia).
  simpl. by rewrite app_nil_r.
Qed.

Lemma insert_before_null_appends_witness :
  m_ptrOrderProvider example_state = None
  /\ (id (page 7) ∉ pageId <$> m_itemsInOrder example_state)
  /\ exists new_item,
       m_itemsInOrder (fst (insert (page 7) BEFORE nullImageId example_factory
                              example_state))
       = m_itemsInOrder example_state ++ [new_item]
       /\ addr new_item = 4 /\ pageNum new_item = 3%Z.
Proof.
  assert (Hfresh : id (page 7) ∉ pageId <$> m_itemsInOrder example_state)
    by (apply (bool_decide_unpack _); vm_compute; exact I).
  split; [reflexivity|]. split; [exact Hfresh|].
  eexists. split;
    [exact (insert_before_null_appends example_state (page 7) example_factory
              eq_refl Hfresh)|].
  split; reflexivity.
Defined.
(** ** Display order under an order provider *)

Section DisplayOrder.

Implicit Types (s : Impl) (items : list Item) (p : PageOrderProvider).

(** Where [itemInsertPosition] ends up when an order provider is set. *)
Lemma itemInsertPosition_brackets s p (begin end_ hint : nat) (page_id : PageId) :
  m_ptrOrderProvider s = Some p ->
  begin <= hint -> hint <= end_ -> end_ <= length (m_itemsInOrder s) ->
  let ins_pos := fst (itemInsertPosition s begin end_ page_id hint) in
  begin <= ins_pos <= end_
  /\ (ins_pos = end_
      \/ exists it, m_itemsInOrder s !! ins_pos = Some it
                    /\ precedes p page_id (pageId it) = true)
  /\ (ins_pos = begin
      \/ exists it, m_itemsInOrder s !! (ins_pos - 1) = Some it
                    /\ precedes p page_id (pageId it) = false).
Proof.
  intros Hp Hbh Hhe Hel. unfold itemInsertPosition. rewrite Hp.
  set (items := m_itemsInOrder s) in *.
  assert (Hphase1 : exists q dist,
    (if decide (hint = begin) then (hint, 0%Z)
     else let '(ins_pos, dist) :=
            if decide (hint = end_) then (hint - 1, (-1)%Z) else (hint, 0%Z) in
          move_back p page_id items begin ins_pos dist)
    = (q, dist)
    /\ begin <= q <= hint
    /\ (q = begin \/ (q < end_ /\ precedes_at p page_id items q = false))).
  { destruct (decide (hint = begin)) as [->|Hne].
    - exists begin, 0%Z. split; [done|]. split; [lia | by left].
    - destruct (decide (hint = end_)) as [->|Hne2].
      + destruct (move_back_spec p page_id items begin (end_ - 1) (-1)%Z)
          as (q & Hq & Hr & Hb); [lia|].
        eexists q, _. split; [exact Hq|]. split; [lia|].
        destruct Hb; [by left | right; split; [lia | done]].
      + destruct (move_back_spec p page_id items begin hint 0%Z)
          as (q & Hq & Hr & Hb); [lia|].
        eexists q, _. split; [exact Hq|]. split; [lia|].
        destruct Hb; [by left | right; split; [lia | done]]. }
  destruct Hphase1 as (q & dist & -> & Hqr & Hqb).
  destruct (move_forward_spec p page_id items (end_ - q) q dist)
    as (r & -> & Hrr & Hre & Hrk).
  cbn [fst]. split; [lia|]. split.
  - destruct Hre as [->|Hpre]; [left; lia|].
    destruct (decide (r = end_)) as [->|Hne]; [by left|]. right.
    apply precedes_at_lookup; [lia | done].
  - destruct (decide (r = q)) as [->|Hne].
    + destruct Hqb as [->|[Hlt Hpre]]; [by left|].
      destruct Hre as [Heq|Hpre2]; [lia | congruence].
    + right. apply precedes_at_lookup; [lia|]. apply Hrk. lia.
Qed.

Lemma in_order_insert p (ids : list PageId) (k : nat) (x : PageId) :
  in_order p ids ->
  k <= length ids ->
  (k = 0 \/ exists y, ids !! (k - 1) = Some y /\ precedes p x y = false) ->
  (k = length ids \/ exists y, ids !! k = Some y /\ precedes p y x = false) ->
  in_order p (take k ids ++ x :: drop k ids).
Proof.
  revert k. induction ids as [|y rest IH]; intros k Hord Hk Hbefore Hafter.
  { by rewrite take_nil, drop_nil. }
  destruct k as [|k].
  { simpl. split; [|done]. destruct Hafter as [|(z & [= <-] & Hz)]; done. }
  simpl in Hk. cbn [take drop app].
  assert (Hrest : in_order p (take k rest ++ x :: drop k rest)).
  { apply IH.
    - by destruct Hord.
    - lia.
    - destruct k as [|k]; [by left|]. right.
      destruct Hbefore as [|(z & Hz & Hpre)]; [done|].
      exists z. split; [|done]. replace (S k - 1) with k by lia.
      by replace (S (S k) - 1) with (S k) in Hz by lia.
    - destruct Hafter as [Heq|(z & Hz & Hpre)]; [left; simpl in Heq; lia|].
      right. by exists z. }
  split; [|done].
  destruct k as [|k].
  - simpl. destruct Hbefore as [|(z & [= <-] & Hz)]; done.
  - destruct rest as [|z rest']; [simpl in Hk; lia|].
    simpl. by destruct Hord.
Qed.

End DisplayOrder.

(** X13: [insert] keeps the display order consistent with the order
    provider.  When a provider is set whose [precedes] never holds in both
    directions, and no stored page is directly followed by one the
    provider puts before it, the same is true after [insert], whatever
    the page, the reference image and the side. *)
Theorem insert_keeps_order (s : Impl) (p : PageOrderProvider) (new_page : PageInfo)
    (before_or_after : BeforeOrAfter) (image : ImageId) (factory : ThumbnailFactory) :
  m_ptrOrderProvider s = Some p ->
  (forall x y, precedes p x y = true -> precedes p y x = false) ->
  in_order p (pageId <$> m_itemsInOrder s) ->
  in_order p (pageId <$> m_itemsInOrder
                           (fst (insert new_page before_or_after image factory s))).
Proof.
  intros Hp Hasym Hord.
  destruct (insert_shape s new_page before_or_after image factory)
    as (_ & _ & _ & [Hsame|(hint & Hhint & _ & Hnew)]).
  { by rewrite store_view_pageId, Hsame, <- store_view_pageId. }
  rewrite store_view_pageId, Hnew. cbv zeta.
  destruct (itemInsertPosition_brackets s p 0 (length (m_itemsInOrder s)) hint
              (id new_page) Hp) as (Hk & Hafter & Hbefore); [lia | done | done |].
  set (k := fst (itemInsertPosition s 0 (length (m_itemsInOrder s)) (id new_page) hint))
    in *.
  rewrite fmap_app, fmap_cons, fmap_take, fmap_drop, <- store_view_pageId.
  cbn [fst snd id].
  apply in_order_insert; [done | by rewrite length_fmap; lia | |].
  - destruct Hbefore as [->|(it & Hit & Hpre)]; [by left|]. right.
    exists (pageId it). by rewrite list_lookup_fmap, Hit.
  - destruct Hafter as [->|(it & Hit & Hpre)]; [left; by rewrite length_fmap|]. right.
    exists (pageId it). rewrite list_lookup_fmap, Hit. split; [done|].
    by apply Hasym.
Qed.

Lemma example_provider_asym x y :
  precedes example_provider x y = true -> precedes example_provider y x = false.
Proof. simpl. rewrite PageId_ltb_spec, PageId_ltb_false. lia. Qed.

Lemma insert_keeps_order_witness :
  m_ptrOrderProvider ordered_state = Some example_provider
  /\ (forall x y, precedes example_provider x y = true ->
                  precedes example_provider y x = false)
  /\ in_order example_provider (pageId <$> m_itemsInOrder ordered_state)
  /\ in_order example_provider
       (pageId <$> m_itemsInOrder
                     (fst (insert (mkPageInfo (mkPageId 2 LEFT_PAGE) false) BEFORE 1
                             example_factory ordered_state))).
Proof.
  assert (Hord : in_order example_provider (pageId <$> m_itemsInOrder ordered_state))
    by (vm_compute; repeat split).
  split; [reflexivity|]. split; [exact example_provider_asym|]. split; [exact Hord|].
  exact (insert_keeps_order ordered_state example_provider
           (mkPageInfo (mkPageId 2 LEFT_PAGE) false) BEFORE 1 example_factory
           eq_refl example_provider_asym Hord).
Defined.
(** ** Removal of pages *)

Section RemovePages.

Implicit Types (s : Impl) (items : list Item) (x y : Item).

Lemma removePages_loop_leader (to_remove : gset PageId) l st :
  rm_leader (removePages_loop to_remove l st)
  = match rm_leader st with
    | Some a =>
        if decide (a ∈ addr <$> filter (fun it => pageId it ∈ to_remove) l)
        then None else Some a
    | None => None
    end.
Proof.
  revert st. induction l as [|it l IH]; intros st; cbn [removePages_loop].
  { destruct (rm_leader st); [|done]. rewrite decide_False; [done|].
    apply not_elem_of_nil. }
  destruct (decide (pageId it ∈ to_remove)) as [Hrm|Hkeep].
  - rewrite IH. cbn [rm_leader]. rewrite filter_cons_True by done.
    destruct (rm_leader st) as [a|]; [|by rewrite decide_False].
    destruct (decide (Some a = Some (addr it))) as [[= ->]|Hne].
    + rewrite decide_True; [done|]. rewrite fmap_cons. by left.
    + destruct (decide (a ∈ addr <$> filter _ l)) as [Hin|Hnin].
      * rewrite decide_True; [done|]. rewrite fmap_cons. by right.
      * rewrite decide_False; [done|]. rewrite fmap_cons.
        intros [->|?]%elem_of_cons; done.
  - rewrite IH. cbn [rm_leader]. by rewrite filter_cons_False.
Qed.

Lemma kept_as_refl x : kept_as x x.
Proof. repeat split. by left. Qed.

Lemma kept_as_trans x y z : kept_as x y -> kept_as y z -> kept_as x z.
Proof.
  intros (Ha & Hs & Hl & Hp) (Ha' & Hs' & Hl' & Hp').
  split; [congruence|]. split; [congruence|]. split; [congruence|].
  destruct Hp as [Hp|Hp], Hp' as [Hp'|Hp'];
    rewrite Hp', ?Hp; [by left | by right | by right | by right].
Qed.

Lemma Forall2_kept_as_trans (l1 l2 l3 : list Item) :
  Forall2 kept_as l1 l2 -> Forall2 kept_as l2 l3 -> Forall2 kept_as l1 l3.
Proof.
  intros H. revert l3. induction H as [|x y l1 l2 Hxy _ IH]; intros l3 H3.
  - by inversion H3.
  - inversion H3 as [|? z ? l3' Hyz H3']; subst. constructor.
    + by eapply kept_as_trans.
    + by apply IH.
Qed.

Lemma modify_pageId_kept_as a image items items' :
  (forall it, it ∈ items -> addr it = a -> pi_imageId (pageInfo it) = image) ->
  modify_pageId a (mkPageId image SINGLE_PAGE) items = Some items' ->
  Forall2 kept_as items items'.
Proof.
  unfold modify_pageId. case_bool_decide; [done|]. intros Himg [= <-].
  unfold modify_item. apply Forall2_fmap_r, Forall_Forall2_diag, Forall_forall.
  intros it Hit. unfold compose.
  destruct (decide (addr it = a)) as [Ha|]; [|apply kept_as_refl].
  repeat split. right. simpl. by rewrite (Himg it Hit Ha).
Qed.

Lemma kept_as_elem (l l' : list Item) y :
  Forall2 kept_as l l' -> y ∈ l' -> exists x, x ∈ l /\ kept_as x y.
Proof.
  intros H Hy. apply list_elem_of_lookup in Hy as [k Hk].
  destruct (Forall2_lookup_r _ _ _ _ _ H Hk) as (x & Hx & Hxy).
  exists x. split; [by eapply list_elem_of_lookup_2 | done].
Qed.

Lemma kept_as_image x y : kept_as x y -> pi_imageId (pageInfo y) = pi_imageId (pageInfo x).
Proof. intros (_ & _ & _ & [->| ->]); done. Qed.

Lemma singularize_run_kept_as image run items items' :
  (forall it, it ∈ items -> addr it ∈ run -> pi_imageId (pageInfo it) = image) ->
  singularize_run image run items = Some items' ->
  Forall2 kept_as items items'.
Proof.
  revert items. induction run as [|a run IH]; intros items Himg; simpl.
  { intros [= <-]. apply Forall_Forall2_diag, Forall_forall. intros. apply kept_as_refl. }
  destruct (modify_pageId a _ items) as [items1|] eqn:E; simpl; [|done].
  intros Hrun.
  assert (H1 : Forall2 kept_as items items1).
  { eapply modify_pageId_kept_as; [|exact E].
    intros it Hit <-. apply Himg; [done | by left]. }
  eapply Forall2_kept_as_trans; [exact H1|]. apply IH; [|done].
  intros y Hy Hrun_y.
  destruct (kept_as_elem _ _ _ H1 Hy) as (x & Hx & Hxy).
  rewrite (kept_as_image _ _ Hxy). apply Himg; [done|].
  destruct Hxy as (Ha & _). rewrite <- Ha. by right.
Qed.

Lemma singularize_kept_as image items items' :
  NoDup (addr <$> items) ->
  singularize image items = Some items' ->
  Forall2 kept_as items items'.
Proof.
  intros Hnd. unfold singularize. apply singularize_run_kept_as.
  intros it Hit (y & Hay & Hy)%list_elem_of_fmap.
  apply elem_of_takeWhile in Hy as [Hy Himg].
  unfold from_lower_bound in Hy. apply elem_of_dropWhile in Hy.
  rewrite elem_of_itemsById in Hy.
  rewrite (addr_inj_on items it y Hnd Hit Hy Hay).
  by apply bool_decide_eq_true in Himg.
Qed.

Lemma kept_as_addr (l l' : list Item) :
  Forall2 kept_as l l' -> addr <$> l' = addr <$> l.
Proof.
  induction 1 as [|x y l l' (Ha & _) _ IH]; [done|]. rewrite !fmap_cons. by rewrite Ha, IH.
Qed.

Lemma singularize_all_kept_as images items items' :
  NoDup (addr <$> items) ->
  singularize_all images items = Some items' ->
  Forall2 kept_as items items'.
Proof.
  revert items. induction images as [|image images IH]; intros items Hnd; simpl.
  { intros [= <-]. apply Forall_Forall2_diag, Forall_forall. intros. apply kept_as_refl. }
  destruct (singularize image items) as [items1|] eqn:E; simpl; [|done].
  intros Hall. pose proof (singularize_kept_as _ _ _ Hnd E) as H1.
  eapply Forall2_kept_as_trans; [exact H1|]. apply IH; [|done].
  by rewrite (kept_as_addr _ _ H1).
Qed.

Lemma store_view_kept_as (l l' : list Item) :
  store_view <$> l' = store_view <$> l -> Forall2 kept_as l l'.
Proof.
  revert l'. induction l as [|x l IH]; intros [|y l'] H; try done.
  injection H as Ha Hp Hs Hl H. apply Forall2_cons. split; [|by apply IH].
  repeat split; [done..|by left].
Qed.

End RemovePages.

(** X14: [removePages], when it returns, removes exactly the items whose
    page is in the set: the items left are the other items, in their
    order, each on its node with its flags and with its page unchanged or
    redesignated single page.  The leader is dropped exactly when its
    page is removed (the selection is left without a leader even when
    other selected items remain), and no signal is emitted. *)
Theorem removePages_removes_exactly (s : Impl) (to_remove : gset PageId)
    (s' : Impl) (sigs : list Signal) :
  reachable s ->
  removePages to_remove s = Some (s', sigs) ->
  sigs = []
  /\ Forall2 kept_as
       (filter (fun it => pageId it ∉ to_remove) (m_itemsInOrder s))
       (m_itemsInOrder s')
  /\ m_pSelectionLeader s'
     = match m_pSelectionLeader s with
       | Some l =>
           match find_item l (m_itemsInOrder s) with
           | Some leader => if decide (pageId leader ∈ to_remove) then None else Some l
           | None => Some l
           end
       | None => None
       end.
Proof.
  intros Hr. pose proof (reachable_Inv s Hr) as ((Hnd & _) & _).
  unfold removePages.
  set (st0 := mkRemoveLoop [] _ _ [] _ _).
  destruct (removePages_loop_spec to_remove (m_itemsInOrder s) st0) as [Hk _].
  pose proof (removePages_loop_leader to_remove (m_itemsInOrder s) st0) as Hl.
  simpl in Hk, Hl.
  destruct (singularize_all _ _) as [items|] eqn:E; simpl; [|done].
  intros [= <- <-]. split; [done|]. simpl. split.
  - eapply Forall2_kept_as_trans; [by apply store_view_kept_as|].
    eapply singularize_all_kept_as; [|exact E].
    rewrite store_view_addr, Hk, <- store_view_addr.
    eapply sublist_NoDup; [exact Hnd|]. apply fmap_sublist, sublist_filter.
  - rewrite Hl. destruct (m_pSelectionLeader s) as [l|]; [|done].
    destruct (find_item l (m_itemsInOrder s)) as [leader|] eqn:Hf.
    + apply find_item_Some in Hf as [Hin Ha].
      destruct (decide (pageId leader ∈ to_remove)) as [Hrm|Hkeep].
      * rewrite decide_True; [done|]. rewrite <- Ha. apply list_elem_of_fmap_2.
        by apply list_elem_of_filter.
      * rewrite decide_False; [done|].
        intros (y & Hay & [Hy Hyin]%list_elem_of_filter)%list_elem_of_fmap.
        apply Hkeep. rewrite <- Ha in Hay.
        by rewrite (addr_inj_on _ leader y Hnd Hin Hyin Hay).
    + rewrite decide_False; [done|].
      intros (y & Hay & [Hy Hyin]%list_elem_of_filter)%list_elem_of_fmap.
      apply find_item_None in Hf. apply Hf. rewrite Hay. by apply list_elem_of_fmap_2.
Qed.

Lemma removePages_removes_exactly_witness :
  reachable two_selected_state
  /\ removePages {[ PageId_of_image 2 ]} two_selected_state = Some (leaderless_state, [])
  /\ Forall2 kept_as
       (filter (fun it => pageId it ∉ ({[ PageId_of_image 2 ]} : gset PageId))
          (m_itemsInOrder two_selected_state))
       (m_itemsInOrder leaderless_state)
  /\ m_pSelectionLeader leaderless_state = None.
Proof.
  assert (Hcall : removePages {[ PageId_of_image 2 ]} two_selected_state
                  = Some (leaderless_state, [])) by (vm_compute; reflexivity).
  split; [apply two_selected_state_reachable|]. split; [exact Hcall|].
  destruct (removePages_removes_exactly two_selected_state {[ PageId_of_image 2 ]}
              leaderless_state [] two_selected_state_reachable Hcall)
    as (_ & Hkept & Hlead).
  split; [exact Hkept | exact Hlead].
Defined.
(** ** Refreshing thumbnails *)

Section Refresh.

Implicit Types (s : Impl) (items : list Item).

Lemma selectedItems_perm s s' :
  SelOk (m_itemsInOrder s) (m_selectedThenUnselected s) ->
  SelOk (m_itemsInOrder s') (m_selectedThenUnselected s') ->
  store_view <$> m_itemsInOrder s' ≡ₚ store_view <$> m_itemsInOrder s ->
  selectedItems s' = selectedItems s.
Proof.
  intros Hsel Hsel' Hperm. apply set_eq. intros page_id.
  rewrite (selectedItems_view s' Hsel'), (selectedItems_view s Hsel).
  assert (Hview : forall l : list Item,
            selection_view <$> l
            = (fun v : nat * PageInfo * bool * bool =>
                 (id (snd (fst (fst v))), snd (fst v))) <$> (store_view <$> l)).
  { intros l. rewrite <- list_fmap_compose. by apply list_fmap_ext. }
  by rewrite !Hview, Hperm.
Qed.

Lemma take_delete {A} (l : list A) i : take i (delete i l) = take i l.
Proof.
  revert i. induction l as [|x l IH]; intros [|i]; simpl; try done.
  by rewrite IH.
Qed.

Lemma drop_delete {A} (l : list A) i : drop i (delete i l) = drop (S i) l.
Proof.
  revert i. induction l as [|x l IH]; intros [|i]; simpl; done.
Qed.

Lemma invalidateThumbnail_shape s page_id factory :
  NoDup (addr <$> m_itemsInOrder s) ->
  let s' := fst (invalidateThumbnail page_id factory s) in
  m_pSelectionLeader s' = m_pSelectionLeader s
  /\ m_selectedThenUnselected s' = m_selectedThenUnselected s
  /\ store_view <$> m_itemsInOrder s' ≡ₚ store_view <$> m_itemsInOrder s
  /\ (m_ptrOrderProvider s = None ->
      store_view <$> m_itemsInOrder s' = store_view <$> m_itemsInOrder s).
Proof.
  intros Hnd. unfold invalidateThumbnail.
  destruct (findById page_id s) as [found|] eqn:Hf; [|done].
  destruct (index_of (addr found) (m_itemsInOrder s)) as [i|] eqn:Hi; [|done].
  apply findById_elem in Hf as [Hin _].
  assert (Hl : m_itemsInOrder s !! i = Some found).
  { eapply index_of_find_item; [done | done |]. by apply find_item_elem. }
  destruct (itemInsertPosition _ _ _ _ _) as [after_new dist] eqn:Hpos.
  destruct (if (dist <=? 0)%Z then _ else _) as [ord_it ord_end]. simpl.
  split; [done|]. split; [done|].
  rewrite restack_store_view. split.
  - rewrite (delete_Permutation _ _ _ Hl) at 3.
    rewrite fmap_app, !fmap_cons, <- Permutation_middle, <- fmap_app.
    by rewrite take_drop.
  - intros Hprov. unfold itemInsertPosition in Hpos. simpl in Hpos.
    rewrite Hprov in Hpos. injection Hpos as <- <-.
    replace (S i - 1) with i by lia.
    rewrite take_delete, drop_delete, fmap_app, fmap_cons.
    rewrite <- (take_drop_middle _ _ _ Hl) at 3.
    by rewrite fmap_app, fmap_cons.
Qed.

Lemma rebuild_all_stacked factory l offset scene :
  stacked_from offset (fst (rebuild_all factory l offset scene)).
Proof.
  revert offset scene. induction l as [|it l IH]; intros offset scene; simpl; [done|].
  match goal with |- context [rebuild_all factory l ?o ?sc] =>
    specialize (IH o sc); destruct (rebuild_all factory l o sc) as [rest' scene']
  end.
  simpl in *. by split.
Qed.

Lemma in_order_insert_sorted p (x : Item) (l : list Item) :
  (forall a b, precedes p a b = true -> precedes p b a = false) ->
  in_order p (pageId <$> l) ->
  in_order p (pageId <$>
                insert_sorted (fun a b => precedes p (pageId a) (pageId b)) x l).
Proof.
  intros Hasym. induction l as [|y l IH]; intros Hord; simpl; [done|].
  destruct (precedes p (pageId y) (pageId x)) eqn:E.
  - rewrite fmap_cons. destruct Hord as [Hhd Hord]. specialize (IH Hord).
    split; [|done].
    destruct l as [|z l]; simpl.
    + by apply Hasym.
    + destruct (precedes p (pageId z) (pageId x)); simpl; [done | by apply Hasym].
  - by split.
Qed.

Lemma in_order_stable_sort p (l : list Item) :
  (forall a b, precedes p a b = true -> precedes p b a = false) ->
  in_order p (pageId <$> stable_sort (fun a b => precedes p (pageId a) (pageId b)) l).
Proof.
  intros Hasym. induction l as [|x l IH]; simpl; [done|].
  by apply in_order_insert_sorted.
Qed.

End Refresh.

(** X15: [invalidateThumbnail] changes no item but its visuals: the items
    stored afterwards are the items stored before, each on its node with
    its page and flags, the leader and the set of selected pages are the
    same, and without an order provider the display order is the same
    too. *)
Theorem invalidateThumbnail_keeps_items (s : Impl) (page_id : PageId)
    (factory : ThumbnailFactory) :
  reachable s ->
  let s' := fst (invalidateThumbnail page_id factory s) in
  store_view <$> m_itemsInOrder s' ≡ₚ store_view <$> m_itemsInOrder s
  /\ m_pSelectionLeader s' = m_pSelectionLeader s
  /\ selectedItems s' = selectedItems s
  /\ (m_ptrOrderProvider s = None ->
      store_view <$> m_itemsInOrder s' = store_view <$> m_itemsInOrder s).
Proof.
  intros Hr s'. pose proof (reachable_Inv s Hr) as HI.
  pose proof (Inv_invalidateThumbnail s page_id factory HI) as HI'.
  destruct (invalidateThumbnail_shape s page_id factory) as (Hl & _ & Hperm & Hsame).
  { apply HI. }
  split; [done|]. split; [done|]. split; [|done].
  apply selectedItems_perm; [apply HI | apply HI' | done].
Qed.

Lemma invalidateThumbnail_keeps_items_witness :
  reachable two_selected_state
  /\ let s' := fst (invalidateThumbnail (PageId_of_image 2) example_factory
                      two_selected_state) in
     store_view <$> m_itemsInOrder s' ≡ₚ store_view <$> m_itemsInOrder two_selected_state
     /\ m_pSelectionLeader s' = m_pSelectionLeader two_selected_state
     /\ selectedItems s' = selectedItems two_selected_state
     /\ (m_ptrOrderProvider two_selected_state = None ->
         store_view <$> m_itemsInOrder s'
         = store_view <$> m_itemsInOrder two_selected_state).
Proof.
  split; [apply two_selected_state_reachable|].
  apply (invalidateThumbnail_keeps_items two_selected_state (PageId_of_image 2)
           example_factory).
  apply two_selected_state_reachable.
Defined.

(** X16: [invalidateAllThumbnails] rebuilds the whole column and nothing
    else: it emits no signal, keeps every item on its node with its page
    and flags, keeps the leader and the set of selected pages, and leaves
    the thumbnails stacked from the top, each [SPACING] below the one
    before.  Without an order provider the display order is unchanged;
    with a provider whose [precedes] never holds in both directions no
    page is directly followed by one the provider puts before it. *)
Theorem invalidateAllThumbnails_rebuilds (s : Impl) (factory : ThumbnailFactory) :
  reachable s ->
  exists s',
    invalidateAllThumbnails factory s = (s', [])
    /\ store_view <$> m_itemsInOrder s' ≡ₚ store_view <$> m_itemsInOrder s
    /\ m_pSelectionLeader s' = m_pSelectionLeader s
    /\ selectedItems s' = selectedItems s
    /\ stacked_from 0 (m_itemsInOrder s')
    /\ (m_ptrOrderProvider s = None ->
        store_view <$> m_itemsInOrder s' = store_view <$> m_itemsInOrder s)
    /\ (forall p, m_ptrOrderProvider s = Some p ->
        (forall a b, precedes p a b = true -> precedes p b a = false) ->
        in_order p (pageId <$> m_itemsInOrder s')).
Proof.
  intros Hr. pose proof (reachable_Inv s Hr) as HI.
  pose proof (Inv_invalidateAllThumbnails s factory HI) as HI'.
  unfold invalidateAllThumbnails in *.
  set (sorted := match m_ptrOrderProvider s with
                 | Some p => stable_sort (fun a b => precedes p (pageId a) (pageId b))
                               (m_itemsInOrder s)
                 | None => m_itemsInOrder s
                 end) in *.
  pose proof (rebuild_all_store_view factory sorted 0%Q (mkRect 0 0 0 0)) as Hview.
  pose proof (rebuild_all_stacked factory sorted 0%Q (mkRect 0 0 0 0)) as Hstacked.
  destruct (rebuild_all factory sorted 0%Q (mkRect 0 0 0 0)) as [items scene].
  simpl in *. eexists. split; [reflexivity|]. simpl.
  assert (Hperm : store_view <$> items ≡ₚ store_view <$> m_itemsInOrder s).
  { rewrite Hview. unfold sorted. destruct (m_ptrOrderProvider s); [|done].
    by rewrite stable_sort_perm. }
  split; [done|]. split; [done|]. split.
  { apply selectedItems_perm; [apply HI | apply HI' | done]. }
  split; [done|]. split.
  - intros Hprov. rewrite Hview. unfold sorted. by rewrite Hprov.
  - intros p Hprov Hasym. rewrite store_view_pageId, Hview, <- store_view_pageId.
    unfold sorted. rewrite Hprov. by apply in_order_stable_sort.
Qed.

Lemma invalidateAllThumbnails_rebuilds_witness :
  reachable two_selected_state
  /\ exists s',
       invalidateAllThumbnails example_factory two_selected_state = (s', [])
       /\ store_view <$> m_itemsInOrder s'
          ≡ₚ store_view <$> m_itemsInOrder two_selected_state
       /\ m_pSelectionLeader s' = m_pSelectionLeader two_selected_state
       /\ selectedItems s' = selectedItems two_selected_state
       /\ stacked_from 0 (m_itemsInOrder s')
       /\ (m_ptrOrderProvider two_selected_state = None ->
           store_view <$> m_itemsInOrder s'
           = store_view <$> m_itemsInOrder two_selected_state)
       /\ (forall p, m_ptrOrderProvider two_selected_state = Some p ->
           (forall a b, precedes p a b = true -> precedes p b a = false) ->
           in_order p (pageId <$> m_itemsInOrder s')).
Proof.
  split; [apply two_selected_state_reachable|].
  apply (invalidateAllThumbnails_rebuilds two_selected_state example_factory).
  apply two_selected_state_reachable.
Defined.
(** ** More than one selected page *)

Section CountSelected.

Implicit Types (s : Impl) (X : gset PageId).

Lemma size_ge_2 X : 2 <= size X <-> exists x y, x <> y /\ x ∈ X /\ y ∈ X.
Proof.
  split.
  - intros Hsize.
    destruct (size_pos_elem_of X) as [x Hx]; [lia|].
    destruct (size_pos_elem_of (X ∖ {[ x ]})) as [y Hy].
    { rewrite size_difference by (by apply singleton_subseteq_l).
      rewrite size_singleton. lia. }
    apply elem_of_difference in Hy as [Hy Hne].
    exists x, y. split; [|done]. intros ->. apply Hne. by apply elem_of_singleton.
  - intros (x & y & Hne & Hx & Hy).
    assert (Hsub : {[ x ]} ∪ {[ y ]} ⊆ X).
    { apply union_subseteq. split; by apply singleton_subseteq_l. }
    apply subseteq_size in Hsub.
    rewrite size_union in Hsub.
    + by rewrite !size_singleton in Hsub.
    + apply disjoint_singleton_l. intros ?%elem_of_singleton. done.
Qed.

End CountSelected.

(** X17: in every reachable state [multipleItemsSelected] answers whether
    [selectedItems] has two pages or more. *)
Theorem multipleItemsSelected_iff_two_pages (s : Impl) :
  reachable s ->
  multipleItemsSelected s = true <-> 2 <= size (selectedItems s).
Proof.
  intros Hr. pose proof (reachable_Inv s Hr) as (Hsel & _).
  pose proof (reachable_ids s Hr) as Hids. pose proof Hsel as (Hnd & _).
  rewrite size_ge_2. split.
  - intros Hm.
    destruct (multipleItemsSelected_other s 0 Hsel Hm) as (a & _ & Ha).
    destruct (multipleItemsSelected_other s a Hsel Hm) as (b & Hba & Hb).
    apply isSelected_at_true in Ha as (ita & Hfa & Hsa).
    apply isSelected_at_true in Hb as (itb & Hfb & Hsb).
    apply find_item_Some in Hfa as [Hina Haa], Hfb as [Hinb Hab].
    exists (pageId ita), (pageId itb). split.
    + intros Heq. apply Hba.
      rewrite <- Haa, <- Hab. f_equal. symmetry. by eapply same_id_same_item.
    + split; apply (selectedItems_spec s Hsel); [by exists ita | by exists itb].
  - intros (x & y & Hne & Hx & Hy).
    apply (selectedItems_spec s Hsel) in Hx as (itx & Hinx & Hsx & <-).
    apply (selectedItems_spec s Hsel) in Hy as (ity & Hiny & Hsy & <-).
    apply (multipleItemsSelected_true s (addr itx) (addr ity) Hsel).
    + intros Heq. apply Hne. f_equal. by eapply addr_inj_on.
    + unfold isSelected_at. by rewrite (find_item_elem _ _ Hnd Hinx).
    + unfold isSelected_at. by rewrite (find_item_elem _ _ Hnd Hiny).
Qed.

Lemma multipleItemsSelected_iff_two_pages_witness :
  reachable two_selected_state
  /\ (multipleItemsSelected two_selected_state = true
      <-> 2 <= size (selectedItems two_selected_state)).
Proof.
  split; [apply two_selected_state_reachable|].
  apply (multipleItemsSelected_iff_two_pages two_selected_state).
  apply two_selected_state_reachable.
Defined.

(** ** Context menu of a thumbnail *)

(** X18: a context-menu event on the thumbnail of a stored item emits one
    [pageContextMenuRequested] signal with the item's page, the event's
    screen position, and a selected flag that, in every reachable state,
    tells whether the page is in [selectedItems]. *)
Theorem contextMenuEvent_reports_selection (s : Impl) (a : nat) (item : Item)
    (event : QGraphicsSceneContextMenuEvent) :
  reachable s ->
  find_item a (m_itemsInOrder s) = Some item ->
  contextMenuEvent a event s
  = Some [pageContextMenuRequested (pageInfo item) (screenPos event)
            (bool_decide (pageId item ∈ selectedItems s))].
Proof.
  intros Hr Hf. pose proof (reachable_Inv s Hr) as (Hsel & _).
  pose proof (reachable_ids s Hr) as Hids.
  unfold contextMenuEvent, contextMenuRequested. rewrite Hf. simpl. do 3 f_equal.
  apply find_item_Some in Hf as [Hin _].
  destruct (m_isSelected item) eqn:Hitem; symmetry.
  - apply bool_decide_eq_true. apply (selectedItems_spec s Hsel). by exists item.
  - apply bool_decide_eq_false. intros (it & Hit & Hs & Hid)%(selectedItems_spec s Hsel).
    rewrite (same_id_same_item _ it item Hids Hit Hin Hid) in Hs. congruence.
Qed.

Lemma contextMenuEvent_reports_selection_witness :
  reachable two_selected_state
  /\ exists item,
       find_item 2 (m_itemsInOrder two_selected_state) = Some item
       /\ contextMenuEvent 2 example_event two_selected_state
          = Some [pageContextMenuRequested (pageInfo item) (screenPos example_event)
                    (bool_decide (pageId item ∈ selectedItems two_selected_state))].
Proof.
  split; [apply two_selected_state_reachable|].
  eexists. split; [vm_compute; reflexivity|].
  apply (contextMenuEvent_reports_selection two_selected_state 2);
    [apply two_selected_state_reachable | vm_compute; reflexivity].
Defined.
(** ** Finding what was inserted *)

Section InsertFind.

Implicit Types (s : Impl) (items : list Item).

(** The suffix kept by [dropWhile] holds every element that fails the
    test, and starts with one, in a sorted list ahead of all the
    others. *)
Lemma dropWhile_first {A} (p : A -> bool) (R : A -> A -> Prop) (l : list A) (e : A) :
  StronglySorted R l -> e ∈ l -> p e = false ->
  exists lb rest, dropWhile p l = lb :: rest /\ p lb = false /\ (lb = e \/ R lb e).
Proof.
  induction 1 as [|x l Hsorted IH Hx]; [by intros ?%elem_of_nil|].
  intros Hin He. simpl. destruct (p x) eqn:Epx.
  - apply elem_of_cons in Hin as [->|Hin]; [congruence|]. by apply IH.
  - exists x, l. split; [done|]. split; [done|].
    apply elem_of_cons in Hin as [->|Hin]; [by left|]. right.
    by eapply Forall_forall in Hx.
Qed.

Lemma lower_bound_same_image items image it :
  it ∈ items -> pi_imageId (pageInfo it) = image ->
  exists lb, lower_bound (PageId_of_image image) items = Some lb
             /\ lb ∈ items /\ pi_imageId (pageInfo lb) = image.
Proof.
  intros Hin Himg. unfold lower_bound, from_lower_bound.
  destruct (dropWhile_first
              (fun x => PageId_ltb (pageId x) (PageId_of_image image)) not_after
              (itemsById items) it) as (lb & rest & Hd & Hlb & Hle).
  - apply itemsById_StronglySorted.
  - by apply elem_of_itemsById.
  - apply PageId_ltb_false. simpl. unfold pi_imageId, pageId in *. rewrite Himg.
    right. split; [done | lia].
  - exists lb. rewrite Hd. split; [done|]. split.
    + apply elem_of_itemsById.
      apply (elem_of_dropWhile
               (fun x => PageId_ltb (pageId x) (PageId_of_image image))).
      rewrite Hd. by left.
    + apply PageId_ltb_false in Hlb. simpl in Hlb.
      destruct Hle as [->|Hle]; [done|].
      unfold not_after in Hle. apply PageId_ltb_false in Hle.
      unfold pi_imageId, pageId in *. lia.
Qed.

Lemma insert_hint_found s before_or_after image :
  (before_or_after = BEFORE /\ image = nullImageId)
  \/ (exists it, it ∈ m_itemsInOrder s /\ pi_imageId (pageInfo it) = image) ->
  is_Some
    match before_or_after, isNull image with
    | BEFORE, true => Some (length (m_itemsInOrder s))
    | _, _ =>
        match lower_bound (PageId_of_image image) (m_itemsInOrder s) with
        | None => None
        | Some it =>
            if decide (pi_imageId (pageInfo it) <> image) then None
            else
              ord_it ← index_of (addr it) (m_itemsInOrder s);
              match before_or_after with
              | BEFORE => Some ord_it
              | AFTER =>
                  match m_ptrOrderProvider s with
                  | None => Some (skip_same_image image (m_itemsInOrder s) (S ord_it))
                  | Some _ => Some (S ord_it)
                  end
              end
        end
    end.
Proof.
  intros [[-> ->]|(it & Hin & Himg)]; [done|].
  destruct (lower_bound_same_image _ _ _ Hin Himg) as (lb & Hlb & Hlbin & Hlbimg).
  assert (Hfound : is_Some
    match lower_bound (PageId_of_image image) (m_itemsInOrder s) with
    | None => None
    | Some it =>
        if decide (pi_imageId (pageInfo it) <> image) then None
        else
          ord_it ← index_of (addr it) (m_itemsInOrder s);
          match before_or_after with
          | BEFORE => Some ord_it
          | AFTER =>
              match m_ptrOrderProvider s with
              | None => Some (skip_same_image image (m_itemsInOrder s) (S ord_it))
              | Some _ => Some (S ord_it)
              end
          end
    end).
  { rewrite Hlb. rewrite decide_False by (intros H; by apply H).
    destruct (index_of_is_Some (addr lb) (m_itemsInOrder s)) as [i ->].
    { by apply list_elem_of_fmap_2. }
    simpl. destruct before_or_after; [done|]. by destruct (m_ptrOrderProvider s). }
  by destruct before_or_after, (isNull image).
Qed.

Lemma insert_inserts s new_page before_or_after image factory :
  (before_or_after = BEFORE /\ image = nullImageId)
  \/ (exists it, it ∈ m_itemsInOrder s /\ pi_imageId (pageInfo it) = image) ->
  id new_page ∉ pageId <$> m_itemsInOrder s ->
  exists k,
    store_view <$> m_itemsInOrder (fst (insert new_page before_or_after image factory s))
    = take k (store_view <$> m_itemsInOrder s)
      ++ (next_addr s, new_page, false, false)
         :: drop k (store_view <$> m_itemsInOrder s).
Proof.
  intros Href Hfresh. apply (insert_hint_found s before_or_after image) in Href.
  unfold insert.
  destruct (match before_or_after with BEFORE => _ | AFTER => _ end) as [hint|] eqn:Hhint.
  2: { by destruct Href. }
  set (k := fst (itemInsertPosition s 0 (length (m_itemsInOrder s)) (id new_page) hint)).
  destruct (match last (m_itemsInOrder s) with Some _ => _ | None => _ end)
    as [page_num offset].
  unfold insert_at.
  cbn [m_itemsInOrder set_sceneRect].
  rewrite bool_decide_eq_false_2.
  2: { intros (it & Hit & Hid)%Exists_exists. apply Hfresh. rewrite <- Hid.
       by apply list_elem_of_fmap_2. }
  exists k. simpl.
  rewrite fmap_app, shift_items_store_view, <- fmap_app, take_drop.
  by rewrite fmap_app, fmap_cons, fmap_take, fmap_drop.
Qed.

End InsertFind.

(** X19: what [insert] stores can be looked up.  In a reachable state,
    inserting a page whose identity is not stored yet, either [BEFORE] the
    null image or next to an image that a stored page references, adds
    exactly one item: afterwards the by-identity index finds an item
    carrying the new page, neither selected nor leader, and it still
    finds every page stored before, on its node and with its flags. *)
Theorem insert_then_find (s : Impl) (new_page : PageInfo)
    (before_or_after : BeforeOrAfter) (image : ImageId) (factory : ThumbnailFactory) :
  reachable s ->
  id new_page ∉ pageId <$> m_itemsInOrder s ->
  (before_or_after = BEFORE /\ image = nullImageId)
  \/ (exists it, it ∈ m_itemsInOrder s /\ pi_imageId (pageInfo it) = image) ->
  let s' := fst (insert new_page before_or_after image factory s) in
  length (m_itemsInOrder s') = S (length (m_itemsInOrder s))
  /\ (exists item,
        findById (id new_page) s' = Some item
        /\ store_view item = (next_addr s, new_page, false, false))
  /\ forall it, it ∈ m_itemsInOrder s ->
       exists it', findById (pageId it) s' = Some it' /\ store_view it' = store_view it.
Proof.
  intros Hr Hfresh Href s'.
  assert (Hr' : reachable s') by (by apply reachable_insert).
  pose proof (reachable_ids s' Hr') as Hids'.
  destruct (insert_inserts s new_page before_or_after image factory Href Hfresh)
    as (k & Hview).
  fold s' in Hview.
  assert (Hfind : forall v : nat * PageInfo * bool * bool,
            v ∈ store_view <$> m_itemsInOrder s' ->
            exists it', findById (id (snd (fst (fst v)))) s' = Some it'
                        /\ store_view it' = v).
  { intros v (it' & -> & Hin')%list_elem_of_fmap. exists it'. split; [|done].
    by apply (findById_unique s' it' Hids' Hin'). }
  split; [|split].
  - apply (f_equal length) in Hview.
    rewrite length_app, !length_fmap in Hview. simpl in Hview.
    rewrite length_take, length_drop, length_fmap in Hview. lia.
  - destruct (Hfind (next_addr s, new_page, false, false)) as (item & Hf & Hv).
    { rewrite Hview. apply elem_of_app. right. by left. }
    by exists item.
  - intros it Hin. apply (Hfind (store_view it)).
    rewrite Hview. apply (list_elem_of_fmap_2 store_view) in Hin.
    rewrite <- (take_drop k (store_view <$> m_itemsInOrder s)) in Hin.
    apply elem_of_app in Hin as [Hin|Hin]; apply elem_of_app;
      [by left | right; by right].
Qed.

Lemma insert_then_find_witness :
  reachable two_selected_state
  /\ (id (page 7) ∉ pageId <$> m_itemsInOrder two_selected_state)
  /\ ((AFTER = BEFORE /\ 2 = nullImageId)
      \/ (exists it, it ∈ m_itemsInOrder two_selected_state
                     /\ pi_imageId (pageInfo it) = 2))
  /\ let s' := fst (insert (page 7) AFTER 2 example_factory two_selected_state) in
     length (m_itemsInOrder s') = S (length (m_itemsInOrder two_selected_state))
     /\ (exists item,
           findById (id (page 7)) s' = Some item
           /\ store_view item = (next_addr two_selected_state, page 7, false, false))
     /\ forall it, it ∈ m_itemsInOrder two_selected_state ->
          exists it', findById (pageId it) s' = Some it'
                      /\ store_view it' = store_view it.
Proof.
  assert (Hfresh : id (page 7) ∉ pageId <$> m_itemsInOrder two_selected_state)
    by (apply (bool_decide_unpack _); vm_compute; exact I).
  assert (Href : (AFTER = BEFORE /\ 2 = nullImageId)
                 \/ (exists it, it ∈ m_itemsInOrder two_selected_state
                                /\ pi_imageId (pageInfo it) = 2)).
  { right. eexists. split; [apply (list_elem_of_lookup_2 _ 1); vm_compute; reflexivity|].
    reflexivity. }
  split; [apply two_selected_state_reachable|]. split; [exact Hfresh|].
  split; [exact Href|].
  exact (insert_then_find two_selected_state (page 7) AFTER 2 example_factory
           two_selected_state_reachable Hfresh Href).
Defined.
(** ** The outcome of [reset] in terms of its loop *)

Section ResetOutcome.

Implicit Types (s : Impl) (items : list Item).

Lemma reset_outcome s snapshot action provider factory :
  pages snapshot <> [] ->
  let s0 := set_provider provider s in
  let selected : gset PageId :=
    match action with KEEP_SELECTION => selectedItems s0 | RESET_SELECTION => ∅ end in
  let selection_leader :=
    match action, m_pSelectionLeader s0 with
    | KEEP_SELECTION, Some l =>
        match find_item l (m_itemsInOrder s0) with
        | Some it => pageInfo it
        | None => nullPageInfo
        end
    | _, _ => nullPageInfo
    end in
  let sorted_pages :=
    match provider with
    | Some p => stable_sort (comparator p) (pages snapshot)
    | None => pages snapshot
    end in
  let st := reset_loop factory selected selection_leader 0 sorted_pages
              (clear s0, None, 0%Q) in
  let s1 := fst (fst st) in
  let leader' :=
    match m_pSelectionLeader s1 with
    | Some l => Some l
    | None =>
        match snd (fst st) with
        | Some a => Some a
        | None => addr <$> findById (id (curPage snapshot)) (commitSceneRect s1)
        end
    end in
  let s' := fst (reset snapshot action provider factory s) in
  m_pSelectionLeader s' = leader'
  /\ m_itemsInOrder s'
     = match leader' with
       | Some l => modify_item l (Item_setSelectionLeader true) (m_itemsInOrder s1)
       | None => m_itemsInOrder s1
       end
  /\ m_ptrOrderProvider s' = m_ptrOrderProvider s1
  /\ snd (reset snapshot action provider factory s)
     = match leader' with
       | Some l =>
           match find_item l (modify_item l (Item_setSelectionLeader true)
                                (m_itemsInOrder s1)) with
           | Some leader =>
               [emitNewSelectionLeader selection_leader (composite leader)
                  DEFAULT_SELECTION_FLAGS]
           | None => []
           end
       | None => []
       end.
Proof.
  intros Hne. cbv zeta. unfold reset.
  destruct (pages snapshot) as [|p0 rest] eqn:Hpages; [done|].
  rewrite <- Hpages.
  change (m_ptrOrderProvider (clear (set_provider provider s))) with provider.
  destruct (reset_loop _ _ _ _ _ _) as [[s2 some] offset]. cbn [fst snd].
  change (m_pSelectionLeader (commitSceneRect s2)) with (m_pSelectionLeader s2).
  destruct (m_pSelectionLeader s2) as [l|] eqn:Hl2.
  { simpl. rewrite ?Hl2. simpl.
    destruct (find_item l (modify_item l _ _)); simpl; by rewrite ?Hl2. }
  destruct some as [a|].
  { simpl. rewrite ?Hl2. simpl.
    by destruct (find_item a (modify_item a _ _)). }
  destruct (findById (id (curPage snapshot)) (commitSceneRect s2)) as [it|] eqn:Hcur.
  - simpl. rewrite ?Hl2. simpl.
    by destruct (find_item (addr it) (modify_item (addr it) _ _)).
  - simpl. rewrite ?Hl2. simpl. by rewrite ?Hl2.
Qed.

End ResetOutcome.

(** ** The leader flag *)

Section LeaderFlag.

Implicit Types (s : Impl) (items : list Item) (a b l : nat) (leader : option nat).

Lemma leader_flag_ok_None items :
  leader_flag_ok items None <-> Forall (fun it => m_isSelectionLeader it = false) items.
Proof.
  rewrite Forall_forall. unfold leader_flag_ok. split.
  - intros H it Hit. destruct (m_isSelectionLeader it) eqn:E; [|done].
    by apply (H it Hit) in E.
  - intros H it Hit. rewrite (H it Hit). done.
Qed.

(** Flagging the item at [a] in a store without flags. *)
Lemma leader_flag_ok_set items a :
  leader_flag_ok items None ->
  leader_flag_ok (modify_item a (Item_setSelectionLeader true) items) (Some a).
Proof.
  intros H%leader_flag_ok_None it' Hit'. unfold modify_item in Hit'.
  apply list_elem_of_fmap in Hit' as (it & -> & Hit).
  eapply Forall_forall in H; [|exact Hit].
  destruct (decide (addr it = a)) as [<-|Hne]; simpl; [done|].
  rewrite H. split; [done | congruence].
Qed.

(** Taking the flag or the selection from the item the leader pointer
    designates leaves no flag. *)
Lemma leader_flag_ok_unset items leader l (f : Item -> Item) :
  (forall it, addr (f it) = addr it) ->
  (forall it, m_isSelectionLeader (f it) = false) ->
  leader_flag_ok items leader ->
  leader = Some l \/ leader = None ->
  leader_flag_ok (modify_item l f items) None.
Proof.
  intros Hf Hflag H Hl. apply leader_flag_ok_None, Forall_forall.
  intros it' Hit'. unfold modify_item in Hit'.
  apply list_elem_of_fmap in Hit' as (it & -> & Hit).
  destruct (decide (addr it = l)) as [Ha|Hne]; [done|].
  destruct (m_isSelectionLeader it) eqn:E; [|done].
  apply (H it Hit) in E. destruct Hl; congruence.
Qed.

(** A write that keeps addresses and leader flags keeps the property. *)
Lemma leader_flag_ok_modify items leader a (f : Item -> Item) :
  (forall it, addr (f it) = addr it) ->
  (forall it, m_isSelectionLeader (f it) = m_isSelectionLeader it) ->
  leader_flag_ok items leader ->
  leader_flag_ok (modify_item a f items) leader.
Proof.
  intros Hf Hflag H it' Hit'. unfold modify_item in Hit'.
  apply list_elem_of_fmap in Hit' as (it & -> & Hit).
  destruct (decide (addr it = a)); [rewrite Hf, Hflag|]; by apply H.
Qed.

Lemma leader_flag_ok_view items items' leader :
  (forall it', it' ∈ items' -> store_view it' ∈ store_view <$> items) ->
  leader_flag_ok items leader -> leader_flag_ok items' leader.
Proof.
  intros Hsub H it' Hit'.
  apply Hsub in Hit' as (it & Hv & Hit)%list_elem_of_fmap.
  injection Hv as -> _ _ ->. by apply H.
Qed.

Lemma setSelected_true_leader it :
  m_isSelectionLeader (Item_setSelected true it) = m_isSelectionLeader it.
Proof. simpl. apply andb_true_r. Qed.

Lemma clearSelection_loop_unflagged (sel : list nat) items leader :
  NoDup sel -> partitioned (isSelected_at items) sel ->
  leader_flag_ok items leader ->
  (forall x, leader = Some x -> x ∈ sel /\ isSelected_at items x = true) ->
  leader_flag_ok (clearSelection_loop sel items) None.
Proof.
  revert items leader. induction sel as [|a sel IH]; intros items leader Hnd Hpart Hok Hl.
  { simpl. destruct leader as [x|]; [|done]. destruct (Hl x eq_refl) as [Hx _].
    by apply elem_of_nil in Hx. }
  simpl. apply NoDup_cons in Hnd as [Ha Hnd].
  destruct (isSelected_at items a) eqn:Ea.
  - set (items1 := modify_item a (Item_setSelected false) items).
    set (leader1 := if decide (leader = Some a) then None else leader).
    apply (IH items1 leader1); [done | | |].
    + eapply partitioned_ext; [|by eapply partitioned_cons_inv].
      intros x Hx. unfold items1. rewrite isSelected_at_setSelected.
      rewrite decide_False; [done | by intros ->].
    + unfold leader1. destruct (decide (leader = Some a)) as [->|Hne].
      * eapply leader_flag_ok_unset; [done | | exact Hok | by left].
        intros it. simpl. apply andb_false_r.
      * intros it' Hit'. unfold items1, modify_item in Hit'.
        apply list_elem_of_fmap in Hit' as (it & -> & Hit).
        destruct (decide (addr it = a)) as [Heq|Hna]; [|by apply Hok].
        simpl. rewrite andb_false_r. split; [done|]. intros Hlead. exfalso.
        apply Hne. by rewrite Hlead, Heq.
    + intros x Hx. unfold leader1 in Hx.
      destruct (decide (leader = Some a)) as [|Hne]; [done|].
      destruct (Hl x Hx) as [Hin Hsel]. split.
      * apply elem_of_cons in Hin as [->|Hin]; [|done]. by subst leader.
      * unfold items1. rewrite isSelected_at_setSelected.
        rewrite decide_False; [done|]. intros ->. by subst leader.
  - destruct leader as [x|]; [|done]. destruct (Hl x eq_refl) as [Hin Hsel].
    rewrite (partitioned_head_false _ _ _ Hpart Ea x Hin) in Hsel. done.
Qed.

Lemma select_all_leader_flag (l : list nat) s :
  leader_flag_ok (m_itemsInOrder s) (m_pSelectionLeader s) ->
  let s' := foldl (fun s x => moveToSelected x (setSelected x true s)) s l in
  leader_flag_ok (m_itemsInOrder s') (m_pSelectionLeader s')
  /\ m_pSelectionLeader s' = m_pSelectionLeader s.
Proof.
  revert s. induction l as [|x l IH]; intros s Hok; simpl; [done|].
  destruct (IH (moveToSelected x (setSelected x true s))) as [H1 H2].
  - simpl. apply leader_flag_ok_modify; [done | apply setSelected_true_leader | done].
  - split; [done|]. by rewrite H2.
Qed.

Lemma setSelection_loop_leader_flag target (l : list nat) s :
  leader_flag_ok (m_itemsInOrder s) (m_pSelectionLeader s) ->
  let s' := setSelection_loop target l s in
  leader_flag_ok (m_itemsInOrder s') (m_pSelectionLeader s').
Proof.
  revert s. induction l as [|a l IH]; intros s Hok; simpl; [done|].
  destruct (isSelected_at (m_itemsInOrder s) a); simpl; [|done].
  destruct (decide (target <> a)); [|by apply IH].
  apply IH. destruct (decide (m_pSelectionLeader s = Some a)) as [Hl|Hne]; simpl.
  - eapply leader_flag_ok_unset; [done | | exact Hok | by left].
    intros it. simpl. apply andb_false_r.
  - intros it' Hit'. unfold modify_item in Hit'.
    apply list_elem_of_fmap in Hit' as (it & -> & Hit).
    destruct (decide (addr it = a)) as [Heq|Hna]; [|by apply Hok].
    simpl. rewrite andb_false_r. split; [done|]. intros Hlead. exfalso.
    apply Hne. by rewrite Hlead, Heq.
Qed.

Lemma leader_flag_selectItemNoModifiers s a s' sigs :
  Inv s -> leader_flag_ok (m_itemsInOrder s) (m_pSelectionLeader s) ->
  selectItemNoModifiers a s = Some (s', sigs) ->
  leader_flag_ok (m_itemsInOrder s') (m_pSelectionLeader s').
Proof.
  intros ((Hnd & Hperm & Hpart) & Hlead & _) Hok. unfold selectItemNoModifiers.
  destruct (find_item a (m_itemsInOrder s)); simpl; [|done].
  intros [= <- _]. simpl. apply leader_flag_ok_set.
  eapply clearSelection_loop_unflagged; [by rewrite Hperm | done | exact Hok |].
  intros x Hx. split; [|by apply Hlead].
  rewrite Hperm. by apply isSelected_at_elem, Hlead.
Qed.

Lemma leader_flag_selectItemWithControl s a s' sigs :
  leader_flag_ok (m_itemsInOrder s) (m_pSelectionLeader s) ->
  selectItemWithControl a s = Some (s', sigs) ->
  leader_flag_ok (m_itemsInOrder s') (m_pSelectionLeader s').
Proof.
  intros Hok. unfold selectItemWithControl.
  destruct (find_item a (m_itemsInOrder s)) as [item|] eqn:Hf; simpl; [|done].
  destruct (m_isSelected item) eqn:Hitem; simpl.
  2: { intros [= <- _]. simpl. apply leader_flag_ok_set.
       destruct (m_pSelectionLeader s) as [l|] eqn:Hl; simpl; [|done].
       eapply leader_flag_ok_unset; [done | done | exact Hok | by left]. }
  destruct (multipleItemsSelected s); simpl.
  2: { destruct (m_pSelectionLeader s) as [l|] eqn:Hl; simpl; [|done].
       destruct (find_item l (m_itemsInOrder s)); simpl; [|done].
       intros [= <- _]. by rewrite ?Hl. }
  destruct (decide (m_pSelectionLeader s <> Some a)) as [Hne|Hl].
  { intros [= <- _]. simpl. intros it' Hit'. unfold modify_item in Hit'.
    apply list_elem_of_fmap in Hit' as (it & -> & Hit).
    destruct (decide (addr it = a)) as [Heq|Hna]; [|by apply Hok].
    simpl. rewrite andb_false_r. split; [done|]. intros Hlead. exfalso.
    apply Hne. by rewrite Hlead, Heq. }
  assert (Hl' : m_pSelectionLeader s = Some a).
  { destruct (decide (m_pSelectionLeader s = Some a)); [done|]. by elim Hl. }
  simpl. destruct (index_of a _); simpl; [|done].
  destruct (outward_walk _ _ _ _ _); simpl; [|done].
  destruct (_ !! _); simpl; [|done].
  intros [= <- _]. simpl. apply leader_flag_ok_set.
  eapply leader_flag_ok_unset; [done | | exact Hok | by left].
  intros it. simpl. apply andb_false_r.
Qed.

Lemma leader_flag_selectItemWithShift s a s' sigs :
  Inv s -> leader_flag_ok (m_itemsInOrder s) (m_pSelectionLeader s) ->
  selectItemWithShift a s = Some (s', sigs) ->
  leader_flag_ok (m_itemsInOrder s') (m_pSelectionLeader s').
Proof.
  intros HI Hok. unfold selectItemWithShift.
  destruct (m_pSelectionLeader s) as [l|] eqn:Hl;
    [|apply leader_flag_selectItemNoModifiers; [done | by rewrite Hl]].
  destruct (find_item a (m_itemsInOrder s)); simpl; [|done].
  destruct (index_of l _) as [e1|]; simpl; [|done].
  destruct (index_of a _) as [e2|]; simpl; [|done].
  destruct (decide (e1 = e2)); [intros [= <- _]; by rewrite Hl|].
  destruct (outward_walk _ _ _ _ _) as [hit|]; simpl; [|done].
  assert (Hgoal : forall lo hi,
    leader_flag_ok
      (m_itemsInOrder (setSelectionLeader a true
                         (set_leader (Some a)
                            (setSelectionLeader l false (select_range lo hi s)))))
      (Some a)).
  { intros lo hi. simpl. apply leader_flag_ok_set. unfold select_range.
    destruct (select_all_leader_flag
                (addr <$> take (hi - lo) (drop lo (m_itemsInOrder s))) s)
      as [H1 H2]; [by rewrite Hl|].
    eapply leader_flag_ok_unset; [done | done | exact H1 | left].
    by rewrite H2. }
  destruct hit; intros [= <- _]; apply Hgoal.
Qed.

Lemma leader_flag_setSelection s page_id :
  Inv s -> leader_flag_ok (m_itemsInOrder s) (m_pSelectionLeader s) ->
  let s' := fst (setSelection page_id s) in
  leader_flag_ok (m_itemsInOrder s') (m_pSelectionLeader s').
Proof.
  intros ((Hnd & Hperm & Hpart) & Hlead & _) Hok. unfold setSelection.
  destruct (findById page_id s) as [item|]; [|done]. simpl.
  pose proof (setSelection_loop_leader_flag (addr item) (m_selectedThenUnselected s) s Hok)
    as Hloop.
  destruct (setSelection_loop_flags (addr item) (m_selectedThenUnselected s) s)
    as [_ Hleader]; [by rewrite Hperm | done | done |].
  simpl in Hloop, Hleader.
  case_bool_decide as Hwas; [done|]. simpl. apply leader_flag_ok_set.
  assert (Hnone : m_pSelectionLeader
                    (setSelection_loop (addr item) (m_selectedThenUnselected s) s)
                  = None).
  { rewrite Hleader. destruct (m_pSelectionLeader s) as [x|] eqn:Hx; [|done].
    rewrite decide_True; [done|]. split.
    - rewrite Hperm. by apply isSelected_at_elem, Hlead.
    - intros ->. by apply Hwas. }
  by rewrite Hnone in Hloop.
Qed.

Lemma leader_flag_insert s new_page before_or_after image factory :
  Inv s -> leader_flag_ok (m_itemsInOrder s) (m_pSelectionLeader s) ->
  let s' := fst (insert new_page before_or_after image factory s) in
  leader_flag_ok (m_itemsInOrder s') (m_pSelectionLeader s').
Proof.
  intros (Hsel & Hlead & Hfresh) Hok s'.
  destruct (insert_shape s new_page before_or_after image factory)
    as (_ & Hl & _ & Hitems).
  fold s' in Hl, Hitems. rewrite Hl.
  destruct Hitems as [Hsame|(hint & _ & _ & Hnew)].
  - eapply leader_flag_ok_view; [|exact Hok]. intros it' Hit'.
    rewrite <- Hsame. by apply list_elem_of_fmap_2.
  - intros it' Hit'. apply (list_elem_of_fmap_2 store_view) in Hit'.
    rewrite Hnew in Hit'. cbv zeta in Hit'.
    assert (Hold : forall v, v ∈ store_view <$> m_itemsInOrder s ->
                     store_view it' = v ->
                     m_isSelectionLeader it' = true
                     <-> m_pSelectionLeader s = Some (addr it')).
    { intros v (it & -> & Hit)%list_elem_of_fmap Hv.
      injection Hv as -> _ _ ->. by apply Hok. }
    apply elem_of_app in Hit' as [Hin|Hin].
    { apply subseteq_take in Hin. by eapply Hold. }
    apply elem_of_cons in Hin as [Hv|Hin].
    2: { apply subseteq_drop in Hin. by eapply Hold. }
    injection Hv as Ha _ _ ->. split; [done|]. intros Hleader. exfalso.
    specialize (Hlead _ Hleader). apply isSelected_at_elem in Hlead.
    eapply Forall_forall in Hfresh; [|exact Hlead]. lia.
Qed.

Lemma leader_flag_removePages s to_remove s' sigs :
  Inv s -> leader_flag_ok (m_itemsInOrder s) (m_pSelectionLeader s) ->
  removePages to_remove s = Some (s', sigs) ->
  leader_flag_ok (m_itemsInOrder s') (m_pSelectionLeader s').
Proof.
  intros ((Hnd & _) & _) Hok. unfold removePages.
  set (st0 := mkRemoveLoop [] _ _ [] _ _).
  destruct (removePages_loop_spec to_remove (m_itemsInOrder s) st0) as [Hk _].
  pose proof (removePages_loop_leader to_remove (m_itemsInOrder s) st0) as Hl.
  simpl in Hk, Hl.
  destruct (singularize_all _ _) as [items|] eqn:E; simpl; [|done].
  intros [= <- _]. simpl.
  assert (Hkept : Forall2 kept_as
            (filter (fun it => pageId it ∉ to_remove) (m_itemsInOrder s)) items).
  { eapply Forall2_kept_as_trans; [by apply store_view_kept_as|].
    eapply singularize_all_kept_as; [|exact E].
    rewrite store_view_addr, Hk, <- store_view_addr.
    eapply sublist_NoDup; [exact Hnd|]. apply fmap_sublist, sublist_filter. }
  intros it' Hit'. destruct (kept_as_elem _ _ _ Hkept Hit') as (it & Hit & Hka).
  apply list_elem_of_filter in Hit as [Hkeep Hit].
  destruct Hka as (Ha & _ & Hfl & _). rewrite Hfl, Ha, (Hok it Hit), Hl.
  destruct (m_pSelectionLeader s) as [l|]; [|done].
  destruct (decide (l ∈ addr <$> filter _ (m_itemsInOrder s))) as [Hin|Hnin]; [|done].
  split; [|done]. intros [= ->]. exfalso.
  apply list_elem_of_fmap in Hin as (y & Hay & [Hy Hyin]%list_elem_of_filter).
  apply Hkeep. by rewrite (addr_inj_on _ it y Hnd Hit Hyin Hay).
Qed.

Lemma leader_flag_reset_loop factory selected selection_leader sorted_pages i st :
  Forall (fun it => m_isSelectionLeader it = false) (m_itemsInOrder (fst (fst st))) ->
  Forall (fun it => m_isSelectionLeader it = false)
    (m_itemsInOrder
       (fst (fst (reset_loop factory selected selection_leader i sorted_pages st)))).
Proof.
  revert i st. induction sorted_pages as [|p l IH]; intros i st Hst; simpl; [done|].
  apply IH. destruct st as [[s some] offset]. simpl in *.
  unfold reset_step, push_back, insert_at.
  assert (Hmod : forall a items,
    Forall (fun it => m_isSelectionLeader it = false) items ->
    Forall (fun it => m_isSelectionLeader it = false)
      (modify_item a (Item_setSelected true) items)).
  { intros a items H. unfold modify_item. apply Forall_fmap.
    eapply Forall_impl; [exact H|]. intros it Hit. simpl.
    destruct (decide _); [|done]. simpl. by rewrite Hit. }
  case_bool_decide; cbn [fst m_itemsInOrder set_sceneRect].
  - destruct (last (m_itemsInOrder s)); [|done].
    destruct (decide (id p ∈ selected)), (decide (id p = id selection_leader));
      simpl; try done; by apply Hmod.
  - rewrite take_ge, drop_ge by done. rewrite last_snoc.
    assert (Hnew : Forall (fun it => m_isSelectionLeader it = false)
                     (m_itemsInOrder s
                      ++ [mkItem (next_addr s) p i
                            (setPos (mkPoint 0 offset) (getCompositeItem factory p i))
                            false false])).
    { apply Forall_app. split; [done|]. by constructor. }
    destruct (decide (id p ∈ selected)), (decide (id p = id selection_leader));
      simpl; try done; by apply Hmod.
Qed.

Lemma leader_flag_reset s snapshot action provider factory :
  let s' := fst (reset snapshot action provider factory s) in
  leader_flag_ok (m_itemsInOrder s') (m_pSelectionLeader s').
Proof.
  destruct (decide (pages snapshot = [])) as [Hnil|Hne].
  { unfold reset. rewrite Hnil. simpl. by intros it ?%elem_of_nil. }
  destruct (reset_outcome s snapshot action provider factory Hne)
    as (Hl & Hitems & _).
  cbv zeta in *.
  match type of Hitems with
    context [reset_loop ?f ?sel ?ldr ?i ?pg ?st] =>
      pose proof (leader_flag_reset_loop f sel ldr pg i st) as Hloop
  end.
  specialize (Hloop ltac:(constructor)).
  apply leader_flag_ok_None in Hloop.
  rewrite Hl, Hitems.
  match goal with |- context [match ?x with Some _ => _ | None => _ end] =>
    destruct x as [l|] end; [by apply leader_flag_ok_set | done].
Qed.

Lemma reachable_leader_flag s :
  reachable s -> leader_flag_ok (m_itemsInOrder s) (m_pSelectionLeader s).
Proof.
  induction 1 as [| | | s to_remove s' sigs Hr IH Hrm
                  | s page_id factory Hr IH | s factory Hr IH | |
                  s a modifiers s' sigs Hr IH Hclick].
  - by intros it ?%elem_of_nil.
  - apply leader_flag_reset.
  - apply leader_flag_insert; [by apply reachable_Inv | done].
  - eapply leader_flag_removePages; [by apply reachable_Inv | done | done].
  - destruct (invalidateThumbnail_shape s page_id factory) as (Hl & _ & Hperm & _).
    { by apply reachable_Inv. }
    rewrite Hl. eapply leader_flag_ok_view; [|exact IH].
    intros it' Hit'. rewrite <- Hperm. by apply list_elem_of_fmap_2.
  - unfold invalidateAllThumbnails.
    pose proof (rebuild_all_store_view factory
                  match m_ptrOrderProvider s with
                  | Some p =>
                      stable_sort (fun x y : Item => precedes p (pageId x) (pageId y))
                        (m_itemsInOrder s)
                  | None => m_itemsInOrder s
                  end 0%Q (mkRect 0 0 0 0)) as Hview.
    destruct (rebuild_all _ _ _ _) as [items scene]. simpl in *.
    eapply leader_flag_ok_view; [|exact IH].
    intros it' Hit'. apply (list_elem_of_fmap_2 store_view) in Hit'.
    rewrite Hview in Hit'. destruct (m_ptrOrderProvider s); [|done].
    by rewrite stable_sort_perm in Hit'.
  - apply leader_flag_setSelection; [by apply reachable_Inv | done].
  - pose proof (reachable_Inv s Hr) as HI. unfold itemSelectedByUser in Hclick.
    destruct (ControlModifier modifiers);
      [by eapply leader_flag_selectItemWithControl|].
    destruct (ShiftModifier modifiers);
      [by eapply leader_flag_selectItemWithShift|].
    by eapply leader_flag_selectItemNoModifiers.
Qed.

End LeaderFlag.

(** X20: in every reachable state the leader flag is carried by the item
    the leader pointer designates and by no other stored item, and a
    flagged item is selected.  So the label update made with the flags of
    a stored item, [updateAppearence(isSelected, isSelectionLeader)],
    passes its assertion, shows the bold caption exactly on the leader and
    the normal caption on every other item. *)
Theorem leader_flag_invariant (s : Impl) (it : Item) (g : LabelGroup) :
  reachable s ->
  it ∈ m_itemsInOrder s ->
  (m_isSelectionLeader it = true <-> m_pSelectionLeader s = Some (addr it))
  /\ (m_isSelectionLeader it = true -> m_isSelected it = true)
  /\ exists g',
       updateAppearence (m_isSelected it) (m_isSelectionLeader it) g = Some g'
       /\ boldLabel_visible g' = m_isSelectionLeader it
       /\ normalLabel_visible g' = negb (m_isSelectionLeader it).
Proof.
  intros Hr Hit. pose proof (reachable_leader_flag s Hr it Hit) as Hflag.
  destruct (reachable_Inv s Hr) as ((Hnd & _) & Hlead & _).
  assert (Hsel : m_isSelectionLeader it = true -> m_isSelected it = true).
  { intros Hl%Hflag. specialize (Hlead _ Hl). unfold isSelected_at in Hlead.
    by rewrite (find_item_elem _ _ Hnd Hit) in Hlead. }
  split; [done|]. split; [done|]. unfold updateAppearence.
  destruct (m_isSelectionLeader it) eqn:El.
  - rewrite Hsel by done. by eexists.
  - destruct (m_isSelected it); by eexists.
Qed.

Lemma leader_flag_invariant_witness :
  reachable two_selected_state
  /\ exists it,
       it ∈ m_itemsInOrder two_selected_state
       /\ addr it = 2
       /\ (m_isSelectionLeader it = true
           <-> m_pSelectionLeader two_selected_state = Some (addr it))
       /\ (m_isSelectionLeader it = true -> m_isSelected it = true)
       /\ exists g',
            updateAppearence (m_isSelected it) (m_isSelectionLeader it) LabelGroup_new
            = Some g'
            /\ boldLabel_visible g' = m_isSelectionLeader it
            /\ normalLabel_visible g' = negb (m_isSelectionLeader it).
Proof.
  split; [apply two_selected_state_reachable|].
  eexists. split; [apply (list_elem_of_lookup_2 _ 1); vm_compute; reflexivity|].
  split; [reflexivity|].
  apply (leader_flag_invariant two_selected_state _ LabelGroup_new);
    [apply two_selected_state_reachable|].
  apply (list_elem_of_lookup_2 _ 1). vm_compute. reflexivity.
Defined.
(** ** What the leader-changed signal announces *)

Section Announce.

Implicit Types (s : Impl) (items : list Item) (a b l : nat).

Lemma fmap_view_modify {B} (v : Item -> B) a (f : Item -> Item) items :
  (forall it, v (f it) = v it) ->
  v <$> modify_item a f items = v <$> items.
Proof.
  intros Hf. unfold modify_item. rewrite <- list_fmap_compose.
  apply list_fmap_ext. intros _ x _. simpl.
  destruct (decide _); [by rewrite Hf | done].
Qed.

Lemma find_item_visual items items' a it :
  visual_view <$> items' = visual_view <$> items ->
  find_item a items = Some it ->
  exists it', find_item a items' = Some it' /\ visual_view it' = visual_view it.
Proof.
  revert items'. induction items as [|x items IH]; intros [|x' items'] Hv; try done.
  injection Hv as Ha Hp Hc Hv. simpl. rewrite Ha.
  destruct (decide (addr x = a)).
  - intros [= <-]. exists x'. split; [done|]. unfold visual_view. by rewrite Ha, Hp, Hc.
  - by apply IH.
Qed.

Lemma visuals_clearSelection_loop (sel : list nat) items :
  visual_view <$> clearSelection_loop sel items = visual_view <$> items.
Proof.
  revert items. induction sel as [|a sel IH]; intros items; simpl; [done|].
  destruct (isSelected_at items a); [|done].
  rewrite IH. by apply fmap_view_modify.
Qed.

Lemma visuals_select_all (sel : list nat) s :
  visual_view <$> m_itemsInOrder
                    (foldl (fun s x => moveToSelected x (setSelected x true s)) s sel)
  = visual_view <$> m_itemsInOrder s.
Proof.
  revert s. induction sel as [|x sel IH]; intros s; simpl; [done|].
  rewrite IH. simpl. by apply fmap_view_modify.
Qed.

Lemma visuals_setSelection_loop target (sel : list nat) s :
  visual_view <$> m_itemsInOrder (setSelection_loop target sel s)
  = visual_view <$> m_itemsInOrder s.
Proof.
  revert s. induction sel as [|a sel IH]; intros s; simpl; [done|].
  destruct (isSelected_at (m_itemsInOrder s) a); simpl; [|done].
  destruct (decide (target <> a)); [|apply IH].
  rewrite IH. destruct (decide _); simpl; by apply fmap_view_modify.
Qed.

Lemma reports_leader_intro s' a leader info flags (with_page : bool) :
  m_pSelectionLeader s' = Some a ->
  find_item a (m_itemsInOrder s') = Some leader ->
  (with_page = true -> info = pageInfo leader) ->
  reports_leader s'
    (newSelectionLeader info (sceneBoundingRect (composite leader)) flags) with_page.
Proof.
  intros Hl Hf Hinfo. pose proof (find_item_Some _ _ _ Hf) as [_ Ha].
  exists leader, info, flags. rewrite Ha. split; [done|]. split; [done|].
  split; [done|]. split; [|done].
  unfold selectionLeaderSceneRect. by rewrite Hl, Hf.
Qed.

(** A signal for the item found at [a] before the call, when the call
    made [a] the leader and left the visuals alone. *)
Lemma reports_leader_same_visuals s s' a item flags :
  find_item a (m_itemsInOrder s) = Some item ->
  visual_view <$> m_itemsInOrder s' = visual_view <$> m_itemsInOrder s ->
  m_pSelectionLeader s' = Some a ->
  reports_leader s' (emitNewSelectionLeader (pageInfo item) (composite item) flags) true.
Proof.
  intros Hf Hv Hl.
  destruct (find_item_visual _ _ _ _ Hv Hf) as (leader & Hf' & Hview).
  injection Hview as _ Hp Hc. unfold emitNewSelectionLeader. rewrite <- Hc.
  by apply (reports_leader_intro s' a leader).
Qed.

Lemma announce_selectItemNoModifiers s a s' sigs :
  selectItemNoModifiers a s = Some (s', sigs) ->
  exists sig, sigs = [sig] /\ reports_leader s' sig true.
Proof.
  unfold selectItemNoModifiers.
  destruct (find_item a (m_itemsInOrder s)) as [item|] eqn:Hf; simpl; [|done].
  intros [= <- <-]. eexists. split; [done|].
  apply (reports_leader_same_visuals s _ a item); [done | | done].
  simpl. rewrite fmap_view_modify by done. apply visuals_clearSelection_loop.
Qed.

Lemma announce_selectItemWithControl s a s' sigs :
  NoDup (addr <$> m_itemsInOrder s) ->
  selectItemWithControl a s = Some (s', sigs) ->
  sigs = [] \/ exists sig, sigs = [sig] /\ reports_leader s' sig true.
Proof.
  intros Hnd. unfold selectItemWithControl.
  destruct (find_item a (m_itemsInOrder s)) as [item|] eqn:Hf; simpl; [|done].
  destruct (m_isSelected item); simpl.
  2: { intros [= <- <-]. right. eexists. split; [done|].
       apply (reports_leader_same_visuals s _ a item); [done | | done].
       destruct (m_pSelectionLeader s); simpl; by rewrite !fmap_view_modify. }
  destruct (multipleItemsSelected s); simpl.
  2: { destruct (m_pSelectionLeader s) as [l|] eqn:Hl; simpl; [|done].
       destruct (find_item l (m_itemsInOrder s)) as [leader|] eqn:Hfl; simpl; [|done].
       intros [= <- <-]. right. eexists. split; [done|].
       by apply (reports_leader_same_visuals s s l leader). }
  destruct (decide (m_pSelectionLeader s <> Some a)).
  { intros [= <- <-]. by left. }
  simpl. destruct (index_of a _); simpl; [|done].
  destruct (outward_walk _ _ _ _ _) as [hit|]; simpl; [|done].
  destruct (_ !! _) as [leader|] eqn:Hleader; simpl; [|done].
  intros [= <- <-]. right. eexists. split; [done|].
  set (items2 := modify_item a (Item_setSelected false) (m_itemsInOrder s)) in *.
  set (s2 := set_leader None (moveToUnselected a (setSelected a false s))).
  apply (reports_leader_same_visuals s2 _ (addr leader) leader).
  - simpl. apply lookup_find_item with (i := hit_index hit); [|done].
    fold items2. unfold items2. by rewrite fmap_addr_modify.
  - simpl. by rewrite fmap_view_modify.
  - done.
Qed.

Lemma announce_selectItemWithShift s a s' sigs :
  selectItemWithShift a s = Some (s', sigs) ->
  sigs = [] \/ exists sig, sigs = [sig] /\ reports_leader s' sig true.
Proof.
  unfold selectItemWithShift.
  destruct (m_pSelectionLeader s) as [l|] eqn:Hl.
  2: { intros H. right. by eapply announce_selectItemNoModifiers. }
  destruct (find_item a (m_itemsInOrder s)) as [item|] eqn:Hf; simpl; [|done].
  destruct (index_of l _) as [e1|]; simpl; [|done].
  destruct (index_of a _) as [e2|]; simpl; [|done].
  destruct (decide (e1 = e2)); [intros [= <- <-]; by left|].
  destruct (outward_walk _ _ _ _ _) as [hit|]; simpl; [|done].
  assert (Hgoal : forall lo hi flags,
    reports_leader
      (setSelectionLeader a true
         (set_leader (Some a) (setSelectionLeader l false (select_range lo hi s))))
      (emitNewSelectionLeader (pageInfo item) (composite item) flags) true).
  { intros lo hi flags.
    apply (reports_leader_same_visuals s _ a item); [done | | done].
    simpl. rewrite !fmap_view_modify by done. apply visuals_select_all. }
  destruct hit; intros [= <- <-]; right; eexists; (split; [done|]); apply Hgoal.
Qed.

Lemma announce_setSelection s page_id :
  Inv s ->
  snd (setSelection page_id s) = []
  \/ exists sig, snd (setSelection page_id s) = [sig]
                 /\ reports_leader (fst (setSelection page_id s)) sig true.
Proof.
  intros ((Hnd & Hperm & Hpart) & Hlead & _). unfold setSelection.
  destruct (findById page_id s) as [item|] eqn:Hfind; [|by left]. simpl.
  right. eexists. split; [done|].
  apply findById_elem in Hfind as [Hin _].
  apply (reports_leader_same_visuals s _ (addr item) item).
  - by apply find_item_elem.
  - destruct (bool_decide _); simpl.
    + apply visuals_setSelection_loop.
    + rewrite fmap_view_modify by done. apply visuals_setSelection_loop.
  - case_bool_decide as Hwas; simpl; [|done].
    destruct (setSelection_loop_flags (addr item) (m_selectedThenUnselected s) s)
      as [_ Hleader]; [by rewrite Hperm | done | done |].
    simpl in Hleader. rewrite Hleader, Hwas.
    rewrite decide_False; [done | by intros [_ ?]].
Qed.

Lemma announce_invalidateThumbnail s page_id factory :
  NoDup (addr <$> m_itemsInOrder s) ->
  snd (invalidateThumbnail page_id factory s) = []
  \/ exists sig, snd (invalidateThumbnail page_id factory s) = [sig]
                 /\ reports_leader (fst (invalidateThumbnail page_id factory s)) sig true.
Proof.
  intros Hnd. unfold invalidateThumbnail.
  destruct (findById page_id s) as [found|] eqn:Hf; [|by left].
  destruct (index_of (addr found) (m_itemsInOrder s)) as [i|] eqn:Hi; [|by left].
  destruct (itemInsertPosition _ _ _ _ _) as [after_new dist].
  destruct (if (dist <=? 0)%Z then _ else _) as [ord_it ord_end]. cbn [fst snd].
  set (item := Item_setComposite _ found).
  set (items := restack _ _ _ _).
  match goal with |- context [if ?c then _ else _] => destruct c eqn:Hc end; [|by left].
  right. eexists. split; [done|].
  apply andb_true_iff in Hc as [Hl%bool_decide_eq_true _].
  assert (Hin : addr item ∈ addr <$> items).
  { unfold items. rewrite store_view_addr, restack_store_view, <- store_view_addr.
    rewrite fmap_app, fmap_cons. apply elem_of_app. right. by left. }
  destruct (find_item_is_Some _ _ Hin) as [current Hcur].
  rewrite Hcur. simpl. unfold emitNewSelectionLeader.
  by apply (reports_leader_intro _ (addr item) current).
Qed.

Lemma announce_reset s snapshot action provider factory :
  snd (reset snapshot action provider factory s) = []
  \/ exists sig, snd (reset snapshot action provider factory s) = [sig]
       /\ reports_leader (fst (reset snapshot action provider factory s)) sig false.
Proof.
  destruct (decide (pages snapshot = [])) as [Hnil|Hne].
  { left. unfold reset. by rewrite Hnil. }
  destruct (reset_outcome s snapshot action provider factory Hne)
    as (Hl & Hitems & _ & Hsig).
  cbv zeta in *. rewrite Hsig.
  match type of Hl with _ = ?x => destruct x as [l|] end; [|by left].
  destruct (find_item l (modify_item l _ _)) as [leader|] eqn:E; [|by left].
  right. eexists. split; [done|]. unfold emitNewSelectionLeader.
  apply (reports_leader_intro _ l leader); [done | by rewrite Hitems | done].
Qed.

End Announce.

(** X21: every call emits at most one signal, and what it emits announces
    the leader the call leaves behind.  In a reachable state, whichever
    operation or mouse press is performed, the signals are none or one
    leader-changed signal; its rectangle is the scene rectangle of the
    item the leader pointer designates afterwards, which is what
    [selectionLeaderSceneRect] then returns, and, for every call but
    [reset], its page is that item's page. *)
Theorem signal_announces_leader (c : Call) (s s' : Impl) (sigs : list Signal) :
  reachable s ->
  perform c s = Some (s', sigs) ->
  sigs = []
  \/ exists sig, sigs = [sig] /\ reports_leader s' sig (negb (is_reset c)).
Proof.
  intros Hr Hcall. pose proof (reachable_Inv s Hr) as HI.
  pose proof HI as ((Hnd & _) & _).
  assert (Hpair : forall r : Impl * list Signal,
            Some r = Some (s', sigs) -> s' = fst r /\ sigs = snd r).
  { by intros r [= ->]. }
  destruct c as [snapshot action provider factory | new_page boa image factory
                | to_remove | page_id factory | factory | page_id | a event];
    simpl in Hcall.
  - apply Hpair in Hcall as [-> ->]. apply announce_reset.
  - apply Hpair in Hcall as [-> ->]. left.
    by destruct (insert_shape s new_page boa image factory) as (-> & _).
  - left. revert Hcall. unfold removePages.
    destruct (singularize_all _ _); simpl; [|done]. by intros [= _ <-].
  - apply Hpair in Hcall as [-> ->]. by apply announce_invalidateThumbnail.
  - apply Hpair in Hcall as [-> ->]. left. unfold invalidateAllThumbnails.
    by destruct (rebuild_all _ _ _ _).
  - apply Hpair in Hcall as [-> ->]. by apply announce_setSelection.
  - unfold mousePressEvent in Hcall.
    destruct (button event); [|injection Hcall as <- <-; by left..].
    unfold itemSelectedByUser in Hcall.
    destruct (ControlModifier (modifiers event));
      [by eapply announce_selectItemWithControl|].
    destruct (ShiftModifier (modifiers event));
      [by eapply announce_selectItemWithShift|].
    right. by eapply announce_selectItemNoModifiers.
Qed.

Lemma signal_announces_leader_witness :
  reachable two_selected_state
  /\ exists s' sigs,
       perform (call_setSelection (PageId_of_image 3)) two_selected_state
       = Some (s', sigs)
       /\ (sigs = []
           \/ exists sig, sigs = [sig]
                /\ reports_leader s' sig
                     (negb (is_reset (call_setSelection (PageId_of_image 3))))).
Proof.
  split; [apply two_selected_state_reachable|].
  eexists _, _. split; [vm_compute; reflexivity|].
  apply (signal_announces_leader (call_setSelection (PageId_of_image 3))
           two_selected_state);
    [apply two_selected_state_reachable | vm_compute; reflexivity].
Defined.
(** ** The column built by [reset] *)

Section ResetColumn.

Implicit Types (s : Impl) (items : list Item).

Lemma reset_step_layout factory selected selection_leader i p st :
  id p ∉ pageId <$> m_itemsInOrder (fst (fst st)) ->
  let st' := reset_step factory selected selection_leader i p st in
  let c := setPos (mkPoint 0 (snd st)) (getCompositeItem factory p i) in
  layout_view <$> m_itemsInOrder (fst (fst st'))
  = (layout_view <$> m_itemsInOrder (fst (fst st))) ++ [(p, i, c)]
  /\ snd st' = (snd st + Rect.height (boundingRect c) + SPACING)%Q.
Proof.
  destruct st as [[s some] offset]. simpl. intros Hfresh.
  unfold reset_step, push_back, insert_at.
  rewrite bool_decide_eq_false_2.
  2: { intros (it & Hin & Hit)%Exists_exists. simpl in Hin. apply Hfresh.
       rewrite <- Hit. by apply list_elem_of_fmap_2. }
  cbn [fst m_itemsInOrder set_sceneRect].
  rewrite take_ge, drop_ge by done. rewrite last_snoc.
  destruct (decide (id p ∈ selected)), (decide (id p = id selection_leader));
    simpl; rewrite ?fmap_view_modify by done; by rewrite fmap_app.
Qed.

Lemma reset_loop_layout factory selected selection_leader sorted_pages i st :
  NoDup (id <$> sorted_pages) ->
  (forall p, p ∈ sorted_pages -> id p ∉ pageId <$> m_itemsInOrder (fst (fst st))) ->
  layout_view <$> m_itemsInOrder
                    (fst (fst (reset_loop factory selected selection_leader i
                                 sorted_pages st)))
  = (layout_view <$> m_itemsInOrder (fst (fst st)))
    ++ laid_out factory sorted_pages i (snd st).
Proof.
  revert i st. induction sorted_pages as [|p l IH]; intros i st Hnd Hfresh; simpl.
  { by rewrite app_nil_r. }
  rewrite fmap_cons in Hnd. apply NoDup_cons in Hnd as [Hp Hnd].
  destruct (reset_step_layout factory selected selection_leader i p st) as [Hitems Hoff].
  { apply Hfresh. by left. }
  rewrite IH; [|done|].
  - rewrite Hitems, Hoff. by rewrite <- app_assoc.
  - intros q Hq Hin.
    assert (Hids : pageId <$> m_itemsInOrder
                     (fst (fst (reset_step factory selected selection_leader i p st)))
                   = (pageId <$> m_itemsInOrder (fst (fst st))) ++ [id p]).
    { apply (f_equal (fmap (fun v : PageInfo * Z * CompositeItem => id (fst (fst v)))))
        in Hitems.
      rewrite fmap_app, <- !list_fmap_compose in Hitems. exact Hitems. }
    rewrite Hids in Hin. apply elem_of_app in Hin as [Hin|Hin].
    + apply (Hfresh q); [by right | done].
    + apply list_elem_of_singleton in Hin. apply Hp. rewrite <- Hin.
      by apply list_elem_of_fmap_2.
Qed.

Lemma laid_out_pages factory sorted_pages i offset :
  (fun v => fst (fst v)) <$> laid_out factory sorted_pages i offset = sorted_pages.
Proof.
  revert i offset. induction sorted_pages as [|p l IH]; intros i offset; simpl; [done|].
  by rewrite IH.
Qed.

Lemma laid_out_numbers factory sorted_pages i offset :
  (fun v => snd (fst v)) <$> laid_out factory sorted_pages i offset
  = (fun k => (i + Z.of_nat k)%Z) <$> seq 0 (length sorted_pages).
Proof.
  revert i offset. induction sorted_pages as [|p l IH]; intros i offset; simpl; [done|].
  rewrite IH. f_equal; [f_equal; lia|].
  rewrite <- (fmap_S_seq 0), <- list_fmap_compose.
  apply list_fmap_ext. intros _ k _. simpl. lia.
Qed.

Lemma laid_out_stacked factory sorted_pages i offset items :
  layout_view <$> items = laid_out factory sorted_pages i offset ->
  stacked_from offset items.
Proof.
  revert i offset items. induction sorted_pages as [|p l IH]; intros i offset items.
  { simpl. by intros ->%fmap_nil_inv. }
  destruct items as [|it items]; [done|]. simpl.
  intros [= Hp Hn Hc Hrest]. split; [by rewrite Hc|].
  rewrite Hc. by eapply IH.
Qed.

Lemma in_order_insert_sorted_key {A} (key : A -> PageId) p (x : A) (l : list A) :
  (forall a b, precedes p a b = true -> precedes p b a = false) ->
  in_order p (key <$> l) ->
  in_order p (key <$> insert_sorted (fun a b => precedes p (key a) (key b)) x l).
Proof.
  intros Hasym. induction l as [|y l IH]; intros Hord; simpl; [done|].
  destruct (precedes p (key y) (key x)) eqn:E.
  - rewrite fmap_cons. destruct Hord as [Hhd Hord]. specialize (IH Hord).
    split; [|done].
    destruct l as [|z l]; simpl.
    + by apply Hasym.
    + destruct (precedes p (key z) (key x)); simpl; [done | by apply Hasym].
  - by split.
Qed.

Lemma in_order_stable_sort_key {A} (key : A -> PageId) p (l : list A) :
  (forall a b, precedes p a b = true -> precedes p b a = false) ->
  in_order p (key <$> stable_sort (fun a b => precedes p (key a) (key b)) l).
Proof.
  intros Hasym. induction l as [|x l IH]; simpl; [done|].
  by apply in_order_insert_sorted_key.
Qed.

End ResetColumn.

(** X22: [reset] with a list of pages of pairwise distinct identities
    builds the column from scratch: the items are the pages of the list,
    in the list's order when no order provider is given and sorted by the
    provider otherwise (so that, when its [precedes] never holds in both
    directions, no page is directly followed by one the provider puts
    before it), numbered from 0 in display order, stacked from the top
    with [SPACING] between consecutive thumbnails; the provider is
    installed. *)
Theorem reset_builds_column (s : Impl) (snapshot : PageSequenceSnapshot)
    (action : SelectionAction) (provider : option PageOrderProvider)
    (factory : ThumbnailFactory) :
  NoDup (id <$> pages snapshot) ->
  let s' := fst (reset snapshot action provider factory s) in
  pageInfo <$> m_itemsInOrder s'
  = match provider with
    | Some p => stable_sort (comparator p) (pages snapshot)
    | None => pages snapshot
    end
  /\ pageNum <$> m_itemsInOrder s' = Z.of_nat <$> seq 0 (length (pages snapshot))
  /\ stacked_from 0 (m_itemsInOrder s')
  /\ m_ptrOrderProvider s' = provider
  /\ (forall p, provider = Some p ->
      (forall a b, precedes p a b = true -> precedes p b a = false) ->
      in_order p (pageId <$> m_itemsInOrder s')).
Proof.
  intros Hnd s'.
  destruct (decide (pages snapshot = [])) as [Hnil|Hne].
  { unfold s', reset. rewrite Hnil. simpl.
    split; [by destruct provider|]. by repeat split. }
  destruct (reset_outcome s snapshot action provider factory Hne)
    as (_ & Hitems & Hprov & _).
  cbv zeta in Hitems, Hprov. fold s' in Hitems, Hprov.
  set (sorted_pages := match provider with
                       | Some p => stable_sort (comparator p) (pages snapshot)
                       | None => pages snapshot
                       end) in *.
  assert (Hperm : sorted_pages ≡ₚ pages snapshot).
  { unfold sorted_pages. destruct provider; [apply stable_sort_perm | done]. }
  match type of Hitems with
    context [reset_loop ?f ?sel ?ldr ?i ?pg ?st] =>
      pose proof (reset_loop_layout f sel ldr pg i st) as Hloop;
      assert (Hp1 : m_ptrOrderProvider (fst (fst (reset_loop f sel ldr i pg st)))
                    = provider)
  end.
  { clear. generalize 0%Z.
    assert (Hgen : forall l i st,
      m_ptrOrderProvider
        (fst (fst (reset_loop factory
                     match action with
                     | KEEP_SELECTION => selectedItems (set_provider provider s)
                     | RESET_SELECTION => ∅
                     end
                     match action with
                     | KEEP_SELECTION =>
                         match m_pSelectionLeader (set_provider provider s) with
                         | Some l0 =>
                             match find_item l0
                                     (m_itemsInOrder (set_provider provider s)) with
                             | Some it => pageInfo it
                             | None => nullPageInfo
                             end
                         | None => nullPageInfo
                         end
                     | RESET_SELECTION => nullPageInfo
                     end i l st)))
      = m_ptrOrderProvider (fst (fst st))).
    { induction l as [|p l IH]; intros i st; simpl; [done|].
      rewrite IH. destruct st as [[s0 some] offset]. simpl.
      unfold reset_step, push_back, insert_at.
      case_bool_decide; cbn [fst m_itemsInOrder set_sceneRect];
        destruct (last _); try done;
        by destruct (decide (id p ∈ _)), (decide (id p = _)). }
    intros z. by rewrite Hgen. }
  specialize (Hloop ltac:(by rewrite Hperm)
                ltac:(by intros p _ ?%elem_of_nil)).
  simpl in Hloop.
  assert (Hlayout : layout_view <$> m_itemsInOrder s' = laid_out factory sorted_pages 0 0).
  { rewrite Hitems. destruct (match m_pSelectionLeader _ with Some _ => _ | None => _ end);
      [rewrite fmap_view_modify by done|]; exact Hloop. }
  split; [|split; [|split; [|split]]].
  - transitivity ((fun v : PageInfo * Z * CompositeItem => fst (fst v))
                    <$> (layout_view <$> m_itemsInOrder s')).
    + by rewrite <- list_fmap_compose.
    + by rewrite Hlayout, laid_out_pages.
  - transitivity ((fun v : PageInfo * Z * CompositeItem => snd (fst v))
                    <$> (layout_view <$> m_itemsInOrder s')).
    + by rewrite <- list_fmap_compose.
    + rewrite Hlayout, laid_out_numbers, Hperm. by apply list_fmap_ext.
  - by eapply laid_out_stacked.
  - by rewrite Hprov, Hp1.
  - intros p Hp Hasym.
    assert (Hids : pageId <$> m_itemsInOrder s' = id <$> sorted_pages).
    { transitivity ((fun v : PageInfo * Z * CompositeItem => id (fst (fst v)))
                      <$> (layout_view <$> m_itemsInOrder s')).
      - by rewrite <- list_fmap_compose.
      - rewrite Hlayout. rewrite <- (laid_out_pages factory sorted_pages 0 0) at 2.
        by rewrite <- list_fmap_compose. }
    rewrite Hids. unfold sorted_pages. rewrite Hp.
    by apply (in_order_stable_sort_key id).
Qed.

Lemma reset_builds_column_witness :
  NoDup (id <$> pages example_snapshot)
  /\ let s' := fst (reset example_snapshot RESET_SELECTION (Some example_provider)
                      example_factory two_selected_state) in
     pageInfo <$> m_itemsInOrder s'
     = stable_sort (comparator example_provider) (pages example_snapshot)
     /\ pageNum <$> m_itemsInOrder s'
        = Z.of_nat <$> seq 0 (length (pages example_snapshot))
     /\ stacked_from 0 (m_itemsInOrder s')
     /\ m_ptrOrderProvider s' = Some example_provider
     /\ (forall p, Some example_provider = Some p ->
         (forall a b, precedes p a b = true -> precedes p b a = false) ->
         in_order p (pageId <$> m_itemsInOrder s')).
Proof.
  assert (Hnd : NoDup (id <$> pages example_snapshot))
    by (apply (bool_decide_unpack _); vm_compute; exact I).
  split; [exact Hnd|].
  exact (reset_builds_column two_selected_state example_snapshot RESET_SELECTION
           (Some example_provider) example_factory Hnd).
Defined.
(** ** The leader chosen by [reset] *)

Section ResetLeader.

Implicit Types (s : Impl) (items : list Item) (keep : gset PageId).

Lemma find_item_app a (l1 l2 : list Item) :
  find_item a (l1 ++ l2)
  = match find_item a l1 with Some it => Some it | None => find_item a l2 end.
Proof.
  induction l1 as [|x l1 IH]; simpl; [done|]. by destruct (decide (addr x = a)).
Qed.

(** What the loop of [reset] knows of the leader pointer after the pages
    [processed]: it designates the item of the page that has the
    identity of the leader kept, if that page has been processed. *)
Lemma reset_step_leader factory keep selection_leader i p st processed :
  reset_inv st ->
  pageId <$> m_itemsInOrder (fst (fst st)) = id <$> processed ->
  id p ∉ id <$> processed ->
  match m_pSelectionLeader (fst (fst st)) with
  | Some a => exists it, find_item a (m_itemsInOrder (fst (fst st))) = Some it
                         /\ pageId it = id selection_leader
  | None => id selection_leader ∉ id <$> processed
  end ->
  let st' := reset_step factory keep selection_leader i p st in
  match m_pSelectionLeader (fst (fst st')) with
  | Some a => exists it, find_item a (m_itemsInOrder (fst (fst st'))) = Some it
                         /\ pageId it = id selection_leader
  | None => id selection_leader ∉ id <$> (processed ++ [p])
  end.
Proof.
  destruct st as [[s some] offset]. intros [HI _] Hids Hnew Hleader.
  simpl in HI, Hids, Hleader.
  unfold reset_step, push_back, insert_at.
  set (c := setPos _ _).
  rewrite bool_decide_eq_false_2.
  2: { intros (it & Hin & Hit)%Exists_exists. simpl in Hin. apply Hnew.
       rewrite <- Hit, <- Hids. by apply list_elem_of_fmap_2. }
  cbn [fst m_itemsInOrder set_sceneRect m_selectedThenUnselected next_addr].
  rewrite take_ge, drop_ge by done.
  set (new := mkItem (next_addr s) p i c false false).
  rewrite last_snoc.
  assert (Hfresh : Forall (fun a => a < next_addr s) (addr <$> m_itemsInOrder s))
    by apply HI.
  assert (Hnone : find_item (next_addr s) (m_itemsInOrder s) = None).
  { apply find_item_None. intros Hin. eapply Forall_forall in Hfresh; [|exact Hin]. lia. }
  assert (Hold : forall a it (f : Item -> Item),
    find_item a (m_itemsInOrder s) = Some it ->
    find_item a (modify_item (next_addr s) f (m_itemsInOrder s ++ [new])) = Some it
    /\ find_item a (m_itemsInOrder s ++ [new]) = Some it).
  { intros a it f Hf. rewrite find_item_app, Hf. split; [|done].
    unfold modify_item. rewrite fmap_app.
    fold (modify_item (next_addr s) f (m_itemsInOrder s)).
    rewrite modify_item_fresh by done. by rewrite find_item_app, Hf. }
  assert (Hind : forall (f : Item -> Item),
    (forall it, addr (f it) = addr it) -> (forall it, pageInfo (f it) = pageInfo it) ->
    exists it, find_item (next_addr s)
                 (modify_item (next_addr s) f (m_itemsInOrder s ++ [new])) = Some it
               /\ pageId it = id p).
  { intros f Hfa Hfp. rewrite find_item_modify by done. rewrite decide_True by done.
    rewrite find_item_app, Hnone. simpl. rewrite decide_True by done. simpl.
    eexists. split; [done|]. unfold pageId. by rewrite Hfp. }
  destruct (decide (id p ∈ keep)), (decide (id p = id selection_leader)) as [Heq|Hne];
    cbn [fst snd m_pSelectionLeader set_leader moveToSelected setSelected set_items
           set_selectedThenUnselected m_itemsInOrder addr];
    try change (m_pSelectionLeader (set_sceneRect (updateSceneRect c (m_sceneRect s)) s))
      with (m_pSelectionLeader s).
  - rewrite <- Heq. by apply Hind.
  - revert Hleader. destruct (m_pSelectionLeader s) as [a|]; intros Hleader.
    + destruct Hleader as (it & Hf & Hit). exists it. split; [|done].
      by apply Hold.
    + rewrite fmap_app. intros [?|Hin]%elem_of_app; [done|].
      apply list_elem_of_singleton in Hin. by apply Hne.
  - rewrite <- Heq. exists new. split; [|done].
    change (addr new) with (next_addr s).
    rewrite find_item_app, Hnone. simpl. by rewrite decide_True.
  - revert Hleader. destruct (m_pSelectionLeader s) as [a|]; intros Hleader.
    + destruct Hleader as (it & Hf & Hit). exists it. split; [|done].
      by apply (Hold a it (fun x => x)).
    + rewrite fmap_app. intros [?|Hin]%elem_of_app; [done|].
      apply list_elem_of_singleton in Hin. by apply Hne.
Qed.

Lemma reset_loop_leader factory keep selection_leader sorted_pages i st processed :
  reset_inv st -> reset_sel_inv keep processed st ->
  Forall (fun p => id p = id selection_leader -> id p ∈ keep) sorted_pages ->
  NoDup (id <$> processed ++ sorted_pages) ->
  match m_pSelectionLeader (fst (fst st)) with
  | Some a => exists it, find_item a (m_itemsInOrder (fst (fst st))) = Some it
                         /\ pageId it = id selection_leader
  | None => id selection_leader ∉ id <$> processed
  end ->
  let st' := reset_loop factory keep selection_leader i sorted_pages st in
  match m_pSelectionLeader (fst (fst st')) with
  | Some a => exists it, find_item a (m_itemsInOrder (fst (fst st'))) = Some it
                         /\ pageId it = id selection_leader
  | None => id selection_leader ∉ id <$> (processed ++ sorted_pages)
  end.
Proof.
  revert i st processed.
  induction sorted_pages as [|p l IH]; intros i st processed Hst Hsel Hall Hnd Hl; simpl.
  { by rewrite app_nil_r. }
  apply Forall_cons in Hall as [Hp Hall].
  assert (Hnew : id p ∉ id <$> processed).
  { rewrite !fmap_app in Hnd. apply NoDup_app in Hnd as (_ & Hdisj & _).
    intros Hin. apply (Hdisj _ Hin). rewrite fmap_cons. by left. }
  replace (processed ++ p :: l) with ((processed ++ [p]) ++ l) in *
    by (by rewrite <- app_assoc).
  apply (IH _ _ (processed ++ [p])); [by apply reset_step_inv | | done | done |].
  - by apply reset_step_sel.
  - apply reset_step_leader; [done | apply Hsel | done | done].
Qed.

End ResetLeader.

Section ResetFacts.

Implicit Types (s : Impl) (items : list Item).

(** What holds after the loop of [reset] over pages of distinct, non-null
    identities. *)
Lemma reset_loop_facts s snapshot action provider factory :
  Inv s -> snapshot_ok snapshot -> NoDup (id <$> pages snapshot) ->
  let s0 := set_provider provider s in
  let selected : gset PageId :=
    match action with KEEP_SELECTION => selectedItems s0 | RESET_SELECTION => ∅ end in
  let selection_leader :=
    match action, m_pSelectionLeader s0 with
    | KEEP_SELECTION, Some l =>
        match find_item l (m_itemsInOrder s0) with
        | Some it => pageInfo it
        | None => nullPageInfo
        end
    | _, _ => nullPageInfo
    end in
  let sorted_pages :=
    match provider with
    | Some p => stable_sort (comparator p) (pages snapshot)
    | None => pages snapshot
    end in
  let st := reset_loop factory selected selection_leader 0 sorted_pages
              (clear s0, None, 0%Q) in
  reset_inv st
  /\ reset_sel_inv selected sorted_pages st
  /\ match m_pSelectionLeader (fst (fst st)) with
     | Some a => exists it, find_item a (m_itemsInOrder (fst (fst st))) = Some it
                            /\ pageId it = id selection_leader
     | None => id selection_leader ∉ id <$> sorted_pages
     end.
Proof.
  intros HI Hok Hnd s0 selected selection_leader sorted_pages st.
  assert (Hperm : sorted_pages ≡ₚ pages snapshot).
  { unfold sorted_pages. destruct provider; [apply stable_sort_perm | done]. }
  assert (Hall : Forall (fun p => id p = id selection_leader -> id p ∈ selected)
                   sorted_pages).
  { rewrite Hperm. eapply Forall_impl; [exact Hok|]. simpl. intros p Hp Heq.
    assert (Hnull : id selection_leader = nullPageId -> id p ∈ selected).
    { intros Hn. exfalso. apply Hp. unfold pi_imageId. by rewrite Heq, Hn. }
    unfold selection_leader, selected in *. destruct action; [|by apply Hnull].
    destruct (m_pSelectionLeader s0) as [l|] eqn:Hl; [|by apply Hnull].
    destruct (find_item l (m_itemsInOrder s0)) as [it|] eqn:Hit; [|by apply Hnull].
    apply selectedItems_spec; [apply HI|]. exists it.
    apply find_item_Some in Hit as Hit'. destruct Hit' as [Hin _].
    split; [done|]. split; [|done].
    destruct HI as (_ & Hlead & _). specialize (Hlead l Hl).
    unfold isSelected_at in Hlead. simpl in Hit. by rewrite Hit in Hlead. }
  assert (Hinit : reset_inv (clear s0, None, 0%Q)) by (split; [apply Inv_clear | done]).
  assert (Hinit_sel : reset_sel_inv selected [] (clear s0, None, 0%Q)).
  { unfold reset_sel_inv. simpl. split; [done|].
    split; [intros it Hit | intros _ p Hit]; by apply elem_of_nil in Hit. }
  split; [by apply reset_loop_inv|]. split.
  - apply (reset_loop_sel factory selected selection_leader sorted_pages 0 _ []);
      [done | done | done | by rewrite Hperm].
  - apply (reset_loop_leader factory selected selection_leader sorted_pages 0 _ []);
      [done | done | done | by rewrite Hperm |].
    simpl. by intros ?%elem_of_nil.
Qed.

End ResetFacts.

(** X23: a reset that keeps the selection keeps the leader when its page
    is still listed.  For a reachable state with a leader and a list of
    pages of distinct identities and existing images (no null image id)
    that still holds the leader's page, the item built for that page
    becomes the leader, and one leader-changed signal with default flags
    is emitted, carrying the page record of the previous leader item and
    the rectangle of the new one. *)
Theorem reset_keeps_leader (s : Impl) (snapshot : PageSequenceSnapshot)
    (provider : option PageOrderProvider) (factory : ThumbnailFactory)
    (l : nat) (old : Item) :
  reachable s ->
  snapshot_ok snapshot ->
  NoDup (id <$> pages snapshot) ->
  m_pSelectionLeader s = Some l ->
  find_item l (m_itemsInOrder s) = Some old ->
  pageId old ∈ id <$> pages snapshot ->
  exists s' item,
    reset snapshot KEEP_SELECTION provider factory s
    = (s', [newSelectionLeader (pageInfo old) (sceneBoundingRect (composite item))
              DEFAULT_SELECTION_FLAGS])
    /\ m_pSelectionLeader s' = Some (addr item)
    /\ find_item (addr item) (m_itemsInOrder s') = Some item
    /\ pageId item = pageId old.
Proof.
  intros Hr Hok Hnd Hl Hold Hlisted. pose proof (reachable_Inv s Hr) as HI.
  assert (Hne : pages snapshot <> []).
  { intros Hnil. rewrite Hnil in Hlisted. by apply elem_of_nil in Hlisted. }
  destruct (reset_outcome s snapshot KEEP_SELECTION provider factory Hne)
    as (Hleader & Hitems & _ & Hsig).
  destruct (reset_loop_facts s snapshot KEEP_SELECTION provider factory HI Hok Hnd)
    as (_ & _ & Hptr).
  cbv zeta in *.
  change (m_pSelectionLeader (set_provider provider s)) with (m_pSelectionLeader s) in *.
  change (m_itemsInOrder (set_provider provider s)) with (m_itemsInOrder s) in *.
  rewrite Hl, Hold in *.
  destruct (reset snapshot KEEP_SELECTION provider factory s) as [s' sigs].
  simpl in Hleader, Hitems, Hsig.
  set (s1 := fst (fst (reset_loop _ _ _ _ _ _))) in *.
  destruct (m_pSelectionLeader s1) as [a|].
  2: { exfalso. apply Hptr.
       assert (Hperm : match provider with
                       | Some p => stable_sort (comparator p) (pages snapshot)
                       | None => pages snapshot
                       end ≡ₚ pages snapshot).
       { destruct provider; [apply stable_sort_perm | done]. }
       by rewrite Hperm. }
  destruct Hptr as (it & Hit & Hid).
  assert (Hfind : find_item a (modify_item a (Item_setSelectionLeader true)
                                 (m_itemsInOrder s1))
                  = Some (Item_setSelectionLeader true it)).
  { rewrite find_item_modify by done. rewrite decide_True by done. by rewrite Hit. }
  rewrite Hfind in Hsig. subst sigs.
  exists s', (Item_setSelectionLeader true it).
  apply find_item_Some in Hit as [_ Ha].
  split; [done|]. split; [by rewrite Hleader; simpl; rewrite Ha|].
  split; [by rewrite Hitems; simpl; rewrite Ha|]. done.
Qed.

Lemma reset_keeps_leader_witness :
  reachable two_selected_state
  /\ snapshot_ok example_snapshot
  /\ NoDup (id <$> pages example_snapshot)
  /\ m_pSelectionLeader two_selected_state = Some 2
  /\ exists old,
       find_item 2 (m_itemsInOrder two_selected_state) = Some old
       /\ pageId old ∈ id <$> pages example_snapshot
       /\ exists s' item,
            reset example_snapshot KEEP_SELECTION None example_factory two_selected_state
            = (s', [newSelectionLeader (pageInfo old)
                      (sceneBoundingRect (composite item)) DEFAULT_SELECTION_FLAGS])
            /\ m_pSelectionLeader s' = Some (addr item)
            /\ find_item (addr item) (m_itemsInOrder s') = Some item
            /\ pageId item = pageId old.
Proof.
  assert (Hnd : NoDup (id <$> pages example_snapshot))
    by (apply (bool_decide_unpack _); vm_compute; exact I).
  split; [apply two_selected_state_reachable|]. split; [apply example_snapshot_ok|].
  split; [exact Hnd|]. split; [reflexivity|].
  eexists. split; [vm_compute; reflexivity|].
  assert (Hin : PageId_of_image 2 ∈ id <$> pages example_snapshot)
    by (apply (bool_decide_unpack _); vm_compute; exact I).
  split; [exact Hin|].
  exact (reset_keeps_leader two_selected_state example_snapshot None example_factory 2 _
           two_selected_state_reachable example_snapshot_ok Hnd eq_refl eq_refl Hin).
Defined.

(** X24: a reset that drops the selection starts over from the current
    page.  For a reachable state and a list of pages of distinct
    identities and existing images (no null image id): when the current
    page of the snapshot is listed, its item becomes the leader and the
    only selected page, and the one signal emitted carries default flags,
    the rectangle of that item and the null page record; when it is not
    listed, there is no leader, nothing is selected and no signal is
    emitted. *)
Theorem reset_selection_starts_from_current (s : Impl) (snapshot : PageSequenceSnapshot)
    (provider : option PageOrderProvider) (factory : ThumbnailFactory) :
  reachable s ->
  snapshot_ok snapshot ->
  NoDup (id <$> pages snapshot) ->
  exists s' sigs,
    reset snapshot RESET_SELECTION provider factory s = (s', sigs)
    /\ (id (curPage snapshot) ∈ id <$> pages snapshot ->
        exists item,
          find_item (addr item) (m_itemsInOrder s') = Some item
          /\ pageId item = id (curPage snapshot)
          /\ m_pSelectionLeader s' = Some (addr item)
          /\ selectedItems s' = {[ id (curPage snapshot) ]}
          /\ sigs = [newSelectionLeader nullPageInfo
                       (sceneBoundingRect (composite item)) DEFAULT_SELECTION_FLAGS])
    /\ (id (curPage snapshot) ∉ id <$> pages snapshot ->
        m_pSelectionLeader s' = None /\ selectedItems s' = ∅ /\ sigs = []).
Proof.
  intros Hr Hok Hnd. pose proof (reachable_Inv s Hr) as HI.
  pose proof (Inv_reset s snapshot RESET_SELECTION provider factory HI Hok)
    as (Hsel' & _).
  destruct (decide (pages snapshot = [])) as [Hnil|Hne].
  { unfold reset in *. rewrite Hnil in *. eexists _, _. split; [done|]. split.
    - by intros ?%elem_of_nil.
    - intros _. split; [done|]. split; [|done]. vm_compute. reflexivity. }
  destruct (reset_outcome s snapshot RESET_SELECTION provider factory Hne)
    as (Hleader & Hitems & _ & Hsig).
  destruct (reset_loop_facts s snapshot RESET_SELECTION provider factory HI Hok Hnd)
    as ((HI1 & Hsome) & (Hids & Hflags & _) & Hptr).
  cbv zeta in *.
  destruct (reset snapshot RESET_SELECTION provider factory s) as [s' sigs].
  simpl in Hleader, Hitems, Hsig, Hsel'.
  set (sorted_pages := match provider with
                       | Some p => stable_sort (comparator p) (pages snapshot)
                       | None => pages snapshot
                       end) in *.
  assert (Hperm : sorted_pages ≡ₚ pages snapshot).
  { unfold sorted_pages. destruct provider; [apply stable_sort_perm | done]. }
  destruct (reset_loop _ _ _ _ _ _) as [[s1 some] offset]. simpl in *.
  (* nothing is selected and no leader is set by the loop *)
  assert (Hunsel : forall it, it ∈ m_itemsInOrder s1 -> m_isSelected it = false).
  { intros it Hit. destruct (m_isSelected it) eqn:E; [|done].
    apply (Hflags it Hit) in E. by apply not_elem_of_empty in E. }
  assert (Hl1 : m_pSelectionLeader s1 = None).
  { destruct (m_pSelectionLeader s1) as [a|]; [|done]. exfalso.
    destruct Hptr as (it & Hf & Hid). apply find_item_Some in Hf as [Hin _].
    assert (Hlisted : pageId it ∈ id <$> pages snapshot).
    { rewrite <- Hperm, <- Hids. by apply list_elem_of_fmap_2. }
    apply list_elem_of_fmap in Hlisted as (p & Hp & Hpin).
    eapply Forall_forall in Hok; [|exact Hpin]. apply Hok.
    unfold pi_imageId. by rewrite <- Hp, Hid. }
  assert (Hsome1 : some = None).
  { destruct some as [a|]; [|done]. exfalso. specialize (Hsome a eq_refl).
    apply isSelected_at_true in Hsome as (it & Hf & Hs).
    apply find_item_Some in Hf as [Hin _]. rewrite (Hunsel it Hin) in Hs. done. }
  rewrite Hl1, Hsome1 in *.
  change (findById (id (curPage snapshot)) (commitSceneRect s1))
    with (findById (id (curPage snapshot)) s1) in *.
  destruct HI1 as ((Hnd1 & _) & _).
  assert (Hnd_ids : NoDup (pageId <$> m_itemsInOrder s1)) by (by rewrite Hids, Hperm).
  exists s', sigs. split; [done|]. split.
  - intros Hlisted.
    assert (Hstored : id (curPage snapshot) ∈ pageId <$> m_itemsInOrder s1)
      by (by rewrite Hids, Hperm).
    apply list_elem_of_fmap in Hstored as (it & Hid & Hin).
    rewrite Hid, (findById_unique s1 it Hnd_ids Hin) in *. simpl in *.
    assert (Hfind : find_item (addr it)
                      (modify_item (addr it) (Item_setSelectionLeader true)
                         (m_itemsInOrder s1))
                    = Some (Item_setSelectionLeader true it)).
    { rewrite find_item_modify by done. rewrite decide_True by done.
      by rewrite (find_item_elem _ _ Hnd1 Hin). }
    rewrite Hfind in Hsig.
    exists (Item_setSelectionLeader true it).
    split; [by rewrite Hitems|]. split; [done|]. split; [exact Hleader|].
    split; [|exact Hsig].
    apply set_eq. intros page_id.
    rewrite (selectedItems_spec s' Hsel'), elem_of_singleton, Hitems. split.
    + intros (it' & Hin' & Hs' & <-). unfold modify_item in Hin'.
      apply list_elem_of_fmap in Hin' as (x & -> & Hx).
      destruct (decide (addr x = addr it)) as [Heq|Hne'].
      * by rewrite (addr_inj_on _ x it Hnd1 Hx Hin Heq).
      * rewrite (Hunsel x Hx) in Hs'. done.
    + intros ->. exists (Item_setSelectionLeader true it).
      split; [|split; [apply orb_true_r | done]].
      unfold modify_item. apply list_elem_of_fmap. exists it.
      by rewrite decide_True.
  - intros Hnot.
    assert (Hnone : findById (id (curPage snapshot)) s1 = None).
    { apply findById_None. by rewrite Hids, Hperm. }
    rewrite Hnone in *. simpl in *. split; [done|]. split; [|done].
    apply set_eq. intros page_id.
    rewrite (selectedItems_spec s' Hsel'), Hitems. split.
    + intros (it & Hin & Hs & _). rewrite (Hunsel it Hin) in Hs. done.
    + by intros ?%not_elem_of_empty.
Qed.

Lemma reset_selection_starts_from_current_witness :
  reachable two_selected_state
  /\ snapshot_ok example_snapshot
  /\ NoDup (id <$> pages example_snapshot)
  /\ exists s' sigs,
       reset example_snapshot RESET_SELECTION None example_factory two_selected_state
       = (s', sigs)
       /\ (id (curPage example_snapshot) ∈ id <$> pages example_snapshot ->
           exists item,
             find_item (addr item) (m_itemsInOrder s') = Some item
             /\ pageId item = id (curPage example_snapshot)
             /\ m_pSelectionLeader s' = Some (addr item)
             /\ selectedItems s' = {[ id (curPage example_snapshot) ]}
             /\ sigs = [newSelectionLeader nullPageInfo
                          (sceneBoundingRect (composite item))
                          DEFAULT_SELECTION_FLAGS])
       /\ (id (curPage example_snapshot) ∉ id <$> pages example_snapshot ->
           m_pSelectionLeader s' = None /\ selectedItems s' = ∅ /\ sigs = []).
Proof.
  assert (Hnd : NoDup (id <$> pages example_snapshot))
    by (apply (bool_decide_unpack _); vm_compute; exact I).
  split; [apply two_selected_state_reachable|]. split; [apply example_snapshot_ok|].
  split; [exact Hnd|].
  exact (reset_selection_starts_from_current two_selected_state example_snapshot None
           example_factory two_selected_state_reachable example_snapshot_ok Hnd).
Defined.
(** ** The selection across a reset that keeps it *)

Section ResetKeep.

Implicit Types (s : Impl) (snapshot : PageSequenceSnapshot).

(** With nothing selected there is no leader to keep either, so the two
    selection policies of [reset] do the same. *)
Lemma reset_keep_nothing s snapshot provider factory :
  Inv s -> selectedItems s = ∅ ->
  reset snapshot KEEP_SELECTION provider factory s
  = reset snapshot RESET_SELECTION provider factory s.
Proof.
  intros HI Hempty.
  assert (Hleader : m_pSelectionLeader s = None).
  { destruct (m_pSelectionLeader s) as [l|] eqn:Hl; [|done]. exfalso.
    destruct HI as (Hsel & Hlead & _). specialize (Hlead l Hl).
    apply isSelected_at_true in Hlead as (it & Hf & Hs).
    apply find_item_Some in Hf as [Hin _].
    apply (not_elem_of_empty (C := gset PageId) (pageId it)). rewrite <- Hempty.
    apply (selectedItems_spec s Hsel). by exists it. }
  unfold reset.
  change (selectedItems (set_provider provider s)) with (selectedItems s).
  change (m_pSelectionLeader (set_provider provider s)) with (m_pSelectionLeader s).
  by rewrite Hempty, Hleader.
Qed.

(** Where [reset] ends up when it has no selection to restore: on the
    current page of the snapshot if it is listed, on nothing otherwise. *)
Lemma reset_from_current_page s snapshot provider factory :
  Inv s -> snapshot_ok snapshot -> NoDup (id <$> pages snapshot) ->
  let s' := fst (reset snapshot RESET_SELECTION provider factory s) in
  (id (curPage snapshot) ∈ id <$> pages snapshot ->
   exists item,
     find_item (addr item) (m_itemsInOrder s') = Some item
     /\ pageId item = id (curPage snapshot)
     /\ m_pSelectionLeader s' = Some (addr item)
     /\ selectedItems s' = {[ id (curPage snapshot) ]})
  /\ (id (curPage snapshot) ∉ id <$> pages snapshot ->
      m_pSelectionLeader s' = None /\ selectedItems s' = ∅).
Proof.
  intros HI Hok Hnd.
  pose proof (Inv_reset s snapshot RESET_SELECTION provider factory HI Hok)
    as (Hsel' & _).
  destruct (decide (pages snapshot = [])) as [Hnil|Hne].
  { unfold reset in *. rewrite Hnil in *. split.
    - by intros ?%elem_of_nil.
    - intros _. split; [done|]. vm_compute. reflexivity. }
  destruct (reset_outcome s snapshot RESET_SELECTION provider factory Hne)
    as (Hleader & Hitems & _).
  destruct (reset_loop_facts s snapshot RESET_SELECTION provider factory HI Hok Hnd)
    as ((HI1 & Hsome) & (Hids & Hflags & _) & Hptr).
  cbv zeta in *.
  destruct (reset snapshot RESET_SELECTION provider factory s) as [s' sigs].
  simpl in Hleader, Hitems, Hsel'.
  set (sorted_pages := match provider with
                       | Some p => stable_sort (comparator p) (pages snapshot)
                       | None => pages snapshot
                       end) in *.
  assert (Hperm : sorted_pages ≡ₚ pages snapshot).
  { unfold sorted_pages. destruct provider; [apply stable_sort_perm | done]. }
  destruct (reset_loop _ _ _ _ _ _) as [[s1 some] offset]. simpl in *.
  (* nothing is selected and no leader is set by the loop *)
  assert (Hunsel : forall it, it ∈ m_itemsInOrder s1 -> m_isSelected it = false).
  { intros it Hit. destruct (m_isSelected it) eqn:E; [|done].
    apply (Hflags it Hit) in E. by apply not_elem_of_empty in E. }
  assert (Hl1 : m_pSelectionLeader s1 = None).
  { destruct (m_pSelectionLeader s1) as [a|]; [|done]. exfalso.
    destruct Hptr as (it & Hf & Hid). apply find_item_Some in Hf as [Hin _].
    assert (Hlisted : pageId it ∈ id <$> pages snapshot).
    { rewrite <- Hperm, <- Hids. by apply list_elem_of_fmap_2. }
    apply list_elem_of_fmap in Hlisted as (p & Hp & Hpin).
    eapply Forall_forall in Hok; [|exact Hpin]. apply Hok.
    unfold pi_imageId. by rewrite <- Hp, Hid. }
  assert (Hsome1 : some = None).
  { destruct some as [a|]; [|done]. exfalso. specialize (Hsome a eq_refl).
    apply isSelected_at_true in Hsome as (it & Hf & Hs).
    apply find_item_Some in Hf as [Hin _]. rewrite (Hunsel it Hin) in Hs. done. }
  rewrite Hl1, Hsome1 in *.
  change (findById (id (curPage snapshot)) (commitSceneRect s1))
    with (findById (id (curPage snapshot)) s1) in *.
  destruct HI1 as ((Hnd1 & _) & _).
  assert (Hnd_ids : NoDup (pageId <$> m_itemsInOrder s1)) by (by rewrite Hids, Hperm).
  split.
  - intros Hlisted.
    assert (Hstored : id (curPage snapshot) ∈ pageId <$> m_itemsInOrder s1)
      by (by rewrite Hids, Hperm).
    apply list_elem_of_fmap in Hstored as (it & Hid & Hin).
    rewrite Hid, (findById_unique s1 it Hnd_ids Hin) in *. simpl in *.
    exists (Item_setSelectionLeader true it).
    split.
    { change (addr (Item_setSelectionLeader true it)) with (addr it).
      rewrite Hitems, find_item_modify by done. rewrite decide_True by done.
      by rewrite (find_item_elem _ _ Hnd1 Hin). }
    split; [done|]. split; [exact Hleader|].
    apply set_eq. intros page_id.
    rewrite (selectedItems_spec s' Hsel'), elem_of_singleton, Hitems. split.
    + intros (it' & Hin' & Hs' & <-). unfold modify_item in Hin'.
      apply list_elem_of_fmap in Hin' as (x & -> & Hx).
      destruct (decide (addr x = addr it)) as [Heq|Hne'].
      * by rewrite (addr_inj_on _ x it Hnd1 Hx Hin Heq).
      * rewrite (Hunsel x Hx) in Hs'. done.
    + intros ->. exists (Item_setSelectionLeader true it).
      split; [|split; [apply orb_true_r | done]].
      unfold modify_item. apply list_elem_of_fmap. exists it.
      by rewrite decide_True.
  - intros Hnot.
    assert (Hnone : findById (id (curPage snapshot)) s1 = None).
    { apply findById_None. by rewrite Hids, Hperm. }
    rewrite Hnone in *. simpl in *. split; [done|].
    apply set_eq. intros page_id.
    rewrite (selectedItems_spec s' Hsel'), Hitems. split.
    + intros (it & Hin & Hs & _). rewrite (Hunsel it Hin) in Hs. done.
    + by intros ?%not_elem_of_empty.
Qed.

End ResetKeep.

(** C6, as amended: what [reset] with [KEEP_SELECTION] does to the
    selection of a reachable state, for a snapshot of distinct pages of
    existing images that still lists every selected identity.  When
    something was selected, [selectedItems] is afterwards what it was
    before.  When nothing was selected, the reset goes on to the
    document's current page: if it is listed, its item becomes the leader
    and thereby selected, the only selected page; if it is not listed,
    there is no leader and the selection stays empty. *)
Theorem reset_keeps_selection (s : Impl) (snapshot : PageSequenceSnapshot)
    (provider : option PageOrderProvider) (factory : ThumbnailFactory) :
  reachable s ->
  snapshot_ok snapshot ->
  NoDup (id <$> pages snapshot) ->
  (forall page_id, page_id ∈ selectedItems s -> page_id ∈ id <$> pages snapshot) ->
  let s' := fst (reset snapshot KEEP_SELECTION provider factory s) in
  (selectedItems s <> ∅ -> selectedItems s' = selectedItems s)
  /\ (selectedItems s = ∅ ->
      id (curPage snapshot) ∈ id <$> pages snapshot ->
      exists item,
        find_item (addr item) (m_itemsInOrder s') = Some item
        /\ pageId item = id (curPage snapshot)
        /\ m_pSelectionLeader s' = Some (addr item)
        /\ m_isSelected item = true
        /\ selectedItems s' = {[ id (curPage snapshot) ]})
  /\ (selectedItems s = ∅ ->
      id (curPage snapshot) ∉ id <$> pages snapshot ->
      m_pSelectionLeader s' = None /\ selectedItems s' = ∅).
Proof.
  intros Hr Hok Hnd Hsub s'. pose proof (reachable_Inv s Hr) as HI.
  split; [intros Hne; by apply reset_keeps_nonempty_selection|].
  pose proof (reset_from_current_page s snapshot provider factory HI Hok Hnd)
    as [Hlisted Hnot].
  pose proof (Inv_reset s snapshot KEEP_SELECTION provider factory HI Hok)
    as (_ & Hlead' & _).
  split.
  - intros Hempty Hin. unfold s' in *.
    rewrite (reset_keep_nothing s snapshot provider factory HI Hempty) in *.
    destruct (Hlisted Hin) as (item & Hf & Hid & Hl & Hsel).
    exists item. split; [done|]. split; [done|]. split; [done|]. split; [|done].
    specialize (Hlead' _ Hl). unfold isSelected_at in Hlead'. by rewrite Hf in Hlead'.
  - intros Hempty Hnin. unfold s'.
    rewrite (reset_keep_nothing s snapshot provider factory HI Hempty).
    by apply Hnot.
Qed.

Lemma reset_keeps_selection_witness :
  (reachable example_state
   /\ snapshot_ok example_snapshot
   /\ NoDup (id <$> pages example_snapshot)
   /\ (forall page_id, page_id ∈ selectedItems example_state ->
         page_id ∈ id <$> pages example_snapshot)
   /\ selectedItems example_state <> ∅
   /\ selectedItems (fst (reset example_snapshot KEEP_SELECTION None example_factory
                            example_state))
      = selectedItems example_state)
  /\ (reachable Impl_new
      /\ (forall page_id, page_id ∈ selectedItems Impl_new ->
            page_id ∈ id <$> pages example_snapshot)
      /\ selectedItems Impl_new = ∅
      /\ id (curPage example_snapshot) ∈ id <$> pages example_snapshot
      /\ let s' := fst (reset example_snapshot KEEP_SELECTION None example_factory
                          Impl_new) in
         exists item,
           find_item (addr item) (m_itemsInOrder s') = Some item
           /\ pageId item = id (curPage example_snapshot)
           /\ m_pSelectionLeader s' = Some (addr item)
           /\ m_isSelected item = true
           /\ selectedItems s' = {[ id (curPage example_snapshot) ]}).
Proof.
  assert (Hnd : NoDup (id <$> pages example_snapshot))
    by (apply (bool_decide_unpack _); vm_compute; exact I).
  assert (Hne : selectedItems example_state <> ∅)
    by (apply (bool_decide_unpack _); vm_compute; exact I).
  assert (Hsub : forall page_id, page_id ∈ selectedItems example_state ->
                   page_id ∈ id <$> pages example_snapshot).
  { intros page_id. rewrite example_state_selectedItems.
    intros ->%elem_of_singleton. apply elem_of_cons. by left. }
  assert (Hempty : selectedItems Impl_new = ∅) by (vm_compute; reflexivity).
  assert (Hsub0 : forall page_id, page_id ∈ selectedItems Impl_new ->
                    page_id ∈ id <$> pages example_snapshot).
  { intros page_id. rewrite Hempty. by intros ?%not_elem_of_empty. }
  assert (Hcur : id (curPage example_snapshot) ∈ id <$> pages example_snapshot)
    by (apply elem_of_cons; by left).
  split.
  - split; [apply example_state_reachable|]. split; [apply example_snapshot_ok|].
    split; [exact Hnd|]. split; [exact Hsub|]. split; [exact Hne|].
    exact (proj1 (reset_keeps_selection example_state example_snapshot None
                    example_factory example_state_reachable example_snapshot_ok
                    Hnd Hsub) Hne).
  - split; [apply reachable_new|]. split; [exact Hsub0|]. split; [exact Hempty|].
    split; [exact Hcur|].
    exact (proj1 (proj2 (reset_keeps_selection Impl_new example_snapshot None
                           example_factory reachable_new example_snapshot_ok
                           Hnd Hsub0)) Hempty Hcur).
Defined.
(** ** The column of thumbnails *)

Section Column.

Implicit Types (s : Impl) (items l : list Item) (o : Q).

Lemma stacked_proper o o' l : (o == o')%Q -> stacked o l -> stacked o' l.
Proof.
  revert o o'. induction l as [|it l IH]; intros o o' Ho; simpl; [done|].
  intros (Hx & Hy & Hrest). split; [done|]. split; [lra|].
  eapply IH; [|exact Hrest]. lra.
Qed.

Lemma stacked_from_stacked o l : stacked_from o l -> stacked o l.
Proof.
  revert o. induction l as [|it l IH]; intros o; simpl; [done|].
  intros [Hpos Hrest]. rewrite Hpos. simpl. split; [lra|]. split; [lra|]. by apply IH.
Qed.

Lemma column_height_app l1 l2 :
  (column_height (l1 ++ l2) == column_height l1 + column_height l2)%Q.
Proof. induction l1 as [|it l1 IH]; simpl; lra. Qed.

Lemma stacked_app o l1 l2 :
  stacked o (l1 ++ l2) <-> stacked o l1 /\ stacked (o + column_height l1) l2.
Proof.
  revert o. induction l1 as [|it l1 IH]; intros o; simpl.
  - split.
    + intros H. split; [done|]. eapply stacked_proper; [|exact H]. lra.
    + intros [_ H]. eapply stacked_proper; [|exact H]. lra.
  - rewrite IH. split.
    + intros (Hx & Hy & H1 & H2). repeat split; try done.
      eapply stacked_proper; [|exact H2]. lra.
    + intros ((Hx & Hy & H1) & H2). repeat split; try done.
      eapply stacked_proper; [|exact H2]. lra.
Qed.

(** What the layout of a column depends on: the position and the height
    of each composite. *)
Lemma stacked_same_composites o l l' :
  composite <$> l = composite <$> l' -> stacked o l -> stacked o l'.
Proof.
  revert o l'. induction l as [|it l IH]; intros o [|it' l'] Hc; try done.
  injection Hc as Hc Hrest. simpl. rewrite Hc. intros (Hx & Hy & H).
  repeat split; try done. by apply IH.
Qed.


Lemma stacked_lookup o l k it :
  stacked o l -> l !! k = Some it ->
  (pt_y (pos (composite it)) == o + column_height (take k l))%Q.
Proof.
  revert o k. induction l as [|x l IH]; intros o k; [done|].
  simpl. intros (Hx & Hy & Hrest). destruct k as [|k]; simpl.
  - intros [= <-]. lra.
  - intros Hk. rewrite (IH _ _ Hrest Hk). lra.
Qed.

Lemma stacked_last o l back :
  stacked o l -> last l = Some back ->
  (pt_y (pos (composite back)) + Rect.height (boundingRect (composite back)) + SPACING
   == o + column_height l)%Q.
Proof.
  intros Hst Hlast. apply last_Some in Hlast as [l' ->].
  apply stacked_app in Hst as [_ (Hx & Hy & _)].
  rewrite column_height_app. simpl. lra.
Qed.

Lemma shift_items_stacked pos_delta l scene o :
  (pt_x pos_delta == 0)%Q -> stacked o l ->
  stacked (o + pt_y pos_delta) (fst (shift_items pos_delta l scene)).
Proof.
  intros Hd. revert o scene. induction l as [|it l IH]; intros o scene; simpl; [done|].
  intros (Hx & Hy & Hrest).
  match goal with |- context [shift_items pos_delta l ?sc] =>
    specialize (IH _ sc Hrest); destruct (shift_items pos_delta l sc) as [rest' scene']
  end.
  simpl in *. split; [lra|]. split; [lra|].
  eapply stacked_proper; [|exact IH]. unfold boundingRect. simpl. lra.
Qed.

Lemma itemInsertPosition_dist s (begin end_ hint : nat) (page_id : PageId) :
  begin <= hint -> hint <= end_ ->
  exists ins_pos,
    itemInsertPosition s begin end_ page_id hint
    = (ins_pos, (Z.of_nat ins_pos - Z.of_nat hint)%Z)
    /\ begin <= ins_pos <= end_.
Proof.
  intros Hbh Hhe. unfold itemInsertPosition.
  destruct (m_ptrOrderProvider s) as [p|].
  2: { exists hint. split; [f_equal; lia | lia]. }
  set (items := m_itemsInOrder s).
  assert (Hphase1 : exists q,
    (if decide (hint = begin) then (hint, 0%Z)
     else let '(ins_pos, dist) :=
            if decide (hint = end_) then (hint - 1, (-1)%Z) else (hint, 0%Z) in
          move_back p page_id items begin ins_pos dist)
    = (q, (Z.of_nat q - Z.of_nat hint)%Z)
    /\ begin <= q <= hint).
  { destruct (decide (hint = begin)) as [->|Hne].
    - exists begin. split; [f_equal; lia | lia].
    - destruct (decide (hint = end_)) as [->|Hne2].
      + destruct (move_back_spec p page_id items begin (end_ - 1) (-1)%Z)
          as (q & Hq & Hr & _); [lia|].
        exists q. split; [rewrite Hq; f_equal; lia | lia].
      + destruct (move_back_spec p page_id items begin hint 0%Z)
          as (q & Hq & Hr & _); [lia|].
        exists q. split; [rewrite Hq; f_equal; lia | lia]. }
  destruct Hphase1 as (q & -> & Hq).
  destruct (move_forward_spec p page_id items (end_ - q) q
              (Z.of_nat q - Z.of_nat hint)%Z) as (r & Hr & Hrange & _).
  exists r. split; [rewrite Hr; f_equal; lia | lia].
Qed.

Lemma take_S_middle {A} k (l : list A) x :
  k <= length l -> take (S k) (take k l ++ x :: drop k l) = take k l ++ [x].
Proof.
  intros Hk. rewrite take_app, length_take, take_take.
  replace (S k `min` k) with k by lia.
  by replace (S k - k `min` length l) with 1 by lia.
Qed.

Lemma drop_S_middle {A} k (l : list A) x :
  k <= length l -> drop (S k) (take k l ++ x :: drop k l) = drop k l.
Proof.
  intros Hk. rewrite drop_app, length_take, drop_ge by (rewrite length_take; lia).
  by replace (S k - k `min` length l) with 1 by lia.
Qed.

Lemma insert_stacked s new_page before_or_after image factory :
  id new_page ∉ pageId <$> m_itemsInOrder s ->
  stacked 0 (m_itemsInOrder s) ->
  stacked 0 (m_itemsInOrder (fst (insert new_page before_or_after image factory s))).
Proof.
  intros Hfresh Hst. unfold insert.
  destruct (match before_or_after with BEFORE => _ | AFTER => _ end) as [hint|] eqn:Hhint.
  2: { done. }
  apply insert_hint_le in Hhint.
  destruct (itemInsertPosition_dist s 0 (length (m_itemsInOrder s)) hint (id new_page))
    as (k & Hk & Hkr); [lia | done |].
  rewrite Hk. cbn [fst].
  set (geometry := match last (m_itemsInOrder s) with Some _ => _ | None => _ end).
  assert (Hoff : (snd geometry == column_height (take k (m_itemsInOrder s)))%Q).
  { unfold geometry. destruct (last (m_itemsInOrder s)) as [back|] eqn:Hlast; simpl.
    - destruct (m_itemsInOrder s !! k) as [it|] eqn:Hit.
      + rewrite (stacked_lookup _ _ _ _ Hst Hit). lra.
      + apply lookup_ge_None in Hit. rewrite take_ge by done.
        rewrite (stacked_last _ _ _ Hst Hlast). lra.
    - apply last_None in Hlast. rewrite Hlast. by rewrite take_nil. }
  destruct geometry as [page_num offset]. simpl in Hoff.
  unfold insert_at. cbn [m_itemsInOrder set_sceneRect].
  rewrite bool_decide_eq_false_2.
  2: { intros (it & Hin & Hid)%Exists_exists. apply Hfresh.
       apply list_elem_of_fmap. by exists it. }
  cbn [fst snd commitSceneRect shift_from m_itemsInOrder set_items set_sceneRect].
  rewrite <- (take_drop k (m_itemsInOrder s)) in Hst.
  apply stacked_app in Hst as [Hbefore Hafter].
  rewrite take_S_middle, drop_S_middle by lia.
  rewrite <- app_assoc. apply stacked_app. split; [done|]. simpl.
  split; [lra|]. split; [lra|].
  match goal with |- context [shift_items ?d ?l ?sc] =>
    pose proof (shift_items_stacked d l sc _ ltac:(simpl; lra) Hafter) as Hshift
  end.
  eapply stacked_proper; [|exact Hshift]. simpl. lra.
Qed.

Lemma fmap_composite_modify_pageId a new_page_id items items' :
  modify_pageId a new_page_id items = Some items' ->
  composite <$> items' = composite <$> items.
Proof.
  unfold modify_pageId. case_bool_decide; [done|]. intros [= <-].
  by apply fmap_view_modify.
Qed.

Lemma fmap_composite_singularize_all images items items' :
  singularize_all images items = Some items' ->
  composite <$> items' = composite <$> items.
Proof.
  revert items. induction images as [|image images IH]; intros items; simpl.
  { by intros [= <-]. }
  destruct (singularize image items) as [items1|] eqn:Hs; simpl; [|done].
  intros H. rewrite (IH _ H). clear IH H. revert Hs. unfold singularize.
  generalize (addr <$> takeWhile (fun it => bool_decide (pi_imageId (pageInfo it) = image))
                         (from_lower_bound (PageId_of_image image) items)).
  intros run. revert items. induction run as [|a run IH]; intros items; simpl.
  { by intros [= <-]. }
  destruct (modify_pageId a _ items) as [items2|] eqn:Hm; simpl; [|done].
  intros H. rewrite (IH _ H). by eapply fmap_composite_modify_pageId.
Qed.

(** The first loop of [removePages] closes the gaps: what it keeps is a
    column again, ending [pos_delta] above where the rest starts. *)
Lemma removePages_loop_stacked to_remove l st o :
  (pt_x (rm_pos_delta st) == 0)%Q ->
  stacked 0 (rm_kept st) ->
  (o + pt_y (rm_pos_delta st) == column_height (rm_kept st))%Q ->
  stacked o l ->
  stacked 0 (rm_kept (removePages_loop to_remove l st)).
Proof.
  revert st o. induction l as [|it l IH]; intros st o Hdx Hkept Hend; simpl; [done|].
  intros (Hx & Hy & Hrest).
  destruct (decide (pageId it ∈ to_remove)).
  - eapply IH; [done | done | | exact Hrest]. simpl. lra.
  - eapply IH; [done | | | exact Hrest]; simpl.
    + apply stacked_app. split; [done|]. simpl.
      destruct (point_eqb (rm_pos_delta st) (mkPoint 0 0)) eqn:Hd; simpl.
      * apply andb_true_iff in Hd as [_ Hd%Qeq_bool_iff]. simpl in Hd.
        repeat split; [done | lra].
      * repeat split; lra.
    + rewrite column_height_app. simpl.
      destruct (negb (point_eqb _ _)); unfold boundingRect; simpl; lra.
Qed.

Lemma removePages_stacked to_remove s s' sigs :
  removePages to_remove s = Some (s', sigs) ->
  stacked 0 (m_itemsInOrder s) ->
  stacked 0 (m_itemsInOrder s').
Proof.
  unfold removePages.
  destruct (singularize_all _ _) as [items|] eqn:Hs; simpl; [|done].
  intros [= <- <-] Hst. simpl.
  apply (stacked_same_composites _ _ _ (eq_sym (fmap_composite_singularize_all _ _ _ Hs))).
  eapply removePages_loop_stacked; [| |  | exact Hst]; simpl; [lra | done | lra].
Qed.


Lemma reposition_stacked l o :
  stacked o (fst (reposition l o))
  /\ (snd (reposition l o) == o + column_height l)%Q.
Proof.
  revert o. induction l as [|it l IH]; intros o; simpl; [split; [done | lra]|].
  match goal with |- context [reposition l ?o'] =>
    destruct (IH o') as [Hst Hend]; destruct (reposition l o') as [rest' offset']
  end.
  simpl in *. split; [|unfold boundingRect in *; simpl in *; lra].
  split; [lra|]. split; [lra | done].
Qed.

(** The repositioning loops of [invalidateThumbnail] on a sequence cut in
    three: a column [P] left alone, the range [M] between the old and the
    new position, and the items [F] that follow, which are repositioned
    only when the size has changed. *)
Lemma restack_stacked (P M F : list Item) (size_changed : bool) :
  stacked 0 P ->
  (size_changed = false -> stacked (column_height (P ++ M)) F) ->
  stacked 0 (restack (length P) (length P + length M) size_changed (P ++ M ++ F)).
Proof.
  intros HP HF. unfold restack.
  set (offset := match length P with 0 => 0%Q | S prev => _ end).
  assert (Hoffset : (offset == column_height P)%Q).
  { unfold offset. destruct (last P) as [back|] eqn:Hlast.
    - pose proof Hlast as Hlook. rewrite last_lookup in Hlook.
      pose proof (lookup_lt_Some _ _ _ Hlook) as Hlt.
      destruct (length P) as [|prev] eqn:Hlen; [simpl in Hlt; lia|]. simpl in Hlook.
      rewrite lookup_app_l by lia. rewrite Hlook.
      rewrite (stacked_last _ _ _ HP Hlast). lra.
    - apply last_None in Hlast. by rewrite Hlast. }
  clearbody offset.
  rewrite take_app_length, drop_app_length.
  replace (length P + length M - length P) with (length M) by lia.
  rewrite take_app_length, drop_app_length.
  destruct (reposition_stacked M offset) as [HM Hend].
  assert (Hheights : (column_height (fst (reposition M offset)) == column_height M)%Q).
  { clear. revert offset. induction M as [|it M IH]; intros offset; simpl; [lra|].
    match goal with |- context [reposition M ?o'] =>
      specialize (IH o'); destruct (reposition M o') as [rest' offset']
    end.
    simpl in *. unfold boundingRect in *. simpl. lra. }
  apply stacked_app. split; [done|]. apply stacked_app. split.
  { eapply stacked_proper; [|exact HM]. lra. }
  destruct size_changed.
  - destruct (reposition_stacked F (snd (reposition M offset))) as [HF' _].
    eapply stacked_proper; [|exact HF']. lra.
  - eapply stacked_proper; [|exact (HF eq_refl)]. rewrite column_height_app. lra.
Qed.

(** The item [found] of a column leaves its place between [A] and [B],
    comes back as [item] at position [q] of the others, and the column is
    repositioned as [invalidateThumbnail] does. *)
Lemma relocate_restack_stacked (A B : list Item) (found item : Item) (q : nat)
    (size_changed : bool) :
  stacked 0 (A ++ found :: B) ->
  (size_changed = false ->
   (Rect.height (boundingRect (composite item))
    == Rect.height (boundingRect (composite found)))%Q) ->
  q <= length A + length B ->
  stacked 0
    (restack (if bool_decide (q <= length A) then q else length A)
       (if bool_decide (q <= length A) then S (length A) else S q)
       size_changed
       (take q (A ++ B) ++ item :: drop q (A ++ B))).
Proof.
  intros Hst Hsize Hq.
  apply stacked_app in Hst as [HA (_ & _ & HB)].
  case_bool_decide as Hle.
  - rewrite take_app_le, drop_app_le by done.
    rewrite <- (take_drop q A) in HA. apply stacked_app in HA as [HP _].
    pose proof (restack_stacked (take q A) (item :: drop q A) B size_changed HP) as Hre.
    rewrite length_take in Hre. simpl in Hre. rewrite length_drop in Hre.
    replace (q `min` length A) with q in Hre by lia.
    replace (q + S (length A - q)) with (S (length A)) in Hre by lia.
    apply Hre. intros Hsame. eapply stacked_proper; [|exact HB].
    pose proof (column_height_app (take q A) (drop q A)) as H1.
    rewrite take_drop in H1.
    pose proof (column_height_app (take q A) (item :: drop q A)) as H2.
    cbn [column_height] in H2. specialize (Hsize Hsame). lra.
  - rewrite take_app_ge, drop_app_ge by lia.
    rewrite <- (take_drop (q - length A) B) in HB. apply stacked_app in HB as [_ HB2].
    pose proof (restack_stacked A (take (q - length A) B ++ [item])
                  (drop (q - length A) B) size_changed HA) as Hre.
    rewrite length_app, length_take in Hre. simpl in Hre.
    replace (length A + ((q - length A) `min` length B + 1)) with (S q) in Hre by lia.
    rewrite <- !app_assoc in Hre. simpl in Hre. rewrite <- app_assoc. apply Hre.
    intros Hsame. eapply stacked_proper; [|exact HB2].
    pose proof (column_height_app A (take (q - length A) B ++ [item])) as H1.
    pose proof (column_height_app (take (q - length A) B) [item]) as H2.
    cbn [column_height app] in H1, H2 |- *.
    specialize (Hsize Hsame). lra.
Qed.

Lemma invalidateThumbnail_stacked s page_id factory :
  NoDup (addr <$> m_itemsInOrder s) ->
  stacked 0 (m_itemsInOrder s) ->
  stacked 0 (m_itemsInOrder (fst (invalidateThumbnail page_id factory s))).
Proof.
  intros Hnd Hst. unfold invalidateThumbnail.
  destruct (findById page_id s) as [found|] eqn:Hf; [|done].
  destruct (index_of (addr found) (m_itemsInOrder s)) as [i|] eqn:Hi; [|done].
  apply findById_elem in Hf as [Hin _].
  pose proof (index_of_find_item _ _ _ _ Hnd Hi (find_item_elem _ _ Hnd Hin)) as Hlook.
  pose proof (lookup_lt_Some _ _ _ Hlook) as Hlt.
  set (item := Item_setComposite _ found).
  set (others := delete i (m_itemsInOrder s)).
  assert (Hlen : length others = length (m_itemsInOrder s) - 1).
  { unfold others. rewrite length_delete by (by eexists). lia. }
  destruct (itemInsertPosition_dist (set_items (item :: others) s) 1
              (length (m_itemsInOrder (set_items (item :: others) s))) (S i) page_id)
    as (after_new & Hpos & Hrange); [lia | simpl; lia |].
  rewrite Hpos. simpl in Hrange.
  set (A := take i (m_itemsInOrder s)). set (B := drop (S i) (m_itemsInOrder s)).
  assert (HA : length A = i) by (unfold A; rewrite length_take; lia).
  assert (HB : length B = length (m_itemsInOrder s) - S i)
    by (unfold B; by rewrite length_drop).
  assert (Hitems : m_itemsInOrder s = A ++ found :: B)
    by (symmetry; by apply take_drop_middle).
  assert (Hothers : others = A ++ B) by (unfold others; apply delete_take_drop).
  rewrite Hitems in Hst.
  pose proof (relocate_restack_stacked A B found item (after_new - 1)
                (negb (Rect.size_eqb (boundingRect (composite found))
                         (boundingRect (composite item)))) Hst) as Hre.
  rewrite <- Hothers, HA in Hre.
  assert (Hsw : (if (Z.of_nat after_new - Z.of_nat (S i) <=? 0)%Z
                 then (after_new - 1, S i) else (i, after_new))
                = (if bool_decide (after_new - 1 <= i) then after_new - 1 else i,
                   if bool_decide (after_new - 1 <= i) then S i else S (after_new - 1))).
  { destruct (Z.leb_spec (Z.of_nat after_new - Z.of_nat (S i)) 0).
    - rewrite !bool_decide_eq_true_2 by lia. done.
    - rewrite !bool_decide_eq_false_2 by lia. f_equal. lia. }
  rewrite Hsw. cbn [fst snd commitSceneRect m_itemsInOrder set_items set_sceneRect].
  apply Hre; [|lia].
  intros Hsame%negb_false_iff. unfold Rect.size_eqb in Hsame.
  apply andb_true_iff in Hsame as [_ Hh%Qeq_bool_iff]. unfold Rect.height. lra.
Qed.


Lemma reset_stacked s snapshot action provider factory :
  NoDup (id <$> pages snapshot) ->
  stacked_from 0 (m_itemsInOrder (fst (reset snapshot action provider factory s))).
Proof.
  intros Hnd. set (s' := fst (reset snapshot action provider factory s)).
  destruct (decide (pages snapshot = [])) as [Hnil|Hne].
  { unfold s', reset. by rewrite Hnil. }
  destruct (reset_outcome s snapshot action provider factory Hne)
    as (_ & Hitems & _).
  cbv zeta in Hitems. fold s' in Hitems.
  set (sorted_pages := match provider with
                       | Some p => stable_sort (comparator p) (pages snapshot)
                       | None => pages snapshot
                       end) in *.
  assert (Hperm : sorted_pages ≡ₚ pages snapshot).
  { unfold sorted_pages. destruct provider; [apply stable_sort_perm | done]. }
  match type of Hitems with
    context [reset_loop ?f ?sel ?ldr ?i ?pg ?st] =>
      pose proof (reset_loop_layout f sel ldr pg i st) as Hloop
  end.
  specialize (Hloop ltac:(by rewrite Hperm)
                ltac:(by intros p _ ?%elem_of_nil)).
  simpl in Hloop.
  apply (laid_out_stacked factory sorted_pages 0).
  rewrite Hitems. destruct (match m_pSelectionLeader _ with Some _ => _ | None => _ end);
    [rewrite fmap_view_modify by done|]; exact Hloop.
Qed.

Lemma visuals_composites l l' :
  visual_view <$> l' = visual_view <$> l -> composite <$> l = composite <$> l'.
Proof.
  intros Hv.
  change (composite <$> l) with ((fun it => snd (visual_view it)) <$> l).
  change (composite <$> l') with ((fun it => snd (visual_view it)) <$> l').
  by rewrite !(list_fmap_compose visual_view snd), Hv.
Qed.

Lemma visuals_mousePressEvent a event s s' sigs :
  mousePressEvent a event s = Some (s', sigs) ->
  visual_view <$> m_itemsInOrder s' = visual_view <$> m_itemsInOrder s.
Proof.
  assert (Hplain : forall s' sigs, selectItemNoModifiers a s = Some (s', sigs) ->
            visual_view <$> m_itemsInOrder s' = visual_view <$> m_itemsInOrder s).
  { clear s' sigs. intros s' sigs. unfold selectItemNoModifiers.
    destruct (find_item a (m_itemsInOrder s)); simpl; [|done].
    intros [= <- _]. simpl. rewrite fmap_view_modify by done.
    apply visuals_clearSelection_loop. }
  unfold mousePressEvent.
  destruct (button event); [|by intros [= <- _]..].
  unfold itemSelectedByUser.
  destruct (ControlModifier (modifiers event)).
  { unfold selectItemWithControl.
    destruct (find_item a (m_itemsInOrder s)) as [item|]; simpl; [|done].
    destruct (m_isSelected item); simpl.
    2: { intros [= <- _]. destruct (m_pSelectionLeader s); simpl;
           by rewrite !fmap_view_modify. }
    destruct (multipleItemsSelected s); simpl.
    2: { destruct (m_pSelectionLeader s) as [l|]; simpl; [|done].
         destruct (find_item l (m_itemsInOrder s)); simpl; [|done].
         by intros [= <- _]. }
    destruct (decide (m_pSelectionLeader s <> Some a)).
    { intros [= <- _]. simpl. by rewrite fmap_view_modify. }
    simpl. destruct (index_of a _); simpl; [|done].
    destruct (outward_walk _ _ _ _ _) as [hit|]; simpl; [|done].
    destruct (_ !! _) as [leader|]; simpl; [|done].
    intros [= <- _]. simpl. by rewrite !fmap_view_modify. }
  destruct (ShiftModifier (modifiers event)); [|apply Hplain].
  unfold selectItemWithShift.
  destruct (m_pSelectionLeader s) as [l|]; [|apply Hplain].
  destruct (find_item a (m_itemsInOrder s)) as [item|]; simpl; [|done].
  destruct (index_of l _) as [e1|]; simpl; [|done].
  destruct (index_of a _) as [e2|]; simpl; [|done].
  destruct (decide (e1 = e2)); [by intros [= <- _]|].
  destruct (outward_walk _ _ _ _ _) as [hit|]; simpl; [|done].
  destruct hit; intros [= <- _]; simpl; rewrite !fmap_view_modify by done;
    apply visuals_select_all.
Qed.

Lemma visuals_setSelection page_id s :
  visual_view <$> m_itemsInOrder (fst (setSelection page_id s))
  = visual_view <$> m_itemsInOrder s.
Proof.
  unfold setSelection. destruct (findById page_id s) as [item|]; [|done]. simpl.
  destruct (bool_decide _); simpl.
  - apply visuals_setSelection_loop.
  - rewrite fmap_view_modify by done. apply visuals_setSelection_loop.
Qed.

End Column.

(** X25: the thumbnails stay in one gapless column.  When the composites
    of a state the interface can reach are stacked downwards from y = 0,
    each at x = 0 and [SPACING] below the bounding rectangle of the one
    before, they still are after any call, provided a page handed to
    [insert] is not stored yet and the pages handed to [reset] have
    distinct identities. *)
Theorem column_stays_stacked (c : Call) (s s' : Impl) (sigs : list Signal) :
  reachable s ->
  stacked 0 (m_itemsInOrder s) ->
  brings_new_pages c s ->
  perform c s = Some (s', sigs) ->
  stacked 0 (m_itemsInOrder s').
Proof.
  intros Hr Hst Hnew Hcall. pose proof (reachable_Inv s Hr) as ((Hnd & _) & _).
  assert (Hpair : forall r : Impl * list Signal,
            Some r = Some (s', sigs) -> s' = fst r).
  { by intros r [= ->]. }
  destruct c as [snapshot action provider factory | new_page boa image factory
                | to_remove | page_id factory | factory | page_id | a event];
    simpl in Hcall, Hnew.
  - apply Hpair in Hcall as ->. by apply stacked_from_stacked, reset_stacked.
  - apply Hpair in Hcall as ->. by apply insert_stacked.
  - by eapply removePages_stacked.
  - apply Hpair in Hcall as ->. by apply invalidateThumbnail_stacked.
  - apply Hpair in Hcall as ->. apply stacked_from_stacked.
    unfold invalidateAllThumbnails.
    match goal with |- context [rebuild_all ?f ?l ?o ?sc] =>
      pose proof (rebuild_all_stacked f l o sc) as Hall;
      destruct (rebuild_all f l o sc) as [items scene]
    end.
    exact Hall.
  - apply Hpair in Hcall as ->.
    eapply stacked_same_composites; [|exact Hst].
    apply visuals_composites, visuals_setSelection.
  - eapply stacked_same_composites; [|exact Hst].
    by eapply visuals_composites, visuals_mousePressEvent.
Qed.

Lemma column_stays_stacked_witness :
  reachable two_selected_state
  /\ stacked 0 (m_itemsInOrder two_selected_state)
  /\ brings_new_pages (call_insert (page 7) AFTER 2 example_factory) two_selected_state
  /\ exists s' sigs,
       perform (call_insert (page 7) AFTER 2 example_factory) two_selected_state
       = Some (s', sigs)
       /\ stacked 0 (m_itemsInOrder s').
Proof.
  assert (Hst : stacked 0 (m_itemsInOrder two_selected_state)).
  { vm_compute. repeat split. }
  assert (Hnew : brings_new_pages (call_insert (page 7) AFTER 2 example_factory)
                   two_selected_state).
  { simpl. apply (bool_decide_unpack _). vm_compute. exact I. }
  split; [apply two_selected_state_reachable|]. split; [exact Hst|].
  split; [exact Hnew|].
  eexists _, _. split; [vm_compute; reflexivity|].
  apply (column_stays_stacked (call_insert (page 7) AFTER 2 example_factory)
           two_selected_state _ []);
    [apply two_selected_state_reachable | exact Hst | exact Hnew
    | vm_compute; reflexivity].
Defined.
(** ** Display order across a thumbnail rebuild *)

Section RebuildOrder.

Implicit Types (s : Impl) (p : PageOrderProvider).

(** Taking one identity out of a sequence in order leaves it in order,
    when being not preceded is transitive. *)
Lemma in_order_delete p (l1 l2 : list PageId) (x : PageId) :
  (forall a b c, precedes p b a = false -> precedes p c b = false ->
                 precedes p c a = false) ->
  in_order p (l1 ++ x :: l2) -> in_order p (l1 ++ l2).
Proof.
  intros Htrans. induction l1 as [|y l1 IH]; simpl.
  { by intros [_ H]. }
  intros [Hhead Hrest]. split; [|by apply IH].
  destruct l1 as [|z l1]; simpl in *; [|done].
  destruct l2 as [|z l2]; [done|].
  destruct Hrest as [Hzx _]. by apply (Htrans y x z).
Qed.

Lemma invalidateThumbnail_in_order s p page_id factory :
  NoDup (addr <$> m_itemsInOrder s) ->
  m_ptrOrderProvider s = Some p ->
  (forall a b, precedes p a b = true -> precedes p b a = false) ->
  (forall a b c, precedes p b a = false -> precedes p c b = false ->
                 precedes p c a = false) ->
  in_order p (pageId <$> m_itemsInOrder s) ->
  in_order p (pageId <$> m_itemsInOrder (fst (invalidateThumbnail page_id factory s))).
Proof.
  intros Hnd Hp Hasym Htrans Hord. unfold invalidateThumbnail.
  destruct (findById page_id s) as [found|] eqn:Hf; [|done].
  destruct (index_of (addr found) (m_itemsInOrder s)) as [i|] eqn:Hi; [|done].
  apply findById_elem in Hf as [Hin Hid].
  pose proof (index_of_find_item _ _ _ _ Hnd Hi (find_item_elem _ _ Hnd Hin)) as Hlook.
  pose proof (lookup_lt_Some _ _ _ Hlook) as Hlt.
  set (item := Item_setComposite _ found).
  set (others := delete i (m_itemsInOrder s)).
  assert (Hlen : length others = length (m_itemsInOrder s) - 1).
  { unfold others. rewrite length_delete by (by eexists). lia. }
  assert (Hothers : in_order p (pageId <$> others)).
  { unfold others. rewrite delete_take_drop, fmap_app.
    apply (in_order_delete p _ _ (pageId found) Htrans).
    rewrite <- fmap_cons, <- fmap_app. by rewrite take_drop_middle. }
  destruct (itemInsertPosition_brackets (set_items (item :: others) s) p 1
              (length (m_itemsInOrder (set_items (item :: others) s))) (S i) page_id)
    as (Hrange & Hafter & Hbefore); [done | lia | simpl; lia | done |].
  destruct (itemInsertPosition _ _ _ _ _) as [after_new dist].
  cbn [fst] in Hrange, Hafter, Hbefore. simpl in Hrange.
  destruct (if (dist <=? 0)%Z then _ else _) as [ord_it ord_end].
  cbn [fst snd commitSceneRect m_itemsInOrder set_items set_sceneRect].
  rewrite store_view_pageId, restack_store_view, <- store_view_pageId.
  rewrite fmap_app, fmap_cons, fmap_take, fmap_drop.
  change (pageId item) with (pageId found). rewrite Hid.
  apply in_order_insert; [done | rewrite length_fmap; lia | |].
  - destruct Hbefore as [->|(it & Hit & Hpre)]; [by left|].
    destruct after_new as [|[|k]]; [lia | by left |]. right.
    exists (pageId it). split; [|done].
    simpl in Hit |- *. rewrite list_lookup_fmap.
    replace (k - 0) with k by lia. by rewrite Hit.
  - destruct Hafter as [Hend|(it & Hit & Hpre)].
    { left. rewrite length_fmap. simpl in Hend. lia. }
    right. exists (pageId it). split; [|by apply Hasym].
    destruct after_new as [|k]; [lia|].
    simpl in Hit |- *. rewrite list_lookup_fmap.
    replace (k - 0) with k by lia. by rewrite Hit.
Qed.

End RebuildOrder.

Lemma example_provider_trans a b c :
  precedes example_provider b a = false -> precedes example_provider c b = false ->
  precedes example_provider c a = false.
Proof. simpl. rewrite !PageId_ltb_false. lia. Qed.

Lemma ordered_state_reachable : reachable ordered_state.
Proof. apply reachable_reset; [apply reachable_new | apply example_snapshot_ok]. Qed.

(** X26: [invalidateThumbnail] keeps the display order consistent with the
    order provider.  In a reachable state with a provider whose [precedes]
    is a strict weak order (it never holds in both directions, and not
    being preceded is transitive), when no stored page is directly
    followed by one the provider puts before it, the same is true after
    the thumbnail of any page is rebuilt. *)
Theorem invalidateThumbnail_keeps_order (s : Impl) (p : PageOrderProvider)
    (page_id : PageId) (factory : ThumbnailFactory) :
  reachable s ->
  m_ptrOrderProvider s = Some p ->
  (forall a b, precedes p a b = true -> precedes p b a = false) ->
  (forall a b c, precedes p b a = false -> precedes p c b = false ->
                 precedes p c a = false) ->
  in_order p (pageId <$> m_itemsInOrder s) ->
  in_order p (pageId <$> m_itemsInOrder (fst (invalidateThumbnail page_id factory s))).
Proof.
  intros Hr. pose proof (reachable_Inv s Hr) as ((Hnd & _) & _).
  by apply invalidateThumbnail_in_order.
Qed.

Lemma invalidateThumbnail_keeps_order_witness :
  reachable ordered_state
  /\ m_ptrOrderProvider ordered_state = Some example_provider
  /\ (forall a b, precedes example_provider a b = true ->
                  precedes example_provider b a = false)
  /\ (forall a b c, precedes example_provider b a = false ->
                    precedes example_provider c b = false ->
                    precedes example_provider c a = false)
  /\ in_order example_provider (pageId <$> m_itemsInOrder ordered_state)
  /\ in_order example_provider
       (pageId <$> m_itemsInOrder
                     (fst (invalidateThumbnail (PageId_of_image 2) example_factory
                             ordered_state))).
Proof.
  assert (Hord : in_order example_provider (pageId <$> m_itemsInOrder ordered_state))
    by (vm_compute; repeat split).
  split; [apply ordered_state_reachable|]. split; [reflexivity|].
  split; [exact example_provider_asym|]. split; [exact example_provider_trans|].
  split; [exact Hord|].
  exact (invalidateThumbnail_keeps_order ordered_state example_provider
           (PageId_of_image 2) example_factory ordered_state_reachable eq_refl
           example_provider_asym example_provider_trans Hord).
Defined.

(** X27: the by-identity index finds what is stored.  In every reachable
    state no two stored items carry the same page identity, so a lookup
    by page identity returns an item exactly when that item is stored and
    carries the identity asked for: the identity of a stored item always
    leads back to that very item. *)
Theorem findById_finds_stored (s : Impl) (page_id : PageId) (item : Item) :
  reachable s ->
  findById page_id s = Some item
  <-> item ∈ m_itemsInOrder s /\ pageId item = page_id.
Proof.
  intros Hr. split; [apply findById_elem|].
  intros [Hin <-]. apply findById_unique; [by apply reachable_ids | done].
Qed.

Lemma findById_finds_stored_witness :
  reachable two_selected_state
  /\ exists item,
       findById (PageId_of_image 2) two_selected_state = Some item
       /\ (findById (PageId_of_image 2) two_selected_state = Some item
           <-> item ∈ m_itemsInOrder two_selected_state
               /\ pageId item = PageId_of_image 2).
Proof.
  split; [apply two_selected_state_reachable|].
  eexists. split; [vm_compute; reflexivity|].
  apply (findById_finds_stored two_selected_state (PageId_of_image 2)).
  apply two_selected_state_reachable.
Defined.
